(** * Bowtie: bit-pair reference store and quality-aware backtracker

    A shallow embedding of [reference.h] (class [BitPairReference]) and
    [ebwt_search_backtrack.h] (class [BacktrackManager]) together with the
    properties established about them.

    Conventions.  Unsigned machine integers are modelled as [Z] with the
    wrap-around written out ([wrap32], [wrap8]).  Arrays reached through raw
    pointers ([_pairs], [_elims], [_mms], [_chars]) are finite maps from
    addresses to values; a vector or string that is only indexed is a list.
    The assertions of the source are compiled out ([NDEBUG]) unless a
    definition says otherwise. *)

From Stdlib Require Import ZArith List Bool Lia String.
From stdpp Require Import base gmap list.
Import ListNotations.
Local Open Scope Z_scope.

(** ** Machine arithmetic *)

Definition U32 : Z := 4294967296.
Definition wrap32 (x : Z) : Z := x mod U32.
Definition wrap8 (x : Z) : Z := x mod 256.

(** Indexing of a vector or string by an unsigned index. *)
Definition nthZ (l : list Z) (i : Z) : Z := nth (Z.to_nat i) l 0.

(** The integers [from, from + n). *)
Fixpoint upto (n : nat) (from : Z) : list Z :=
  match n with
  | O => []
  | S n' => from :: upto n' (from + 1)
  end.

(** ** The reference store ([reference.h]) *)

Module RefStore.

Record RefRecord := mkRefRecord {
  off : Z;      (* ambiguous characters preceding the stretch *)
  len : Z;      (* length of the unambiguous stretch *)
  first : bool  (* first record of a reference sequence? *)
}.

Record BitPairReference := mkRef {
  recs_ : list RefRecord;
  refLens_ : list Z;
  refOffs_ : list Z;
  refRecOffs_ : list Z;
  buf_ : list Z;
  bufSz_ : Z;
  nrefs_ : Z
}.

Definition rec_at (r : BitPairReference) (i : Z) : RefRecord :=
  nth (Z.to_nat i) (recs_ r) (mkRefRecord 0 0 false).

(** [(buf_[bufOff >> 2] >> ((bufOff & 3) << 1)) & 3] *)
Definition bitpair (r : BitPairReference) (bufOff : Z) : Z :=
  let bufElt := Z.shiftr bufOff 2 in
  let shift := Z.shiftl (Z.land bufOff 3) 1 in
  Z.land (Z.shiftr (nthZ (buf_ r) bufElt) shift) 3.

(** The record loop of [getBase]; [n] counts the records left in
    [reci, recf). *)
Fixpoint getBase_loop (r : BitPairReference) (n : nat)
    (i off bufOff toff : Z) : Z :=
  match n with
  | O => 4
  | S n' =>
    let off1 := wrap32 (off + RefStore.off (rec_at r i)) in
    if toff <? off1 then 4
    else
      let recOff := wrap32 (off1 + len (rec_at r i)) in
      if toff <? recOff then
        let toff' := wrap32 (toff - off1) in
        let bufOff' := wrap32 (bufOff + toff') in
        bitpair r bufOff'
      else
        getBase_loop r n' (wrap32 (i + 1)) recOff
                     (wrap32 (bufOff + len (rec_at r i))) toff
  end.

Definition getBase (r : BitPairReference) (tidx toff : Z) : Z :=
  let reci := nthZ (refRecOffs_ r) tidx in
  let recf := nthZ (refRecOffs_ r) (tidx + 1) in
  let bufOff := nthZ (refOffs_ r) tidx in
  getBase_loop r (Z.to_nat (recf - reci)) reci 0 bufOff toff.

(** [for(; toff < off && count > 0; toff++) { dest[cur++] = 4; count--; }]
    The values stored are returned in order; [n] bounds [count]. *)
Fixpoint emitAmbig (n : nat) (toff off count : Z) : list Z * Z * Z :=
  match n with
  | O => ([], toff, count)
  | S n' =>
    if (toff <? off) && (0 <? count) then
      let '(out, toff', count') :=
        emitAmbig n' (wrap32 (toff + 1)) off (wrap32 (count - 1)) in
      (4 :: out, toff', count')
    else ([], toff, count)
  end.

(** [for(; toff < off && count > 0; toff++) { dest[cur++] = ...; bufOff++;
    count--; }] *)
Fixpoint emitBases (r : BitPairReference) (n : nat)
    (toff off count bufOff : Z) : list Z * Z * Z * Z :=
  match n with
  | O => ([], toff, count, bufOff)
  | S n' =>
    if (toff <? off) && (0 <? count) then
      let '(out, toff', count', bufOff') :=
        emitBases r n' (wrap32 (toff + 1)) off (wrap32 (count - 1))
                  (wrap32 (bufOff + 1)) in
      (bitpair r bufOff :: out, toff', count', bufOff')
    else ([], toff, count, bufOff)
  end.

(** The record loop of [getStretch]; returns the values stored so far and
    the remaining [count]. *)
Fixpoint getStretch_loop (r : BitPairReference) (n : nat)
    (i off bufOff toff count : Z) : list Z * Z :=
  match n with
  | O => ([], count)
  | S n' =>
    let off1 := wrap32 (off + RefStore.off (rec_at r i)) in
    let '(o1, toff1, count1) := emitAmbig (Z.to_nat count) toff off1 count in
    if count1 =? 0 then (o1, count1)
    else
      let bufOff1 := wrap32 (bufOff + (toff1 - off1)) in
      let off2 := wrap32 (off1 + len (rec_at r i)) in
      let '(o2, toff2, count2, bufOff2) :=
        emitBases r (Z.to_nat count1) toff1 off2 count1 bufOff1 in
      if count2 =? 0 then (o1 ++ o2, count2)
      else
        let '(o3, count3) :=
          getStretch_loop r n' (wrap32 (i + 1)) off2 bufOff2 toff2 count2 in
        (o1 ++ o2 ++ o3, count3)
  end.

(** [getStretch(dest, tidx, toff, count)]: the contents of
    [dest[0 .. count)] after the call. *)
Definition getStretch (r : BitPairReference) (tidx toff count : Z) : list Z :=
  let reci := nthZ (refRecOffs_ r) tidx in
  let recf := nthZ (refRecOffs_ r) (tidx + 1) in
  let bufOff := nthZ (refOffs_ r) tidx in
  let '(out, count') :=
    getStretch_loop r (Z.to_nat (recf - reci)) reci 0 bufOff toff count in
  out ++ repeat 4 (Z.to_nat count').

(** *** Loading from the [.3.ebwt] / [.4.ebwt] files *)

(** A file is the list of its bytes; [None] is a file [fopen] cannot open. *)
Definition file := option (list Z).

(** What the constructor leaves behind: a store ([loaded_] stays true), an
    early [return] with [loaded_ = false], [exit(1)], or a failed assertion
    of a debug build.  [cerr] collects what was written to standard error. *)
Inductive LoadResult :=
| Loaded (r : BitPairReference) (cerr : list string)
| NotLoaded (cerr : list string)
| Exited (code : Z) (cerr : list string)
| AssertFailed (cerr : list string).

(** A [uint32_t] read by [fread(&w, 4, 1, f)] on a little-endian host. *)
Definition readU32 (bytes : list Z) : option (Z * list Z) :=
  match bytes with
  | b0 :: b1 :: b2 :: b3 :: rest =>
    Some (b0 + 256 * b1 + 65536 * b2 + 16777216 * b3, rest)
  | _ => None
  end.

(** [endianSwapU32] is declared outside these files; it reverses the four
    bytes of a word. *)
Definition endianSwapU32 (w : Z) : Z :=
  let b0 := Z.land w 255 in
  let b1 := Z.land (Z.shiftr w 8) 255 in
  let b2 := Z.land (Z.shiftr w 16) 255 in
  let b3 := Z.land (Z.shiftr w 24) 255 in
  16777216 * b0 + 65536 * b1 + 256 * b2 + b3.

(** Outcome of the [RefRecord(FILE*, bool)] constructor. *)
Inductive RecRead :=
| RecOk (r : RefRecord) (rest : list Z)
| RecExit (code : Z) (cerr : list string).

Section Load.

(** [RefRecord(f3, swap)] is not part of these files: it is a parameter of
    the loader. *)
Variable readRefRecord : list Z -> bool -> RecRead.

(** [debug] is true for a build with assertions enabled. *)
Variable debug : bool.

Record LoadAcc := mkAcc {
  a_recs : list RefRecord;
  a_refRecOffs : list Z;
  a_refOffs : list Z;
  a_refLens : list Z;
  a_nrefs : Z;
  a_cumsz : Z;
  a_cumlen : Z
}.

(** The loop [for(uint32_t i = 0; i < sz; i++)] over the records. *)
Fixpoint loadRecords (n : nat) (bytes : list Z) (swap : bool) (a : LoadAcc)
    : (LoadAcc * list Z) + (Z * list string) :=
  match n with
  | O => inl (a, bytes)
  | S n' =>
    match readRefRecord bytes swap with
    | RecExit code msg => inr (code, msg)
    | RecOk rc rest =>
      let recs := a_recs a ++ [rc] in
      let a1 :=
        if first rc then
          mkAcc recs
                (a_refRecOffs a ++ [Z.of_nat (length recs) - 1])
                (a_refOffs a ++ [a_cumsz a])
                (if 0 <? a_nrefs a then a_refLens a ++ [a_cumlen a]
                 else a_refLens a)
                (wrap32 (a_nrefs a + 1))
                (a_cumsz a)
                0
        else
          mkAcc recs (a_refRecOffs a) (a_refOffs a) (a_refLens a)
                (a_nrefs a) (a_cumsz a) (a_cumlen a) in
      let a2 :=
        mkAcc (a_recs a1) (a_refRecOffs a1) (a_refOffs a1) (a_refLens a1)
              (a_nrefs a1)
              (wrap32 (a_cumsz a1 + len rc))
              (wrap32 (wrap32 (a_cumlen a1 + off rc) + len rc)) in
      loadRecords n' rest swap a2
    end
  end.

Definition msg_open (name : string) : list string :=
  [String.append "Could not open reference-string index file "
                 (String.append name " for reading.");
   "This is most likely because your index was built with an older version";
   "(<= 0.9.8.1) of bowtie-build.  Please re-run bowtie-build to generate a new";
   "index (or download one from the Bowtie website) and try again."]%string.

(** The constructor [BitPairReference(in, ...)] up to the sanity block;
    [f3] and [f4] are the files [in + ".3.ebwt"] and [in + ".4.ebwt"]. *)
Definition load (f3 f4 : file) : LoadResult :=
  match f3 with
  | None => NotLoaded (msg_open ".3.ebwt"%string)
  | Some b3 =>
    match readU32 b3 with
    | None =>
      Exited 1 ["Error reading first word from reference-structure index file"%string]
    | Some (one, b3a) =>
      if debug && negb (one =? 1) && negb (one =? 16777216)
      then AssertFailed []
      else
      let swap := negb (one =? 1) in
      match readU32 b3a with
      | None =>
        Exited 1 ["Error reading # records from reference-structure index file"%string]
      | Some (sz0, b3b) =>
        let sz := if swap then endianSwapU32 sz0 else sz0 in
        match loadRecords (Z.to_nat sz) b3b swap (mkAcc [] [] [] [] 0 0 0) with
        | inr (code, msg) => Exited code msg
        | inl (a, _) =>
          let nrecs := Z.of_nat (length (a_recs a)) in
          let refRecOffs := a_refRecOffs a ++ [nrecs] in
          let refOffs := a_refOffs a ++ [a_cumsz a] in
          let refLens := a_refLens a ++ [a_cumlen a] in
          let bufSz := a_cumsz a in
          if debug && negb (a_nrefs a =? Z.of_nat (length refLens))
          then AssertFailed []
          else
          let cumsz :=
            if negb (Z.land bufSz 3 =? 0)
            then wrap32 (bufSz + (4 - Z.land bufSz 3)) else bufSz in
          match f4 with
          | None => NotLoaded (msg_open ".4.ebwt"%string)
          | Some b4 =>
            let want := Z.shiftr cumsz 2 in
            let got := take (Z.to_nat want) b4 in
            let ret := Z.of_nat (length got) in
            if negb (ret =? want) then
              Exited 1 ["Only read fewer bytes than expected from reference index file"%string]
            else if debug && (want <? Z.of_nat (length b4))
            then AssertFailed []
            else
              Loaded (mkRef (a_recs a) refLens refOffs refRecOffs got bufSz
                            (a_nrefs a)) []
          end
        end
      end
    end
  end.

End Load.

(** Modelled from the spec: the [RefRecord(FILE*, bool)] constructor, which
    is missing from these files.  A record is [{u32 off, u32 len, u8 first}],
    the words byte-swapped when the sentinel asks for it; a record that
    cannot be read in full ends the process. *)
Definition readRefRecord (bytes : list Z) (swap : bool) : RecRead :=
  match readU32 bytes with
  | None => RecExit 1 ["Error reading RefRecord offset"%string]
  | Some (o, r1) =>
    match readU32 r1 with
    | None => RecExit 1 ["Error reading RefRecord length"%string]
    | Some (l, r2) =>
      match r2 with
      | [] => RecExit 1 ["Error reading RefRecord first flag"%string]
      | f :: r3 =>
        RecOk (mkRefRecord (if swap then endianSwapU32 o else o)
                           (if swap then endianSwapU32 l else l)
                           (negb (f =? 0))) r3
      end
    end
  end.

(** The reference the records and the packed buffer stand for: each record
    contributes [off] ambiguous characters, then [len] bases taken from the
    buffer at the running offset. *)
Fixpoint decodeRecords (r : BitPairReference) (rs : list RefRecord) (bufOff : Z)
    : list Z :=
  match rs with
  | [] => []
  | rc :: rs' =>
    repeat 4 (Z.to_nat (off rc))
    ++ map (bitpair r) (upto (Z.to_nat (len rc)) bufOff)
    ++ decodeRecords r rs' (bufOff + len rc)
  end.

Definition refSeq (r : BitPairReference) (tidx : Z) : list Z :=
  let reci := nthZ (refRecOffs_ r) tidx in
  let recf := nthZ (refRecOffs_ r) (tidx + 1) in
  decodeRecords r (take (Z.to_nat (recf - reci)) (drop (Z.to_nat reci) (recs_ r)))
                (nthZ (refOffs_ r) tidx).

(** An index for the single reference [ACNGT]: two records and one packed
    byte holding A, C, G, T. *)
Definition file3_ACNGT : file :=
  Some [1;0;0;0;  2;0;0;0;  0;0;0;0; 2;0;0;0; 1;  1;0;0;0; 2;0;0;0; 0].
Definition file4_ACNGT : file := Some [228].

Definition ref_ACNGT : BitPairReference :=
  mkRef [mkRefRecord 0 2 true; mkRefRecord 1 2 false] [5] [0; 4] [0; 2]
        [228] 4 1.

End RefStore.


(** ** The backtracker ([ebwt_search_backtrack.h]) *)

Module Backtracker.

Definition DEFAULT_SPREAD : Z := 64.

Record QueryMutation := mkMut {
  pos : Z;
  oldBase : Z;
  newBase : Z
}.

(** What [reportChaseOne] is handed: the read as it stands, the first
    [stackDepth] entries of [_mms], the row and the arrow pair. *)
Record Hit := mkHit {
  h_qry : list Z;
  h_mms : list Z;
  h_row : Z;
  h_top : Z;
  h_bot : Z
}.

(** The part of [Ebwt<TStr>] the backtracker calls.  A [SideLocus] is
    always initialised from the current arrow, so [mapLF] and [mapLFEx]
    take the rows themselves; [mapLFEx top bot c] is what the call leaves
    in [tops[c]] and [bots[c]].  [reportChaseOne] answers for the sink,
    given the hits it holds already. *)
Record Ebwt := mkEbwt {
  _fchr : Z -> Z;
  mapLF : Z -> Z -> Z;
  mapLFEx : Z -> Z -> Z -> Z * Z;
  _ftabChars : Z;
  ftabHi : Z -> Z;
  ftabLo : Z -> Z;
  reportChaseOne : list Hit -> Hit -> bool
}.

(** [RandomSource]: [nextU32] maps the generator state to the number drawn
    and the next state. *)
Record RandomSource := mkRandom {
  nextU32 : Z -> Z * Z
}.

(** The fields of [BacktrackManager] that a search only reads. *)
Record Config := mkConfig {
  _qlen : Z;
  _spread : Z;
  _qual : list Z;
  _unrevOff : Z;
  _1revOff : Z;
  _2revOff : Z;
  _qualThresh : Z;
  _reportSeedlings : Z;
  _muts : option (list QueryMutation);
  _halfAndHalf : bool;
  _5depth : Z;
  _3depth : Z;
  _oneHit : bool
}.

(** Ghost trace: every access to the two scratch arenas, tagged with the
    stack depth of the frame that makes it, and every recursive call with
    the boundaries of the caller and those handed to the callee. *)
Inductive Arena := APairs | AElims.

Inductive Event :=
| EvAccess (a : Arena) (stackDepth addr : Z)
| EvCall (stackDepth i unrevOff oneRevOff twoRevOff
          btUnrevOff btOneRevOff btTwoRevOff : Z).

(** The fields a search writes, the sink and the trace. *)
Record BtState := mkSt {
  _qry : list Z;
  _pairs : gmap Z Z;
  _elims : gmap Z Z;
  _mms : gmap Z Z;
  _chars : gmap Z Z;
  _seedlings : list Z;
  _rand : Z;
  sink : list Hit;
  trace : list Event
}.

Definition rd (m : gmap Z Z) (a : Z) : Z := default 0 (m !! a).

Definition set_qry (q : list Z) (s : BtState) : BtState :=
  mkSt q (_pairs s) (_elims s) (_mms s) (_chars s) (_seedlings s) (_rand s)
       (sink s) (trace s).
Definition set_pairs (m : gmap Z Z) (s : BtState) : BtState :=
  mkSt (_qry s) m (_elims s) (_mms s) (_chars s) (_seedlings s) (_rand s)
       (sink s) (trace s).
Definition set_elims (m : gmap Z Z) (s : BtState) : BtState :=
  mkSt (_qry s) (_pairs s) m (_mms s) (_chars s) (_seedlings s) (_rand s)
       (sink s) (trace s).
Definition set_mms (m : gmap Z Z) (s : BtState) : BtState :=
  mkSt (_qry s) (_pairs s) (_elims s) m (_chars s) (_seedlings s) (_rand s)
       (sink s) (trace s).
Definition set_chars (m : gmap Z Z) (s : BtState) : BtState :=
  mkSt (_qry s) (_pairs s) (_elims s) (_mms s) m (_seedlings s) (_rand s)
       (sink s) (trace s).
Definition set_seedlings (l : list Z) (s : BtState) : BtState :=
  mkSt (_qry s) (_pairs s) (_elims s) (_mms s) (_chars s) l (_rand s)
       (sink s) (trace s).
Definition set_rand (r : Z) (s : BtState) : BtState :=
  mkSt (_qry s) (_pairs s) (_elims s) (_mms s) (_chars s) (_seedlings s) r
       (sink s) (trace s).
Definition set_sink (l : list Hit) (s : BtState) : BtState :=
  mkSt (_qry s) (_pairs s) (_elims s) (_mms s) (_chars s) (_seedlings s)
       (_rand s) l (trace s).
Definition note (e : Event) (s : BtState) : BtState :=
  mkSt (_qry s) (_pairs s) (_elims s) (_mms s) (_chars s) (_seedlings s)
       (_rand s) (sink s) (e :: trace s).

(** *** A state monad with two ways of not returning

    [Crash] is an integer division by zero; [OutOfFuel] belongs to the
    model only. *)
Inductive Res (A : Type) :=
| Ok (a : A) (s : BtState)
| Crash
| OutOfFuel.
Arguments Ok {A} a s.
Arguments Crash {A}.
Arguments OutOfFuel {A}.

Definition M (A : Type) : Type := BtState -> Res A.

Definition ret {A} (a : A) : M A := fun s => Ok a s.
Definition bind {A B} (m : M A) (k : A -> M B) : M B :=
  fun s => match m s with
           | Ok a s' => k a s'
           | Crash => Crash
           | OutOfFuel => OutOfFuel
           end.
Definition crash {A} : M A := fun _ => Crash.

Notation "x <- c1 ;; c2" := (bind c1 (fun x => c2))
  (at level 200, c1 at level 99, c2 at level 200, right associativity,
   format "'[v' x  <-  c1  ;;  '/' c2 ']'").
Notation "c1 ;;; c2" := (bind c1 (fun _ => c2))
  (at level 200, c2 at level 200, right associativity,
   format "'[v' c1  ;;;  '/' c2 ']'").

(** [for] over a fixed range, threading an accumulator. *)
Fixpoint forM {A} (l : list Z) (f : Z -> A -> M A) (a : A) : M A :=
  match l with
  | [] => ret a
  | x :: l' => a' <- f x a ;; forM l' f a'
  end.

(** Loads and stores on the arenas by the frame at stack depth [k]. *)
Definition ldP (k a : Z) : M Z :=
  fun s => Ok (rd (_pairs s) a) (note (EvAccess APairs k a) s).
Definition stP (k a v : Z) : M unit :=
  fun s => Ok tt (note (EvAccess APairs k a) (set_pairs (<[a := v]> (_pairs s)) s)).
Definition ldE (k a : Z) : M Z :=
  fun s => Ok (rd (_elims s) a) (note (EvAccess AElims k a) s).
Definition stE (k a v : Z) : M unit :=
  fun s => Ok tt (note (EvAccess AElims k a) (set_elims (<[a := v]> (_elims s)) s)).

Definition ldMms (i : Z) : M Z := fun s => Ok (rd (_mms s) i) s.
Definition stMms (i v : Z) : M unit :=
  fun s => Ok tt (set_mms (<[i := v]> (_mms s)) s).
Definition ldChars (i : Z) : M Z := fun s => Ok (rd (_chars s) i) s.
Definition stChars (i v : Z) : M unit :=
  fun s => Ok tt (set_chars (<[i := v]> (_chars s)) s).
Definition qryAt (i : Z) : M Z := fun s => Ok (nthZ (_qry s) i) s.
Definition getQry : M (list Z) := fun s => Ok (_qry s) s.
Definition appendSeedling (b : Z) : M unit :=
  fun s => Ok tt (set_seedlings (_seedlings s ++ [b]) s).
Definition logCall (e : Event) : M unit := fun s => Ok tt (note e s).

(** [QUAL]/[QUAL2]: the quality of a raw [char], taken as [uint8_t]. *)
Definition qualOf (raw : Z) : Z :=
  let b := wrap8 raw in
  if 33 <=? b then b - 33 else 0.

(** Conversions between [Dna] and [char], which the sequence library
    supplies: [(Dna)'a'] is 0, and so on; [(char)Dna(0)] is ['A']. *)
Definition charToDna (ch : Z) : Z :=
  if (ch =? 99) || (ch =? 67) then 1
  else if (ch =? 103) || (ch =? 71) then 2
  else if (ch =? 116) || (ch =? 84) then 3
  else 0.
Definition dnaToChar (b : Z) : Z := nth (Z.to_nat b) [65; 67; 71; 84] 65.

(** The candidates of one frame: their number, and number, total spread
    and quality of the eligible ones. *)
Record Elig := mkElig {
  altNum : Z;
  eligibleNum : Z;
  eligibleSz : Z;
  lowAltQual : Z
}.

(** The variables of the matching loop. *)
Record Loop := mkLoop {
  l_d : Z;
  l_cur : Z;
  l_top : Z;
  l_bot : Z;
  l_elig : Elig
}.

(** What the target scan leaves in its variables. *)
Record Target := mkTarget {
  foundTarget : bool;
  t_i : Z;
  t_j : Z;
  cumSz : Z;
  bttop : Z;
  btbot : Z;
  btham : Z;
  btchar : Z;
  btcint : Z;
  icur : Z
}.

Section Search.

Variable ebwt : Ebwt.
Variable rnd : RandomSource.
Variable cfg : Config.

Definition QUAL (k : Z) : Z := qualOf (nthZ (_qual cfg) k).

Definition PAIR_TOP (pairs d c : Z) : Z := pairs + (d * 8 + c + 0).
Definition PAIR_BOT (pairs d c : Z) : Z := pairs + (d * 8 + c + 4).
Definition PAIR_SPREAD (k pairs d c : Z) : M Z :=
  b <- ldP k (PAIR_BOT pairs d c) ;;
  t <- ldP k (PAIR_TOP pairs d c) ;;
  ret (wrap32 (b - t)).

Definition rand : M Z :=
  fun s => let '(x, r') := nextU32 rnd (_rand s) in Ok x (set_rand r' s).

(** *** Mutations *)

Definition applyMutations : M unit :=
  fun s => match _muts cfg with
           | None => Ok tt s
           | Some ms =>
             Ok tt (set_qry (fold_left
                               (fun q m => <[Z.to_nat (pos m) := newBase m]> q)
                               ms (_qry s)) s)
           end.

Definition undoMutations : M unit :=
  fun s => match _muts cfg with
           | None => Ok tt s
           | Some ms =>
             Ok tt (set_qry (fold_left
                               (fun q m => <[Z.to_nat (pos m) := oldBase m]> q)
                               ms (_qry s)) s)
           end.

(** *** Reporting *)

Definition mmsList (s : BtState) (n : Z) : list Z :=
  map (rd (_mms s)) (upto (Z.to_nat n) 0).

(** One call of [reportChaseOne]; the sink takes the hit when it answers
    true. *)
Definition chase (stackDepth ri top bot : Z) : M bool :=
  fun s =>
    let h := mkHit (_qry s) (mmsList s stackDepth) ri top bot in
    if reportChaseOne ebwt (sink s) h
    then Ok true (set_sink (sink s ++ [h]) s)
    else Ok false s.

Fixpoint chaseLoop (n : nat) (i r stackDepth top bot spread : Z) : M bool :=
  match n with
  | O => ret false
  | S n' =>
    let ri0 := wrap32 (r + i) in
    let ri := if bot <=? ri0 then wrap32 (ri0 - spread) else ri0 in
    ok <- chase stackDepth ri top bot ;;
    if ok then ret true
    else chaseLoop n' (i + 1) r stackDepth top bot spread
  end.

Definition reportHit (stackDepth top bot : Z) : M bool :=
  if _oneHit cfg then
    let spread := wrap32 (bot - top) in
    x <- rand ;;
    if spread =? 0 then crash
    else
      let r := wrap32 (top + x mod spread) in
      chaseLoop (Z.to_nat spread) 0 r stackDepth top bot spread
  else ret false.

Definition reportSeedling (stackDepth : Z) : M bool :=
  forM (upto (Z.to_nat stackDepth) 0)
       (fun i (_ : unit) =>
          m <- ldMms i ;;
          appendSeedling (wrap8 m) ;;;
          let ci := wrap32 (_qlen cfg - m - 1) in
          ch <- ldChars ci ;;
          let c := charToDna ch in
          appendSeedling (wrap8 c) ;;;
          if i <? wrap32 (stackDepth - 1) then appendSeedling 254 else ret tt)
       tt ;;;
  ret true.

Definition report (stackDepth top bot : Z) : M bool :=
  if negb (_reportSeedlings cfg =? 0) then
    reportSeedling stackDepth ;;;
    ret false
  else
    undoMutations ;;;
    hit <- match _muts cfg with
           | Some ms =>
             forM (upto (length ms) 0)
                  (fun i (_ : unit) =>
                     stMms (stackDepth + i) (pos (nth (Z.to_nat i) ms (mkMut 0 0 0))))
                  tt ;;;
             reportHit (wrap32 (stackDepth + Z.of_nat (length ms))) top bot
           | None => reportHit stackDepth top bot
           end ;;
    applyMutations ;;;
    ret hit.

(** *** One position of the matching loop *)

(** The three ways the arrow pair for depth [d] is obtained; returns the
    new [top] and [bot]. *)
Definition stepPairs (k pairs d c : Z) (curIsAlternative : bool)
    (top bot : Z) : M (Z * Z) :=
  if (top =? 0) && (bot =? 0) then
    stP k (PAIR_TOP pairs 0 0) (_fchr ebwt 0) ;;;
    stP k (PAIR_TOP pairs 0 1) (_fchr ebwt 1) ;;;
    stP k (PAIR_BOT pairs 0 0) (_fchr ebwt 1) ;;;
    stP k (PAIR_TOP pairs 0 2) (_fchr ebwt 2) ;;;
    stP k (PAIR_BOT pairs 0 1) (_fchr ebwt 2) ;;;
    stP k (PAIR_TOP pairs 0 3) (_fchr ebwt 3) ;;;
    stP k (PAIR_BOT pairs 0 2) (_fchr ebwt 3) ;;;
    stP k (PAIR_BOT pairs 0 3) (_fchr ebwt 4) ;;;
    t <- ldP k (PAIR_TOP pairs d c) ;;
    b <- ldP k (PAIR_BOT pairs d c) ;;
    ret (t, b)
  else if curIsAlternative then
    (* bzero(&pairs[d*8], 8 * 4) *)
    forM (upto 8 0) (fun x (_ : unit) => stP k (pairs + (d * 8 + x)) 0) tt ;;;
    (* mapLFEx(ltop, lbot, &pairs[d*8], &pairs[(d*8)+4]) *)
    forM (upto 4 0)
         (fun x (_ : unit) =>
            stP k (pairs + (d * 8 + x)) (fst (mapLFEx ebwt top bot x))) tt ;;;
    forM (upto 4 0)
         (fun x (_ : unit) =>
            stP k (pairs + (d * 8 + 4 + x)) (snd (mapLFEx ebwt top bot x))) tt ;;;
    t <- ldP k (PAIR_TOP pairs d c) ;;
    b <- ldP k (PAIR_BOT pairs d c) ;;
    ret (t, b)
  else
    ret (mapLF ebwt top c, mapLF ebwt bot c).

(** The body of [for(int i = 0; i < 4; i++)] that follows
    [elims[d] = (1 << c)]; the flag is [curOverridesEligible]. *)
Definition elimStep (k pairs elims d c q : Z) (curIsEligible : bool)
    (i : Z) (st : Elig * bool) : M (Elig * bool) :=
  spread <- PAIR_SPREAD k pairs d i ;;
  (if spread =? 0 then
     x <- ldE k (elims + d) ;;
     stE k (elims + d) (wrap8 (Z.lor x (Z.shiftl 1 i)))
   else ret tt) ;;;
  if negb (i =? c) && (0 <? spread) then
  x <- ldE k (elims + d) ;;
  if Z.land x (Z.shiftl 1 i) =? 0 then
    let '(e, curOverridesEligible) := st in
    let '(e1, ov1) :=
      if curIsEligible then
        let '(e0, ov0) :=
          if curOverridesEligible
          then (mkElig (altNum e) 0 0 q, false)
          else (e, curOverridesEligible) in
        (mkElig (altNum e0) (wrap32 (eligibleNum e0 + 1))
                (wrap32 (eligibleSz e0 + spread)) (lowAltQual e0), ov0)
      else (e, curOverridesEligible) in
    ret (mkElig (wrap32 (altNum e1 + 1)) (eligibleNum e1) (eligibleSz e1)
                (lowAltQual e1), ov1)
  else ret st
  else ret st.

(** From [elims[d] = (1 << c)] to the end of the candidate bookkeeping. *)
Definition updateElims (k pairs elims d c q : Z)
    (curIsAlternative curIsEligible curOverridesEligible : bool)
    (e : Elig) : M Elig :=
  stE k (elims + d) (wrap8 (Z.shiftl 1 c)) ;;;
  if curIsAlternative then
    r <- forM (upto 4 0) (elimStep k pairs elims d c q curIsEligible)
              (e, curOverridesEligible) ;;
    ret (fst r)
  else ret e.

(** Whether the loop must backtrack although the arrows are still open;
    a seedling is reported on the way when there is one. *)
Definition keepGoing (stackDepth d cur top bot : Z) (e : Elig) : M bool :=
  if (cur =? 0) && (top <? bot) && (stackDepth <? _reportSeedlings cfg)
     && (0 <? _reportSeedlings cfg) && (0 <? altNum e) then
    (if 0 <? stackDepth then reportSeedling stackDepth else ret true) ;;;
    ret true
  else if _halfAndHalf cfg && (d =? wrap32 (_5depth cfg - 1)) && (top <? bot) then
    ret (stackDepth =? 0)
  else if _halfAndHalf cfg && (d =? wrap32 (_3depth cfg - 1)) && (top <? bot) then
    ret (stackDepth <? 2)
  else ret false.

(** *** Choosing the backtrack target *)

(** [for(j = 0; j < 4; j++)] inside the scan; [js] are the values of [j]
    still to come.  A scan that runs to the end leaves [j = 4]. *)
Fixpoint scanJ (k pairs elims r ham i qi : Z) (js : list Z) (t : Target)
    : M Target :=
  match js with
  | [] => ret (mkTarget (foundTarget t) (t_i t) 4 (cumSz t) (bttop t)
                        (btbot t) (btham t) (btchar t) (btcint t) (icur t))
  | j :: js' =>
    x <- ldE k (elims + i) ;;
    if Z.land x (Z.shiftl 1 j) =? 0 then
      sp <- PAIR_SPREAD k pairs i j ;;
      let cum := wrap32 (cumSz t + sp) in
      if r <? cum then
        pt <- ldP k (PAIR_TOP pairs i j) ;;
        pb <- ldP k (PAIR_BOT pairs i j) ;;
        ret (mkTarget true i j cum pt pb (wrap32 (btham t + qi))
                      (nthZ [97; 99; 103; 116] j) j (icur t))
      else
        scanJ k pairs elims r ham i qi js'
              (mkTarget (foundTarget t) (t_i t) (t_j t) cum (bttop t) (btbot t)
                        (btham t) (btchar t) (btcint t) (icur t))
    else scanJ k pairs elims r ham i qi js' t
  end.

(** [for(; i <= d; i++)] of the scan; [idxs] are the values of [i] still
    to come and [next] the value [i] has once they are used up. *)
Fixpoint scanI (k pairs elims r ham unrevOff : Z) (e : Elig)
    (idxs : list Z) (next : Z) (t : Target) : M Target :=
  match idxs with
  | [] => ret (mkTarget (foundTarget t) next (t_j t) (cumSz t) (bttop t)
                        (btbot t) (btham t) (btchar t) (btcint t) (icur t))
  | i :: idxs' =>
    if i <? unrevOff then scanI k pairs elims r ham unrevOff e idxs' next t
    else
      let ic := wrap32 (_qlen cfg - i - 1) in
      let qi := QUAL ic in
      let t0 := mkTarget (foundTarget t) (t_i t) (t_j t) (cumSz t) (bttop t)
                         (btbot t) (btham t) (btchar t) (btcint t) ic in
      x <- ldE k (elims + i) ;;
      if (qi =? lowAltQual e) && negb (x =? 15) then
        t1 <- scanJ k pairs elims r ham i qi (upto 4 0) t0 ;;
        if foundTarget t1 then ret t1
        else scanI k pairs elims r ham unrevOff e idxs' next t1
      else scanI k pairs elims r ham unrevOff e idxs' next t0
  end.

Definition selectTarget (k pairs elims r ham depth d unrevOff : Z) (e : Elig)
    : M Target :=
  scanI k pairs elims r ham unrevOff e
        (upto (Z.to_nat (d + 1 - depth)) depth) (Z.max depth (d + 1))
        (mkTarget false depth 0 0 0 0 ham 0 0 0).

(** The boundaries handed to the callee. *)
Definition btRegions (i unrevOff oneRevOff twoRevOff : Z) : Z * Z * Z :=
  if i <? oneRevOff then (oneRevOff, _2revOff cfg, twoRevOff)
  else if i <? twoRevOff then
    if negb (_halfAndHalf cfg) then (unrevOff, twoRevOff, twoRevOff)
    else (unrevOff, oneRevOff, oneRevOff)
  else (unrevOff, oneRevOff, twoRevOff).

(** *** Finding the next set of eligible targets *)

Definition rescanStep (k pairs elims kq kidx : Z) (l : Z) (st : Elig * bool)
    : M (Elig * bool) :=
  x <- ldE k (elims + kidx) ;;
  if Z.land x (Z.shiftl 1 l) =? 0 then
    let '(e, kCurOverridesEligible) := st in
    let '(e0, ov0) :=
      if kCurOverridesEligible
      then (mkElig (altNum e) 0 0 kq, false)
      else (e, kCurOverridesEligible) in
    spread <- PAIR_SPREAD k pairs kidx l ;;
    ret (mkElig (altNum e0) (wrap32 (eligibleNum e0 + 1))
                (wrap32 (eligibleSz e0 + spread)) (lowAltQual e0), ov0)
  else ret st.

Definition rescanPos (k pairs elims ham unrevOff : Z) (kidx : Z) (e : Elig)
    : M Elig :=
  let kcur := wrap32 (_qlen cfg - kidx - 1) in
  let kq := QUAL kcur in
  let kCurIsAlternative :=
    (unrevOff <=? kidx) && (wrap32 (ham + kq) <=? _qualThresh cfg) in
  if kCurIsAlternative then
    let kCurOverridesEligible := kq <? lowAltQual e in
    if kq <=? lowAltQual e then
      r <- forM (upto 4 0) (rescanStep k pairs elims kq kidx)
                (e, kCurOverridesEligible) ;;
      ret (fst r)
    else ret e
  else ret e.

Definition rescan (k pairs elims ham depth d unrevOff : Z) (e : Elig) : M Elig :=
  forM (upto (Z.to_nat (d + 1 - depth)) depth)
       (rescanPos k pairs elims ham unrevOff)
       (mkElig (altNum e) (eligibleNum e) (eligibleSz e) 255).

(** *** The frame *)

Section Frame.

(** The recursive call. *)
Variable rec : Z -> Z -> Z -> Z -> Z -> Z -> Z -> Z -> Z -> Z -> Z -> M bool.

Variables (stackDepth depth unrevOff oneRevOff twoRevOff : Z).
Variables (ham iham pairs elims : Z).

(** One turn of [while((top == bot && altNum > 0) || keepGoingDespiteMatch)]:
    either the frame returns, or the loop test is made again. *)
Definition tryTarget (d : Z) (e : Elig) : M (bool + Elig) :=
  x <- rand ;;
  if eligibleSz e =? 0 then crash
  else
    let r := x mod eligibleSz e in
    t <- selectTarget stackDepth pairs elims r ham depth d unrevOff e ;;
    let i := t_i t in
    let j := t_j t in
    let newPairs := pairs + _spread cfg * 8 in
    let newElims := elims + _spread cfg in
    let '(btUnrevOff, btOneRevOff, btTwoRevOff) :=
      btRegions i unrevOff oneRevOff twoRevOff in
    stMms stackDepth (icur t) ;;;
    stChars i (btchar t) ;;;
    res <- (if i + 1 =? _qlen cfg then
            report (wrap32 (stackDepth + 1)) (bttop t) (btbot t)
          else
            logCall (EvCall stackDepth i unrevOff oneRevOff twoRevOff
                            btUnrevOff btOneRevOff btTwoRevOff) ;;;
            rec (wrap32 (stackDepth + 1)) (wrap32 (i + 1))
                btUnrevOff btOneRevOff btTwoRevOff
                (bttop t) (btbot t) (btham t) iham newPairs newElims) ;;
    if res then ret (inl true)
    else
      c <- qryAt (icur t) ;;
      stChars i (dnaToChar c) ;;;
      x <- ldE stackDepth (elims + i) ;;
      stE stackDepth (elims + i) (wrap8 (Z.lor x (Z.shiftl 1 j))) ;;;
      let e1 := mkElig (wrap32 (altNum e - 1)) (wrap32 (eligibleNum e - 1))
                       (wrap32 (eligibleSz e - (btbot t - bttop t)))
                       (lowAltQual e) in
      if altNum e1 =? 0 then ret (inl false)
      else if eligibleNum e1 =? 0 then
        e2 <- rescan stackDepth pairs elims ham depth d unrevOff e1 ;;
        ret (inr e2)
      else ret (inr e1).

Fixpoint innerWhile (n : nat) (d top bot : Z) (keepGoingDespiteMatch : bool)
    (e : Elig) : M (bool + Elig) :=
  if ((top =? bot) && (0 <? altNum e)) || keepGoingDespiteMatch then
    match n with
    | O => fun _ => OutOfFuel
    | S n' =>
      r <- tryTarget d e ;;
      match r with
      | inl b => ret (inl b)
      | inr e' => innerWhile n' d top bot false e'
      end
    end
  else ret (inr e).

(** The body of [while(cur < _qlen)]: the frame returns, or the loop goes
    on with the next position. *)
Definition matchStep (l : Loop) : M (bool + Loop) :=
  let d := l_d l in
  let cur := l_cur l in
  let e := l_elig l in
  c <- qryAt cur ;;
  let q := QUAL cur in
  let curIsAlternative :=
    (unrevOff <=? d) && (wrap32 (ham + q) <=? _qualThresh cfg) in
  let curOverridesEligible := curIsAlternative && (q <? lowAltQual e) in
  let curIsEligible :=
    curIsAlternative && ((q <? lowAltQual e) || (q =? lowAltQual e)) in
  tb <- stepPairs stackDepth pairs d c curIsAlternative (l_top l) (l_bot l) ;;
  let '(top, bot) := tb in
  e1 <- updateElims stackDepth pairs elims d c q curIsAlternative
                    curIsEligible curOverridesEligible e ;;
  kg <- keepGoing stackDepth d cur top bot e1 ;;
  r <- innerWhile (S (Z.to_nat (altNum e1))) d top bot kg e1 ;;
  match r with
  | inl b => ret (inl b)
  | inr e2 =>
    if (top =? bot) && (altNum e2 =? 0) then ret (inl false)
    else
      c' <- qryAt cur ;;
      stChars d (dnaToChar c') ;;;
      ret (inr (mkLoop (wrap32 (d + 1)) (wrap32 (cur - 1)) top bot e2))
  end.

Fixpoint matchLoop (n : nat) (l : Loop) : M bool :=
  if l_cur l <? _qlen cfg then
    match n with
    | O => fun _ => OutOfFuel
    | S n' =>
      r <- matchStep l ;;
      match r with
      | inl b => ret b
      | inr l' => matchLoop n' l'
      end
    end
  else if _reportSeedlings cfg <=? stackDepth then
    report stackDepth (l_top l) (l_bot l)
  else ret false.

(** The half-and-half test on entry, then the matching loop. *)
Definition frame (top bot : Z) : M bool :=
  if _halfAndHalf cfg && (depth =? _5depth cfg) && (stackDepth <? 1)
  then ret false
  else if _halfAndHalf cfg && negb (depth =? _5depth cfg)
          && (depth =? _3depth cfg) && (stackDepth <? 2)
  then ret false
  else
    let cur := wrap32 (_qlen cfg - depth - 1) in
    matchLoop (Z.to_nat (_qlen cfg))
              (mkLoop depth cur top bot (mkElig 0 0 0 255)).

End Frame.

(** [backtrack(stackDepth, depth, unrevOff, oneRevOff, twoRevOff, top, bot,
    ham, iham, pairs, elims)]; [fuel] bounds the depth of the recursion. *)
Fixpoint backtrackRec (fuel : nat)
    (stackDepth depth unrevOff oneRevOff twoRevOff top bot ham iham
     pairs elims : Z) : M bool :=
  match fuel with
  | O => fun _ => OutOfFuel
  | S f =>
    frame (backtrackRec f) stackDepth depth unrevOff oneRevOff twoRevOff
          ham iham pairs elims top bot
  end.

(** [backtrack(depth, top, bot, iham)], without the oracle ([_os] is null);
    the arenas start at address 0. *)
Definition backtrackFrom (fuel : nat) (depth top bot iham : Z) : M bool :=
  backtrackRec fuel 0 depth (_unrevOff cfg) (_1revOff cfg) (_2revOff cfg)
               top bot iham iham 0 0.

(** The loop that packs the last [ftabChars] characters of the read. *)
Fixpoint ftabKey (q : list Z) (n : nat) (i ftabOff : Z) : Z :=
  match n with
  | O => ftabOff
  | S n' =>
    ftabKey q n' (i - 1)
            (Z.lor (wrap32 (Z.shiftl ftabOff 2)) (nthZ q (_qlen cfg - i)))
  end.

(** [backtrack(ham)] *)
Definition backtrack (fuel : nat) (ham : Z) : M bool :=
  let ftabChars := _ftabChars ebwt in
  let m := Z.min (_unrevOff cfg) (_qlen cfg) in
  if ftabChars <=? m then
    q <- getQry ;;
    let ftabOff :=
      ftabKey q (Z.to_nat (ftabChars - 1)) (ftabChars - 1)
              (nthZ q (_qlen cfg - ftabChars)) in
    let top := ftabHi ebwt ftabOff in
    let bot := ftabLo ebwt (wrap32 (ftabOff + 1)) in
    if (_qlen cfg =? ftabChars) && (top <? bot) then
      if 0 <? _reportSeedlings cfg then backtrackFrom fuel 0 0 0 ham
      else report 0 top bot
    else if top <? bot then backtrackFrom fuel ftabChars top bot ham
    else ret false
  else backtrackFrom fuel 0 0 0 ham.

(** The depth of the recursion stack the arenas are sized for. *)
Definition maxStackDepth : Z :=
  _qlen cfg - Z.min (_unrevOff cfg) (_qlen cfg) + 3 + 1.

End Search.

Arguments PAIR_SPREAD : simpl never.
Arguments rand : simpl never.
Arguments applyMutations : simpl never.
Arguments undoMutations : simpl never.
Arguments chase : simpl never.
Arguments reportHit : simpl never.
Arguments reportSeedling : simpl never.
Arguments report : simpl never.
Arguments stepPairs : simpl never.
Arguments elimStep : simpl never.
Arguments updateElims : simpl never.
Arguments keepGoing : simpl never.
Arguments selectTarget : simpl never.
Arguments btRegions : simpl never.
Arguments rescanStep : simpl never.
Arguments rescanPos : simpl never.
Arguments rescan : simpl never.
Arguments tryTarget : simpl never.
Arguments matchStep : simpl never.
Arguments frame : simpl never.
Arguments ldP : simpl never.
Arguments stP : simpl never.
Arguments ldE : simpl never.
Arguments stE : simpl never.
Arguments ldMms : simpl never.
Arguments stMms : simpl never.
Arguments ldChars : simpl never.
Arguments stChars : simpl never.
Arguments qryAt : simpl never.
Arguments appendSeedling : simpl never.
Arguments logCall : simpl never.
Arguments wrap32 : simpl never.
Arguments wrap8 : simpl never.
Arguments QUAL : simpl never.
Arguments qualOf : simpl never.

(** ** A weakest-precondition reading of the monad *)

(** A reading fixes what is asked of a run that does not return: [m_total]
    asks that the fuel suffices, [m_safe] that no division by zero is met.  A
    boolean [t] stands for the reading that asks [t] of the fuel and nothing
    of divisions. *)
Record Mode : Type := mkMode { m_total : bool; m_safe : bool }.

Definition lax (t : bool) : Mode := mkMode t false.
Coercion lax : bool >-> Mode.

Definition wp (md : Mode) {A} (m : M A) (s : BtState)
    (Q : A -> BtState -> Prop) : Prop :=
  match m s with
  | Ok a s' => Q a s'
  | Crash => m_safe md = false
  | OutOfFuel => m_total md = false
  end.

Lemma wp_ret t {A} (a : A) s Q : Q a s -> wp t (ret a) s Q.
Proof. intros H; exact H. Qed.

Lemma wp_bind t {A B} (m : M A) (k : A -> M B) s Q :
  wp t m s (fun a s' => wp t (k a) s' Q) -> wp t (bind m k) s Q.
Proof. unfold wp, bind. destruct (m s); auto. Qed.

Lemma wp_mono t {A} (m : M A) s (Q Q' : A -> BtState -> Prop) :
  wp t m s Q -> (forall a s', Q a s' -> Q' a s') -> wp t m s Q'.
Proof. unfold wp. destruct (m s); auto. Qed.

Lemma wp_conj t {A} (m : M A) s (Q Q' : A -> BtState -> Prop) :
  wp t m s Q -> wp t m s Q' -> wp t m s (fun a s' => Q a s' /\ Q' a s').
Proof. unfold wp. destruct (m s); auto. Qed.

Lemma wp_partial t {A} (m : M A) s Q : wp t m s Q -> wp false m s Q.
Proof. unfold wp. destruct (m s); auto. Qed.

Lemma wp_crash (t : bool) {A} s (Q : A -> BtState -> Prop) : wp t crash s Q.
Proof. reflexivity. Qed.

(** What holds of the runs that return can be added to any reading. *)
Lemma wp_also md {A} (m : M A) s (Q Q' : A -> BtState -> Prop) :
  wp md m s Q -> wp false m s Q' -> wp md m s (fun a s' => Q a s' /\ Q' a s').
Proof. unfold wp. destruct (m s); auto. Qed.

(** A reading that asks more implies one that asks less. *)
Lemma wp_relax md md' {A} (m : M A) s Q :
  (m_total md' = true -> m_total md = true) ->
  (m_safe md' = true -> m_safe md = true) ->
  wp md m s Q -> wp md' m s Q.
Proof.
  unfold wp. destruct (m s); auto.
  - intros _ H E. destruct (m_safe md'); [rewrite H in E by reflexivity; discriminate | reflexivity].
  - intros H _ E. destruct (m_total md'); [rewrite H in E by reflexivity; discriminate | reflexivity].
Qed.

Lemma wp_forM t {A} (I : A -> BtState -> Prop) l (f : Z -> A -> M A) a s :
  I a s ->
  (forall x a s, In x l -> I a s -> wp t (f x a) s I) ->
  wp t (forM l f a) s I.
Proof.
  revert a s. induction l as [|x l IH]; intros a s Ha Hf; simpl.
  - apply wp_ret; exact Ha.
  - apply wp_bind. eapply wp_mono.
    + apply Hf; [left; reflexivity | exact Ha].
    + intros a' s' Ha'. apply IH; [exact Ha'|].
      intros y b s0 Hy Hb. apply Hf; [right; exact Hy | exact Hb].
Qed.

(** ** Relations every step of a search respects *)

Definition keeps (t : bool) (R : BtState -> BtState -> Prop) {A} (m : M A)
    : Prop :=
  forall s, wp t m s (fun _ s' => R s s').

Lemma keeps_partial t R {A} (m : M A) : keeps t R m -> keeps false R m.
Proof. intros H s. eapply wp_partial, H. Qed.

Definition preorder (R : BtState -> BtState -> Prop) : Prop :=
  (forall s, R s s) /\ (forall a b c, R a b -> R b c -> R a c).

Lemma keeps_ret t R {A} (a : A) : preorder R -> keeps t R (ret a).
Proof. intros [Hr _] s. apply wp_ret, Hr. Qed.

Lemma keeps_crash (t : bool) R {A} : keeps t R (@crash A).
Proof. intros s. reflexivity. Qed.

Lemma keeps_bind t R {A B} (m : M A) (k : A -> M B) :
  preorder R -> keeps t R m -> (forall a, keeps t R (k a)) ->
  keeps t R (bind m k).
Proof.
  intros [_ Ht] Hm Hk s. apply wp_bind. eapply wp_mono; [apply Hm|].
  intros a s' H1. simpl. eapply wp_mono; [apply Hk|].
  intros b s'' H2. simpl in *. eapply Ht; eauto.
Qed.

Lemma keeps_forM t R {A} l (f : Z -> A -> M A) a :
  preorder R -> (forall x a, keeps t R (f x a)) -> keeps t R (forM l f a).
Proof.
  intros HR Hf. revert a. induction l as [|x l IH]; intros a; simpl.
  - apply keeps_ret, HR.
  - apply keeps_bind; [exact HR | apply Hf | intros a'; apply IH].
Qed.

Ltac keeps_step :=
  first
    [ solve [auto]
    | apply keeps_ret; assumption
    | apply keeps_crash
    | apply keeps_bind; [assumption | | intros ?]
    | apply keeps_forM; [assumption | intros ? ?]
    | match goal with
      | |- keeps _ _ (if ?b then _ else _) => destruct b
      | |- keeps _ _ (match ?x with _ => _ end) => destruct x
      | |- keeps _ _ (let '(_, _) := ?x in _) => destruct x
      end ].

(** Steps that write the seedling stream keep a relation that no such write
    can break. *)
Section StableStream.

Variable cfg : Config.
Variable tot : bool.
Variable R : BtState -> BtState -> Prop.
Hypothesis R_pre : preorder R.
Hypothesis R_seedlings : forall l s, R s (set_seedlings l s).

Lemma keeps_appendSeedling b : keeps tot R (appendSeedling b).
Proof. intros s. apply R_seedlings. Qed.

Lemma keeps_reportSeedling sd : keeps tot R (reportSeedling cfg sd).
Proof.
  pose proof keeps_appendSeedling.
  assert (Hm : forall i, keeps tot R (ldMms i))
    by (intros i s; apply (proj1 R_pre)).
  assert (Hc : forall i, keeps tot R (ldChars i))
    by (intros i s; apply (proj1 R_pre)).
  unfold reportSeedling. repeat keeps_step; auto.
Qed.

Lemma keeps_keepGoing sd d cur top bot e :
  keeps tot R (keepGoing cfg sd d cur top bot e).
Proof.
  pose proof keeps_reportSeedling.
  unfold keepGoing. repeat keeps_step; auto.
Qed.

End StableStream.

Section Stable.

Variable ebwt : Ebwt.
Variable rnd : RandomSource.
Variable cfg : Config.

Variable tot : bool.
Variable R : BtState -> BtState -> Prop.
Hypothesis R_pre : preorder R.
Hypothesis R_access : forall a k addr s, R s (note (EvAccess a k addr) s).
Hypothesis R_pairs : forall m s, R s (set_pairs m s).
Hypothesis R_elims : forall m s, R s (set_elims m s).
Hypothesis R_mms : forall m s, R s (set_mms m s).
Hypothesis R_chars : forall m s, R s (set_chars m s).
Hypothesis R_rand : forall r s, R s (set_rand r s).
Hypothesis R_keepGoing : forall sd d cur top bot e,
  keeps tot R (keepGoing cfg sd d cur top bot e).
Hypothesis R_report : forall sd top bot, keeps tot R (report ebwt rnd cfg sd top bot).
Hypothesis R_call : forall sd i u o1 o2 s,
  let '(bu, bo, bt) := btRegions cfg i u o1 o2 in
  R s (note (EvCall sd i u o1 o2 bu bo bt) s).

Let R_refl : forall s, R s s := proj1 R_pre.
Let R_trans : forall a b c, R a b -> R b c -> R a c := proj2 R_pre.

Lemma keeps_ldP k a : keeps tot R (ldP k a).
Proof. intros s. apply R_access. Qed.
Lemma keeps_stP k a v : keeps tot R (stP k a v).
Proof. intros s. unfold wp, stP. eapply R_trans; [apply R_pairs | apply R_access]. Qed.
Lemma keeps_ldE k a : keeps tot R (ldE k a).
Proof. intros s. apply R_access. Qed.
Lemma keeps_stE k a v : keeps tot R (stE k a v).
Proof. intros s. unfold wp, stE. eapply R_trans; [apply R_elims | apply R_access]. Qed.
Lemma keeps_ldMms i : keeps tot R (ldMms i).
Proof. intros s. apply R_refl. Qed.
Lemma keeps_stMms i v : keeps tot R (stMms i v).
Proof. intros s. apply R_mms. Qed.
Lemma keeps_ldChars i : keeps tot R (ldChars i).
Proof. intros s. apply R_refl. Qed.
Lemma keeps_stChars i v : keeps tot R (stChars i v).
Proof. intros s. apply R_chars. Qed.
Lemma keeps_qryAt i : keeps tot R (qryAt i).
Proof. intros s. apply R_refl. Qed.
Lemma keeps_rand : keeps tot R (rand rnd).
Proof. intros s. unfold wp, rand. destruct (nextU32 rnd (_rand s)). apply R_rand. Qed.

Local Hint Resolve keeps_ldP keeps_stP keeps_ldE keeps_stE keeps_ldMms
  keeps_stMms keeps_ldChars keeps_stChars keeps_qryAt
  keeps_rand R_report R_keepGoing : core.

Lemma keeps_PAIR_SPREAD k pairs d c : keeps tot R (PAIR_SPREAD k pairs d c).
Proof. unfold PAIR_SPREAD. repeat keeps_step; auto. Qed.
Local Hint Resolve keeps_PAIR_SPREAD : core.


Lemma keeps_stepPairs k pairs d c alt top bot :
  keeps tot R (stepPairs ebwt k pairs d c alt top bot).
Proof. unfold stepPairs. repeat keeps_step; auto. Qed.

Lemma keeps_elimStep k pairs elims d c q el i st :
  keeps tot R (elimStep k pairs elims d c q el i st).
Proof. unfold elimStep. repeat keeps_step; auto. Qed.
Local Hint Resolve keeps_stepPairs keeps_elimStep : core.

Lemma keeps_updateElims k pairs elims d c q a b ov e :
  keeps tot R (updateElims k pairs elims d c q a b ov e).
Proof. unfold updateElims. repeat keeps_step; auto. Qed.

Local Hint Resolve keeps_updateElims : core.

Lemma keeps_scanJ k pairs elims r ham i qi js t :
  keeps tot R (scanJ k pairs elims r ham i qi js t).
Proof.
  revert t. induction js as [|j js IH]; intros t; simpl; repeat keeps_step; auto.
Qed.
Local Hint Resolve keeps_scanJ : core.

Lemma keeps_scanI k pairs elims r ham u e idxs next t :
  keeps tot R (scanI cfg k pairs elims r ham u e idxs next t).
Proof.
  revert t. induction idxs as [|i idxs IH]; intros t; simpl; repeat keeps_step; auto.
Qed.
Local Hint Resolve keeps_scanI : core.

Lemma keeps_selectTarget k pairs elims r ham depth d u e :
  keeps tot R (selectTarget cfg k pairs elims r ham depth d u e).
Proof. unfold selectTarget. auto. Qed.

Lemma keeps_rescanStep k pairs elims kq kidx l st :
  keeps tot R (rescanStep k pairs elims kq kidx l st).
Proof. unfold rescanStep. repeat keeps_step; auto. Qed.
Local Hint Resolve keeps_selectTarget keeps_rescanStep : core.

Lemma keeps_rescanPos k pairs elims ham u kidx e :
  keeps tot R (rescanPos cfg k pairs elims ham u kidx e).
Proof. unfold rescanPos. repeat keeps_step; auto. Qed.
Local Hint Resolve keeps_rescanPos : core.

Lemma keeps_rescan k pairs elims ham depth d u e :
  keeps tot R (rescan cfg k pairs elims ham depth d u e).
Proof. unfold rescan. repeat keeps_step; auto. Qed.
Local Hint Resolve keeps_rescan : core.

Section Frame.

Variable rec : Z -> Z -> Z -> Z -> Z -> Z -> Z -> Z -> Z -> Z -> Z -> M bool.
Hypothesis R_rec : forall a b c d e f g h i j k, keeps tot R (rec a b c d e f g h i j k).

Lemma keeps_tryTarget sd depth u o1 o2 ham iham pairs elims d e :
  keeps tot R (tryTarget ebwt rnd cfg rec sd depth u o1 o2 ham iham pairs elims d e).
Proof.
  unfold tryTarget. apply keeps_bind; [assumption | auto | intros x].
  destruct (eligibleSz e =? 0); [apply keeps_crash|].
  apply keeps_bind; [assumption | auto | intros t].
  pose proof (R_call sd (t_i t) u o1 o2) as Hc.
  destruct (btRegions cfg (t_i t) u o1 o2) as [[bu bo] bt].
  repeat keeps_step; auto.
Qed.
Local Hint Resolve keeps_tryTarget : core.

Hypothesis partial : tot = false.

Lemma keeps_innerWhile sd depth u o1 o2 ham iham pairs elims n d top bot kg e :
  keeps tot R (innerWhile ebwt rnd cfg rec sd depth u o1 o2 ham iham pairs elims n d top bot kg e).
Proof.
  revert kg e. induction n as [|n IH]; intros kg e; simpl.
  - destruct (_ || _); [intros s; exact partial | apply keeps_ret; assumption].
  - repeat keeps_step; auto.
Qed.
Local Hint Resolve keeps_innerWhile : core.

Lemma keeps_matchStep sd depth u o1 o2 ham iham pairs elims l :
  keeps tot R (matchStep ebwt rnd cfg rec sd depth u o1 o2 ham iham pairs elims l).
Proof. unfold matchStep. repeat keeps_step; auto. Qed.
Local Hint Resolve keeps_matchStep : core.

Lemma keeps_matchLoop sd depth u o1 o2 ham iham pairs elims n l :
  keeps tot R (matchLoop ebwt rnd cfg rec sd depth u o1 o2 ham iham pairs elims n l).
Proof.
  revert l. induction n as [|n IH]; intros l; simpl.
  - repeat keeps_step; auto. intros s; exact partial.
  - repeat keeps_step; auto.
Qed.

Lemma keeps_frame sd depth u o1 o2 ham iham pairs elims top bot :
  keeps tot R (frame ebwt rnd cfg rec sd depth u o1 o2 ham iham pairs elims top bot).
Proof. unfold frame. repeat keeps_step; auto. apply keeps_matchLoop. Qed.

End Frame.

Hypothesis partial : tot = false.

Lemma keeps_backtrackRec fuel sd depth u o1 o2 top bot ham iham pairs elims :
  keeps tot R (backtrackRec ebwt rnd cfg fuel sd depth u o1 o2 top bot ham iham pairs elims).
Proof.
  revert sd depth u o1 o2 top bot ham iham pairs elims.
  induction fuel as [|f IH]; intros; simpl.
  - intros s; exact partial.
  - apply keeps_frame; try exact partial. intros. apply IH.
Qed.

Lemma keeps_backtrackFrom fuel depth top bot iham :
  keeps tot R (backtrackFrom ebwt rnd cfg fuel depth top bot iham).
Proof. apply keeps_backtrackRec. Qed.

Lemma keeps_getQry : keeps tot R getQry.
Proof. intros s. apply R_refl. Qed.

Lemma keeps_backtrack_gen fuel ham : keeps tot R (backtrack ebwt rnd cfg fuel ham).
Proof.
  pose proof keeps_getQry. pose proof keeps_backtrackFrom.
  unfold backtrack. repeat keeps_step.
Qed.

End Stable.

(** A relation that neither a store nor a write to the seedling stream can
    break is kept by the whole search. *)
Lemma keeps_backtrack (ebwt : Ebwt) (rnd : RandomSource) (cfg : Config)
    (tot : bool) (R : BtState -> BtState -> Prop) :
  preorder R ->
  (forall a k addr s, R s (note (EvAccess a k addr) s)) ->
  (forall m s, R s (set_pairs m s)) ->
  (forall m s, R s (set_elims m s)) ->
  (forall m s, R s (set_mms m s)) ->
  (forall m s, R s (set_chars m s)) ->
  (forall r s, R s (set_rand r s)) ->
  (forall l s, R s (set_seedlings l s)) ->
  (forall sd top bot, keeps tot R (report ebwt rnd cfg sd top bot)) ->
  (forall sd i u o1 o2 s,
     let '(bu, bo, bt) := btRegions cfg i u o1 o2 in
     R s (note (EvCall sd i u o1 o2 bu bo bt) s)) ->
  tot = false ->
  forall fuel ham, keeps tot R (backtrack ebwt rnd cfg fuel ham).
Proof.
  intros Hpre Ha Hp He Hm Hc Hr Hs Hrep Hcall Htot fuel ham.
  apply keeps_backtrack_gen; try assumption.
  intros. apply keeps_keepGoing; assumption.
Qed.

(** ** Mutations are balanced *)

Definition applyAll (ms : list QueryMutation) (q : list Z) : list Z :=
  fold_left (fun q m => <[Z.to_nat (pos m) := newBase m]> q) ms q.
Definition undoAll (ms : list QueryMutation) (q : list Z) : list Z :=
  fold_left (fun q m => <[Z.to_nat (pos m) := oldBase m]> q) ms q.

Definition untouched (ms : list QueryMutation) (i : nat) : Prop :=
  forall m, In m ms -> Z.to_nat (pos m) <> i.

Lemma fold_insert_outside (v : QueryMutation -> Z) ms : forall q : list Z,
  let q' := fold_left (fun q m => <[Z.to_nat (pos m) := v m]> q) ms q in
  length q' = length q /\ forall i, untouched ms i -> q' !! i = q !! i.
Proof.
  induction ms as [|m ms IH]; intros q; simpl; [split; auto|].
  destruct (IH (<[Z.to_nat (pos m) := v m]> q)) as [Hl Ho].
  split.
  - rewrite Hl. apply length_insert.
  - intros i Hi. rewrite Ho.
    + apply list_lookup_insert_ne. apply Hi. left; reflexivity.
    + intros m' Hm'. apply Hi. right; exact Hm'.
Qed.

Lemma applyAll_agree ms : forall q q' : list Z,
  length q = length q' ->
  (forall i, untouched ms i -> q !! i = q' !! i) ->
  applyAll ms q = applyAll ms q'.
Proof.
  induction ms as [|m ms IH]; intros q q' Hl Ho; simpl.
  - apply list_eq. intros i. apply Ho. intros m [].
  - apply IH.
    + rewrite !length_insert. exact Hl.
    + intros i Hi.
      destruct (decide (Z.to_nat (pos m) = i)) as [Heq|Hne]; [subst i|].
      * destruct (decide (Z.to_nat (pos m) < length q)%nat) as [Hlt|Hge].
        -- rewrite !list_lookup_insert_eq; [reflexivity | lia | lia].
        -- rewrite !list_insert_ge by lia.
           rewrite !(proj2 (lookup_ge_None _ _)); [reflexivity | lia | lia].
      * rewrite !list_lookup_insert_ne by exact Hne.
        apply Ho. intros m' [<-|Hm']; [exact Hne | apply Hi; exact Hm'].
Qed.

Lemma applyAll_undoAll ms q : applyAll ms (undoAll ms q) = applyAll ms q.
Proof.
  destruct (fold_insert_outside oldBase ms q) as [Hl Ho].
  apply applyAll_agree; [exact Hl | exact Ho].
Qed.

Lemma applyAll_idem ms q : applyAll ms (applyAll ms q) = applyAll ms q.
Proof.
  destruct (fold_insert_outside newBase ms q) as [Hl Ho].
  apply applyAll_agree; [exact Hl | exact Ho].
Qed.

(** The read holds the mutations: applying them again changes nothing. *)
Definition applied (cfg : Config) (q : list Z) : Prop :=
  match _muts cfg with
  | Some ms => applyAll ms q = q
  | None => True
  end.

Definition sameQry (s s' : BtState) : Prop := _qry s' = _qry s.
Definition restoresQry (cfg : Config) (s s' : BtState) : Prop :=
  applied cfg (_qry s) -> _qry s' = _qry s.

Lemma sameQry_pre : preorder sameQry.
Proof. split; unfold sameQry; [reflexivity | intros; congruence]. Qed.

Lemma restoresQry_pre cfg : preorder (restoresQry cfg).
Proof.
  split; unfold restoresQry; [reflexivity|].
  intros a b c Hab Hbc Ha. rewrite <- (Hab Ha). apply Hbc. rewrite (Hab Ha). exact Ha.
Qed.

Section Reporting.

Variable ebwt : Ebwt.
Variable rnd : RandomSource.
Variable cfg : Config.

Lemma keeps_chase tot R sd ri top bot :
  preorder R -> (forall l s, R s (set_sink l s)) ->
  keeps tot R (chase ebwt sd ri top bot).
Proof.
  intros [Hr _] Hs s. unfold wp, chase.
  destruct (reportChaseOne _ _ _); [apply Hs | apply Hr].
Qed.

Lemma keeps_chaseLoop tot R n i r sd top bot spread :
  preorder R -> (forall l s, R s (set_sink l s)) ->
  keeps tot R (chaseLoop ebwt n i r sd top bot spread).
Proof.
  intros HR Hs. revert i. induction n as [|n IH]; intros i; simpl.
  - apply keeps_ret, HR.
  - apply keeps_bind; [exact HR | apply keeps_chase; assumption | intros ok].
    destruct ok; [apply keeps_ret, HR | apply IH].
Qed.

Lemma keeps_reportHit tot R sd top bot :
  preorder R -> (forall l s, R s (set_sink l s)) ->
  (forall r s, R s (set_rand r s)) ->
  keeps tot R (reportHit ebwt rnd cfg sd top bot).
Proof.
  intros HR Hs Hrand. unfold reportHit.
  destruct (_oneHit cfg); [|apply keeps_ret, HR].
  apply keeps_bind; [exact HR | apply keeps_rand; assumption | intros x].
  destruct (_ =? 0); [apply keeps_crash | apply keeps_chaseLoop; assumption].
Qed.

(** [report] keeps every relation that no store can break. *)
Lemma keeps_report tot R sd top bot :
  preorder R ->
  (forall q s, R s (set_qry q s)) ->
  (forall m s, R s (set_mms m s)) ->
  (forall l s, R s (set_seedlings l s)) ->
  (forall l s, R s (set_sink l s)) ->
  (forall r s, R s (set_rand r s)) ->
  keeps tot R (report ebwt rnd cfg sd top bot).
Proof.
  intros HR Hq Hm Hsd Hsk Hr.
  assert (Hu : keeps tot R (undoMutations cfg)).
  { intros s. unfold wp, undoMutations. destruct (_muts cfg); [apply Hq | apply HR]. }
  assert (Ha : keeps tot R (applyMutations cfg)).
  { intros s. unfold wp, applyMutations. destruct (_muts cfg); [apply Hq | apply HR]. }
  pose proof (keeps_reportHit tot R) as Hh.
  pose proof (keeps_reportSeedling cfg tot R) as Hs.
  pose proof (fun i v => keeps_stMms tot R Hm i v) as Hst.
  unfold report. repeat keeps_step.
Qed.

Lemma report_restoresQry sd top bot :
  keeps false (restoresQry cfg) (report ebwt rnd cfg sd top bot).
Proof.
  pose proof (restoresQry_pre cfg) as HR.
  unfold report. destruct (negb _).
  - apply keeps_bind; [exact HR| |intros; apply keeps_ret, HR].
    apply keeps_reportSeedling; try exact HR; intros; intro; reflexivity.
  - intros s. unfold restoresQry, applied.
    apply wp_bind. unfold undoMutations at 1, wp at 1.
    destruct (_muts cfg) as [ms|] eqn:Hm.
    + apply wp_bind. eapply wp_mono.
      { apply (wp_bind false). eapply wp_mono.
        - apply (keeps_forM false sameQry); [apply sameQry_pre|].
          intros x a s0. reflexivity.
        - intros a s1 H1. cbv beta in H1.
          eapply wp_mono; [apply (keeps_reportHit false sameQry)|].
          + apply sameQry_pre.
          + intros; reflexivity.
          + intros; reflexivity.
          + intros b s2 H2. cbv beta in H2. exact (eq_trans H2 H1). }
      intros hit s2 H2. cbv beta in H2. unfold sameQry in H2. simpl in H2.
      apply wp_bind. unfold applyMutations, wp at 1. rewrite Hm.
      apply wp_ret. simpl. intros Happ. rewrite H2.
      fold (undoAll ms (_qry s)). fold (applyAll ms (undoAll ms (_qry s))).
      rewrite applyAll_undoAll. exact Happ.
    + apply wp_bind. eapply wp_mono.
      { apply (keeps_reportHit false sameQry); [apply sameQry_pre | |]; intros; reflexivity. }
      intros hit s2 H2. cbv beta in H2.
      apply wp_bind. unfold applyMutations, wp at 1. rewrite Hm.
      apply wp_ret. intros _. exact H2.
Qed.

Lemma backtrack_restoresQry fuel ham :
  keeps false (restoresQry cfg) (backtrack ebwt rnd cfg fuel ham).
Proof.
  apply keeps_backtrack;
    try apply restoresQry_pre; try apply report_restoresQry;
    try reflexivity; try (intros; intro; reflexivity).
  intros sd i u o1 o2 s. destruct (btRegions cfg i u o1 o2) as [[? ?] ?].
  intro; reflexivity.
Qed.

End Reporting.

(** ** At most one hit reaches the sink *)

Definition sameSink (s s' : BtState) : Prop := sink s' = sink s.

Lemma sameSink_pre : preorder sameSink.
Proof. split; unfold sameSink; [reflexivity | intros; congruence]. Qed.

(** The sink after a step that answers [r], when it held [l] before. *)
Definition grew (l : list Hit) (r : bool) (s' : BtState) : Prop :=
  if r then exists h, sink s' = l ++ [h] else sink s' = l.

Definition grew' {X} (l : list Hit) (r : bool + X) (s' : BtState) : Prop :=
  match r with
  | inl b => grew l b s'
  | inr _ => sink s' = l
  end.

Lemma wp_sink_bind {A B} (m : M A) (k : A -> M B) l s Q :
  keeps false sameSink m -> sink s = l ->
  (forall a s', sink s' = l -> wp false (k a) s' Q) ->
  wp false (bind m k) s Q.
Proof.
  intros Hm Hs Hk. apply wp_bind. eapply wp_mono; [apply Hm|].
  intros a s' H. apply Hk. unfold sameSink in H. congruence.
Qed.

Ltac sink_keep :=
  first [ apply sameSink_pre | intros; reflexivity ].

Section Sink.

Variable ebwt : Ebwt.
Variable rnd : RandomSource.
Variable cfg : Config.

Lemma chase_grew sd ri top bot l s :
  sink s = l -> wp false (chase ebwt sd ri top bot) s (grew l).
Proof.
  intros Hs. unfold wp, chase. destruct (reportChaseOne _ _ _); simpl.
  - eexists. rewrite Hs. reflexivity.
  - exact Hs.
Qed.

Lemma chaseLoop_grew n i r sd top bot spread l s :
  sink s = l -> wp false (chaseLoop ebwt n i r sd top bot spread) s (grew l).
Proof.
  revert i s. induction n as [|n IH]; intros i s Hs; simpl.
  - apply wp_ret. exact Hs.
  - apply wp_bind. eapply wp_mono; [apply chase_grew; exact Hs|].
    intros ok s' H. destruct ok; [apply wp_ret; exact H | apply IH; exact H].
Qed.

Lemma reportHit_grew sd top bot l s :
  sink s = l -> wp false (reportHit ebwt rnd cfg sd top bot) s (grew l).
Proof.
  intros Hs. unfold reportHit. destruct (_oneHit cfg); [|apply wp_ret; exact Hs].
  eapply wp_sink_bind; [apply keeps_rand; sink_keep | exact Hs | intros x s' Hs'].
  destruct (_ =? 0); [reflexivity | apply chaseLoop_grew; exact Hs'].
Qed.

Lemma keeps_muts_sink :
  keeps false sameSink (undoMutations cfg) /\ keeps false sameSink (applyMutations cfg).
Proof.
  split; intros s; unfold wp, undoMutations, applyMutations;
    destruct (_muts cfg); reflexivity.
Qed.

Lemma report_grew sd top bot l s :
  sink s = l -> wp false (report ebwt rnd cfg sd top bot) s (grew l).
Proof.
  intros Hs. unfold report. destruct (negb _).
  - eapply wp_sink_bind; [|exact Hs|].
    + apply keeps_reportSeedling; sink_keep.
    + intros _ s' Hs'. apply wp_ret. exact Hs'.
  - eapply wp_sink_bind; [apply keeps_muts_sink | exact Hs | intros ? s1 H1].
    apply wp_bind. eapply wp_mono.
    { destruct (_muts cfg) as [ms|].
      - eapply wp_sink_bind; [|exact H1|].
        + apply keeps_forM; [sink_keep | intros; apply keeps_stMms; sink_keep].
        + intros ? s2 H2. apply reportHit_grew. exact H2.
      - apply reportHit_grew. exact H1. }
    intros hit s2 H2. cbv beta.
    apply wp_bind. eapply wp_mono; [apply keeps_muts_sink|].
    intros ? s3 H3. apply wp_ret. unfold sameSink in H3.
    unfold grew in *. destruct hit; [destruct H2 as [h H2]; exists h|]; congruence.
Qed.

Section Frame.

Variable rec : Z -> Z -> Z -> Z -> Z -> Z -> Z -> Z -> Z -> Z -> Z -> M bool.
Hypothesis rec_grew : forall a b c d e f g h i j k l s,
  sink s = l -> wp false (rec a b c d e f g h i j k) s (grew l).

Variables (sd depth u o1 o2 ham iham pairs elims : Z).

Lemma tryTarget_grew d e l s :
  sink s = l ->
  wp false (tryTarget ebwt rnd cfg rec sd depth u o1 o2 ham iham pairs elims d e)
     s (grew' l).
Proof.
  intros Hs. unfold tryTarget.
  eapply wp_sink_bind; [apply keeps_rand; sink_keep | exact Hs | intros x s1 H1].
  destruct (_ =? 0); [reflexivity|].
  eapply wp_sink_bind; [apply keeps_selectTarget; sink_keep | exact H1 | intros t s2 H2].
  cbv zeta. destruct (btRegions cfg (t_i t) u o1 o2) as [[bu bo] bt].
  eapply wp_sink_bind; [apply keeps_stMms; sink_keep | exact H2 | intros ? s3 H3].
  eapply wp_sink_bind; [apply keeps_stChars; sink_keep | exact H3 | intros ? s4 H4].
  apply wp_bind. eapply wp_mono.
  { destruct (_ =? _).
    - apply report_grew. exact H4.
    - eapply wp_sink_bind; [intros s0; reflexivity | exact H4 | intros ? s5 H5].
      apply rec_grew. exact H5. }
  intros res s5 H5. cbv beta. destruct res; [apply wp_ret; exact H5|].
  simpl in H5.
  eapply wp_sink_bind; [apply keeps_qryAt; sink_keep | exact H5 | intros c s6 H6].
  eapply wp_sink_bind; [apply keeps_stChars; sink_keep | exact H6 | intros ? s7 H7].
  eapply wp_sink_bind; [apply keeps_ldE; sink_keep | exact H7 | intros y s8 H8].
  eapply wp_sink_bind; [apply keeps_stE; sink_keep | exact H8 | intros ? s9 H9].
  cbv zeta. destruct (_ =? 0); [apply wp_ret; exact H9|].
  destruct (_ =? 0); [|apply wp_ret; exact H9].
  eapply wp_sink_bind; [apply keeps_rescan; sink_keep | exact H9 | intros e2 s10 H10].
  apply wp_ret. exact H10.
Qed.

Lemma innerWhile_grew n d top bot kg e l s :
  sink s = l ->
  wp false (innerWhile ebwt rnd cfg rec sd depth u o1 o2 ham iham pairs elims
                       n d top bot kg e) s (grew' l).
Proof.
  revert kg e s. induction n as [|n IH]; intros kg e s Hs; simpl.
  - destruct (_ || _); [reflexivity | apply wp_ret; exact Hs].
  - destruct (_ || _); [|apply wp_ret; exact Hs].
    apply wp_bind. eapply wp_mono; [apply tryTarget_grew; exact Hs|].
    intros r s' H. destruct r as [b|e']; [apply wp_ret; exact H | apply IH; exact H].
Qed.

Lemma matchStep_grew lp l s :
  sink s = l ->
  wp false (matchStep ebwt rnd cfg rec sd depth u o1 o2 ham iham pairs elims lp)
     s (grew' l).
Proof.
  intros Hs. unfold matchStep. cbv zeta.
  eapply wp_sink_bind; [apply keeps_qryAt; sink_keep | exact Hs | intros c s1 H1].
  eapply wp_sink_bind; [apply keeps_stepPairs; sink_keep | exact H1 | intros [top bot] s2 H2].
  eapply wp_sink_bind; [apply keeps_updateElims; sink_keep | exact H2 | intros e1 s3 H3].
  eapply wp_sink_bind; [apply keeps_keepGoing; sink_keep | exact H3 | intros kg s4 H4].
  apply wp_bind. eapply wp_mono; [apply innerWhile_grew; exact H4|].
  intros r s5 H5. destruct r as [b|e2]; [apply wp_ret; exact H5|].
  simpl in H5. destruct (_ && _); [apply wp_ret; exact H5|].
  eapply wp_sink_bind; [apply keeps_qryAt; sink_keep | exact H5 | intros c' s6 H6].
  eapply wp_sink_bind; [apply keeps_stChars; sink_keep | exact H6 | intros ? s7 H7].
  apply wp_ret. exact H7.
Qed.

Lemma matchLoop_grew n lp l s :
  sink s = l ->
  wp false (matchLoop ebwt rnd cfg rec sd depth u o1 o2 ham iham pairs elims n lp)
     s (grew l).
Proof.
  revert lp s. induction n as [|n IH]; intros lp s Hs; simpl.
  - destruct (_ <? _); [reflexivity|].
    destruct (_ <=? _); [apply report_grew; exact Hs | apply wp_ret; exact Hs].
  - destruct (_ <? _).
    + apply wp_bind. eapply wp_mono; [apply matchStep_grew; exact Hs|].
      intros r s' H. destruct r as [b|lp']; [apply wp_ret; exact H | apply IH; exact H].
    + destruct (_ <=? _); [apply report_grew; exact Hs | apply wp_ret; exact Hs].
Qed.

Lemma frame_grew top bot l s :
  sink s = l ->
  wp false (frame ebwt rnd cfg rec sd depth u o1 o2 ham iham pairs elims top bot)
     s (grew l).
Proof.
  intros Hs. unfold frame.
  destruct (_ && _); [apply wp_ret; exact Hs|].
  destruct (_ && _); [apply wp_ret; exact Hs|].
  apply matchLoop_grew. exact Hs.
Qed.

End Frame.

Lemma backtrackRec_grew fuel : forall sd depth u o1 o2 top bot ham iham pairs elims l s,
  sink s = l ->
  wp false (backtrackRec ebwt rnd cfg fuel sd depth u o1 o2 top bot ham iham
                         pairs elims) s (grew l).
Proof.
  induction fuel as [|f IH]; intros; simpl; [reflexivity|].
  apply frame_grew; [|assumption]. intros. apply IH. assumption.
Qed.

Lemma backtrack_grew fuel ham l s :
  sink s = l -> wp false (backtrack ebwt rnd cfg fuel ham) s (grew l).
Proof.
  intros Hs. unfold backtrack, backtrackFrom. cbv zeta.
  destruct (_ <=? _); [|apply backtrackRec_grew; exact Hs].
  eapply wp_sink_bind; [intros s0; reflexivity | exact Hs | intros q s1 H1].
  destruct (_ && _).
  - destruct (_ <? _); [apply backtrackRec_grew | apply report_grew]; exact H1.
  - destruct (_ <? _); [apply backtrackRec_grew; exact H1 | apply wp_ret; exact H1].
Qed.

End Sink.

(** ** Stepping through monadic code *)

Lemma wp_ldP t k a s Q :
  Q (rd (_pairs s) a) (note (EvAccess APairs k a) s) -> wp t (ldP k a) s Q.
Proof. intros H; exact H. Qed.
Lemma wp_stP t k a v s Q :
  Q tt (note (EvAccess APairs k a) (set_pairs (<[a := v]> (_pairs s)) s)) ->
  wp t (stP k a v) s Q.
Proof. intros H; exact H. Qed.
Lemma wp_ldE t k a s Q :
  Q (rd (_elims s) a) (note (EvAccess AElims k a) s) -> wp t (ldE k a) s Q.
Proof. intros H; exact H. Qed.
Lemma wp_stE t k a v s Q :
  Q tt (note (EvAccess AElims k a) (set_elims (<[a := v]> (_elims s)) s)) ->
  wp t (stE k a v) s Q.
Proof. intros H; exact H. Qed.
Lemma wp_ldMms t i s Q : Q (rd (_mms s) i) s -> wp t (ldMms i) s Q.
Proof. intros H; exact H. Qed.
Lemma wp_stMms t i v s Q :
  Q tt (set_mms (<[i := v]> (_mms s)) s) -> wp t (stMms i v) s Q.
Proof. intros H; exact H. Qed.
Lemma wp_ldChars t i s Q : Q (rd (_chars s) i) s -> wp t (ldChars i) s Q.
Proof. intros H; exact H. Qed.
Lemma wp_stChars t i v s Q :
  Q tt (set_chars (<[i := v]> (_chars s)) s) -> wp t (stChars i v) s Q.
Proof. intros H; exact H. Qed.
Lemma wp_qryAt t i s Q : Q (nthZ (_qry s) i) s -> wp t (qryAt i) s Q.
Proof. intros H; exact H. Qed.
Lemma wp_getQry t s Q : Q (_qry s) s -> wp t getQry s Q.
Proof. intros H; exact H. Qed.
Lemma wp_appendSeedling t b s Q :
  Q tt (set_seedlings (_seedlings s ++ [b]) s) -> wp t (appendSeedling b) s Q.
Proof. intros H; exact H. Qed.
Lemma wp_logCall t e s Q : Q tt (note e s) -> wp t (logCall e) s Q.
Proof. intros H; exact H. Qed.
Lemma wp_rand t rnd s Q :
  Q (fst (nextU32 rnd (_rand s))) (set_rand (snd (nextU32 rnd (_rand s))) s) ->
  wp t (rand rnd) s Q.
Proof. unfold wp, rand. destruct (nextU32 rnd (_rand s)). intros H; exact H. Qed.
Lemma wp_PAIR_SPREAD t k pairs d c s Q :
  Q (wrap32 (rd (_pairs s) (PAIR_BOT pairs d c) - rd (_pairs s) (PAIR_TOP pairs d c)))
    (note (EvAccess APairs k (PAIR_TOP pairs d c))
          (note (EvAccess APairs k (PAIR_BOT pairs d c)) s)) ->
  wp t (PAIR_SPREAD k pairs d c) s Q.
Proof. intros H; exact H. Qed.

Ltac wp_step :=
  lazymatch goal with
  | |- wp _ (bind _ _) _ _ => apply wp_bind
  | |- wp _ (ret _) _ _ => apply wp_ret
  | |- wp _ crash _ _ => reflexivity
  | |- wp _ (ldP _ _) _ _ => apply wp_ldP
  | |- wp _ (stP _ _ _) _ _ => apply wp_stP
  | |- wp _ (ldE _ _) _ _ => apply wp_ldE
  | |- wp _ (stE _ _ _) _ _ => apply wp_stE
  | |- wp _ (ldMms _) _ _ => apply wp_ldMms
  | |- wp _ (stMms _ _) _ _ => apply wp_stMms
  | |- wp _ (ldChars _) _ _ => apply wp_ldChars
  | |- wp _ (stChars _ _) _ _ => apply wp_stChars
  | |- wp _ (qryAt _) _ _ => apply wp_qryAt
  | |- wp _ getQry _ _ => apply wp_getQry
  | |- wp _ (appendSeedling _) _ _ => apply wp_appendSeedling
  | |- wp _ (logCall _) _ _ => apply wp_logCall
  | |- wp _ (rand _) _ _ => apply wp_rand
  | |- wp _ (PAIR_SPREAD _ _ _ _) _ _ => apply wp_PAIR_SPREAD
  | |- wp _ (if ?b then _ else _) _ _ => destruct b eqn:?
  | |- wp _ (let '(_, _) := ?x in _) _ _ => destruct x eqn:?
  end.

(** A step that keeps [R] and, independently, yields [Q]. *)
Lemma wp_keeps_bind t R {A B} (m : M A) (k : A -> M B) s Q :
  keeps t R m ->
  (forall a s', R s s' -> wp t (k a) s' Q) ->
  wp t (bind m k) s Q.
Proof.
  intros Hm Hk. apply wp_bind. eapply wp_mono; [apply Hm|].
  intros a s' H. apply Hk, H.
Qed.

(** ** The trace only grows *)

Definition logs (P : Event -> Prop) (s s' : BtState) : Prop :=
  exists new, trace s' = new ++ trace s /\ Forall P new.

Lemma logs_pre P : preorder (logs P).
Proof.
  split.
  - intros s. exists []. split; [reflexivity | constructor].
  - intros a b c [n1 [H1 F1]] [n2 [H2 F2]]. exists (n2 ++ n1). split.
    + rewrite H2, H1. apply app_assoc.
    + apply Forall_app; split; assumption.
Qed.

Lemma logs_note (P : Event -> Prop) e s : P e -> logs P s (note e s).
Proof. intros H. exists [e]. split; [reflexivity | constructor; [exact H | constructor]]. Qed.

Lemma logs_same P s s' : trace s' = trace s -> logs P s s'.
Proof. intros H. exists []. split; [exact H | constructor]. Qed.

Lemma upto_In n : forall from x, In x (upto n from) -> from <= x < from + Z.of_nat n.
Proof.
  induction n as [|n IH]; intros from x H; simpl in H; [contradiction|].
  destruct H as [<-|H]; [lia|]. apply IH in H. lia.
Qed.

Section Shape.

Variable ebwt : Ebwt.
Variable rnd : RandomSource.
Variable cfg : Config.

Hypothesis qlen_small : 0 <= _qlen cfg < U32 - 2.

Definition callGood (e : Event) : Prop :=
  match e with
  | EvCall sd i u o1 o2 bu bo bt =>
    (bu, bo, bt) = btRegions cfg i u o1 o2 /\ (i < o1 -> o2 = _2revOff cfg)
  | EvAccess _ _ _ => True
  end.

Local Notation "'L'" := (logs callGood).

Lemma L_access a k addr s : L s (note (EvAccess a k addr) s).
Proof. apply logs_note. exact I. Qed.

Ltac L_side :=
  first [ apply logs_pre | apply L_access
        | intros; apply logs_same; reflexivity ].

Lemma scanJ_shape k pairs elims r ham i qi js : forall t s,
  wp true (scanJ k pairs elims r ham i qi js t) s
     (fun t' _ => (foundTarget t' = true /\ t_i t' = i)
                  \/ (foundTarget t' = foundTarget t /\ t_i t' = t_i t)).
Proof.
  induction js as [|j js IH]; intros t s; cbn [scanJ].
  - apply wp_ret. right. split; reflexivity.
  - repeat wp_step.
    + left. split; reflexivity.
    + eapply wp_mono; [apply IH|]. intros t' ? H. exact H.
    + apply IH.
Qed.

Lemma scanI_shape k pairs elims r ham u e idxs next : forall t s,
  foundTarget t = false ->
  wp true (scanI cfg k pairs elims r ham u e idxs next t) s
     (fun t' _ => In (t_i t') idxs \/ t_i t' = next).
Proof.
  induction idxs as [|i idxs IH]; intros t s Hf; cbn [scanI].
  - apply wp_ret. right. reflexivity.
  - destruct (i <? u).
    + eapply wp_mono; [apply IH; exact Hf|]. intros t' ? [H|H]; [left; right; exact H | right; exact H].
    + wp_step. wp_step. wp_step.
      * wp_step. eapply wp_mono; [apply scanJ_shape|].
        intros t1 s1 H1. cbv beta. simpl in H1.
        destruct (foundTarget t1) eqn:Hf1.
        -- apply wp_ret. destruct H1 as [[_ H1]|[H1 _]]; [left; left; symmetry; exact H1 | congruence].
        -- eapply wp_mono; [apply IH; exact Hf1|].
           intros t' ? [H|H]; [left; right; exact H | right; exact H].
      * eapply wp_mono; [apply IH; exact Hf|].
        intros t' ? [H|H]; [left; right; exact H | right; exact H].
Qed.

Lemma selectTarget_shape k pairs elims r ham depth d u e s :
  wp true (selectTarget cfg k pairs elims r ham depth d u e) s
     (fun t s' => L s s' /\ depth <= t_i t <= Z.max depth (d + 1)).
Proof.
  apply wp_conj.
  - apply keeps_selectTarget; L_side.
  - unfold selectTarget. eapply wp_mono; [apply scanI_shape; reflexivity|].
    intros t' ? [H|H]; [apply upto_In in H|]; lia.
Qed.

Lemma keepGoing_shape sd d cur top bot e s :
  wp true (keepGoing cfg sd d cur top bot e) s
     (fun kg s' => L s s' /\ (kg = true -> top < bot)).
Proof.
  apply wp_conj.
  - apply keeps_keepGoing; L_side.
  - unfold keepGoing.
    destruct ((cur =? 0) && (top <? bot) && _ && _ && _) eqn:H1.
    + assert (HT : keeps true (fun _ _ : BtState => True)
                         (if 0 <? sd then reportSeedling cfg sd else ret true)).
      { assert (preorder (fun _ _ : BtState => True)) by (split; auto).
        destruct (0 <? sd); [apply keeps_reportSeedling | apply keeps_ret]; auto. }
      apply wp_bind. eapply wp_mono; [apply HT|].
      intros ? ? ?. apply wp_ret. intros _.
      rewrite !andb_true_iff in H1. lia.
    + repeat wp_step; intros Hkg; try discriminate;
        repeat match goal with
               | H : _ && _ = true |- _ => apply andb_true_iff in H; destruct H
               end; lia.
Qed.

Lemma rescanStep_alt k pairs elims kq kidx l st s :
  wp true (rescanStep k pairs elims kq kidx l st) s
     (fun st' _ => altNum (fst st') = altNum (fst st)).
Proof.
  unfold rescanStep. destruct st as [e ov].
  wp_step. wp_step. wp_step; [|apply wp_ret; reflexivity].
  destruct ov; wp_step; wp_step; reflexivity.
Qed.

Lemma rescanPos_alt k pairs elims ham u kidx e s :
  wp true (rescanPos cfg k pairs elims ham u kidx e) s
     (fun e' _ => altNum e' = altNum e).
Proof.
  unfold rescanPos. cbv zeta.
  wp_step; [|apply wp_ret; reflexivity].
  wp_step; [|apply wp_ret; reflexivity].
  wp_step. eapply wp_mono.
  - apply (wp_forM true (fun st _ => altNum (fst st) = altNum e)); [reflexivity|].
    intros x st s0 _ Hst. eapply wp_mono; [apply rescanStep_alt|].
    intros st' ? H. cbv beta in *. congruence.
  - intros st' ? H. apply wp_ret. exact H.
Qed.

Lemma rescan_shape k pairs elims ham depth d u e s :
  wp true (rescan cfg k pairs elims ham depth d u e) s
     (fun e' s' => L s s' /\ altNum e' = altNum e).
Proof.
  apply wp_conj.
  - apply keeps_rescan; L_side.
  - unfold rescan.
    apply (wp_forM true (fun e' _ => altNum e' = altNum e)); [reflexivity|].
    intros x e0 s0 _ H0. eapply wp_mono; [apply rescanPos_alt|].
    intros e' ? H. cbv beta in *. congruence.
Qed.

Lemma report_shape sd top bot : keeps true L (report ebwt rnd cfg sd top bot).
Proof. apply keeps_report; L_side. Qed.

Section Frame.

Variable rec : Z -> Z -> Z -> Z -> Z -> Z -> Z -> Z -> Z -> Z -> Z -> M bool.
Variables (sd depth u o1 o2 ham iham pairs elims : Z).

Hypothesis sd_depth : 0 <= sd <= depth.
Hypothesis inv : o2 = _2revOff cfg \/ (o2 = o1 /\ o1 < depth).
Hypothesis rec_shape :
  forall sd' depth' u' o1' o2' top bot ham' iham' p e s,
    0 <= sd' <= depth' -> depth < depth' <= _qlen cfg + 1 ->
    o2' = _2revOff cfg \/ (o2' = o1' /\ o1' < depth') ->
    wp true (rec sd' depth' u' o1' o2' top bot ham' iham' p e) s
       (fun _ s' => L s s').

Lemma wrap32_small x : 0 <= x < U32 -> wrap32 x = x.
Proof. intros H. unfold wrap32. apply Z.mod_small. exact H. Qed.

Lemma wrap32_range x : 0 <= wrap32 x < U32.
Proof. unfold wrap32. apply Z.mod_pos_bound. reflexivity. Qed.

Lemma wrap32_pred_lt a : 0 < a -> 0 <= wrap32 (a - 1) < a.
Proof.
  intros H. pose proof (wrap32_range (a - 1)).
  assert (wrap32 (a - 1) <= a - 1) by (apply Z.mod_le; [lia | reflexivity]).
  lia.
Qed.

Lemma tryTarget_shape d e s :
  depth <= d < _qlen cfg ->
  wp true (tryTarget ebwt rnd cfg rec sd depth u o1 o2 ham iham pairs elims d e) s
     (fun r s' => L s s' /\
        match r with
        | inl _ => True
        | inr e' => 0 <= altNum e' /\ (0 < altNum e -> altNum e' < altNum e)
        end).
Proof.
  intros Hd. pose proof (logs_pre callGood) as [Lr Lt].
  unfold tryTarget.
  eapply wp_keeps_bind; [apply keeps_rand; L_side | intros x s1 H1].
  wp_step; [reflexivity|].
  apply wp_bind. eapply wp_mono; [apply selectTarget_shape|].
  intros t s2 [H2 Hi]. cbv beta zeta.
  destruct (btRegions cfg (t_i t) u o1 o2) as [[bu bo] bt] eqn:Hbt.
  eapply wp_keeps_bind; [apply keeps_stMms; L_side | intros ? s3 H3].
  eapply wp_keeps_bind; [apply keeps_stChars; L_side | intros ? s4 H4].
  assert (H04 : L s s4) by eauto.
  apply wp_bind. eapply (wp_mono _ _ _ (fun _ s' => L s s')).
  { wp_step.
    - eapply wp_mono; [apply report_shape|]. intros ? s5 H5. cbv beta in H5. eauto.
    - wp_step. wp_step.
      assert (Hcall : L s4 (note (EvCall sd (t_i t) u o1 o2 bu bo bt) s4)).
      { apply logs_note. simpl. split; [symmetry; exact Hbt|].
        intros Hlt. destruct inv as [?|[? ?]]; [assumption | lia]. }
      eapply wp_mono.
      + apply rec_shape.
        * rewrite wrap32_small by (unfold U32 in *; lia).
          rewrite wrap32_small by (unfold U32 in *; lia). lia.
        * rewrite wrap32_small by (unfold U32 in *; lia). lia.
        * rewrite wrap32_small by (unfold U32 in *; lia).
          unfold btRegions in Hbt.
          destruct (t_i t <? o1) eqn:E1.
          { inversion Hbt; subst. left.
            destruct inv as [?|[? ?]]; [assumption | lia]. }
          destruct (t_i t <? o2) eqn:E2.
          { destruct (negb (_halfAndHalf cfg)); inversion Hbt; subst.
            - left. destruct inv as [?|[? ?]]; [assumption | lia].
            - right. lia. }
          inversion Hbt; subst.
          destruct inv as [?|[? ?]]; [left; assumption | right; lia].
      + intros ? s5 H5. cbv beta in H5. eauto. }
  intros res s5 H5. cbv beta in H5.
  destruct res; [apply wp_ret; split; [exact H5 | exact I]|].
  eapply wp_keeps_bind; [apply keeps_qryAt; L_side | intros c s6 H6].
  eapply wp_keeps_bind; [apply keeps_stChars; L_side | intros ? s7 H7].
  eapply wp_keeps_bind; [apply keeps_ldE; L_side | intros y s8 H8].
  eapply wp_keeps_bind; [apply keeps_stE; L_side | intros ? s9 H9].
  assert (H09 : L s s9) by eauto 10.
  cbv zeta. cbn [altNum eligibleNum].
  wp_step; [apply wp_ret; split; [exact H09 | exact I]|].
  assert (Ha : 0 <= wrap32 (altNum e - 1) /\
               (0 < altNum e -> wrap32 (altNum e - 1) < altNum e)).
  { split; [apply wrap32_range | intros; apply wrap32_pred_lt; assumption]. }
  wp_step.
  - apply wp_bind. eapply wp_mono; [apply rescan_shape|].
    intros e2 s10 [H10 Halt]. apply wp_ret. split; [eauto|].
    rewrite Halt. exact Ha.
  - apply wp_ret. split; [exact H09 | exact Ha].
Qed.

Lemma innerWhile_shape n : forall d top bot kg e s,
  depth <= d < _qlen cfg ->
  (if top =? bot then kg = false /\ (Z.to_nat (altNum e) < n)%nat
   else kg = true -> (0 < n)%nat) ->
  wp true (innerWhile ebwt rnd cfg rec sd depth u o1 o2 ham iham pairs elims
                      n d top bot kg e) s
     (fun _ s' => L s s').
Proof.
  pose proof (logs_pre callGood) as [Lr Lt].
  induction n as [|n IH]; intros d top bot kg e s Hd Hp; cbn [innerWhile].
  - destruct (top =? bot) eqn:E.
    + destruct Hp as [-> Hn]. lia.
    + destruct kg; [specialize (Hp eq_refl); lia|].
      cbn [andb orb]. apply wp_ret. apply Lr.
  - destruct ((top =? bot) && (0 <? altNum e) || kg) eqn:C; [|apply wp_ret; apply Lr].
    apply wp_bind. eapply wp_mono; [apply tryTarget_shape; exact Hd|].
    intros r s1 [H1 Hr]. destruct r as [b|e']; [apply wp_ret; exact H1|].
    eapply wp_mono; [apply IH; [exact Hd|] | intros ? s2 H2; cbv beta in H2; eauto].
    destruct (top =? bot) eqn:E; [|discriminate].
    destruct Hp as [-> Hn]. split; [reflexivity|].
    rewrite orb_false_r in C. cbn [andb] in C. apply Z.ltb_lt in C.
    destruct Hr as [Hr1 Hr2]. specialize (Hr2 C). lia.
Qed.

Lemma matchStep_shape l s :
  depth <= l_d l < _qlen cfg ->
  wp true (matchStep ebwt rnd cfg rec sd depth u o1 o2 ham iham pairs elims l) s
     (fun r s' => L s s' /\
        match r with
        | inl _ => True
        | inr l' => l_d l' = wrap32 (l_d l + 1) /\ l_cur l' = wrap32 (l_cur l - 1)
        end).
Proof.
  intros Hd. pose proof (logs_pre callGood) as [Lr Lt].
  unfold matchStep. cbv zeta.
  eapply wp_keeps_bind; [apply keeps_qryAt; L_side | intros c s1 H1].
  eapply wp_keeps_bind; [apply keeps_stepPairs; L_side | intros [top bot] s2 H2].
  eapply wp_keeps_bind; [apply keeps_updateElims; L_side | intros e1 s3 H3].
  apply wp_bind. eapply wp_mono; [apply keepGoing_shape|].
  intros kg s4 [H4 Hkg].
  apply wp_bind. eapply wp_mono.
  { apply innerWhile_shape; [exact Hd|].
    destruct (top =? bot) eqn:E.
    - split; [|lia]. destruct kg; [|reflexivity]. specialize (Hkg eq_refl). lia.
    - intros; lia. }
  intros r s5 H5. cbv beta in H5.
  assert (H05 : L s s5) by eauto 10.
  destruct r as [b|e2]; [apply wp_ret; split; [exact H05 | exact I]|].
  wp_step; [apply wp_ret; split; [exact H05 | exact I]|].
  eapply wp_keeps_bind; [apply keeps_qryAt; L_side | intros c' s6 H6].
  eapply wp_keeps_bind; [apply keeps_stChars; L_side | intros ? s7 H7].
  apply wp_ret. split; [eauto 10|]. split; reflexivity.
Qed.

Lemma matchLoop_shape n : forall l s,
  (l_cur l < _qlen cfg ->
   depth <= l_d l /\ l_d l + l_cur l = _qlen cfg - 1 /\ 0 <= l_cur l
   /\ (Z.to_nat (l_cur l) < n)%nat) ->
  wp true (matchLoop ebwt rnd cfg rec sd depth u o1 o2 ham iham pairs elims n l) s
     (fun _ s' => L s s').
Proof.
  pose proof (logs_pre callGood) as [Lr Lt].
  assert (Hend : forall l s,
            wp true (if _reportSeedlings cfg <=? sd
                     then report ebwt rnd cfg sd (l_top l) (l_bot l)
                     else ret false) s (fun _ s' => L s s')).
  { intros l s. destruct (_ <=? _); [apply report_shape | apply wp_ret, Lr]. }
  induction n as [|n IH]; intros l s Hl; cbn [matchLoop].
  - destruct (l_cur l <? _qlen cfg) eqn:E; [|apply Hend].
    apply Z.ltb_lt in E. specialize (Hl E). lia.
  - destruct (l_cur l <? _qlen cfg) eqn:E; [|apply Hend].
    apply Z.ltb_lt in E. specialize (Hl E). destruct Hl as (Hd & Hsum & Hc & Hn).
    apply wp_bind. eapply wp_mono; [apply matchStep_shape; lia|].
    intros r s1 [H1 Hr]. destruct r as [b|l']; [apply wp_ret; exact H1|].
    destruct Hr as [Hd' Hc'].
    eapply wp_mono; [apply IH | intros ? s2 H2; cbv beta in H2; eauto].
    intros E'. rewrite Hd', Hc' in *.
    rewrite wrap32_small in * by (unfold U32 in *; lia).
    destruct (Z.eq_dec (l_cur l) 0) as [Hz|Hz].
    + rewrite Hz in E'. change (wrap32 (0 - 1)) with (U32 - 1) in E'. lia.
    + rewrite wrap32_small in * by (unfold U32 in *; lia). lia.
Qed.

Lemma frame_shape top bot s :
  depth <= _qlen cfg + 1 ->
  wp true (frame ebwt rnd cfg rec sd depth u o1 o2 ham iham pairs elims top bot) s
     (fun _ s' => L s s').
Proof.
  intros Hd. pose proof (logs_pre callGood) as [Lr Lt].
  unfold frame. wp_step; [apply wp_ret, Lr|]. wp_step; [apply wp_ret, Lr|].
  cbv zeta. apply matchLoop_shape. cbn [l_cur l_d].
  intros E.
  assert (depth < _qlen cfg).
  { destruct (Z_lt_dec depth (_qlen cfg)); [assumption|].
    assert (Hc : depth = _qlen cfg \/ depth = _qlen cfg + 1) by lia.
    unfold wrap32 in E.
    destruct Hc as [Hc|Hc]; rewrite Hc in E.
    - replace (_qlen cfg - _qlen cfg - 1) with (-1) in E by lia.
      change (-1 mod U32) with (U32 - 1) in E. lia.
    - replace (_qlen cfg - (_qlen cfg + 1) - 1) with (-2) in E by lia.
      change (-2 mod U32) with (U32 - 2) in E. lia. }
  rewrite wrap32_small by (unfold U32 in *; lia). lia.
Qed.

End Frame.

Lemma backtrackRec_shape fuel :
  forall sd depth u o1 o2 top bot ham iham pairs elims s,
    0 <= sd <= depth -> depth <= _qlen cfg + 1 ->
    o2 = _2revOff cfg \/ (o2 = o1 /\ o1 < depth) ->
    (Z.to_nat (_qlen cfg + 2 - depth) <= fuel)%nat ->
    wp true (backtrackRec ebwt rnd cfg fuel sd depth u o1 o2 top bot ham iham
                          pairs elims) s (fun _ s' => L s s').
Proof.
  induction fuel as [|f IH]; intros sd depth u o1 o2 top bot ham iham pairs elims s
                                    Hsd Hd Hinv Hf; [lia|].
  cbn [backtrackRec]. apply frame_shape; try assumption.
  intros. apply IH; try assumption; lia.
Qed.

End Shape.

(** ** The internal quality *)


(** ** Seedlings *)




(** The pair recorded for the [i]-th mismatch of the current path. *)
Definition seedlingPair (cfg : Config) (s : BtState) (i : Z) : Z * Z :=
  let m := rd (_mms s) i in
  (wrap8 m, wrap8 (charToDna (rd (_chars s) (wrap32 (_qlen cfg - m - 1))))).

Definition seedlingBytes (cfg : Config) (s : BtState) (k i : Z) : list Z :=
  let '(p, c) := seedlingPair cfg s i in
  p :: c :: (if i <? wrap32 (k - 1) then [254] else []).

Lemma reportSeedling_loop cfg k s0 n : forall from s,
  _mms s = _mms s0 -> _chars s = _chars s0 ->
  forM (upto n from)
       (fun i (_ : unit) =>
          m <- ldMms i ;;
          appendSeedling (wrap8 m) ;;;
          let ci := wrap32 (_qlen cfg - m - 1) in
          ch <- ldChars ci ;;
          let c := charToDna ch in
          appendSeedling (wrap8 c) ;;;
          if i <? wrap32 (k - 1) then appendSeedling 254 else ret tt) tt s
  = Ok tt (set_seedlings
             (_seedlings s ++ concat (map (seedlingBytes cfg s0 k) (upto n from))) s).
Proof.
  induction n as [|n IH]; intros from s Hm Hc; cbn [upto forM map concat].
  - unfold ret. rewrite app_nil_r. destruct s; reflexivity.
  - unfold bind at 1. unfold bind at 1. unfold ldMms at 1.
    unfold bind at 1. unfold appendSeedling at 1.
    unfold bind at 1. unfold ldChars at 1.
    unfold bind at 1. unfold appendSeedling at 1.
    cbn [_mms _chars set_seedlings _seedlings].
    unfold seedlingBytes at 1, seedlingPair. rewrite <- Hm, <- Hc.
    destruct (from <? wrap32 (k - 1)).
    + unfold appendSeedling at 1. rewrite IH by assumption.
      cbn [_seedlings set_seedlings _qry _pairs _elims _mms _chars _rand sink trace].
      rewrite <- !app_assoc. reflexivity.
    + unfold ret at 1. rewrite IH by assumption.
      cbn [_seedlings set_seedlings _qry _pairs _elims _mms _chars _rand sink trace].
      rewrite <- !app_assoc. reflexivity.
Qed.


Lemma map_upto_nth {A} (f : Z -> A) (l : list A) (dflt : A) :
  (forall i, (i < length l)%nat -> f (Z.of_nat i) = nth i l dflt) ->
  map f (upto (length l) 0) = l.
Proof.
  intros H.
  assert (G : forall (l : list A) from,
             (forall i, (i < length l)%nat -> f (from + Z.of_nat i) = nth i l dflt) ->
             map f (upto (length l) from) = l).
  { clear. induction l as [|x l IH]; intros from H; [reflexivity|].
    cbn [length upto map]. f_equal.
    - specialize (H 0%nat). cbn in H. rewrite Z.add_0_r in H. apply H. lia.
    - apply IH. intros i Hi. specialize (H (S i)).
      cbn [nth] in H. rewrite <- H by (cbn; lia). f_equal. lia. }
  apply G. intros i Hi. rewrite Z.add_0_l. apply H, Hi.
Qed.


(** ** Reading the scratch arenas *)

Lemma rd_insert_eq (m : gmap Z Z) a v : rd (<[a := v]> m) a = v.
Proof. unfold rd. rewrite lookup_insert_eq. reflexivity. Qed.

Lemma rd_insert_ne (m : gmap Z Z) a b v : a <> b -> rd (<[a := v]> m) b = rd m b.
Proof. intros H. unfold rd. rewrite lookup_insert_ne by exact H. reflexivity. Qed.

Lemma rd_insert_eq_gen (m : gmap Z Z) a b v : a = b -> rd (<[a := v]> m) b = v.
Proof. intros ->. apply rd_insert_eq. Qed.

Ltac rd_simpl :=
  repeat first [ rewrite rd_insert_eq
               | rewrite rd_insert_ne by (unfold PAIR_TOP, PAIR_BOT; lia) ].

(** ** Bits of an [elims] entry *)

Definition sum4 (f : Z -> Z) : Z := f 0 + f 1 + f 2 + f 3.
Definition b2z (b : bool) : Z := if b then 1 else 0.

(** Bit [j] of [e] is clear: the pair for base [j] is not eliminated. *)
Definition openb (e j : Z) : bool := Z.land e (Z.shiftl 1 j) =? 0.

Ltac four j :=
  let H := fresh in
  assert (H : j = 0 \/ j = 1 \/ j = 2 \/ j = 3) by lia;
  destruct H as [->|[->|[->| ->]]].

Ltac sixteen e :=
  let H := fresh in
  assert (H : e = 0 \/ e = 1 \/ e = 2 \/ e = 3 \/ e = 4 \/ e = 5 \/ e = 6
              \/ e = 7 \/ e = 8 \/ e = 9 \/ e = 10 \/ e = 11 \/ e = 12
              \/ e = 13 \/ e = 14 \/ e = 15) by lia;
  repeat (destruct H as [->|H]); [..|subst e].

Lemma openb_bit c j :
  0 <= c < 4 -> 0 <= j < 4 -> openb (wrap8 (Z.shiftl 1 c)) j = negb (j =? c).
Proof. intros Hc Hj. four c; four j; reflexivity. Qed.

Lemma bit_range c : 0 <= c < 4 -> 0 <= wrap8 (Z.shiftl 1 c) < 16.
Proof. intros Hc. four c; vm_compute; split; congruence. Qed.

Lemma openb_lor e i j :
  0 <= e < 16 -> 0 <= i < 4 -> 0 <= j < 4 ->
  openb (wrap8 (Z.lor e (Z.shiftl 1 i))) j = openb e j && negb (j =? i).
Proof. intros He Hi Hj. sixteen e; four i; four j; reflexivity. Qed.

Lemma lor_range e i :
  0 <= e < 16 -> 0 <= i < 4 -> 0 <= wrap8 (Z.lor e (Z.shiftl 1 i)) < 16.
Proof. intros He Hi. sixteen e; four i; vm_compute; split; congruence. Qed.

Lemma full_closed e :
  0 <= e < 16 -> (e =? 15) = negb (openb e 0 || openb e 1 || openb e 2 || openb e 3).
Proof. intros He. sixteen e; reflexivity. Qed.

(** ** Sums over the rows of a frame *)

Fixpoint sumRows (f : Z -> Z) (rows : list Z) : Z :=
  match rows with
  | [] => 0
  | k :: rows' => f k + sumRows f rows'
  end.

Lemma sumRows_app f r1 r2 : sumRows f (r1 ++ r2) = sumRows f r1 + sumRows f r2.
Proof. induction r1 as [|k r1 IH]; cbn [app sumRows]; lia. Qed.

Lemma sumRows_ext f g rows :
  (forall k, In k rows -> f k = g k) -> sumRows f rows = sumRows g rows.
Proof.
  induction rows as [|k rows IH]; intros H; cbn [sumRows]; [reflexivity|].
  rewrite (H k) by (left; reflexivity). rewrite IH; [reflexivity|].
  intros k' Hk'. apply H. right; exact Hk'.
Qed.

Lemma sumRows_nonneg f rows :
  (forall k, In k rows -> 0 <= f k) -> 0 <= sumRows f rows.
Proof.
  induction rows as [|k rows IH]; intros H; cbn [sumRows]; [lia|].
  pose proof (H k (or_introl eq_refl)).
  assert (0 <= sumRows f rows) by (apply IH; intros; apply H; right; assumption).
  lia.
Qed.

Lemma sumRows_le f g rows :
  (forall k, In k rows -> f k <= g k) -> sumRows f rows <= sumRows g rows.
Proof.
  induction rows as [|k rows IH]; intros H; cbn [sumRows]; [lia|].
  pose proof (H k (or_introl eq_refl)).
  assert (sumRows f rows <= sumRows g rows) by (apply IH; intros; apply H; right; assumption).
  lia.
Qed.

Lemma sumRows_pos f rows :
  (forall k, In k rows -> 0 <= f k) -> 0 < sumRows f rows ->
  exists k, In k rows /\ 0 < f k.
Proof.
  induction rows as [|k rows IH]; intros H Hp; cbn [sumRows] in Hp; [lia|].
  destruct (Z_lt_dec 0 (f k)) as [Hk|Hk].
  - exists k. split; [left; reflexivity | exact Hk].
  - pose proof (H k (or_introl eq_refl)).
    destruct IH as [k' [Hin Hk']]; [intros; apply H; right; assumption | lia|].
    exists k'. split; [right; exact Hin | exact Hk'].
Qed.

Lemma sumRows_ge f rows k :
  (forall k, In k rows -> 0 <= f k) -> In k rows -> f k <= sumRows f rows.
Proof.
  induction rows as [|k' rows IH]; intros H Hin; [contradiction|].
  cbn [sumRows]. pose proof (H k' (or_introl eq_refl)).
  assert (0 <= sumRows f rows)
    by (apply sumRows_nonneg; intros; apply H; right; assumption).
  destruct Hin as [->|Hin]; [lia|].
  assert (f k <= sumRows f rows) by (apply IH; [intros; apply H; right; assumption | exact Hin]).
  lia.
Qed.

(** Changing the summand at one row of a duplicate-free list. *)
Lemma sumRows_change f g rows i :
  List.NoDup rows -> In i rows -> (forall k, In k rows -> k <> i -> g k = f k) ->
  sumRows g rows = sumRows f rows + (g i - f i).
Proof.
  induction rows as [|k rows IH]; intros Hnd Hin Hg; [contradiction|].
  inversion Hnd as [|? ? Hk Hnd']; subst. cbn [sumRows].
  destruct Hin as [->|Hin].
  - rewrite (sumRows_ext g f rows); [lia|].
    intros k' Hk'. apply Hg; [right; exact Hk' | intros ->; contradiction].
  - rewrite IH; [|exact Hnd' | exact Hin | intros; apply Hg; [right|]; assumption].
    rewrite (Hg k); [lia | left; reflexivity | intros ->; contradiction].
Qed.

Lemma upto_snoc n : forall from, upto (S n) from = upto n from ++ [from + Z.of_nat n].
Proof.
  induction n as [|n IH]; intros from.
  - cbn. rewrite Z.add_0_r. reflexivity.
  - change (upto (S (S n)) from) with (from :: upto (S n) (from + 1)).
    rewrite IH. cbn [upto app]. do 3 f_equal. lia.
Qed.

Lemma upto_In_iff n : forall from x, In x (upto n from) <-> from <= x < from + Z.of_nat n.
Proof.
  induction n as [|n IH]; intros from x; cbn [upto In]; [lia|].
  rewrite IH. lia.
Qed.

Lemma upto_NoDup n : forall from, List.NoDup (upto n from).
Proof.
  induction n as [|n IH]; intros from; cbn [upto]; constructor; [|apply IH].
  rewrite upto_In_iff. lia.
Qed.

Lemma upto_length n : forall from, length (upto n from) = n.
Proof. induction n as [|n IH]; intros; cbn; auto. Qed.


(** ** The search keeps within budget, regions and scratch slices *)

Lemma logs_cons (P : Event -> Prop) e l t :
  (exists new, l = new ++ t /\ Forall P new) -> P e ->
  exists new, e :: l = new ++ t /\ Forall P new.
Proof.
  intros [new [-> HF]] He. exists (e :: new). split; [reflexivity|].
  constructor; assumption.
Qed.

Lemma logs_nil (P : Event -> Prop) t : exists new, t = new ++ t /\ Forall P new.
Proof. exists []. split; [reflexivity | constructor]. Qed.

Lemma logs_weaken (P Q : Event -> Prop) s s' :
  (forall e, P e -> Q e) -> logs P s s' -> logs Q s s'.
Proof.
  intros H [new [Ht HF]]. exists new. split; [exact Ht|].
  eapply Forall_impl; [exact HF | exact H].
Qed.

Ltac st_simpl :=
  cbn [_qry _pairs _elims _mms _chars _seedlings _rand sink trace
       note set_qry set_pairs set_elims set_mms set_chars set_seedlings
       set_rand set_sink] in *.

Ltac zadd :=
  change (0 + 1) with 1 in *; change (1 + 1) with 2 in *;
  change (2 + 1) with 3 in *; change (3 + 1) with 4 in *.

Section Sound.

Variable ebwt : Ebwt.
Variable rnd : RandomSource.
Variable cfg : Config.

(** The number of rows of the index. *)
Variable N : Z.

(** The index answers with sub-intervals of the interval it is given. *)
Record indexOK : Prop := {
  rows_fit : N < U32;
  fchr_mono : 0 <= _fchr ebwt 0 <= _fchr ebwt 1
              /\ _fchr ebwt 1 <= _fchr ebwt 2 <= _fchr ebwt 3
              /\ _fchr ebwt 3 <= _fchr ebwt 4 <= N;
  mapLFEx_sub : forall top bot,
    0 <= top < bot -> bot <= N ->
    (forall c, 0 <= c < 4 ->
       0 <= fst (mapLFEx ebwt top bot c) <= snd (mapLFEx ebwt top bot c)
       /\ snd (mapLFEx ebwt top bot c) <= N)
    /\ sum4 (fun c => snd (mapLFEx ebwt top bot c) - fst (mapLFEx ebwt top bot c))
       <= bot - top;
  mapLF_sub : forall top bot c,
    0 <= top < bot -> bot <= N -> 0 <= c < 4 ->
    0 <= mapLF ebwt top c <= mapLF ebwt bot c
    /\ mapLF ebwt bot c <= N
    /\ mapLF ebwt bot c - mapLF ebwt top c <= bot - top;
  ftab_sub : forall k,
    ftabHi ebwt k < ftabLo ebwt (wrap32 (k + 1)) ->
    0 <= ftabHi ebwt k /\ ftabLo ebwt (wrap32 (k + 1)) <= N
}.

Hypothesis index_ok : indexOK.
Hypothesis qlen_spread : 0 < _qlen cfg <= _spread cfg.
Hypothesis spread_max : _spread cfg <= DEFAULT_SPREAD.
Hypothesis thresh_ok : 0 <= _qualThresh cfg /\ _qualThresh cfg + 255 < U32.

(** The positions spliced in for the mutations of the read. *)
Definition mutsPos : list Z :=
  match _muts cfg with
  | Some ms => map pos ms
  | None => []
  end.

Hypothesis muts_fit : Z.of_nat (length mutsPos) <= DEFAULT_SPREAD.

(** The reading under which the search is followed: nothing is asked of the
    fuel, and a division by zero is excluded unless the search is a
    half-and-half one. *)
Variable md : Mode.
Hypothesis md_partial : m_total md = false.
Hypothesis md_safe : m_safe md = true -> _halfAndHalf cfg = false.

(** The offset from the 5' end of the position at depth [i]. *)
Definition posOf (i : Z) : Z := wrap32 (_qlen cfg - i - 1).

(** An access of the frame at stack depth [k] stays in its two slices. *)
Definition inFrame (k pairs elims : Z) (e : Event) : Prop :=
  match e with
  | EvAccess APairs k' a => k' = k /\ pairs <= a < pairs + _spread cfg * 8
  | EvAccess AElims k' a => k' = k /\ elims <= a < elims + _spread cfg
  | EvCall _ _ _ _ _ _ _ _ => False
  end.

Section Frame.

Variables (sd ham u pairs elims : Z).

(** A step of the frame that leaves the read, the mismatches and the sink
    alone and accesses only the frame's slices. *)
Definition local (s s' : BtState) : Prop :=
  _qry s' = _qry s /\ _mms s' = _mms s /\ sink s' = sink s
  /\ logs (inFrame sd pairs elims) s s'.

Lemma local_pre : preorder local.
Proof.
  split.
  - intros s. repeat split. apply logs_pre.
  - intros a b c (H1 & H2 & H3 & H4) (G1 & G2 & G3 & G4).
    repeat split; try congruence.
    destruct (logs_pre (inFrame sd pairs elims)) as [_ Ht]. eapply Ht; eassumption.
Qed.

Definition topAt (P : gmap Z Z) (k j : Z) : Z := rd P (PAIR_TOP pairs k j).
Definition botAt (P : gmap Z Z) (k j : Z) : Z := rd P (PAIR_BOT pairs k j).
Definition spreadAt (P : gmap Z Z) (k j : Z) : Z := botAt P k j - topAt P k j.
Definition eAt (E : gmap Z Z) (k : Z) : Z := rd E (elims + k).

Definition quartetOK (P : gmap Z Z) (d : Z) : Prop :=
  forall j, 0 <= j < 4 -> 0 <= topAt P d j <= botAt P d j /\ botAt P d j <= N.

(** Only row [d] of the frame's pairs differs. *)
Definition rowOnly (d : Z) (P P' : gmap Z Z) : Prop :=
  forall a, ~ (pairs + d * 8 <= a < pairs + d * 8 + 8) -> rd P' a = rd P a.

Ltac local_tac :=
  unfold local; st_simpl;
  repeat split; try reflexivity;
  unfold logs; st_simpl;
  repeat (apply logs_cons; [|unfold inFrame, PAIR_TOP, PAIR_BOT; try (split; [reflexivity|]); try lia]);
  try apply logs_nil.

(** A loop of stores to distinct addresses of the frame's pairs. *)
Lemma storeLoop_spec (g f : Z -> Z) l : forall s,
  (forall x, In x l -> pairs <= g x < pairs + _spread cfg * 8) ->
  (forall x y, In x l -> In y l -> g x = g y -> x = y) ->
  List.NoDup l ->
  wp md (forM l (fun x (_ : unit) => stP sd (g x) (f x)) tt) s
     (fun _ s' =>
        local s s' /\ _elims s' = _elims s
        /\ (forall a, (forall x, In x l -> a <> g x) -> rd (_pairs s') a = rd (_pairs s) a)
        /\ (forall x, In x l -> rd (_pairs s') (g x) = f x)).
Proof.
  induction l as [|x l IH]; intros s Hr Hinj Hnd; cbn [forM].
  - apply wp_ret. split; [apply local_pre|]. split; [reflexivity|].
    split; [reflexivity | intros ? []].
  - inversion Hnd as [|? ? Hx Hnd']; subst.
    wp_step. wp_step. eapply wp_mono.
    + apply IH; [intros; apply Hr; right; assumption
                | intros; apply Hinj; try right; assumption | exact Hnd'].
    + intros ? s' (Hl & He & Ho & Hi). cbv beta. st_simpl.
      split.
      { destruct local_pre as [_ Ht]. eapply Ht; [|exact Hl].
        pose proof (Hr x (or_introl eq_refl)). local_tac. }
      split; [exact He|]. split.
      * intros addr Ha. rewrite Ho by (intros; apply Ha; right; assumption).
        apply rd_insert_ne. intros E. apply (Ha x (or_introl eq_refl)). symmetry; exact E.
      * intros y [<-|Hy]; [|apply Hi, Hy].
        rewrite Ho; [apply rd_insert_eq|].
        intros z Hz E. apply Hx. rewrite (Hinj x z); try assumption;
          [left; reflexivity | right; assumption].
Qed.

Lemma stepPairs_spec d c alt top bot s :
  0 <= c < 4 -> 0 <= d < _spread cfg ->
  (top = 0 /\ bot = 0 /\ d = 0) \/ (0 <= top < bot /\ bot <= N) ->
  let avail := if (top =? 0) && (bot =? 0) then N else bot - top in
  wp md (stepPairs ebwt sd pairs d c alt top bot) s
     (fun tb s' =>
        local s s' /\ _elims s' = _elims s /\ rowOnly d (_pairs s) (_pairs s')
        /\ 0 <= fst tb <= snd tb /\ snd tb <= N
        /\ snd tb - fst tb <= avail
        /\ (alt = true ->
            quartetOK (_pairs s') d
            /\ fst tb = topAt (_pairs s') d c /\ snd tb = botAt (_pairs s') d c
            /\ sum4 (spreadAt (_pairs s') d) <= avail)).
Proof.
  intros Hc Hd Hint avail. subst avail.
  destruct index_ok as [HN (Hf1 & Hf2 & Hf3) Hex Hlf _].
  unfold stepPairs.
  destruct ((top =? 0) && (bot =? 0)) eqn:E.
  - (* seeded from fchr *)
    assert (d = 0) as ->.
    { destruct Hint as [(_ & _ & ?)|[? ?]]; [assumption|].
      apply andb_true_iff in E. lia. }
    repeat wp_step.
    assert (Q : let P' := (<[PAIR_BOT pairs 0 3:=_fchr ebwt 4]>
             (<[PAIR_BOT pairs 0 2:=_fchr ebwt 3]>
                (<[PAIR_TOP pairs 0 3:=_fchr ebwt 3]>
                   (<[PAIR_BOT pairs 0 1:=_fchr ebwt 2]>
                      (<[PAIR_TOP pairs 0 2:=_fchr ebwt 2]>
                         (<[PAIR_BOT pairs 0 0:=_fchr ebwt 1]>
                            (<[PAIR_TOP pairs 0 1:=_fchr ebwt 1]>
                               (<[PAIR_TOP pairs 0 0:=_fchr ebwt 0]> (_pairs s))))))))) in
         (forall j, 0 <= j < 4 -> topAt P' 0 j = _fchr ebwt j
                                  /\ botAt P' 0 j = _fchr ebwt (j + 1))).
    { intros P' j Hj. unfold P', topAt, botAt.
      four j; split; rd_simpl; reflexivity. }
    cbv zeta in Q. st_simpl.
    assert (Qc := Q c Hc). destruct Qc as [Qt Qb].
    unfold topAt, botAt in Qt, Qb. rewrite Qt, Qb. cbn [fst snd].
    split; [local_tac|]. split; [reflexivity|]. split.
    { intros addr Ha. unfold PAIR_TOP, PAIR_BOT. rd_simpl. reflexivity. }
    split; [four c; zadd; lia|]. split; [four c; zadd; lia|].
    split; [four c; zadd; lia|].
    intros _. split; [|split; [symmetry; exact Qt | split; [symmetry; exact Qb|]]].
    + intros j Hj. destruct (Q j Hj) as [-> ->]. four j; zadd; lia.
    + unfold sum4, spreadAt.
      destruct (Q 0 ltac:(lia)) as [-> ->]. destruct (Q 1 ltac:(lia)) as [-> ->].
      destruct (Q 2 ltac:(lia)) as [-> ->]. destruct (Q 3 ltac:(lia)) as [-> ->].
      zadd. lia.
  - assert (Hv : 0 <= top < bot /\ bot <= N).
    { destruct Hint as [(-> & -> & _)|?]; [discriminate | assumption]. }
    destruct Hv as [Hv1 Hv2].
    destruct alt.
    + (* the full quartet *)
      destruct (Hex top bot Hv1 Hv2) as [Hq Hs].
      assert (Hin8 : forall x, In x (upto 8 0) -> 0 <= x < 8)
        by (intros x Hx; apply upto_In_iff in Hx; lia).
      assert (Hin4 : forall x, In x (upto 4 0) -> 0 <= x < 4)
        by (intros x Hx; apply upto_In_iff in Hx; lia).
      wp_step. eapply wp_mono.
      { apply (storeLoop_spec (fun x => pairs + (d * 8 + x)) (fun _ => 0)).
        - intros x Hx. apply Hin8 in Hx. lia.
        - intros x y _ _ Eg. lia.
        - apply upto_NoDup. }
      intros ? s1 (L1 & E1 & O1 & _). cbv beta.
      wp_step. eapply wp_mono.
      { apply (storeLoop_spec (fun x => pairs + (d * 8 + x))
                              (fun x => fst (mapLFEx ebwt top bot x))).
        - intros x Hx. apply Hin4 in Hx. lia.
        - intros x y _ _ Eg. lia.
        - apply upto_NoDup. }
      intros ? s2 (L2 & E2 & O2 & I2). cbv beta.
      wp_step. eapply wp_mono.
      { apply (storeLoop_spec (fun x => pairs + (d * 8 + 4 + x))
                              (fun x => snd (mapLFEx ebwt top bot x))).
        - intros x Hx. apply Hin4 in Hx. lia.
        - intros x y _ _ Eg. lia.
        - apply upto_NoDup. }
      intros ? s3 (L3 & E3 & O3 & I3). cbv beta.
      assert (Q : forall j, 0 <= j < 4 ->
                    topAt (_pairs s3) d j = fst (mapLFEx ebwt top bot j)
                    /\ botAt (_pairs s3) d j = snd (mapLFEx ebwt top bot j)).
      { intros j Hj. unfold topAt, botAt, PAIR_TOP, PAIR_BOT.
        assert (Hj4 : In j (upto 4 0)) by (apply upto_In_iff; lia).
        split.
        - rewrite O3 by (intros x Hx; apply Hin4 in Hx; lia).
          replace (pairs + (d * 8 + j + 0)) with (pairs + (d * 8 + j)) by lia.
          apply (I2 j Hj4).
        - replace (pairs + (d * 8 + j + 4)) with (pairs + (d * 8 + 4 + j)) by lia.
          apply (I3 j Hj4). }
      repeat wp_step. st_simpl.
      destruct (Q c Hc) as [Qt Qb]. unfold topAt, botAt in Qt, Qb.
      rewrite Qt, Qb. cbn [fst snd].
      assert (Hsum : snd (mapLFEx ebwt top bot c) - fst (mapLFEx ebwt top bot c)
                     <= bot - top).
      { unfold sum4 in Hs.
        pose proof (Hq 0 ltac:(lia)). pose proof (Hq 1 ltac:(lia)).
        pose proof (Hq 2 ltac:(lia)). pose proof (Hq 3 ltac:(lia)).
        four c; lia. }
      assert (L03 : local s s3).
      { destruct local_pre as [_ Ht]. eauto. }
      split.
      { destruct local_pre as [_ Ht]. eapply Ht; [exact L03|]. local_tac. }
      split; [congruence|]. split.
      { intros addr Ha.
        rewrite O3 by (intros x Hx; apply Hin4 in Hx; lia).
        rewrite O2 by (intros x Hx; apply Hin4 in Hx; lia).
        apply O1. intros x Hx; apply Hin8 in Hx; lia. }
      split; [apply Hq, Hc|]. split; [apply Hq, Hc|]. split; [exact Hsum|].
      intros _. split; [|split; [symmetry; exact Qt | split; [symmetry; exact Qb|]]].
      * intros j Hj. destruct (Q j Hj) as [-> ->]. apply Hq, Hj.
      * unfold sum4, spreadAt.
        destruct (Q 0 ltac:(lia)) as [-> ->]. destruct (Q 1 ltac:(lia)) as [-> ->].
        destruct (Q 2 ltac:(lia)) as [-> ->]. destruct (Q 3 ltac:(lia)) as [-> ->].
        exact Hs.
    + (* only the pair for [c] *)
      wp_step. cbn [fst snd].
      destruct (Hlf top bot c Hv1 Hv2 Hc) as (H1 & H2 & H3).
      split; [local_tac|]. split; [reflexivity|]. split; [intros a _; reflexivity|].
      split; [exact H1|]. split; [exact H2|]. split; [exact H3|].
      discriminate.
Qed.

(** *** Candidates of a frame *)

Definition Qd (k : Z) : Z := QUAL cfg (wrap32 (_qlen cfg - k - 1)).

Definition isAlt (k : Z) : bool :=
  (u <=? k) && (wrap32 (ham + Qd k) <=? _qualThresh cfg).

Definition rowCnt (E : gmap Z Z) (k : Z) : Z :=
  sum4 (fun j => b2z (openb (eAt E k) j)).

Definition rowSz (P E : gmap Z Z) (k : Z) : Z :=
  sum4 (fun j => if openb (eAt E k) j then spreadAt P k j else 0).

(** The open pairs of an alternative row are real intervals. *)
Definition rowOK (P E : gmap Z Z) (k : Z) : Prop :=
  isAlt k = true ->
  0 <= eAt E k < 16
  /\ forall j, 0 <= j < 4 -> openb (eAt E k) j = true ->
                0 <= topAt P k j < botAt P k j /\ botAt P k j <= N.

Definition altCnt (E : gmap Z Z) (rows : list Z) : Z :=
  sumRows (fun k => if isAlt k then rowCnt E k else 0) rows.
Definition altSz (P E : gmap Z Z) (rows : list Z) : Z :=
  sumRows (fun k => if isAlt k then rowSz P E k else 0) rows.
Definition eligCnt (E : gmap Z Z) (low : Z) (rows : list Z) : Z :=
  sumRows (fun k => if isAlt k && (Qd k =? low) then rowCnt E k else 0) rows.
Definition eligSz (P E : gmap Z Z) (low : Z) (rows : list Z) : Z :=
  sumRows (fun k => if isAlt k && (Qd k =? low) then rowSz P E k else 0) rows.

(** What [eligibleNum], [eligibleSz] and [lowAltQual] stand for. *)
Record EJ (P E : gmap Z Z) (rows : list Z) (e : Elig) : Prop := {
  ej_rows : forall k, In k rows -> rowOK P E k;
  ej_num : eligibleNum e = eligCnt E (lowAltQual e) rows;
  ej_sz : eligibleSz e = eligSz P E (lowAltQual e) rows;
  ej_min : forall k, In k rows -> isAlt k = true -> 0 < rowCnt E k ->
                     lowAltQual e <= Qd k;
  ej_some : 0 < altCnt E rows -> 0 < eligibleNum e;
  ej_none : altCnt E rows = 0 -> lowAltQual e = 255;
  ej_low : 0 <= lowAltQual e <= 255
}.

(** ... and [altNum] with them. *)
Definition EI (P E : gmap Z Z) (rows : list Z) (e : Elig) : Prop :=
  EJ P E rows e /\ altNum e = altCnt E rows.

(** Two memories that agree on the rows. *)
Definition agree (rows : list Z) (P E P' E' : gmap Z Z) : Prop :=
  forall k, In k rows ->
    eAt E' k = eAt E k
    /\ forall j, 0 <= j < 4 ->
         topAt P' k j = topAt P k j /\ botAt P' k j = botAt P k j.

Lemma agree_rowCnt rows P E P' E' k :
  agree rows P E P' E' -> In k rows -> rowCnt E' k = rowCnt E k.
Proof. intros H Hk. unfold rowCnt. rewrite (proj1 (H k Hk)). reflexivity. Qed.

Lemma agree_rowSz rows P E P' E' k :
  agree rows P E P' E' -> In k rows -> rowSz P' E' k = rowSz P E k.
Proof.
  clear.
  intros H Hk. unfold rowSz, spreadAt, sum4. destruct (H k Hk) as [-> Hp].
  destruct (Hp 0 ltac:(lia)) as [-> ->]. destruct (Hp 1 ltac:(lia)) as [-> ->].
  destruct (Hp 2 ltac:(lia)) as [-> ->]. destruct (Hp 3 ltac:(lia)) as [-> ->].
  reflexivity.
Qed.

Lemma agree_rowOK rows P E P' E' k :
  agree rows P E P' E' -> In k rows -> rowOK P E k -> rowOK P' E' k.
Proof.
  intros H Hk Hok Ha. destruct (H k Hk) as [He Hp]. rewrite He.
  destruct (Hok Ha) as [H1 H2]. split; [exact H1|].
  intros j Hj Ho. destruct (Hp j Hj) as [-> ->]. apply H2; assumption.
Qed.

Lemma agree_sums rows P E P' E' low :
  agree rows P E P' E' ->
  altCnt E' rows = altCnt E rows /\ altSz P' E' rows = altSz P E rows
  /\ eligCnt E' low rows = eligCnt E low rows
  /\ eligSz P' E' low rows = eligSz P E low rows.
Proof.
  intros H. unfold altCnt, altSz, eligCnt, eligSz.
  repeat split; apply sumRows_ext; intros k Hk;
    rewrite ?(agree_rowCnt rows P E P' E' k H Hk),
            ?(agree_rowSz rows P E P' E' k H Hk); reflexivity.
Qed.

Lemma agree_EJ rows P E P' E' e :
  agree rows P E P' E' -> EJ P E rows e -> EJ P' E' rows e.
Proof.
  intros H [H1 H3 H4 H5 H6 H7 H8].
  destruct (agree_sums rows P E P' E' (lowAltQual e) H) as (A1 & A2 & A3 & A4).
  constructor; try assumption; try congruence.
  - intros k Hk. eapply agree_rowOK; eauto.
  - intros k Hk Ha Hc. apply H5; try assumption.
    rewrite <- (agree_rowCnt rows P E P' E' k H Hk). exact Hc.
  - rewrite A1. exact H6.
  - rewrite A1. exact H7.
Qed.

Lemma agree_EI rows P E P' E' e :
  agree rows P E P' E' -> EI P E rows e -> EI P' E' rows e.
Proof.
  intros H [H1 H2]. split; [eapply agree_EJ; eauto|].
  destruct (agree_sums rows P E P' E' 0 H) as (A1 & _). congruence.
Qed.

Lemma rowCnt_range E k : 0 <= rowCnt E k <= 4.
Proof.
  clear.
  unfold rowCnt, sum4, b2z.
  destruct (openb _ 0), (openb _ 1), (openb _ 2), (openb _ 3); lia.
Qed.

Lemma rowSz_nonneg P E k : rowOK P E k -> isAlt k = true -> 0 <= rowSz P E k.
Proof.
  intros Hok Ha. destruct (Hok Ha) as [_ H]. unfold rowSz, sum4, spreadAt.
  pose proof (H 0 ltac:(lia)). pose proof (H 1 ltac:(lia)).
  pose proof (H 2 ltac:(lia)). pose proof (H 3 ltac:(lia)).
  destruct (openb _ 0), (openb _ 1), (openb _ 2), (openb _ 3); lia.
Qed.

Lemma rowSz_zero P E k : rowCnt E k = 0 -> rowSz P E k = 0.
Proof.
  clear.
  unfold rowCnt, rowSz, sum4, b2z.
  destruct (openb _ 0), (openb _ 1), (openb _ 2), (openb _ 3); lia.
Qed.

Lemma rowCnt_le_rowSz P E k :
  rowOK P E k -> isAlt k = true -> rowCnt E k <= rowSz P E k.
Proof.
  intros Hok Ha. destruct (Hok Ha) as [_ H]. unfold rowCnt, rowSz, sum4, spreadAt, b2z.
  pose proof (H 0 ltac:(lia)). pose proof (H 1 ltac:(lia)).
  pose proof (H 2 ltac:(lia)). pose proof (H 3 ltac:(lia)).
  destruct (openb _ 0), (openb _ 1), (openb _ 2), (openb _ 3); lia.
Qed.

Lemma eligCnt_le_eligSz P E low rows :
  (forall k, In k rows -> rowOK P E k) ->
  eligCnt E low rows <= eligSz P E low rows.
Proof.
  intros Hok. unfold eligCnt, eligSz. apply sumRows_le. intros k Hk.
  destruct (isAlt k) eqn:Ha; cbn [andb]; [|lia].
  pose proof (rowCnt_le_rowSz P E k (Hok k Hk) Ha). destruct (_ =? _); lia.
Qed.

(** Bounds that keep the 32-bit counters from wrapping. *)
Lemma altCnt_bound E rows : 0 <= altCnt E rows <= 4 * Z.of_nat (length rows).
Proof.
  unfold altCnt. induction rows as [|k rows IH]; cbn [sumRows length]; [lia|].
  pose proof (rowCnt_range E k). destruct (isAlt k); lia.
Qed.

Lemma elig_le_alt P E low rows :
  (forall k, In k rows -> rowOK P E k) ->
  0 <= eligCnt E low rows <= altCnt E rows
  /\ 0 <= eligSz P E low rows <= altSz P E rows.
Proof.
  intros Hok. unfold eligCnt, altCnt, eligSz, altSz. split; split.
  - apply sumRows_nonneg. intros k Hk. pose proof (rowCnt_range E k).
    destruct (_ && _); lia.
  - apply sumRows_le. intros k Hk. pose proof (rowCnt_range E k).
    destruct (isAlt k); cbn [andb]; [destruct (_ =? _)|]; lia.
  - apply sumRows_nonneg. intros k Hk.
    destruct (isAlt k) eqn:Ha; cbn [andb]; [|lia].
    pose proof (rowSz_nonneg P E k (Hok k Hk) Ha). destruct (_ =? _); lia.
  - apply sumRows_le. intros k Hk.
    destruct (isAlt k) eqn:Ha; cbn [andb]; [|lia].
    pose proof (rowSz_nonneg P E k (Hok k Hk) Ha). destruct (_ =? _); lia.
Qed.

Lemma QUAL_range k : 0 <= QUAL cfg k <= 222.
Proof.
  unfold QUAL, qualOf.
  assert (Hr : 0 <= wrap8 (nthZ (_qual cfg) k) < 256)
    by (unfold wrap8; apply Z.mod_pos_bound; lia).
  destruct (33 <=? wrap8 (nthZ (_qual cfg) k)) eqn:E; [apply Z.leb_le in E|]; lia.
Qed.

Lemma sumRows_zero f rows : (forall k, In k rows -> f k = 0) -> sumRows f rows = 0.
Proof.
  induction rows as [|k rows IH]; intros H; cbn [sumRows]; [reflexivity|].
  rewrite (H k) by (left; reflexivity). rewrite IH; [reflexivity|].
  intros; apply H; right; assumption.
Qed.

(** *** Bookkeeping for one position *)

(** [e'] and the pending-override flag once [cnt] candidates of total spread
    [sz] and quality [q] were added to [e]; [bump] tells whether [altNum]
    counts them. *)
Definition accumulated (e : Elig) (q : Z) (isElig ov bump : bool)
    (cnt sz : Z) (e' : Elig) (ov' : bool) : Prop :=
  altNum e' = altNum e + (if bump then cnt else 0)
  /\ if isElig then
       if ov then
         if cnt =? 0 then
           eligibleNum e' = eligibleNum e /\ eligibleSz e' = eligibleSz e
           /\ lowAltQual e' = lowAltQual e /\ ov' = true
         else
           eligibleNum e' = cnt /\ eligibleSz e' = sz
           /\ lowAltQual e' = q /\ ov' = false
       else
         eligibleNum e' = eligibleNum e + cnt
         /\ eligibleSz e' = eligibleSz e + sz
         /\ lowAltQual e' = lowAltQual e /\ ov' = false
     else
       eligibleNum e' = eligibleNum e /\ eligibleSz e' = eligibleSz e
       /\ lowAltQual e' = lowAltQual e /\ ov' = ov.

Section Position.

Variables (P : gmap Z Z) (d c : Z).
Hypothesis c_base : 0 <= c < 4.
Hypothesis quartet : quartetOK P d.

Definition cand (j : Z) : bool := negb (j =? c) && (0 <? spreadAt P d j).
Definition cntTo (i : Z) : Z :=
  sum4 (fun j => if j <? i then b2z (cand j) else 0).
Definition szTo (i : Z) : Z :=
  sum4 (fun j => if (j <? i) && cand j then spreadAt P d j else 0).

(** The entry [elims[d]] once the pairs below [i] were looked at. *)
Definition entryInv (i x : Z) : Prop :=
  0 <= x < 16
  /\ forall j, 0 <= j < 4 ->
       openb x j = negb (j =? c) && negb ((j <? i) && (spreadAt P d j =? 0)).

Lemma sp_range j : 0 <= j < 4 -> 0 <= spreadAt P d j <= N.
Proof.
  clear - quartet. intros Hj. unfold spreadAt. destruct (quartet j Hj). lia. Qed.

Lemma cntTo_step i : 0 <= i < 4 -> cntTo (i + 1) = cntTo i + b2z (cand i).
Proof.
  clear.
  intros Hi. unfold cntTo, sum4.
  four i;
    repeat match goal with
           | |- context [?a <? ?b] => destruct (Z.ltb_spec a b); try lia
           end.
Qed.

Lemma szTo_step i :
  0 <= i < 4 -> szTo (i + 1) = szTo i + (if cand i then spreadAt P d i else 0).
Proof.
  clear.
  intros Hi. unfold szTo, sum4.
  four i;
    repeat match goal with
           | |- context [?a <? ?b] => destruct (Z.ltb_spec a b); try lia
           end; cbn [andb]; lia.
Qed.

Lemma cntTo_range i : 0 <= cntTo i <= 4.
Proof.
  clear.
  unfold cntTo, sum4, b2z.
  destruct (0 <? i), (1 <? i), (2 <? i), (3 <? i), (cand 0), (cand 1), (cand 2), (cand 3); lia.
Qed.

Lemma szTo_range i : 0 <= szTo i <= sum4 (spreadAt P d) - spreadAt P d c.
Proof.
  clear - c_base quartet.
  pose proof (sp_range 0 ltac:(lia)). pose proof (sp_range 1 ltac:(lia)).
  pose proof (sp_range 2 ltac:(lia)). pose proof (sp_range 3 ltac:(lia)).
  unfold szTo, sum4, cand.
  four c; cbn [Z.eqb negb andb Pos.eqb];
    destruct (0 <? i) eqn:?, (1 <? i) eqn:?, (2 <? i) eqn:?, (3 <? i) eqn:?; cbn [andb];
    repeat match goal with |- context [0 <? ?x] => destruct (0 <? x) end;
    lia.
Qed.

Lemma szTo_zero i : cntTo i = 0 -> szTo i = 0.
Proof.
  clear.
  unfold cntTo, szTo, sum4, b2z.
  destruct (0 <? i), (1 <? i), (2 <? i), (3 <? i), (cand 0), (cand 1), (cand 2), (cand 3);
    cbn [andb]; lia.
Qed.

Lemma entryInv_closed i x :
  0 <= i < 4 -> entryInv i x -> spreadAt P d i = 0 ->
  entryInv (i + 1) (wrap8 (Z.lor x (Z.shiftl 1 i))).
Proof.
  clear.
  intros Hi [Hx Ho] Hs. split; [apply lor_range; assumption|].
  intros j Hj. rewrite openb_lor by assumption. rewrite (Ho j Hj).
  destruct (Z.eq_dec j i) as [->|Hne].
  - rewrite Z.eqb_refl, Hs. replace (i <? i + 1) with true by (symmetry; apply Z.ltb_lt; lia).
    cbn. destruct (negb (i =? c)), (i <? i); reflexivity.
  - replace (j =? i) with false by (symmetry; apply Z.eqb_neq; exact Hne).
    replace (j <? i + 1) with (j <? i).
    + rewrite andb_true_r. reflexivity.
    + destruct (Z.ltb_spec j i), (Z.ltb_spec j (i + 1)); try reflexivity; lia.
Qed.

Lemma entryInv_open i x :
  0 <= i < 4 -> entryInv i x -> spreadAt P d i <> 0 -> entryInv (i + 1) x.
Proof.
  clear.
  intros Hi [Hx Ho] Hs. split; [exact Hx|].
  intros j Hj. rewrite (Ho j Hj). f_equal. f_equal.
  destruct (Z.eq_dec j i) as [->|Hne].
  - replace (spreadAt P d i =? 0) with false by (symmetry; apply Z.eqb_neq; exact Hs).
    rewrite !andb_false_r. reflexivity.
  - replace (j <? i + 1) with (j <? i); [reflexivity|].
    destruct (Z.ltb_spec j i), (Z.ltb_spec j (i + 1)); try reflexivity; lia.
Qed.

Lemma entryInv_final x j :
  entryInv 4 x -> 0 <= j < 4 -> openb x j = cand j.
Proof.
  clear - quartet.
  intros [_ Ho] Hj. rewrite (Ho j Hj). unfold cand.
  replace (j <? 4) with true by (symmetry; apply Z.ltb_lt; lia).
  pose proof (sp_range j Hj). cbn [andb]. f_equal.
  destruct (Z.eqb_spec (spreadAt P d j) 0), (Z.ltb_spec 0 (spreadAt P d j));
    cbn; try reflexivity; lia.
Qed.

End Position.

Lemma elig_below P E rows e q :
  EJ P E rows e -> q < lowAltQual e ->
  eligCnt E q rows = 0 /\ eligSz P E q rows = 0.
Proof.
  intros H Hq. unfold eligCnt, eligSz.
  assert (Hz : forall k, In k rows -> isAlt k && (Qd k =? q) = true -> rowCnt E k = 0).
  { intros k Hk Hb. apply andb_true_iff in Hb. destruct Hb as [Ha Hb].
    apply Z.eqb_eq in Hb. pose proof (rowCnt_range E k).
    destruct (Z_lt_dec 0 (rowCnt E k)) as [Hp|]; [|lia].
    pose proof (ej_min _ _ _ _ H k Hk Ha Hp). lia. }
  split; apply sumRows_zero; intros k Hk;
    destruct (isAlt k && (Qd k =? q)) eqn:Hb; try reflexivity.
  - apply Hz; assumption.
  - apply rowSz_zero, Hz; assumption.
Qed.

Lemma sums_snoc P E rows k :
  altCnt E (rows ++ [k]) = altCnt E rows + (if isAlt k then rowCnt E k else 0)
  /\ altSz P E (rows ++ [k]) = altSz P E rows + (if isAlt k then rowSz P E k else 0)
  /\ (forall low, eligCnt E low (rows ++ [k])
                  = eligCnt E low rows
                    + (if isAlt k && (Qd k =? low) then rowCnt E k else 0))
  /\ (forall low, eligSz P E low (rows ++ [k])
                  = eligSz P E low rows
                    + (if isAlt k && (Qd k =? low) then rowSz P E k else 0)).
Proof.
  unfold altCnt, altSz, eligCnt, eligSz.
  repeat split; intros; rewrite sumRows_app; cbn [sumRows]; lia.
Qed.

(** A position that is no alternative changes nothing. *)
Lemma EJ_skip P E rows k e :
  isAlt k = false -> EJ P E rows e -> EJ P E (rows ++ [k]) e.
Proof.
  intros Ha [H1 H3 H4 H5 H6 H7 H8].
  destruct (sums_snoc P E rows k) as (S1 & S2 & S3 & S4).
  rewrite Ha in S1. cbn [andb] in *.
  constructor.
  - intros k' Hk'. apply in_app_or in Hk'.
    destruct Hk' as [Hk'|[<-|[]]]; [apply H1, Hk'|]. intros Ha'. congruence.
  - rewrite S3, Ha. cbn [andb]. lia.
  - rewrite S4, Ha. cbn [andb]. lia.
  - intros k' Hk' Ha' Hc'. apply in_app_or in Hk'.
    destruct Hk' as [Hk'|[<-|[]]]; [apply H5; assumption | congruence].
  - rewrite S1, Z.add_0_r. exact H6.
  - rewrite S1, Z.add_0_r. exact H7.
  - exact H8.
Qed.

(** An alternative position whose pairs were added to the counters. *)
Lemma EJ_extend P E rows k e e' ov' bump :
  EJ P E rows e -> rowOK P E k -> isAlt k = true ->
  accumulated e (Qd k) (Qd k <=? lowAltQual e) (Qd k <? lowAltQual e) bump
              (rowCnt E k) (rowSz P E k) e' ov' ->
  EJ P E (rows ++ [k]) e'.
Proof.
  intros HJ Hok Ha [_ Hacc].
  pose proof (QUAL_range (wrap32 (_qlen cfg - k - 1))) as Hq. fold (Qd k) in Hq.
  pose proof (rowCnt_range E k) as Hc.
  pose proof (rowSz_nonneg P E k Hok Ha) as Hs.
  pose proof (altCnt_bound E rows) as Hab.
  destruct (sums_snoc P E rows k) as (S1 & S2 & S3 & S4).
  rewrite Ha in S1. cbn [andb] in *.
  assert (Hrows : forall k', In k' (rows ++ [k]) -> rowOK P E k').
  { intros k' Hk'. apply in_app_or in Hk'.
    destruct Hk' as [Hk'|[<-|[]]]; [apply (ej_rows _ _ _ _ HJ), Hk' | exact Hok]. }
  assert (Hmin : forall low, low <= Qd k ->
             (forall k', In k' rows -> isAlt k' = true -> 0 < rowCnt E k' -> low <= Qd k') ->
             forall k', In k' (rows ++ [k]) -> isAlt k' = true -> 0 < rowCnt E k' ->
                        low <= Qd k').
  { intros low Hl Hr k' Hk' Ha' Hc'. apply in_app_or in Hk'.
    destruct Hk' as [Hk'|[<-|[]]]; [apply Hr; assumption | exact Hl]. }
  pose proof HJ as [H1 H3 H4 H5 H6 H7 H8].
  destruct (Z.leb_spec (Qd k) (lowAltQual e)) as [Hle|Hgt].
  - destruct (Z.ltb_spec (Qd k) (lowAltQual e)) as [Hlt|Hge].
    + destruct (Z.eqb_spec (rowCnt E k) 0) as [Hz|Hnz].
      * destruct Hacc as (A2 & A3 & A4 & _).
        constructor; rewrite ?A2, ?A3, ?A4, ?S1, ?S3, ?S4, ?Ha; cbn [andb];
          try assumption.
        -- rewrite Hz. destruct (Qd k =? lowAltQual e); lia.
        -- rewrite (rowSz_zero _ _ _ Hz). destruct (Qd k =? lowAltQual e); lia.
        -- intros k' Hk' Ha' Hc'. apply in_app_or in Hk'.
           destruct Hk' as [Hk'|[<-|[]]]; [apply H5; assumption | lia].
        -- intros. apply H6. lia.
        -- intros. apply H7. lia.
      * destruct Hacc as (A2 & A3 & A4 & _).
        destruct (elig_below P E rows e (Qd k) HJ Hlt) as [Z1 Z2].
        constructor; rewrite ?A2, ?A3, ?A4, ?S1, ?S3, ?S4, ?Ha, ?Z1, ?Z2, ?Z.eqb_refl;
          cbn [andb]; try assumption; try lia.
        apply Hmin; [lia|]. intros k' Hk' Ha' Hc'.
        pose proof (H5 k' Hk' Ha' Hc'). lia.
    + assert (Heq : Qd k = lowAltQual e) by lia.
      destruct Hacc as (A2 & A3 & A4 & _).
      assert (Hb : (Qd k =? lowAltQual e) = true) by (apply Z.eqb_eq; exact Heq).
      constructor; rewrite ?A2, ?A3, ?A4, ?S1, ?S3, ?S4, ?Ha, ?Hb;
        cbn [andb]; try assumption; try lia.
      apply Hmin; [lia | exact H5].
  - assert (Hlt : (Qd k <? lowAltQual e) = false) by (apply Z.ltb_ge; lia).
    rewrite Hlt in Hacc. destruct Hacc as (A2 & A3 & A4 & _).
    assert (Hb : (Qd k =? lowAltQual e) = false) by (apply Z.eqb_neq; lia).
    constructor; rewrite ?A2, ?A3, ?A4, ?S1, ?S3, ?S4, ?Ha, ?Hb;
      cbn [andb]; try assumption; try lia.
    apply Hmin; [lia | exact H5].
Qed.

Lemma accumulated_start e q isElig ov bump : accumulated e q isElig ov bump 0 0 e ov.
Proof.
  clear.
  unfold accumulated. destruct bump, isElig, ov; cbn; repeat split; lia.
Qed.

Lemma elimStep_spec d c q isElig ov0 e i el ovl s :
  0 <= c < 4 -> 0 <= d < _spread cfg -> 0 <= i < 4 ->
  quartetOK (_pairs s) d ->
  entryInv (_pairs s) d c i (rd (_elims s) (elims + d)) ->
  accumulated e q isElig ov0 true (cntTo (_pairs s) d c i) (szTo (_pairs s) d c i)
              el ovl ->
  0 <= altNum e -> altNum e + 4 < U32 ->
  0 <= eligibleNum e -> eligibleNum e + 4 < U32 ->
  0 <= eligibleSz e -> eligibleSz e + sum4 (spreadAt (_pairs s) d) < U32 ->
  wp md (elimStep sd pairs elims d c q isElig i (el, ovl)) s
     (fun st' s' =>
        local s s' /\ _pairs s' = _pairs s
        /\ (forall a, a <> elims + d -> rd (_elims s') a = rd (_elims s) a)
        /\ entryInv (_pairs s) d c (i + 1) (rd (_elims s') (elims + d))
        /\ accumulated e q isElig ov0 true (cntTo (_pairs s) d c (i + 1))
                       (szTo (_pairs s) d c (i + 1)) (fst st') (snd st')).
Proof.
  intros Hc Hd Hi Hq Hent Hacc Ha0 Ha1 Hn0 Hn1 Hs0 Hs1.
  destruct index_ok as [HN _ _ _ _].
  pose proof (sp_range (_pairs s) d Hq i Hi) as Hsp.
  pose proof (cntTo_range (_pairs s) d c i) as Hcr.
  pose proof (szTo_range (_pairs s) d c Hc Hq i) as Hsr.
  pose proof (sp_range (_pairs s) d Hq c Hc) as Hspc.
  unfold elimStep. wp_step. wp_step.
  fold (botAt (_pairs s) d i). fold (topAt (_pairs s) d i).
  fold (spreadAt (_pairs s) d i).
  rewrite (wrap32_small (spreadAt (_pairs s) d i)) by lia.
  pose proof (cntTo_range (_pairs s) d c (i + 1)) as Hcr'.
  pose proof (szTo_range (_pairs s) d c Hc Hq (i + 1)) as Hsr'.
  pose proof (cntTo_step (_pairs s) d c i Hi) as Hcs.
  pose proof (szTo_step (_pairs s) d c i Hi) as Hss.
  pose proof (szTo_zero (_pairs s) d c i) as Hsz.
  assert (Hopen : openb (rd (_elims s) (elims + d)) i = negb (i =? c)).
  { destruct Hent as [_ Ho]. rewrite (Ho i Hi), Z.ltb_irrefl. cbn [andb negb].
    apply andb_true_r. }
  wp_step.
  destruct (Z.eqb_spec (spreadAt (_pairs s) d i) 0) as [Hz|Hnz].
  - (* an empty pair is eliminated *)
    do 3 wp_step. cbv beta. rewrite Hz, andb_false_r. wp_step. st_simpl. cbn [fst snd].
    assert (Hcand : cand (_pairs s) d c i = false)
      by (unfold cand; rewrite Hz, andb_false_r; reflexivity).
    rewrite Hcand in Hcs, Hss. cbn [b2z] in Hcs. rewrite Hcs, Hss, !Z.add_0_r.
    split; [local_tac|]. split; [reflexivity|]. split.
    { intros a Ha. apply rd_insert_ne. congruence. }
    split; [|exact Hacc].
    rewrite rd_insert_eq. apply entryInv_closed; assumption.
  - wp_step. destruct (Z.eqb_spec i c) as [Hic|Hic]; cbn [negb andb].
    + (* the pair of the read's own base *)
      wp_step. st_simpl. cbn [fst snd].
      assert (Hcand : cand (_pairs s) d c i = false)
        by (unfold cand; rewrite (proj2 (Z.eqb_eq i c) Hic); reflexivity).
      rewrite Hcand in Hcs, Hss. cbn [b2z] in Hcs. rewrite Hcs, Hss, !Z.add_0_r.
      split; [local_tac|]. split; [reflexivity|]. split; [reflexivity|].
      split; [|exact Hacc]. apply entryInv_open; assumption.
    + assert (Hlt : (0 <? spreadAt (_pairs s) d i) = true) by (apply Z.ltb_lt; lia).
      rewrite Hlt. wp_step. wp_step. st_simpl.
      fold (openb (rd (_elims s) (elims + d)) i). rewrite Hopen.
      replace (i =? c) with false by (symmetry; apply Z.eqb_neq; exact Hic).
      cbn [negb].
      assert (Hcand : cand (_pairs s) d c i = true).
      { unfold cand. rewrite Hlt.
        replace (i =? c) with false by (symmetry; apply Z.eqb_neq; exact Hic).
        reflexivity. }
      rewrite Hcand in Hcs, Hss. cbn [b2z] in Hcs. rewrite Hcs, Hss.
      assert (Hpost : forall r : Elig * bool,
                 accumulated e q isElig ov0 true (cntTo (_pairs s) d c i + 1)
                   (szTo (_pairs s) d c i + spreadAt (_pairs s) d i) (fst r) (snd r) ->
                 local s (note (EvAccess AElims sd (elims + d))
                            (note (EvAccess APairs sd (PAIR_TOP pairs d i))
                               (note (EvAccess APairs sd (PAIR_BOT pairs d i)) s)))
                 /\ _pairs s = _pairs s
                 /\ (forall a, a <> elims + d -> rd (_elims s) a = rd (_elims s) a)
                 /\ entryInv (_pairs s) d c (i + 1) (rd (_elims s) (elims + d))
                 /\ accumulated e q isElig ov0 true (cntTo (_pairs s) d c i + 1)
                      (szTo (_pairs s) d c i + spreadAt (_pairs s) d i) (fst r) (snd r)).
      { intros r Hr. split; [local_tac|]. split; [reflexivity|].
        split; [reflexivity|]. split; [|exact Hr]. apply entryInv_open; assumption. }
      destruct Hacc as [Hal Hacc].
      destruct isElig; [destruct ovl|]; wp_step; apply Hpost; cbn [fst snd];
        unfold accumulated; cbn [altNum eligibleNum eligibleSz lowAltQual];
        (split; [rewrite Hal, wrap32_small by lia; lia|]).
      * (* first candidate after an override *)
        destruct ov0.
        -- destruct (Z.eqb_spec (cntTo (_pairs s) d c i) 0) as [Hc0|Hc0].
           ++ replace (cntTo (_pairs s) d c i + 1 =? 0) with false
                by (symmetry; apply Z.eqb_neq; lia).
              rewrite Hc0, (Hsz Hc0). cbn [Z.add].
              rewrite !wrap32_small by lia. repeat split; lia.
           ++ destruct Hacc as (_ & _ & _ & Hf). discriminate.
        -- destruct Hacc as (_ & _ & _ & Hf). discriminate.
      * destruct ov0.
        -- destruct (Z.eqb_spec (cntTo (_pairs s) d c i) 0) as [Hc0|Hc0].
           ++ destruct Hacc as (_ & _ & _ & Hf). discriminate.
           ++ replace (cntTo (_pairs s) d c i + 1 =? 0) with false
                by (symmetry; apply Z.eqb_neq; lia).
              destruct Hacc as (-> & -> & -> & _).
              rewrite !wrap32_small by lia. repeat split; lia.
        -- destruct Hacc as (-> & -> & -> & _).
           rewrite !wrap32_small by lia. repeat split; lia.
      * exact Hacc.
Qed.

Lemma leb_split q low : (q <? low) || (q =? low) = (q <=? low).
Proof.
  clear.
  destruct (Z.ltb_spec q low), (Z.eqb_spec q low), (Z.leb_spec q low);
    cbn; try reflexivity; lia.
Qed.

(** Memories that differ from [P], [E] only outside the rows agree on them. *)
Lemma agree_outside rows P E P' E' d :
  ~ In d rows ->
  rowOnly d P P' -> (forall a, a <> elims + d -> rd E' a = rd E a) ->
  agree rows P E P' E'.
Proof.
  clear.
  intros Hd HP HE k Hk.
  assert (k <> d) by (intros ->; contradiction).
  split; [unfold eAt; apply HE; lia|].
  intros j Hj. unfold topAt, botAt, PAIR_TOP, PAIR_BOT.
  split; apply HP; lia.
Qed.

Lemma rowOnly_refl d P : rowOnly d P P.
Proof. intros a _. reflexivity. Qed.

Lemma updateElims_spec d c rows e s :
  0 <= c < 4 -> 0 <= d < _spread cfg -> ~ In d rows ->
  Z.of_nat (length rows) <= _spread cfg ->
  EI (_pairs s) (_elims s) rows e ->
  (isAlt d = true ->
   quartetOK (_pairs s) d
   /\ altSz (_pairs s) (_elims s) rows + sum4 (spreadAt (_pairs s) d) <= N) ->
  wp md (updateElims sd pairs elims d c (Qd d) (isAlt d)
              (isAlt d && ((Qd d <? lowAltQual e) || (Qd d =? lowAltQual e)))
              (isAlt d && (Qd d <? lowAltQual e)) e) s
     (fun e1 s' =>
        local s s' /\ _pairs s' = _pairs s
        /\ (forall a, a <> elims + d -> rd (_elims s') a = rd (_elims s) a)
        /\ EI (_pairs s') (_elims s') (rows ++ [d]) e1
        /\ altSz (_pairs s') (_elims s') (rows ++ [d])
           <= altSz (_pairs s) (_elims s) rows
              + (if isAlt d
                 then sum4 (spreadAt (_pairs s) d) - spreadAt (_pairs s) d c
                 else 0)).
Proof.
  intros Hc Hd Hnin Hlen [HJ Halt] Hq.
  destruct index_ok as [HN _ _ _ _].
  unfold updateElims. wp_step. wp_step.
  match goal with |- wp _ _ ?st _ => set (s1 := st) end.
  assert (Hag : agree rows (_pairs s) (_elims s) (_pairs s1) (_elims s1)).
  { apply (agree_outside rows _ _ _ _ d Hnin); [apply rowOnly_refl|].
    intros a Ha. subst s1. st_simpl. apply rd_insert_ne. congruence. }
  assert (L1 : local s s1) by (subst s1; local_tac).
  destruct (isAlt d) eqn:Ha.
  - (* the candidates of this position are counted *)
    destruct (Hq eq_refl) as [Hquart Hbud]. clear Hq.
    cbn [andb]. rewrite leb_split.
    pose proof (altCnt_bound (_elims s) rows) as Hab.
    destruct (elig_le_alt (_pairs s) (_elims s) (lowAltQual e) rows
                (ej_rows _ _ _ _ HJ)) as [Hec Hes].
    rewrite <- (ej_num _ _ _ _ HJ) in Hec. rewrite <- (ej_sz _ _ _ _ HJ) in Hes.
    pose proof (szTo_range (_pairs s) d c Hc Hquart 4) as Hs4.
    assert (Hb1 : altNum e + 4 < U32)
      by (unfold U32, DEFAULT_SPREAD in *; lia).
    assert (Hb2 : eligibleNum e + 4 < U32)
      by (unfold U32, DEFAULT_SPREAD in *; lia).
    pose proof (sp_range (_pairs s) d Hquart c Hc) as Hspc.
    set (q := Qd d). set (isE := q <=? lowAltQual e). set (ov := q <? lowAltQual e).
    set (Inv := fun (i : Z) (st : Elig * bool) (s' : BtState) =>
           local s s' /\ _pairs s' = _pairs s
           /\ (forall a, a <> elims + d -> rd (_elims s') a = rd (_elims s) a)
           /\ entryInv (_pairs s) d c i (rd (_elims s') (elims + d))
           /\ accumulated e q isE ov true (cntTo (_pairs s) d c i)
                          (szTo (_pairs s) d c i) (fst st) (snd st)).
    assert (Hstep : forall i st s', 0 <= i < 4 -> Inv i st s' ->
               wp md (elimStep sd pairs elims d c q isE i st) s' (Inv (i + 1))).
    { intros i [el ovl] s' Hi (I1 & I2 & I3 & I4 & I5). cbn [fst snd] in I5.
      eapply wp_mono.
      - apply (elimStep_spec d c q isE ov e i el ovl s'); try assumption;
          rewrite ?I2; try assumption; try lia.
      - intros st' s'' (J1 & J2 & J3 & J4 & J5). rewrite I2 in *.
        split; [destruct local_pre as [_ Ht]; eapply Ht; eassumption|].
        split; [congruence|]. split; [|split; assumption].
        intros a Ha'. rewrite J3 by assumption. apply I3. assumption. }
    assert (H0 : Inv 0 (e, ov) s1).
    { split; [exact L1|]. split; [reflexivity|]. split.
      { intros a Ha'. subst s1. st_simpl. apply rd_insert_ne. congruence. }
      split.
      - subst s1. st_simpl. rewrite rd_insert_eq. split; [apply bit_range, Hc|].
        intros j Hj. rewrite openb_bit by assumption.
        replace (j <? 0) with false by (symmetry; apply Z.ltb_ge; lia).
        cbn [andb negb]. symmetry. apply andb_true_r.
      - cbn [fst snd]. replace (cntTo (_pairs s) d c 0) with 0;
          [replace (szTo (_pairs s) d c 0) with 0; [apply accumulated_start|]|].
        + unfold szTo, sum4. reflexivity.
        + unfold cntTo, sum4. reflexivity. }
    change (upto 4 0) with [0; 1; 2; 3]. cbn [forM].
    wp_step. wp_step.
    eapply wp_mono; [apply (Hstep 0); [lia | exact H0]|]. intros st1 t1 I1. cbv beta.
    wp_step.
    eapply wp_mono; [apply (Hstep 1); [lia | exact I1]|]. intros st2 t2 I2. cbv beta.
    wp_step.
    eapply wp_mono; [apply (Hstep 2); [lia | exact I2]|]. intros st3 t3 I3. cbv beta.
    wp_step.
    eapply wp_mono; [apply (Hstep 3); [lia | exact I3]|]. intros st4 t4 I4. cbv beta.
    do 2 wp_step.
    change (3 + 1) with 4 in I4.
    destruct I4 as (K1 & K2 & K3 & K4 & K5).
    assert (Hag4 : agree rows (_pairs s) (_elims s) (_pairs t4) (_elims t4)).
    { apply (agree_outside rows _ _ _ _ d Hnin); [rewrite K2; apply rowOnly_refl|].
      exact K3. }
    assert (Hcnt : rowCnt (_elims t4) d = cntTo (_pairs s) d c 4).
    { unfold rowCnt, cntTo, sum4, eAt.
      rewrite !(entryInv_final (_pairs s) d c Hquart _ _ K4) by lia. reflexivity. }
    assert (Hsz : rowSz (_pairs t4) (_elims t4) d = szTo (_pairs s) d c 4).
    { unfold rowSz, szTo, sum4, eAt. rewrite K2.
      rewrite !(entryInv_final (_pairs s) d c Hquart _ _ K4) by lia. reflexivity. }
    assert (Hok : rowOK (_pairs t4) (_elims t4) d).
    { intros _. unfold eAt. split; [apply K4|].
      intros j Hj Ho. rewrite (entryInv_final (_pairs s) d c Hquart _ _ K4 Hj) in Ho.
      unfold cand in Ho. apply andb_true_iff in Ho. destruct Ho as [_ Ho].
      apply Z.ltb_lt in Ho. rewrite K2. unfold spreadAt in Ho.
      destruct (Hquart j Hj). lia. }
    assert (HJ' : EJ (_pairs t4) (_elims t4) rows e) by (eapply agree_EJ; eauto).
    destruct (sums_snoc (_pairs t4) (_elims t4) rows d) as (S1 & S2 & _ & _).
    destruct (agree_sums rows _ _ _ _ 0 Hag4) as (A1 & A2 & _ & _).
    rewrite Ha in S1, S2.
    split; [exact K1|]. split; [exact K2|]. split; [exact K3|]. split; [split|].
    + eapply EJ_extend; [exact HJ' | exact Hok | exact Ha|].
      rewrite Hcnt, Hsz. exact K5.
    + destruct K5 as [K5 _]. rewrite K5, S1, A1, Hcnt, Halt. reflexivity.
    + rewrite S2, A2, Hsz. lia.
  - (* no alternative here *)
    clear Hq. wp_step. split; [exact L1|]. split; [reflexivity|]. split.
    { intros a Ha'. subst s1. st_simpl. apply rd_insert_ne. congruence. }
    destruct (sums_snoc (_pairs s1) (_elims s1) rows d) as (S1 & S2 & _ & _).
    destruct (agree_sums rows _ _ _ _ 0 Hag) as (A1 & A2 & _ & _).
    rewrite Ha in S1, S2.
    split; [split|].
    + apply EJ_skip; [exact Ha|]. eapply agree_EJ; eauto.
    + rewrite S1, A1, Halt. lia.
    + rewrite S2, A2. lia.
Qed.

(** *** The scan for the backtrack target *)

Hypothesis ham_ok : 0 <= ham <= _qualThresh cfg.

(** The scan has settled on an open pair of quality [low]. *)
Definition chosen (P E : gmap Z Z) (low : Z) (t : Target) : Prop :=
  foundTarget t = true /\ u <= t_i t /\ Qd (t_i t) = low
  /\ 0 <= t_j t < 4 /\ openb (eAt E (t_i t)) (t_j t) = true
  /\ bttop t = topAt P (t_i t) (t_j t) /\ btbot t = botAt P (t_i t) (t_j t)
  /\ btham t = wrap32 (ham + low)
  /\ icur t = wrap32 (_qlen cfg - t_i t - 1)
  /\ btchar t = nthZ [97; 99; 103; 116] (t_j t).

Definition openSz (P E : gmap Z Z) (i : Z) (j : Z) : Z :=
  if openb (eAt E i) j then spreadAt P i j else 0.

Lemma rowSz_openSz P E i : rowSz P E i = sumRows (openSz P E i) [0; 1; 2; 3].
Proof.
  clear. unfold rowSz, sum4, openSz. cbn [sumRows]. lia. Qed.

Lemma scanJ_spec r i js : forall t s,
  0 <= i < _spread cfg -> u <= i ->
  rowOK (_pairs s) (_elims s) i -> isAlt i = true ->
  (forall j, In j js -> 0 <= j < 4) ->
  foundTarget t = false -> btham t = ham ->
  icur t = wrap32 (_qlen cfg - i - 1) ->
  0 <= cumSz t <= r ->
  cumSz t + sumRows (openSz (_pairs s) (_elims s) i) js <= N ->
  wp md (scanJ sd pairs elims r ham i (Qd i) js t) s
     (fun t' s' =>
        local s s' /\ _pairs s' = _pairs s /\ _elims s' = _elims s
        /\ (chosen (_pairs s) (_elims s) (Qd i) t' /\ t_i t' = i
            \/ (foundTarget t' = false /\ btham t' = ham
                /\ cumSz t' = cumSz t + sumRows (openSz (_pairs s) (_elims s) i) js
                /\ cumSz t' <= r))).
Proof.
  destruct index_ok as [HN _ _ _ _].
  induction js as [|j js IH]; intros t s Hi Hu Hok Ha Hjs Hf Hh Hic Hc Hb;
    cbn [scanJ].
  - wp_step. split; [apply local_pre|]. split; [reflexivity|]. split; [reflexivity|].
    right. cbn [foundTarget btham cumSz sumRows]. repeat split; try assumption; lia.
  - assert (Hj : 0 <= j < 4) by (apply Hjs; left; reflexivity).
    assert (Hjs' : forall j', In j' js -> 0 <= j' < 4)
      by (intros; apply Hjs; right; assumption).
    assert (Hnn : 0 <= sumRows (openSz (_pairs s) (_elims s) i) js).
    { apply sumRows_nonneg. intros j' Hj'. unfold openSz.
      destruct (openb _ j') eqn:Ho; [|lia].
      destruct (Hok Ha) as [_ H]. specialize (H j' (Hjs' j' Hj') Ho).
      unfold spreadAt. lia. }
    cbn [sumRows] in Hb.
    wp_step. wp_step. st_simpl.
    fold (eAt (_elims s) i). fold (openb (eAt (_elims s) i) j).
    unfold openSz at 1 in Hb.
    destruct (openb (eAt (_elims s) i) j) eqn:Ho.
    + destruct (Hok Ha) as [_ H]. specialize (H j Hj Ho).
      wp_step. wp_step. st_simpl.
      fold (botAt (_pairs s) i j). fold (topAt (_pairs s) i j).
      fold (spreadAt (_pairs s) i j).
      assert (Hsp : 0 < spreadAt (_pairs s) i j <= N) by (unfold spreadAt; lia).
      rewrite (wrap32_small (spreadAt (_pairs s) i j)) by lia.
      rewrite (wrap32_small (cumSz t + spreadAt (_pairs s) i j)) by lia.
      destruct (r <? cumSz t + spreadAt (_pairs s) i j) eqn:Hr.
      * repeat wp_step. st_simpl.
        split; [local_tac|]. split; [reflexivity|]. split; [reflexivity|].
        left. unfold chosen.
        cbn [foundTarget t_i t_j bttop btbot btham icur btchar].
        rewrite Hh. repeat split; try assumption; try reflexivity; lia.
      * apply Z.ltb_ge in Hr.
        eapply wp_mono.
        -- apply IH; st_simpl; try assumption;
             cbn [foundTarget btham icur cumSz]; try assumption; lia.
        -- intros t' s' (L1 & E1 & E2 & Hres). st_simpl.
           split.
           { destruct local_pre as [_ Ht]. eapply Ht; [|exact L1]. local_tac. }
           split; [exact E1|]. split; [exact E2|].
           destruct Hres as [Hch|(F1 & F2 & F3 & F4)]; [left; exact Hch|].
           right. cbn [cumSz] in F3. cbn [sumRows]. unfold openSz at 1. rewrite Ho.
           repeat split; try assumption. lia.
    + eapply wp_mono.
      * apply IH; st_simpl; try assumption; lia.
      * intros t' s' (L1 & E1 & E2 & Hres). st_simpl.
        split.
        { destruct local_pre as [_ Ht]. eapply Ht; [|exact L1]. local_tac. }
        split; [exact E1|]. split; [exact E2|].
        destruct Hres as [Hch|(F1 & F2 & F3 & F4)]; [left; exact Hch|].
        right. cbn [sumRows]. unfold openSz at 1. rewrite Ho.
        repeat split; try assumption; lia.
Qed.

Definition scanSz (P E : gmap Z Z) (low i : Z) : Z :=
  if (u <=? i) && (Qd i =? low) then rowSz P E i else 0.

Lemma isAlt_low low k :
  wrap32 (ham + low) <= _qualThresh cfg ->
  isAlt k && (Qd k =? low) = (u <=? k) && (Qd k =? low).
Proof.
  intros H. unfold isAlt. destruct (Z.eqb_spec (Qd k) low) as [->|]; [|rewrite !andb_false_r; reflexivity].
  rewrite !andb_true_r. replace (wrap32 (ham + low) <=? _qualThresh cfg) with true
    by (symmetry; apply Z.leb_le; exact H).
  apply andb_true_r.
Qed.

Lemma scanSz_nonneg P E low rows idxs :
  wrap32 (ham + low) <= _qualThresh cfg ->
  (forall k, In k rows -> rowOK P E k) -> (forall i, In i idxs -> In i rows) ->
  0 <= sumRows (scanSz P E low) idxs.
Proof.
  intros Hl Hok Hin. apply sumRows_nonneg. intros k Hk. unfold scanSz.
  rewrite <- (isAlt_low low k Hl).
  destruct (isAlt k) eqn:Ha; cbn [andb]; [|lia].
  pose proof (rowSz_nonneg P E k (Hok k (Hin k Hk)) Ha). destruct (_ =? _); lia.
Qed.

Lemma scanI_spec r e next rows : forall idxs t s,
  (forall i, In i idxs -> In i rows) ->
  (forall i, In i rows -> 0 <= i < _spread cfg) ->
  (forall k, In k rows -> rowOK (_pairs s) (_elims s) k) ->
  wrap32 (ham + lowAltQual e) <= _qualThresh cfg ->
  foundTarget t = false -> btham t = ham ->
  0 <= cumSz t <= r -> r < eligibleSz e -> eligibleSz e <= N ->
  cumSz t + sumRows (scanSz (_pairs s) (_elims s) (lowAltQual e)) idxs
  = eligibleSz e ->
  wp md (scanI cfg sd pairs elims r ham u e idxs next t) s
     (fun t' s' =>
        local s s' /\ _pairs s' = _pairs s /\ _elims s' = _elims s
        /\ chosen (_pairs s) (_elims s) (lowAltQual e) t'
        /\ In (t_i t') idxs).
Proof.
  induction idxs as [|i idxs IH]; intros t s Hin Hrows Hok Hl Hf Hh Hc Hr HN Hsum;
    cbn [scanI].
  - cbn [sumRows] in Hsum. exfalso. lia.
  - cbn [sumRows] in Hsum.
    assert (Hin' : forall i', In i' idxs -> In i' rows)
      by (intros; apply Hin; right; assumption).
    assert (Hi : 0 <= i < _spread cfg) by (apply Hrows, Hin; left; reflexivity).
    pose proof (scanSz_nonneg _ _ _ rows idxs Hl Hok Hin') as Hnn.
    assert (Hcont : forall t0 s0,
               foundTarget t0 = false -> btham t0 = ham ->
               0 <= cumSz t0 <= r ->
               cumSz t0 = cumSz t + scanSz (_pairs s) (_elims s) (lowAltQual e) i ->
               local s s0 -> _pairs s0 = _pairs s -> _elims s0 = _elims s ->
               wp md (scanI cfg sd pairs elims r ham u e idxs next t0) s0
                 (fun t' s' =>
                    local s s' /\ _pairs s' = _pairs s /\ _elims s' = _elims s
                    /\ chosen (_pairs s) (_elims s) (lowAltQual e) t'
                    /\ In (t_i t') (i :: idxs))).
    { intros t0 s0 F1 F2 F3 F4 L0 P0 E0. eapply wp_mono.
      - apply IH; rewrite ?P0, ?E0; try assumption. lia.
      - intros t' s' (L1 & E1 & E2 & Hch & Hi'). rewrite P0, E0 in *.
        split; [destruct local_pre as [_ Ht]; eapply Ht; eassumption|].
        split; [congruence|]. split; [congruence|]. split; [exact Hch|].
        right; exact Hi'. }
    destruct (i <? u) eqn:Hiu.
    + apply Hcont; try assumption; try reflexivity; try apply local_pre.
      unfold scanSz. replace (u <=? i) with false
        by (symmetry; apply Z.leb_gt; apply Z.ltb_lt in Hiu; lia).
      cbn [andb]. lia.
    + apply Z.ltb_ge in Hiu.
      assert (Hu : (u <=? i) = true) by (apply Z.leb_le; exact Hiu).
      cbv zeta. fold (Qd i). wp_step. wp_step. st_simpl.
      fold (eAt (_elims s) i).
      set (t0 := mkTarget _ _ _ _ _ _ _ _ _ _).
      set (s0 := note _ s).
      assert (L0 : local s s0) by (subst s0; local_tac).
      destruct (Z.eqb_spec (Qd i) (lowAltQual e)) as [Hq|Hq]; cbn [andb].
      * assert (Ha : isAlt i = true).
        { unfold isAlt. rewrite Hu, Hq. apply Z.leb_le in Hl. rewrite Hl. reflexivity. }
        assert (Hsz : scanSz (_pairs s) (_elims s) (lowAltQual e) i
                      = rowSz (_pairs s) (_elims s) i).
        { unfold scanSz. rewrite Hu, Hq, Z.eqb_refl. reflexivity. }
        destruct (Z.eqb_spec (eAt (_elims s) i) 15) as [Hx|Hx]; cbn [negb].
        -- apply Hcont; try assumption; try reflexivity.
           rewrite Hsz. unfold rowSz, sum4. rewrite Hx.
           change (openb 15 0) with false. change (openb 15 1) with false.
           change (openb 15 2) with false. change (openb 15 3) with false.
           subst t0. cbn [cumSz]. lia.
        -- wp_step. change (upto 4 0) with [0; 1; 2; 3].
           eapply wp_mono.
           ++ apply (scanJ_spec r i [0; 1; 2; 3] t0 s0); subst t0 s0; st_simpl;
                cbn [foundTarget btham icur cumSz]; try assumption; try reflexivity.
              ** apply Hok, Hin. left; reflexivity.
              ** intros j Hj. cbn [In] in Hj. lia.
              ** rewrite <- rowSz_openSz, <- Hsz. lia.
           ++ intros t1 s1 (L1 & E1 & E2 & Hres). subst s0. st_simpl.
              assert (L01 : local s s1)
                by (destruct local_pre as [_ Ht]; eapply Ht; eassumption).
              destruct Hres as [[Hch Hti]|(F1 & F2 & F3 & F4)].
              ** pose proof Hch as (Hft & _). rewrite Hft. wp_step.
                 split; [exact L01|]. split; [exact E1|]. split; [exact E2|].
                 rewrite <- Hq. split; [exact Hch|]. left. symmetry; exact Hti.
              ** rewrite F1. apply Hcont; try assumption.
                 { pose proof (rowSz_nonneg _ _ i (Hok i (Hin i (or_introl eq_refl))) Ha).
                   rewrite <- rowSz_openSz in F3. subst t0. cbn [cumSz] in F3. lia. }
                 rewrite F3, Hsz, rowSz_openSz. subst t0. reflexivity.
      * apply Hcont; try assumption; try reflexivity.
        unfold scanSz. replace (Qd i =? lowAltQual e) with false
          by (symmetry; apply Z.eqb_neq; exact Hq).
        rewrite andb_false_r. subst t0. cbn [cumSz]. lia.
Qed.

Lemma selectTarget_spec r depth d e s :
  0 <= depth -> d < _spread cfg ->
  EI (_pairs s) (_elims s) (upto (Z.to_nat (d + 1 - depth)) depth) e ->
  altSz (_pairs s) (_elims s) (upto (Z.to_nat (d + 1 - depth)) depth) <= N ->
  0 <= r < eligibleSz e ->
  wp md (selectTarget cfg sd pairs elims r ham depth d u e) s
     (fun t s' =>
        local s s' /\ _pairs s' = _pairs s /\ _elims s' = _elims s
        /\ chosen (_pairs s) (_elims s) (lowAltQual e) t
        /\ depth <= t_i t <= d /\ isAlt (t_i t) = true
        /\ wrap32 (ham + lowAltQual e) = ham + lowAltQual e
        /\ ham + lowAltQual e <= _qualThresh cfg).
Proof.
  intros Hdep Hd [HJ Halt] Hbud Hr.
  destruct index_ok as [HN _ _ _ _].
  set (rows := upto (Z.to_nat (d + 1 - depth)) depth) in *.
  assert (Hrows : forall i, In i rows -> 0 <= i < _spread cfg).
  { intros i Hi. apply upto_In_iff in Hi. lia. }
  destruct (elig_le_alt (_pairs s) (_elims s) (lowAltQual e) rows
              (ej_rows _ _ _ _ HJ)) as [_ Hes].
  rewrite <- (ej_sz _ _ _ _ HJ) in Hes.
  assert (Hl : wrap32 (ham + lowAltQual e) <= _qualThresh cfg).
  { assert (Hp : 0 < eligSz (_pairs s) (_elims s) (lowAltQual e) rows)
      by (rewrite <- (ej_sz _ _ _ _ HJ); lia).
    apply sumRows_pos in Hp.
    - destruct Hp as (k & Hk & Hp).
      destruct (isAlt k && (Qd k =? lowAltQual e)) eqn:Hb; [|lia].
      apply andb_true_iff in Hb. destruct Hb as [Ha Hq]. apply Z.eqb_eq in Hq.
      unfold isAlt in Ha. apply andb_true_iff in Ha. destruct Ha as [_ Ha].
      apply Z.leb_le in Ha. rewrite Hq in Ha. exact Ha.
    - intros k Hk. destruct (isAlt k) eqn:Ha; cbn [andb]; [|lia].
      pose proof (rowSz_nonneg _ _ k (ej_rows _ _ _ _ HJ k Hk) Ha).
      destruct (_ =? _); lia. }
  pose proof (ej_low _ _ _ _ HJ) as Hlow.
  assert (Hw : wrap32 (ham + lowAltQual e) = ham + lowAltQual e).
  { apply wrap32_small. destruct thresh_ok. lia. }
  unfold selectTarget. fold rows. eapply wp_mono.
  - apply (scanI_spec r e _ rows rows); try assumption; try reflexivity.
    + intros i Hi; exact Hi.
    + apply (ej_rows _ _ _ _ HJ).
    + cbn [cumSz]. lia.
    + lia.
    + lia.
    + cbn [cumSz]. rewrite (ej_sz _ _ _ _ HJ). unfold eligSz.
      rewrite Z.add_0_l. apply sumRows_ext. intros k Hk. unfold scanSz.
      rewrite (isAlt_low _ k Hl). reflexivity.
  - intros t s' (L1 & E1 & E2 & Hch & Hi). cbv beta.
    split; [exact L1|]. split; [exact E1|]. split; [exact E2|].
    split; [exact Hch|]. apply upto_In_iff in Hi.
    destruct Hch as (_ & Hu & Hq & _).
    split; [lia|]. split; [|split; [exact Hw | lia]].
    unfold isAlt. rewrite Hq. apply Z.leb_le in Hl. rewrite Hl.
    rewrite andb_true_r. apply Z.leb_le. exact Hu.
Qed.

(** *** Finding the next eligible quality *)

Section Row.

Variables (P E : gmap Z Z) (k : Z).

Definition oCntTo (l : Z) : Z :=
  sum4 (fun j => if j <? l then b2z (openb (eAt E k) j) else 0).
Definition oSzTo (l : Z) : Z :=
  sum4 (fun j => if (j <? l) && openb (eAt E k) j then spreadAt P k j else 0).

Lemma oCntTo_step l :
  0 <= l < 4 -> oCntTo (l + 1) = oCntTo l + b2z (openb (eAt E k) l).
Proof.
  clear.
  intros Hl. unfold oCntTo, sum4.
  four l;
    repeat match goal with
           | |- context [?a <? ?b] => destruct (Z.ltb_spec a b); try lia
           end.
Qed.

Lemma oSzTo_step l :
  0 <= l < 4 ->
  oSzTo (l + 1) = oSzTo l + (if openb (eAt E k) l then spreadAt P k l else 0).
Proof.
  clear.
  intros Hl. unfold oSzTo, sum4.
  four l;
    repeat match goal with
           | |- context [?a <? ?b] => destruct (Z.ltb_spec a b); try lia
           end; cbn [andb]; lia.
Qed.

Lemma oCntTo_range l : 0 <= oCntTo l <= 4.
Proof.
  clear.
  unfold oCntTo, sum4, b2z.
  destruct (0 <? l), (1 <? l), (2 <? l), (3 <? l),
    (openb (eAt E k) 0), (openb (eAt E k) 1), (openb (eAt E k) 2),
    (openb (eAt E k) 3); lia.
Qed.

Lemma oSzTo_zero l : oCntTo l = 0 -> oSzTo l = 0.
Proof.
  clear.
  unfold oCntTo, oSzTo, sum4, b2z.
  destruct (0 <? l), (1 <? l), (2 <? l), (3 <? l),
    (openb (eAt E k) 0), (openb (eAt E k) 1), (openb (eAt E k) 2),
    (openb (eAt E k) 3); cbn [andb]; lia.
Qed.

Lemma oSzTo_range l :
  rowOK P E k -> isAlt k = true -> 0 <= oSzTo l <= rowSz P E k.
Proof.
  intros Hok Ha. destruct (Hok Ha) as [_ H]. unfold oSzTo, rowSz, sum4, spreadAt.
  pose proof (H 0 ltac:(lia)). pose proof (H 1 ltac:(lia)).
  pose proof (H 2 ltac:(lia)). pose proof (H 3 ltac:(lia)).
  destruct (0 <? l), (1 <? l), (2 <? l), (3 <? l),
    (openb (eAt E k) 0), (openb (eAt E k) 1), (openb (eAt E k) 2),
    (openb (eAt E k) 3); cbn [andb]; lia.
Qed.

Lemma oTo_full : oCntTo 4 = rowCnt E k /\ oSzTo 4 = rowSz P E k.
Proof. split; reflexivity. Qed.

Lemma oTo_none : oCntTo 0 = 0 /\ oSzTo 0 = 0.
Proof. split; reflexivity. Qed.

End Row.

Lemma rescanStep_spec k kq e ov0 l el ovl s :
  0 <= k < _spread cfg -> 0 <= l < 4 ->
  rowOK (_pairs s) (_elims s) k -> isAlt k = true ->
  accumulated e kq true ov0 false (oCntTo (_elims s) k l)
              (oSzTo (_pairs s) (_elims s) k l) el ovl ->
  0 <= eligibleNum e -> eligibleNum e + 4 < U32 ->
  0 <= eligibleSz e -> eligibleSz e + rowSz (_pairs s) (_elims s) k < U32 ->
  wp md (rescanStep sd pairs elims kq k l (el, ovl)) s
     (fun st' s' =>
        local s s' /\ _pairs s' = _pairs s /\ _elims s' = _elims s
        /\ accumulated e kq true ov0 false (oCntTo (_elims s) k (l + 1))
                       (oSzTo (_pairs s) (_elims s) k (l + 1)) (fst st') (snd st')).
Proof.
  intros Hk Hl Hok Ha Hacc Hn0 Hn1 Hs0 Hs1.
  destruct index_ok as [HN _ _ _ _].
  pose proof (oCntTo_range (_elims s) k l) as Hcr.
  pose proof (oCntTo_range (_elims s) k (l + 1)) as Hcr'.
  pose proof (oSzTo_range (_pairs s) (_elims s) k l Hok Ha) as Hsr.
  pose proof (oSzTo_range (_pairs s) (_elims s) k (l + 1) Hok Ha) as Hsr'.
  pose proof (oCntTo_step (_elims s) k l Hl) as Hcs.
  pose proof (oSzTo_step (_pairs s) (_elims s) k l Hl) as Hss.
  pose proof (oSzTo_zero (_pairs s) (_elims s) k l) as Hsz.
  unfold rescanStep. wp_step. wp_step. st_simpl.
  fold (eAt (_elims s) k). fold (openb (eAt (_elims s) k) l).
  destruct (openb (eAt (_elims s) k) l) eqn:Ho.
  - destruct (Hok Ha) as [_ H]. specialize (H l Hl Ho).
    cbn [b2z] in Hcs. rewrite Hcs, Hss.
    assert (Hsp : 0 < spreadAt (_pairs s) k l <= N) by (unfold spreadAt; lia).
    destruct Hacc as [Hal Hacc].
    destruct ovl; cbv iota beta; do 3 wp_step; st_simpl;
      fold (botAt (_pairs s) k l); fold (topAt (_pairs s) k l);
      fold (spreadAt (_pairs s) k l);
      rewrite (wrap32_small (spreadAt (_pairs s) k l)) by lia;
      (split; [local_tac|]); (split; [reflexivity|]); (split; [reflexivity|]);
      cbn [fst snd]; unfold accumulated;
      cbn [altNum eligibleNum eligibleSz lowAltQual]; (split; [lia|]).
    + destruct ov0.
      * destruct (Z.eqb_spec (oCntTo (_elims s) k l) 0) as [Hc0|Hc0].
        -- replace (oCntTo (_elims s) k l + 1 =? 0) with false
             by (symmetry; apply Z.eqb_neq; lia).
           rewrite Hc0, (Hsz Hc0). cbn [Z.add].
           rewrite !wrap32_small by lia. repeat split; lia.
        -- destruct Hacc as (_ & _ & _ & Hf). discriminate.
      * destruct Hacc as (_ & _ & _ & Hf). discriminate.
    + destruct ov0.
      * destruct (Z.eqb_spec (oCntTo (_elims s) k l) 0) as [Hc0|Hc0].
        -- destruct Hacc as (_ & _ & _ & Hf). discriminate.
        -- replace (oCntTo (_elims s) k l + 1 =? 0) with false
             by (symmetry; apply Z.eqb_neq; lia).
           destruct Hacc as (-> & -> & -> & _).
           rewrite !wrap32_small by lia. repeat split; lia.
      * destruct Hacc as (-> & -> & -> & _).
        rewrite !wrap32_small by lia. repeat split; lia.
  - wp_step. cbn [b2z] in Hcs. rewrite Hcs, Hss, !Z.add_0_r. cbn [fst snd].
    split; [local_tac|]. split; [reflexivity|]. split; [reflexivity|]. exact Hacc.
Qed.

Lemma wp_forM_prefix {A} (I : list Z -> A -> BtState -> Prop) l
    (f : Z -> A -> M A) a s :
  I [] a s ->
  (forall done x a s, (exists rest, l = done ++ x :: rest) -> I done a s ->
                      wp md (f x a) s (I (done ++ [x]))) ->
  wp md (forM l f a) s (I l).
Proof.
  intros H0 Hstep.
  assert (G : forall rest done a s, l = done ++ rest -> I done a s ->
                wp md (forM rest f a) s (I l)).
  { induction rest as [|x rest IH]; intros done a' s' Hl Hd; cbn [forM].
    - apply wp_ret. rewrite Hl, app_nil_r. exact Hd.
    - apply wp_bind. eapply wp_mono.
      + apply (Hstep done); [exists rest; exact Hl | exact Hd].
      + intros a'' s'' Hd'. apply (IH (done ++ [x])); [|exact Hd'].
        rewrite <- app_assoc. exact Hl. }
  apply (G l []); [reflexivity | exact H0].
Qed.

Lemma sums_prefix P E rows done x rest :
  rows = done ++ x :: rest ->
  (forall k, In k rows -> rowOK P E k) ->
  altSz P E (done ++ [x]) <= altSz P E rows /\ altCnt E (done ++ [x]) <= altCnt E rows.
Proof.
  intros -> Hok. unfold altSz, altCnt.
  replace (done ++ x :: rest) with ((done ++ [x]) ++ rest)
    by (rewrite <- app_assoc; reflexivity).
  rewrite !(sumRows_app _ (done ++ [x]) rest). split.
  - assert (0 <= sumRows (fun k => if isAlt k then rowSz P E k else 0) rest); [|lia].
    apply sumRows_nonneg. intros k Hk. destruct (isAlt k) eqn:Ha; [|lia].
    apply rowSz_nonneg; [|exact Ha]. apply Hok.
    apply in_or_app. right. right. exact Hk.
  - assert (0 <= sumRows (fun k => if isAlt k then rowCnt E k else 0) rest); [|lia].
    apply sumRows_nonneg. intros k Hk. pose proof (rowCnt_range E k).
    destruct (isAlt k); lia.
Qed.

Lemma rescanPos_spec rows done k rest e s :
  rows = done ++ k :: rest -> List.NoDup rows ->
  (forall i, In i rows -> 0 <= i < _spread cfg) ->
  (forall i, In i rows -> rowOK (_pairs s) (_elims s) i) ->
  altSz (_pairs s) (_elims s) rows <= N ->
  EJ (_pairs s) (_elims s) done e ->
  wp md (rescanPos cfg sd pairs elims ham u k e) s
     (fun e' s' =>
        local s s' /\ _pairs s' = _pairs s /\ _elims s' = _elims s
        /\ altNum e' = altNum e
        /\ EJ (_pairs s) (_elims s) (done ++ [k]) e').
Proof.
  intros Hrows Hnd Hin Hok Hbud HJ.
  destruct index_ok as [HN _ _ _ _].
  assert (Hk : In k rows) by (rewrite Hrows; apply in_or_app; right; left; reflexivity).
  unfold rescanPos. cbv zeta. fold (Qd k). fold (isAlt k).
  destruct (isAlt k) eqn:Ha.
  - pose proof (Hok k Hk) as Hokk.
    assert (Hdone : forall i, In i done -> rowOK (_pairs s) (_elims s) i).
    { intros i Hi. apply Hok. rewrite Hrows. apply in_or_app. left; exact Hi. }
    destruct (elig_le_alt (_pairs s) (_elims s) (lowAltQual e) done Hdone) as [Hec Hes].
    rewrite <- (ej_num _ _ _ _ HJ) in Hec. rewrite <- (ej_sz _ _ _ _ HJ) in Hes.
    pose proof (altCnt_bound (_elims s) done) as Hab.
    destruct (sums_prefix _ _ rows done k rest Hrows Hok) as [Hp1 _].
    destruct (sums_snoc (_pairs s) (_elims s) done k) as (_ & S2 & _ & _).
    rewrite Ha in S2.
    assert (Hlen : Z.of_nat (length done) <= _spread cfg).
    { assert (Hsub : forall i, In i done -> In i (upto (Z.to_nat (_spread cfg)) 0)).
      { intros i Hi. apply upto_In_iff.
        assert (In i rows) by (rewrite Hrows; apply in_or_app; left; exact Hi).
        specialize (Hin i H). lia. }
      assert (Hndd : List.NoDup done).
      { rewrite Hrows in Hnd. apply NoDup_app_remove_r in Hnd. exact Hnd. }
      pose proof (NoDup_incl_length Hndd Hsub) as Hle.
      rewrite upto_length in Hle. lia. }
    destruct (Z.leb_spec (Qd k) (lowAltQual e)) as [Hle|Hgt].
    + set (ov := Qd k <? lowAltQual e).
      set (Inv := fun (l : Z) (st : Elig * bool) (s' : BtState) =>
             local s s' /\ _pairs s' = _pairs s /\ _elims s' = _elims s
             /\ accumulated e (Qd k) true ov false (oCntTo (_elims s) k l)
                            (oSzTo (_pairs s) (_elims s) k l) (fst st) (snd st)).
      assert (Hstep : forall l st s', 0 <= l < 4 -> Inv l st s' ->
                 wp md (rescanStep sd pairs elims (Qd k) k l st) s' (Inv (l + 1))).
      { intros l [el ovl] s' Hl (I1 & I2 & I3 & I4). cbn [fst snd] in I4.
        eapply wp_mono.
        - apply (rescanStep_spec k (Qd k) e ov l el ovl s'); rewrite ?I2, ?I3;
            try assumption; try (apply Hin, Hk);
            unfold U32, DEFAULT_SPREAD in *; lia.
        - intros st' s'' (J1 & J2 & J3 & J4). rewrite I2, I3 in *.
          split; [destruct local_pre as [_ Ht]; eapply Ht; eassumption|].
          split; [congruence|]. split; [congruence|]. exact J4. }
      assert (H0 : Inv 0 (e, ov) s).
      { split; [apply local_pre|]. split; [reflexivity|]. split; [reflexivity|].
        apply accumulated_start. }
      change (upto 4 0) with [0; 1; 2; 3]. cbn [forM].
      wp_step. wp_step.
      eapply wp_mono; [apply (Hstep 0); [lia | exact H0]|]. intros st1 t1 I1. cbv beta.
      wp_step.
      eapply wp_mono; [apply (Hstep 1); [lia | exact I1]|]. intros st2 t2 I2. cbv beta.
      wp_step.
      eapply wp_mono; [apply (Hstep 2); [lia | exact I2]|]. intros st3 t3 I3. cbv beta.
      wp_step.
      eapply wp_mono; [apply (Hstep 3); [lia | exact I3]|]. intros st4 t4 I4. cbv beta.
      do 2 wp_step. change (3 + 1) with 4 in I4.
      destruct I4 as (K1 & K2 & K3 & K4).
      split; [exact K1|]. split; [exact K2|]. split; [exact K3|].
      split; [destruct K4 as [K4 _]; lia|].
      eapply EJ_extend; [exact HJ | exact Hokk | exact Ha|].
      replace (Qd k <=? lowAltQual e) with true by (symmetry; apply Z.leb_le; exact Hle).
      exact K4.
    + wp_step. split; [apply local_pre|]. split; [reflexivity|]. split; [reflexivity|].
      split; [reflexivity|].
      eapply (EJ_extend _ _ _ _ _ _ (Qd k <? lowAltQual e) false);
        [exact HJ | exact Hokk | exact Ha|].
      replace (Qd k <=? lowAltQual e) with false by (symmetry; apply Z.leb_gt; exact Hgt).
      unfold accumulated. repeat split; lia.
  - wp_step. split; [apply local_pre|]. split; [reflexivity|]. split; [reflexivity|].
    split; [reflexivity|]. apply EJ_skip; assumption.
Qed.

Lemma rescan_spec depth d e s :
  0 <= depth -> d < _spread cfg ->
  let rows := upto (Z.to_nat (d + 1 - depth)) depth in
  (forall i, In i rows -> rowOK (_pairs s) (_elims s) i) ->
  altSz (_pairs s) (_elims s) rows <= N ->
  altNum e = altCnt (_elims s) rows ->
  eligibleNum e = 0 -> eligibleSz e = 0 ->
  wp md (rescan cfg sd pairs elims ham depth d u e) s
     (fun e' s' =>
        local s s' /\ _pairs s' = _pairs s /\ _elims s' = _elims s
        /\ EI (_pairs s) (_elims s) rows e').
Proof.
  intros Hdep Hd rows Hok Hbud Halt Hn Hs.
  unfold rescan. fold rows. rewrite Hn, Hs.
  eapply wp_mono.
  - apply (wp_forM_prefix
             (fun done e' s' =>
                local s s' /\ _pairs s' = _pairs s /\ _elims s' = _elims s
                /\ altNum e' = altNum e
                /\ EJ (_pairs s) (_elims s) done e')).
    + split; [apply local_pre|]. split; [reflexivity|]. split; [reflexivity|].
      split; [reflexivity|].
      constructor; cbn [eligibleNum eligibleSz lowAltQual altCnt eligCnt eligSz sumRows];
        try reflexivity; try lia.
      * intros k [].
      * intros k [].
    + intros done x a s' [rest Hrest] (I1 & I2 & I3 & I4 & I5).
      eapply wp_mono.
      * apply (rescanPos_spec rows done x rest a s'); rewrite ?I2, ?I3;
          try assumption.
        -- apply upto_NoDup.
        -- intros i Hi. apply upto_In_iff in Hi. lia.
      * intros e' s'' (J1 & J2 & J3 & J4 & J5). rewrite I2, I3 in *.
        split; [destruct local_pre as [_ Ht]; eapply Ht; eassumption|].
        split; [congruence|]. split; [congruence|]. split; [congruence|]. exact J5.
  - intros e' s' (I1 & I2 & I3 & I4 & I5). cbv beta.
    split; [exact I1|]. split; [exact I2|]. split; [exact I3|].
    split; [exact I5|]. rewrite I4. exact Halt.
Qed.

(** *** Eliminating the pair that was tried *)

Lemma close_row P E E' i j :
  rowOK P E i -> isAlt i = true -> 0 <= j < 4 ->
  openb (eAt E i) j = true ->
  eAt E' i = wrap8 (Z.lor (eAt E i) (Z.shiftl 1 j)) ->
  rowCnt E' i = rowCnt E i - 1
  /\ rowSz P E' i = rowSz P E i - spreadAt P i j
  /\ rowOK P E' i.
Proof.
  intros Hok Ha Hj Ho He. destruct (Hok Ha) as [Hr Hp].
  assert (Hb : forall j', 0 <= j' < 4 ->
             openb (eAt E' i) j' = openb (eAt E i) j' && negb (j' =? j)).
  { intros j' Hj'. rewrite He. apply openb_lor; assumption. }
  split; [|split].
  - unfold rowCnt, sum4. rewrite !Hb by lia.
    four j; rewrite Ho; cbn [Z.eqb Pos.eqb negb andb b2z];
      rewrite ?andb_true_r; lia.
  - unfold rowSz, sum4. rewrite !Hb by lia.
    four j; rewrite Ho; cbn [Z.eqb Pos.eqb negb andb];
      rewrite ?andb_true_r; lia.
  - intros _. split; [rewrite He; apply lor_range; assumption|].
    intros j' Hj' Ho'. rewrite (Hb j' Hj') in Ho'.
    apply andb_true_iff in Ho'. apply Hp; [exact Hj' | apply Ho'].
Qed.

Lemma close_pair P E E' rows e i j :
  List.NoDup rows -> In i rows -> isAlt i = true -> Qd i = lowAltQual e ->
  0 <= j < 4 -> openb (eAt E i) j = true ->
  EI P E rows e ->
  eAt E' i = wrap8 (Z.lor (eAt E i) (Z.shiftl 1 j)) ->
  (forall k, In k rows -> k <> i -> eAt E' k = eAt E k) ->
  (forall k, In k rows -> rowOK P E' k)
  /\ altCnt E' rows = altNum e - 1
  /\ altSz P E' rows = altSz P E rows - spreadAt P i j
  /\ eligCnt E' (lowAltQual e) rows = eligibleNum e - 1
  /\ eligSz P E' (lowAltQual e) rows = eligibleSz e - spreadAt P i j
  /\ 1 <= altNum e /\ 1 <= eligibleNum e
  /\ 0 < spreadAt P i j <= eligibleSz e
  /\ (forall k, In k rows -> isAlt k = true -> 0 < rowCnt E' k ->
                 lowAltQual e <= Qd k).
Proof.
  intros Hnd Hi Ha Hq Hj Ho [HJ Halt] He Hoth.
  pose proof (ej_rows _ _ _ _ HJ) as Hok.
  destruct (close_row P E E' i j (Hok i Hi) Ha Hj Ho He) as (R1 & R2 & R3).
  assert (Hc : forall k, In k rows -> k <> i -> rowCnt E' k = rowCnt E k).
  { intros k Hk Hne. unfold rowCnt. rewrite (Hoth k Hk Hne). reflexivity. }
  assert (Hs : forall k, In k rows -> k <> i -> rowSz P E' k = rowSz P E k).
  { intros k Hk Hne. unfold rowSz. rewrite (Hoth k Hk Hne). reflexivity. }
  assert (Hb : isAlt i && (Qd i =? lowAltQual e) = true)
    by (rewrite Ha, Hq, Z.eqb_refl; reflexivity).
  assert (Hsp : 0 < spreadAt P i j).
  { destruct (Hok i Hi Ha) as [_ Hp]. specialize (Hp j Hj Ho). unfold spreadAt. lia. }
  assert (Hcnt1 : 1 <= rowCnt E i).
  { pose proof (rowCnt_range E' i). lia. }
  assert (Hsz1 : spreadAt P i j <= rowSz P E i).
  { pose proof (rowSz_nonneg P E' i R3 Ha). lia. }
  assert (G1 : altCnt E' rows = altCnt E rows - 1).
  { unfold altCnt.
    rewrite (sumRows_change (fun k => if isAlt k then rowCnt E k else 0)
               (fun k => if isAlt k then rowCnt E' k else 0) rows i Hnd Hi).
    - rewrite Ha. lia.
    - intros k Hk Hne. rewrite (Hc k Hk Hne). reflexivity. }
  assert (G2 : altSz P E' rows = altSz P E rows - spreadAt P i j).
  { unfold altSz.
    rewrite (sumRows_change (fun k => if isAlt k then rowSz P E k else 0)
               (fun k => if isAlt k then rowSz P E' k else 0) rows i Hnd Hi).
    - rewrite Ha. lia.
    - intros k Hk Hne. rewrite (Hs k Hk Hne). reflexivity. }
  assert (G3 : eligCnt E' (lowAltQual e) rows = eligCnt E (lowAltQual e) rows - 1).
  { unfold eligCnt.
    rewrite (sumRows_change
               (fun k => if isAlt k && (Qd k =? lowAltQual e) then rowCnt E k else 0)
               (fun k => if isAlt k && (Qd k =? lowAltQual e) then rowCnt E' k else 0)
               rows i Hnd Hi).
    - rewrite Hb. lia.
    - intros k Hk Hne. rewrite (Hc k Hk Hne). reflexivity. }
  assert (G4 : eligSz P E' (lowAltQual e) rows
               = eligSz P E (lowAltQual e) rows - spreadAt P i j).
  { unfold eligSz.
    rewrite (sumRows_change
               (fun k => if isAlt k && (Qd k =? lowAltQual e) then rowSz P E k else 0)
               (fun k => if isAlt k && (Qd k =? lowAltQual e) then rowSz P E' k else 0)
               rows i Hnd Hi).
    - rewrite Hb. lia.
    - intros k Hk Hne. rewrite (Hs k Hk Hne). reflexivity. }
  assert (G5 : 1 <= eligCnt E (lowAltQual e) rows).
  { unfold eligCnt.
    pose proof (sumRows_ge
                  (fun k => if isAlt k && (Qd k =? lowAltQual e) then rowCnt E k else 0)
                  rows i) as Hge.
    cbv beta in Hge. rewrite Hb in Hge.
    assert (rowCnt E i <= sumRows
              (fun k => if isAlt k && (Qd k =? lowAltQual e) then rowCnt E k else 0) rows);
      [|lia].
    apply Hge; [|exact Hi]. intros k Hk. pose proof (rowCnt_range E k).
    destruct (isAlt k && (Qd k =? lowAltQual e)); lia. }
  assert (G6 : spreadAt P i j <= eligSz P E (lowAltQual e) rows).
  { unfold eligSz.
    pose proof (sumRows_ge
                  (fun k => if isAlt k && (Qd k =? lowAltQual e) then rowSz P E k else 0)
                  rows i) as Hge.
    cbv beta in Hge. rewrite Hb in Hge.
    assert (rowSz P E i <= sumRows
              (fun k => if isAlt k && (Qd k =? lowAltQual e) then rowSz P E k else 0) rows);
      [|lia].
    apply Hge; [|exact Hi]. intros k Hk.
    destruct (isAlt k) eqn:Hak; cbn [andb]; [|lia].
    pose proof (rowSz_nonneg P E k (Hok k Hk) Hak).
    destruct (Qd k =? lowAltQual e); lia. }
  pose proof (elig_le_alt P E (lowAltQual e) rows Hok) as [Hle _].
  rewrite (ej_num _ _ _ _ HJ), (ej_sz _ _ _ _ HJ), Halt.
  split.
  { intros k Hk. destruct (Z.eq_dec k i) as [->|Hne]; [exact R3|].
    intros Hak. unfold rowOK in Hok. rewrite (Hoth k Hk Hne).
    apply (Hok k Hk Hak). }
  repeat split; try assumption; try lia.
  intros k Hk Hak Hp. apply (ej_min _ _ _ _ HJ k Hk Hak).
  destruct (Z.eq_dec k i) as [->|Hne]; [lia|]. rewrite <- (Hc k Hk Hne). exact Hp.
Qed.

Lemma eligSz_zero P E low rows :
  (forall k, In k rows -> rowOK P E k) ->
  eligCnt E low rows = 0 -> eligSz P E low rows = 0.
Proof.
  intros Hok Hz. unfold eligSz. apply sumRows_zero. intros k Hk.
  destruct (isAlt k && (Qd k =? low)) eqn:Hb; [|reflexivity].
  apply rowSz_zero.
  pose proof (sumRows_ge (fun k => if isAlt k && (Qd k =? low) then rowCnt E k else 0)
                rows k) as Hge.
  cbv beta in Hge. rewrite Hb in Hge. unfold eligCnt in Hz. rewrite Hz in Hge.
  pose proof (rowCnt_range E k).
  assert (rowCnt E k <= 0); [|lia].
  apply Hge; [|exact Hk]. intros k' Hk'. pose proof (rowCnt_range E k').
  destruct (isAlt k' && (Qd k' =? low)); lia.
Qed.

(** *** What a frame may do *)

(** How many of the depths [l] lie in [[lo, hi)]. *)
Definition countIn (lo hi : Z) (l : list Z) : Z :=
  sumRows (fun i => b2z ((lo <=? i) && (i <? hi))) l.

(** The depths a frame with boundaries [u'], [o1'], [o2'] may still
    backtrack to. *)
Definition regOK (u' o1' o2' : Z) (fut : list Z) : Prop :=
  (forall i, In i fut -> u' <= i)
  /\ countIn u' o1' fut <= 1 /\ countIn u' o2' fut <= 2.

(** How many frames can be stacked on one that starts at [depth']. *)
Definition room (depth' u' : Z) : Z :=
  Z.max 0 (_qlen cfg - 1 - Z.max depth' u').

(** A hit reported below a frame: the mismatches of the callers, then the
    positions backtracked to from this frame on, then the mutations. *)
Definition HitOK (M : gmap Z Z) (sd' depth' u' o1' o2' ham' : Z) (h : Hit)
    : Prop :=
  exists fut,
    h_mms h = map (rd M) (upto (Z.to_nat sd') 0) ++ map posOf fut ++ mutsPos
    /\ (forall i, In i fut -> depth' <= i < _qlen cfg)
    /\ ham' + sumRows Qd fut <= _qualThresh cfg
    /\ (_halfAndHalf cfg = false -> u' <= o1' <= o2' -> o2' = _2revOff cfg ->
        regOK u' o1' o2' fut).

(** Depths that go up from one to the next. *)
Fixpoint ascending (l : list Z) : Prop :=
  match l with
  | [] => True
  | x :: l' => (forall y, In y l' -> x < y) /\ ascending l'
  end.

(** ... and the positions backtracked to are listed from the shallowest to
    the deepest: each frame calls the next at a depth beyond its target. *)
Definition HitGood (M : gmap Z Z) (sd' depth' u' o1' o2' ham' : Z) (h : Hit)
    : Prop :=
  exists fut,
    h_mms h = map (rd M) (upto (Z.to_nat sd') 0) ++ map posOf fut ++ mutsPos
    /\ (forall i, In i fut -> depth' <= i < _qlen cfg)
    /\ ham' + sumRows Qd fut <= _qualThresh cfg
    /\ (_halfAndHalf cfg = false -> u' <= o1' <= o2' -> o2' = _2revOff cfg ->
        regOK u' o1' o2' fut)
    /\ ascending fut.

Lemma HitGood_OK M sd' depth' u' o1' o2' ham' h :
  HitGood M sd' depth' u' o1' o2' ham' h -> HitOK M sd' depth' u' o1' o2' ham' h.
Proof.
  clear.
  intros (fut & H1 & H2 & H3 & H4 & _). exists fut.
  split; [exact H1|]. split; [exact H2|]. split; [exact H3 | exact H4].
Qed.

Definition inStack (sd' depth' u' pairs' elims' : Z) (e : Event) : Prop :=
  match e with
  | EvAccess APairs k a =>
    sd' <= k <= sd' + room depth' u'
    /\ pairs' + (k - sd') * (_spread cfg * 8) <= a
       < pairs' + (k - sd' + 1) * (_spread cfg * 8)
  | EvAccess AElims k a =>
    sd' <= k <= sd' + room depth' u'
    /\ elims' + (k - sd') * _spread cfg <= a
       < elims' + (k - sd' + 1) * _spread cfg
  | EvCall k _ _ _ _ _ _ _ => sd' <= k < sd' + room depth' u'
  end.

Record FR (sd' depth' u' o1' o2' ham' pairs' elims' : Z) (s s' : BtState)
    : Prop := {
  fr_qry : _qry s' = _qry s;
  fr_mms : forall k, k < sd' -> rd (_mms s') k = rd (_mms s) k;
  fr_pairs : forall a, a < pairs' -> rd (_pairs s') a = rd (_pairs s) a;
  fr_elims : forall a, a < elims' -> rd (_elims s') a = rd (_elims s) a;
  fr_hits : exists new, sink s' = sink s ++ new
                        /\ Forall (HitGood (_mms s) sd' depth' u' o1' o2' ham') new;
  fr_trace : logs (inStack sd' depth' u' pairs' elims') s s'
}.

Lemma fr_sink sd' depth' u' o1' o2' ham' pairs' elims' s s' :
  FR sd' depth' u' o1' o2' ham' pairs' elims' s s' ->
  exists new, sink s' = sink s ++ new
              /\ Forall (HitOK (_mms s) sd' depth' u' o1' o2' ham') new.
Proof.
  clear.
  intros [_ _ _ _ (new & Hs & Hn) _]. exists new. split; [exact Hs|].
  eapply Forall_impl; [exact Hn|]. intros h. apply HitGood_OK.
Qed.

Lemma map_rd_ext (M M' : gmap Z Z) n :
  (forall k, k < Z.of_nat n -> rd M' k = rd M k) ->
  map (rd M') (upto n 0) = map (rd M) (upto n 0).
Proof.
  clear.
  intros H. apply map_ext_in. intros k Hk. apply upto_In_iff in Hk. apply H. lia.
Qed.

Lemma HitGood_ext M M' sd' depth' u' o1' o2' ham' h :
  0 <= sd' -> (forall k, k < sd' -> rd M' k = rd M k) ->
  HitGood M' sd' depth' u' o1' o2' ham' h -> HitGood M sd' depth' u' o1' o2' ham' h.
Proof.
  intros Hsd HM (fut & H1 & H2 & H3 & H4 & H5). exists fut.
  split; [|split; [exact H2 | split; [exact H3 | split; [exact H4 | exact H5]]]].
  rewrite H1. f_equal. apply map_rd_ext. intros k Hk. apply HM. lia.
Qed.

Lemma FR_refl sd' depth' u' o1' o2' ham' pairs' elims' s :
  FR sd' depth' u' o1' o2' ham' pairs' elims' s s.
Proof.
  constructor; try reflexivity.
  - exists []. split; [rewrite app_nil_r; reflexivity | constructor].
  - apply logs_pre.
Qed.

Lemma FR_trans sd' depth' u' o1' o2' ham' pairs' elims' s1 s2 s3 :
  0 <= sd' ->
  FR sd' depth' u' o1' o2' ham' pairs' elims' s1 s2 ->
  FR sd' depth' u' o1' o2' ham' pairs' elims' s2 s3 ->
  FR sd' depth' u' o1' o2' ham' pairs' elims' s1 s3.
Proof.
  intros Hsd [A1 A2 A3 A4 (n1 & A5 & A6) A7] [B1 B2 B3 B4 (n2 & B5 & B6) B7].
  constructor.
  - congruence.
  - intros k Hk. rewrite (B2 k Hk). apply A2, Hk.
  - intros a Ha. rewrite (B3 a Ha). apply A3, Ha.
  - intros a Ha. rewrite (B4 a Ha). apply A4, Ha.
  - exists (n1 ++ n2). split; [rewrite B5, A5, app_assoc; reflexivity|].
    apply Forall_app. split; [exact A6|].
    eapply Forall_impl; [exact B6|]. intros h Hh.
    eapply HitGood_ext; [exact Hsd | | exact Hh]. exact A2.
  - destruct (logs_pre (inStack sd' depth' u' pairs' elims')) as [_ Ht].
    eapply Ht; eassumption.
Qed.

Lemma countIn_cons lo hi i l :
  countIn lo hi (i :: l) = b2z ((lo <=? i) && (i <? hi)) + countIn lo hi l.
Proof. reflexivity. Qed.

Lemma countIn_nonneg lo hi l : 0 <= countIn lo hi l.
Proof.
  clear.
  apply sumRows_nonneg. intros i _. destruct ((lo <=? i) && (i <? hi)); cbn; lia.
Qed.

Lemma countIn_above lo hi l : (forall i, In i l -> hi <= i) -> countIn lo hi l = 0.
Proof.
  clear.
  intros H. apply sumRows_zero. intros i Hi. specialize (H i Hi).
  replace (i <? hi) with false by (symmetry; apply Z.ltb_ge; lia).
  rewrite andb_false_r. reflexivity.
Qed.

Lemma countIn_mono lo lo' hi hi' l :
  lo <= lo' -> hi' <= hi -> countIn lo' hi' l <= countIn lo hi l.
Proof.
  clear.
  intros H1 H2. apply sumRows_le. intros i _.
  destruct (Z.leb_spec lo' i), (Z.ltb_spec i hi'), (Z.leb_spec lo i), (Z.ltb_spec i hi);
    cbn; lia.
Qed.

Lemma countIn_lower lo lo' hi l :
  (forall i, In i l -> lo' <= i) -> lo <= lo' -> countIn lo hi l = countIn lo' hi l.
Proof.
  clear.
  intros H Hl. apply sumRows_ext. intros i Hi. specialize (H i Hi).
  destruct (Z.leb_spec lo' i), (Z.leb_spec lo i); try reflexivity; lia.
Qed.

Lemma regions_step (o1 o2 i : Z) fut' :
  _halfAndHalf cfg = false -> u <= o1 <= o2 -> o2 = _2revOff cfg -> u <= i ->
  forall bu bo bt, btRegions cfg i u o1 o2 = (bu, bo, bt) ->
  (bu <= bo <= bt /\ bt = _2revOff cfg)
  /\ (regOK bu bo bt fut' -> regOK u o1 o2 (i :: fut')).
Proof.
  intros Hhh Hord H2 Hi bu bo bt Hbt. unfold btRegions in Hbt. rewrite Hhh in Hbt.
  cbn [negb] in Hbt. unfold regOK. rewrite !countIn_cons.
  pose proof (countIn_nonneg u o1 fut'). pose proof (countIn_nonneg u o2 fut').
  destruct (Z.ltb_spec i o1) as [L1|L1].
  - inversion Hbt; subst bu bo bt. rewrite <- H2. split; [lia|].
    intros (A1 & A2 & A3).
    assert (countIn u o1 fut' = 0) by (apply countIn_above; exact A1).
    assert (countIn u o2 fut' = countIn o1 o2 fut')
      by (apply countIn_lower; [exact A1 | lia]).
    split; [intros i' [<-|Hi']; [lia | specialize (A1 i' Hi'); lia]|].
    destruct (Z.leb_spec u i), (Z.ltb_spec i o1), (Z.ltb_spec i o2); cbn [andb b2z]; lia.
  - destruct (Z.ltb_spec i o2) as [L2|L2].
    + inversion Hbt; subst bu bo bt. split; [lia|].
      intros (A1 & A2 & A3).
      pose proof (countIn_mono u u o2 o1 fut' ltac:(lia) ltac:(lia)).
      split; [intros i' [<-|Hi']; [lia | apply A1, Hi']|].
      destruct (Z.leb_spec u i), (Z.ltb_spec i o1), (Z.ltb_spec i o2); cbn [andb b2z]; lia.
    + inversion Hbt; subst bu bo bt. split; [lia|].
      intros (A1 & A2 & A3).
      split; [intros i' [<-|Hi']; [lia | apply A1, Hi']|].
      destruct (Z.leb_spec u i), (Z.ltb_spec i o1), (Z.ltb_spec i o2); cbn [andb b2z]; lia.
Qed.

Lemma HitGood_leaf M sd' depth' u' o1' o2' ham' h :
  h_mms h = map (rd M) (upto (Z.to_nat sd') 0) ++ mutsPos ->
  ham' <= _qualThresh cfg ->
  HitGood M sd' depth' u' o1' o2' ham' h.
Proof.
  intros Hm Hh. exists []. split; [exact Hm|]. split; [intros i []|].
  split; [cbn [sumRows]; lia|]. split; [|exact I].
  intros _ _ _. unfold regOK, countIn. cbn [sumRows].
  split; [intros i []|lia].
Qed.

Variables (depth o1 o2 : Z).
Hypothesis sd_ok : 0 <= sd <= depth.
Hypothesis depth_ok : 0 <= depth < _qlen cfg.

Lemma HitGood_step M3 M i bu bo bt depth' h :
  rd M3 sd = posOf i -> (forall k, k < sd -> rd M3 k = rd M k) ->
  depth <= i < _qlen cfg -> u <= i -> i < depth' ->
  btRegions cfg i u o1 o2 = (bu, bo, bt) ->
  HitGood M3 (sd + 1) depth' bu bo bt (ham + Qd i) h ->
  HitGood M sd depth u o1 o2 ham h.
Proof.
  intros Hsd HM Hi Hu Hd Hbt (fut & H1 & H2 & H3 & H4 & H5). exists (i :: fut).
  split; [|split; [|split; [|split]]].
  - rewrite H1. replace (Z.to_nat (sd + 1)) with (S (Z.to_nat sd)) by lia.
    rewrite upto_snoc, map_app. cbn [map]. rewrite Z.add_0_l, Z2Nat.id by lia.
    rewrite Hsd, <- app_assoc. cbn [app].
    f_equal. apply map_rd_ext. intros k Hk. apply HM. lia.
  - intros i' [<-|Hi']; [exact Hi | specialize (H2 i' Hi'); lia].
  - cbn [sumRows]. lia.
  - intros Hhh Hord Ho2.
    destruct (regions_step o1 o2 i fut Hhh Hord Ho2 Hu bu bo bt Hbt) as [[Hr1 Hr2] Hr].
    apply Hr, H4; assumption.
  - cbn [ascending]. split; [|exact H5].
    intros y Hy. specialize (H2 y Hy). lia.
Qed.

Lemma room_callee i bu : depth <= i -> u <= i -> i + 1 < _qlen cfg ->
  1 + room (i + 1) bu <= room depth u.
Proof. unfold room. lia. Qed.

Lemma inStack_callee i bu e :
  depth <= i -> u <= i -> i + 1 < _qlen cfg ->
  inStack (sd + 1) (i + 1) bu (pairs + _spread cfg * 8) (elims + _spread cfg) e ->
  inStack sd depth u pairs elims e.
Proof.
  intros H1 H2 H3. pose proof (room_callee i bu H1 H2 H3) as Hr.
  destruct e as [[|] k a|k ? ? ? ? ? ? ?]; cbn [inStack]; intros H; lia.
Qed.

Lemma inFrame_inStack e : inFrame sd pairs elims e -> inStack sd depth u pairs elims e.
Proof.
  assert (0 <= room depth u) by (unfold room; lia).
  destruct e as [[|] k a|k ? ? ? ? ? ? ?]; cbn [inFrame inStack]; intros H'; lia.
Qed.

Lemma FR_local s s' :
  local s s' ->
  (forall a, a < pairs -> rd (_pairs s') a = rd (_pairs s) a) ->
  (forall a, a < elims -> rd (_elims s') a = rd (_elims s) a) ->
  FR sd depth u o1 o2 ham pairs elims s s'.
Proof.
  intros (L1 & L2 & L3 & L4) HP HE. constructor; try assumption.
  - intros k _. rewrite L2. reflexivity.
  - exists []. split; [rewrite app_nil_r; exact L3 | constructor].
  - eapply logs_weaken; [|exact L4]. apply inFrame_inStack.
Qed.

Lemma FR_callee i bu bo bt s s' :
  rd (_mms s) sd = posOf i ->
  depth <= i -> u <= i -> i + 1 < _qlen cfg ->
  btRegions cfg i u o1 o2 = (bu, bo, bt) ->
  FR (sd + 1) (i + 1) bu bo bt (ham + Qd i)
     (pairs + _spread cfg * 8) (elims + _spread cfg) s s' ->
  FR sd depth u o1 o2 ham pairs elims s s'.
Proof.
  intros Hm H1 H2 H3 Hbt [A1 A2 A3 A4 (new & A5 & A6) A7].
  constructor.
  - exact A1.
  - intros k Hk. apply A2. lia.
  - intros a Ha. apply A3. lia.
  - intros a Ha. apply A4. lia.
  - exists new. split; [exact A5|].
    eapply Forall_impl; [exact A6|]. intros h Hh.
    eapply (HitGood_step (_mms s) (_mms s) i bu bo bt (i + 1));
      try eassumption; try lia; reflexivity.
  - eapply logs_weaken; [|exact A7]. intros e. apply inStack_callee; assumption.
Qed.

(** *** Reporting *)

Lemma upto_app n m : forall from,
  upto (n + m) from = upto n from ++ upto m (from + Z.of_nat n).
Proof.
  clear.
  induction n as [|n IH]; intros from.
  - cbn [Nat.add upto app]. rewrite Z.add_0_r. reflexivity.
  - cbn [Nat.add upto app]. rewrite IH. do 3 f_equal. lia.
Qed.

Lemma upto_shift n : forall a b, upto n (a + b) = map (Z.add a) (upto n b).
Proof.
  clear.
  induction n as [|n IH]; intros a b; cbn [upto map]; [reflexivity|].
  f_equal. rewrite <- IH. f_equal. lia.
Qed.

(** Hits enter the sink with the mismatch list [_mms[0 .. n)]. *)
Definition RS (n : Z) (s s' : BtState) : Prop :=
  _mms s' = _mms s
  /\ exists new, sink s' = sink s ++ new
                 /\ Forall (fun h => h_mms h = mmsList s n) new.

Lemma RS_refl n s : RS n s s.
Proof. split; [reflexivity|]. exists []. split; [rewrite app_nil_r; reflexivity | constructor]. Qed.

Lemma RS_trans n s1 s2 s3 : RS n s1 s2 -> RS n s2 s3 -> RS n s1 s3.
Proof.
  intros [A1 (n1 & A2 & A3)] [B1 (n2 & B2 & B3)]. split; [congruence|].
  exists (n1 ++ n2). split; [rewrite B2, A2, app_assoc; reflexivity|].
  apply Forall_app. split; [exact A3|].
  eapply Forall_impl; [exact B3|]. intros h Hh. cbv beta in *.
  rewrite Hh. unfold mmsList. rewrite A1. reflexivity.
Qed.

Lemma chase_RS n ri top bot s :
  wp md (chase ebwt n ri top bot) s (fun _ s' => RS n s s').
Proof.
  unfold wp, chase. destruct (reportChaseOne _ _ _); [|apply RS_refl].
  split; [reflexivity|]. eexists. split; [reflexivity|].
  constructor; [reflexivity | constructor].
Qed.

Lemma chaseLoop_RS m r n top bot spread : forall i s,
  wp md (chaseLoop ebwt m i r n top bot spread) s (fun _ s' => RS n s s').
Proof.
  induction m as [|m IH]; intros i s; cbn [chaseLoop].
  - apply wp_ret, RS_refl.
  - cbv zeta. apply wp_bind. eapply wp_mono; [apply chase_RS|].
    intros ok s1 H1. cbv beta. destruct ok; [apply wp_ret; exact H1|].
    eapply wp_mono; [apply IH|]. intros ? s2 H2. eapply RS_trans; eassumption.
Qed.

(** An interval that holds a row, as a hit is drawn from one: its size is
    the divisor of the draw. *)
Definition inhabited (top bot : Z) : Prop :=
  m_safe md = true -> 0 <= top < bot /\ bot <= N.

Lemma reportHit_RS n top bot s :
  inhabited top bot ->
  wp md (reportHit ebwt rnd cfg n top bot) s (fun _ s' => RS n s s').
Proof.
  intros Hin. unfold reportHit. destruct (_oneHit cfg); [|apply wp_ret, RS_refl].
  cbv zeta. wp_step. wp_step.
  destruct (Z.eqb_spec (wrap32 (bot - top)) 0) as [Hz|_].
  { unfold wp, crash. destruct (m_safe md) eqn:Hsafe; [|reflexivity].
    destruct index_ok as [HN _ _ _ _]. destruct (Hin Hsafe) as [Htb HbN].
    rewrite wrap32_small in Hz by lia. lia. }
  eapply wp_mono; [apply chaseLoop_RS|]. intros ? s' H. exact H.
Qed.

(** The loop that splices the mutations into [_mms]. *)
Lemma mmsLoop_spec (g f : Z -> Z) l : forall s,
  (forall x y, In x l -> In y l -> g x = g y -> x = y) ->
  List.NoDup l ->
  wp md (forM l (fun x (_ : unit) => stMms (g x) (f x)) tt) s
     (fun _ s' =>
        sink s' = sink s /\ _qry s' = _qry s
        /\ (forall a, (forall x, In x l -> a <> g x) -> rd (_mms s') a = rd (_mms s) a)
        /\ (forall x, In x l -> rd (_mms s') (g x) = f x)).
Proof.
  induction l as [|x l IH]; intros s Hinj Hnd; cbn [forM].
  - apply wp_ret. repeat split; try reflexivity. intros ? [].
  - inversion Hnd as [|? ? Hx Hnd']; subst.
    wp_step. wp_step. eapply wp_mono.
    + apply IH; [intros; apply Hinj; try right; assumption | exact Hnd'].
    + intros ? s' (Hs & Hq & Ho & Hi). cbv beta. st_simpl.
      split; [exact Hs|]. split; [exact Hq|]. split.
      * intros addr Ha. rewrite Ho by (intros; apply Ha; right; assumption).
        apply rd_insert_ne. intros E. apply (Ha x (or_introl eq_refl)). symmetry; exact E.
      * intros y [<-|Hy]; [|apply Hi, Hy].
        rewrite Ho; [apply rd_insert_eq|].
        intros z Hz E. apply Hx. rewrite (Hinj x z); try assumption;
          [left; reflexivity | right; assumption].
Qed.

(** Steps that touch neither the arenas nor the trace. *)
Definition quiet (s s' : BtState) : Prop :=
  _pairs s' = _pairs s /\ _elims s' = _elims s /\ trace s' = trace s.

Lemma quiet_pre : preorder quiet.
Proof.
  split; [intros s; repeat split|].
  intros a b c (A1 & A2 & A3) (B1 & B2 & B3). repeat split; congruence.
Qed.

Lemma reportSeedling_runs k s :
  wp md (reportSeedling cfg k) s (fun _ _ => True).
Proof.
  unfold reportSeedling. wp_step.
  eapply wp_mono; [apply (wp_forM md (fun _ _ => True)); [exact I|]|].
  - intros x [] s0 _ _. repeat wp_step; exact I.
  - intros ? s1 _. apply wp_ret. exact I.
Qed.

Lemma report_hits k top bot s :
  0 <= k <= _spread cfg -> inhabited top bot ->
  wp md (report ebwt rnd cfg k top bot) s
     (fun _ s' =>
        (forall i, i < k -> rd (_mms s') i = rd (_mms s) i)
        /\ exists new, sink s' = sink s ++ new
             /\ Forall (fun h => h_mms h
                                 = map (rd (_mms s)) (upto (Z.to_nat k) 0) ++ mutsPos)
                       new).
Proof.
  intros Hk Hin. unfold report. destruct (negb (_reportSeedlings cfg =? 0)).
  - wp_step. eapply wp_mono.
    + apply wp_also; [apply reportSeedling_runs|].
      apply (keeps_reportSeedling cfg false
               (fun s s' => _mms s' = _mms s /\ sink s' = sink s)).
      * split; [intros ?; split; reflexivity|].
        intros a b c [A1 A2] [B1 B2]. split; congruence.
      * intros l s0. split; reflexivity.
    + intros ? s1 [_ [H1 H2]]. cbv beta. wp_step. st_simpl.
      split; [intros; rewrite H1; reflexivity|].
      exists []. split; [rewrite app_nil_r; exact H2 | constructor].
  - wp_step.
    assert (Hu : wp md (undoMutations cfg) s
                   (fun _ s1 => _mms s1 = _mms s /\ sink s1 = sink s)).
    { unfold wp, undoMutations. destruct (_muts cfg); split; reflexivity. }
    eapply wp_mono; [exact Hu|]. intros ? s1 [M1 K1]. cbv beta.
    assert (Ha : forall (b : bool) s2, wp md (applyMutations cfg ;;; ret b) s2
                   (fun _ s3 => _mms s3 = _mms s2 /\ sink s3 = sink s2)).
    { intros b s2. unfold wp, bind, applyMutations, ret.
      destruct (_muts cfg); split; reflexivity. }
    wp_step. unfold mutsPos.
    destruct (_muts cfg) as [ms|] eqn:Hms.
    + wp_step. eapply wp_mono.
      { apply (mmsLoop_spec (fun i => k + i)
                 (fun i => pos (nth (Z.to_nat i) ms (mkMut 0 0 0)))).
        - intros x y _ _ E. lia.
        - apply upto_NoDup. }
      intros ? s2 (K2 & _ & O2 & I2). cbv beta.
      assert (Hlen : Z.of_nat (length ms) <= DEFAULT_SPREAD).
      { unfold mutsPos in muts_fit. rewrite Hms, length_map in muts_fit. exact muts_fit. }
      rewrite wrap32_small by (unfold U32, DEFAULT_SPREAD in *; lia).
      eapply wp_mono; [apply reportHit_RS; exact Hin|].
      intros hit s3 [M3 (new & K3 & F3)]. cbv beta.
      eapply wp_mono; [apply Ha|]. intros ? s4 [M4 K4]. cbv beta.
      split.
      * intros i Hi. rewrite M4, M3, O2, M1; [reflexivity|].
        intros x Hx. apply upto_In_iff in Hx. lia.
      * exists new. split; [congruence|].
        eapply Forall_impl; [exact F3|]. intros h Hh. cbv beta in *.
        rewrite Hh. unfold mmsList.
        replace (Z.to_nat (k + Z.of_nat (length ms)))
          with (Z.to_nat k + length ms)%nat by lia.
        rewrite upto_app, map_app. f_equal.
        -- apply map_rd_ext. intros i Hi. rewrite O2, M1; [reflexivity|].
           intros x Hx. apply upto_In_iff in Hx. lia.
        -- rewrite Z.add_0_l, Z2Nat.id by lia.
           replace k with (k + 0) at 1 by lia. rewrite upto_shift, map_map.
           rewrite <- (length_map pos ms).
           apply (map_upto_nth _ _ (pos (mkMut 0 0 0))).
           intros i Hi. rewrite length_map in Hi.
           rewrite I2 by (apply upto_In_iff; lia).
           rewrite Nat2Z.id. symmetry. apply (map_nth pos).
    + eapply wp_mono; [apply reportHit_RS; exact Hin|].
      intros hit s3 [M3 (new & K3 & F3)]. cbv beta.
      eapply wp_mono; [apply Ha|]. intros ? s4 [M4 K4]. cbv beta.
      split; [intros; rewrite M4, M3, M1; reflexivity|].
      exists new. split; [congruence|].
      eapply Forall_impl; [exact F3|]. intros h Hh. cbv beta in *.
      rewrite Hh, app_nil_r. unfold mmsList. rewrite M1. reflexivity.
Qed.

Lemma report_spec k top bot s :
  0 <= k <= _spread cfg -> inhabited top bot -> applied cfg (_qry s) ->
  wp md (report ebwt rnd cfg k top bot) s
     (fun _ s' =>
        _qry s' = _qry s /\ quiet s s'
        /\ (forall i, i < k -> rd (_mms s') i = rd (_mms s) i)
        /\ exists new, sink s' = sink s ++ new
             /\ Forall (fun h => h_mms h
                                 = map (rd (_mms s)) (upto (Z.to_nat k) 0) ++ mutsPos)
                       new).
Proof.
  intros Hk Hin Hap.
  pose proof (wp_also md _ s _ _ (report_hits k top bot s Hk Hin)
                (wp_conj false _ s _ _
                   (report_restoresQry ebwt rnd cfg k top bot s)
                   (keeps_report ebwt rnd cfg false quiet k top bot quiet_pre
                      ltac:(intros; repeat split) ltac:(intros; repeat split)
                      ltac:(intros; repeat split) ltac:(intros; repeat split)
                      ltac:(intros; repeat split) s))) as H.
  eapply wp_mono; [exact H|].
  intros ? s' ((H3 & H4) & H1 & H2). cbv beta.
  split; [apply H1, Hap|]. split; [exact H2|]. split; assumption.
Qed.

(** *** The frame *)

(** The read holds its mutations and only bases. *)
Definition readOK (s : BtState) : Prop :=
  applied cfg (_qry s)
  /\ forall k, 0 <= k < _qlen cfg -> 0 <= nthZ (_qry s) k < 4.

(** What a frame is entered with. *)
Definition FP (sd' depth' u' o1' o2' ham' top' bot' : Z) (s : BtState) : Prop :=
  0 <= sd' <= depth' /\ 0 <= depth' < _qlen cfg
  /\ 0 <= ham' <= _qualThresh cfg
  /\ ((top' = 0 /\ bot' = 0 /\ depth' = 0) \/ (0 <= top' < bot' /\ bot' <= N))
  /\ readOK s.

Variable rec : Z -> Z -> Z -> Z -> Z -> Z -> Z -> Z -> Z -> Z -> Z -> M bool.
Variable iham : Z.

Hypothesis rec_spec :
  forall sd' depth' u' o1' o2' top' bot' ham' pairs' elims' s,
    FP sd' depth' u' o1' o2' ham' top' bot' s ->
    wp md (rec sd' depth' u' o1' o2' top' bot' ham' iham pairs' elims') s
       (fun _ s' => FR sd' depth' u' o1' o2' ham' pairs' elims' s s').

Local Notation "'FRf'" := (FR sd depth u o1 o2 ham pairs elims).

(** A step of the frame itself. *)
Lemma FR_own s s' :
  _qry s' = _qry s ->
  (forall k, k < sd -> rd (_mms s') k = rd (_mms s) k) ->
  (forall a, a < pairs -> rd (_pairs s') a = rd (_pairs s) a) ->
  (forall a, a < elims -> rd (_elims s') a = rd (_elims s) a) ->
  sink s' = sink s ->
  logs (inFrame sd pairs elims) s s' ->
  FRf s s'.
Proof.
  intros H1 H2 H3 H4 H5 H6. constructor; try assumption.
  - exists []. split; [rewrite app_nil_r; exact H5 | constructor].
  - eapply logs_weaken; [|exact H6]. apply inFrame_inStack.
Qed.

Lemma isAlt_budget i :
  isAlt i = true -> u <= i /\ wrap32 (ham + Qd i) = ham + Qd i
                    /\ ham + Qd i <= _qualThresh cfg.
Proof.
  intros Ha. unfold isAlt in Ha. apply andb_true_iff in Ha. destruct Ha as [H1 H2].
  apply Z.leb_le in H1. apply Z.leb_le in H2.
  pose proof (QUAL_range (wrap32 (_qlen cfg - i - 1))) as Hq. fold (Qd i) in Hq.
  assert (Hw : wrap32 (ham + Qd i) = ham + Qd i)
    by (apply wrap32_small; destruct thresh_ok; lia).
  rewrite Hw in H2. repeat split; assumption.
Qed.

Lemma call_spec i top' bot' bu bo bt s :
  readOK s -> depth <= i < _qlen cfg -> isAlt i = true ->
  rd (_mms s) sd = posOf i ->
  0 <= top' < bot' -> bot' <= N ->
  btRegions cfg i u o1 o2 = (bu, bo, bt) ->
  wp md
     (if i + 1 =? _qlen cfg then
        report ebwt rnd cfg (wrap32 (sd + 1)) top' bot'
      else
        logCall (EvCall sd i u o1 o2 bu bo bt) ;;;
        rec (wrap32 (sd + 1)) (wrap32 (i + 1)) bu bo bt top' bot'
            (ham + Qd i) iham (pairs + _spread cfg * 8) (elims + _spread cfg)) s
     (fun _ s' =>
        FRf s s'
        /\ (forall a, a < pairs + _spread cfg * 8 -> rd (_pairs s') a = rd (_pairs s) a)
        /\ (forall a, a < elims + _spread cfg -> rd (_elims s') a = rd (_elims s) a)).
Proof.
  intros Hrd Hi Ha Hm Htb HbN Hbt.
  destruct (isAlt_budget i Ha) as (Hu & Hw & Hle).
  pose proof (QUAL_range (wrap32 (_qlen cfg - i - 1))) as Hq. fold (Qd i) in Hq.
  assert (Hsd1 : wrap32 (sd + 1) = sd + 1)
    by (apply wrap32_small; unfold U32, DEFAULT_SPREAD in *; lia).
  rewrite Hsd1.
  destruct (Z.eqb_spec (i + 1) (_qlen cfg)) as [Hlast|Hmore].
  - (* the target is the last position: report *)
    eapply wp_mono.
    + apply (report_spec (sd + 1) top' bot' s);
        [lia | intros _; split; assumption | apply Hrd].
    + intros ? s' (Q1 & (Q2 & Q3 & Q4) & Q5 & (new & Q6 & Q7)). cbv beta.
      split; [|split; intros; congruence].
      constructor.
      * exact Q1.
      * intros k Hk. apply Q5. lia.
      * intros; congruence.
      * intros; congruence.
      * exists new. split; [exact Q6|].
        eapply Forall_impl; [exact Q7|]. intros h Hh. cbv beta in Hh.
        eapply (HitGood_step (_mms s) (_mms s) i bu bo bt (i + 1));
          try eassumption; try lia; try reflexivity.
        apply HitGood_leaf; [exact Hh | lia].
      * exists []. split; [rewrite Q4; reflexivity | constructor].
  - wp_step. wp_step.
    assert (Hi1 : wrap32 (i + 1) = i + 1)
      by (apply wrap32_small; unfold U32, DEFAULT_SPREAD in *; lia).
    rewrite Hi1.
    eapply wp_mono.
    + apply rec_spec. unfold FP. st_simpl.
      split; [lia|]. split; [lia|]. split; [lia|]. split; [right; lia | exact Hrd].
    + intros ? s' HF. cbv beta.
      set (s0 := note _ s) in *.
      assert (HF' : FRf s0 s').
      { apply (FR_callee i bu bo bt); try assumption; try lia. }
      split; [|split].
      * destruct HF' as [A1 A2 A3 A4 A5 (new & A6 & A7)].
        constructor; try assumption.
        exists (new ++ [EvCall sd i u o1 o2 bu bo bt]).
        split; [rewrite A6; subst s0; st_simpl; rewrite <- app_assoc; reflexivity|].
        apply Forall_app. split; [exact A7|].
        constructor; [|constructor]. cbn [inStack].
        pose proof (room_callee i bu ltac:(lia) Hu ltac:(lia)) as Hr.
        assert (0 <= room (i + 1) bu) by (unfold room; lia). lia.
      * intros addr Ha'. apply (fr_pairs _ _ _ _ _ _ _ _ _ _ HF addr Ha').
      * intros addr Ha'. apply (fr_elims _ _ _ _ _ _ _ _ _ _ HF addr Ha').
Qed.

Lemma rows_facts d :
  depth <= d < _qlen cfg ->
  let rows := upto (Z.to_nat (d + 1 - depth)) depth in
  List.NoDup rows
  /\ (forall k, In k rows <-> depth <= k <= d)
  /\ Z.of_nat (length rows) <= _spread cfg.
Proof.
  intros Hd rows. split; [apply upto_NoDup|]. split.
  - intros k. unfold rows. rewrite upto_In_iff. lia.
  - unfold rows. rewrite upto_length. lia.
Qed.

Lemma agree_below rows P E P' E' :
  (forall k, In k rows -> 0 <= k < _spread cfg) ->
  (forall a, a < pairs + _spread cfg * 8 -> rd P' a = rd P a) ->
  (forall a, a < elims + _spread cfg -> rd E' a = rd E a) ->
  agree rows P E P' E'.
Proof.
  intros Hr HP HE k Hk. specialize (Hr k Hk). split.
  - unfold eAt. apply HE. lia.
  - intros j Hj. unfold topAt, botAt, PAIR_TOP, PAIR_BOT. split; apply HP; lia.
Qed.

Lemma tryTarget_spec d e B s :
  depth <= d < _qlen cfg -> readOK s -> 0 <= B ->
  let rows := upto (Z.to_nat (d + 1 - depth)) depth in
  EI (_pairs s) (_elims s) rows e ->
  altSz (_pairs s) (_elims s) rows + B <= N ->
  (m_safe md = true -> 0 < altNum e) ->
  wp md (tryTarget ebwt rnd cfg rec sd depth u o1 o2 ham iham pairs elims d e) s
     (fun r s' =>
        FRf s s'
        /\ match r with
           | inl _ => True
           | inr e' =>
             EI (_pairs s') (_elims s') rows e'
             /\ altSz (_pairs s') (_elims s') rows + B <= N
           end).
Proof.
  intros Hd Hrd HB rows HEI Hbud Hsome.
  destruct index_ok as [HN _ _ _ _].
  destruct (rows_facts d Hd) as (Hnd & Hin & Hlen). fold rows in Hnd, Hin, Hlen.
  pose proof HEI as [HJ Halt].
  destruct (elig_le_alt (_pairs s) (_elims s) (lowAltQual e) rows
              (ej_rows _ _ _ _ HJ)) as [Hec Hes].
  rewrite <- (ej_num _ _ _ _ HJ) in Hec. rewrite <- (ej_sz _ _ _ _ HJ) in Hes.
  pose proof (altCnt_bound (_elims s) rows) as Hab.
  unfold tryTarget. wp_step. wp_step.
  destruct (Z.eqb_spec (eligibleSz e) 0) as [Hz|Hnz].
  { (* a frame with alternatives has an eligible pair, hence a divisor *)
    unfold wp, crash. destruct (m_safe md) eqn:Hsafe; [|reflexivity].
    pose proof (Hsome eq_refl) as Hpos. rewrite Halt in Hpos.
    pose proof (ej_some _ _ _ _ HJ Hpos) as Hnum.
    pose proof (eligCnt_le_eligSz (_pairs s) (_elims s) (lowAltQual e) rows
                  (ej_rows _ _ _ _ HJ)) as Hle.
    rewrite <- (ej_num _ _ _ _ HJ), <- (ej_sz _ _ _ _ HJ) in Hle. lia. }
  cbv zeta.
  set (x := fst (nextU32 rnd (_rand s))).
  set (s1 := set_rand _ s).
  assert (Hr : 0 <= x mod eligibleSz e < eligibleSz e) by (apply Z.mod_pos_bound; lia).
  wp_step. eapply wp_mono.
  { apply (selectTarget_spec (x mod eligibleSz e) depth d e s1); subst s1; st_simpl;
      fold rows; try assumption; try lia. }
  intros t s2 (L2 & P2 & E2 & Hch & Hti & Ha & Hw & Hle). cbv beta.
  subst s1. st_simpl.
  destruct Hch as (Hf & Hu & Hq & Hj & Ho & Htop & Hbot & Hham & Hicur & Hchar).
  destruct (btRegions cfg (t_i t) u o1 o2) as [[bu bo] bt] eqn:Hbt.
  set (i := t_i t) in *. set (j := t_j t) in *.
  assert (Hi : depth <= i < _qlen cfg) by lia.
  assert (Hrow : In i rows) by (apply Hin; lia).
  assert (Hrange : forall k, In k rows -> 0 <= k < _spread cfg)
    by (intros k Hk; apply Hin in Hk; lia).
  pose proof (ej_rows _ _ _ _ HJ i Hrow) as Hoki.
  destruct (Hoki Ha) as [Hx16 Hp]. pose proof (Hp j Hj Ho) as Htb.
  rewrite <- Htop, <- Hbot in Htb.
  assert (Hham' : btham t = ham + Qd i) by (rewrite Hham, Hw, Hq; reflexivity).
  rewrite Hham'.
  destruct L2 as (Lq & Lm & Ls & Lt).
  do 4 wp_step.
  match goal with |- wp _ _ ?st _ => set (s4 := st) end.
  assert (F4 : FRf s s4).
  { apply FR_own; subst s4; st_simpl; try assumption.
    - intros k Hk. rewrite rd_insert_ne by lia. rewrite Lm. reflexivity.
    - intros; rewrite P2; reflexivity.
    - intros; rewrite E2; reflexivity. }
  assert (Hrd4 : readOK s4) by (unfold readOK; subst s4; st_simpl; rewrite Lq; exact Hrd).
  wp_step. eapply wp_mono.
  { apply (call_spec i (bttop t) (btbot t) bu bo bt s4); try assumption; try lia.
    subst s4. st_simpl. rewrite rd_insert_eq. exact Hicur. }
  intros res s5 (F5 & HP5 & HE5). cbv beta.
  assert (F05 : FRf s s5) by (eapply FR_trans; [lia | exact F4 | exact F5]).
  destruct res; [wp_step; split; [exact F05 | exact I]|].
  do 8 wp_step. cbn [altNum eligibleNum eligibleSz lowAltQual].
  match goal with |- wp _ _ ?st _ => set (s7 := st) end.
  assert (Hag : agree rows (_pairs s) (_elims s) (_pairs s5) (_elims s5)).
  { apply agree_below; [exact Hrange | |].
    - intros a Ha'. rewrite (HP5 a Ha'). subst s4. st_simpl. rewrite P2. reflexivity.
    - intros a Ha'. rewrite (HE5 a Ha'). subst s4. st_simpl. rewrite E2. reflexivity. }
  pose proof (agree_EI rows _ _ _ _ e Hag HEI) as HEI5.
  destruct (agree_sums rows _ _ _ _ 0 Hag) as (_ & A2 & _ & _).
  destruct (Hag i Hrow) as [Hei Hpi]. destruct (Hpi j Hj) as [Hti5 Hbi5].
  assert (Hsp : btbot t - bttop t = spreadAt (_pairs s5) i j).
  { unfold spreadAt. rewrite Hti5, Hbi5, Htop, Hbot. reflexivity. }
  assert (L57 : local s5 s7).
  { subst s7. specialize (Hrange i Hrow). local_tac. }
  assert (F57 : FRf s5 s7).
  { apply FR_local; [exact L57| |]; subst s7; st_simpl; intros a Ha'.
    - reflexivity.
    - apply rd_insert_ne. lia. }
  assert (F07 : FRf s s7) by (eapply FR_trans; [lia | exact F05 | exact F57]).
  assert (P7 : _pairs s7 = _pairs s5) by reflexivity.
  destruct (close_pair (_pairs s5) (_elims s5) (_elims s7) rows e i j)
    as (C1 & C2 & C3 & C4 & C5 & C6 & C7 & C8 & C9); try assumption.
  { rewrite Hei. exact Ho. }
  { subst s7. unfold eAt. st_simpl. rewrite rd_insert_eq. reflexivity. }
  { intros k Hk Hne. subst s7. unfold eAt. st_simpl. apply rd_insert_ne. lia. }
  rewrite Hsp.
  rewrite (wrap32_small (altNum e - 1)) by (unfold U32, DEFAULT_SPREAD in *; lia).
  rewrite (wrap32_small (eligibleNum e - 1)) by (unfold U32, DEFAULT_SPREAD in *; lia).
  rewrite (wrap32_small (eligibleSz e - spreadAt (_pairs s5) i j)) by lia.
  set (e1 := mkElig _ _ _ _).
  assert (Hbud7 : altSz (_pairs s7) (_elims s7) rows + B <= N).
  { rewrite P7, C3, A2. lia. }
  destruct (Z.eqb_spec (altNum e - 1) 0) as [Hz1|Hnz1];
    [wp_step; split; [exact F07 | exact I]|].
  destruct (Z.eqb_spec (eligibleNum e - 1) 0) as [Hz2|Hnz2].
  - (* no eligible target left: look for the next quality *)
    wp_step. eapply wp_mono.
    + apply (rescan_spec depth d e1 s7); fold rows; rewrite ?P7;
        try assumption; try lia.
      * subst e1. cbn [altNum]. symmetry. exact C2.
      * subst e1. cbn [eligibleSz]. rewrite <- C5.
        apply eligSz_zero; [exact C1|]. rewrite C4. exact Hz2.
    + intros e2 s8 (L8 & P8 & E8 & HEI8). cbv beta. wp_step.
      split.
      * eapply FR_trans; [lia | exact F07|].
        apply FR_local; [exact L8 | intros; rewrite P8; reflexivity
                        | intros; rewrite E8; reflexivity].
      * rewrite P8, E8. split; [exact HEI8 | exact Hbud7].
  - wp_step. split; [exact F07|]. split; [|exact Hbud7].
    split.
    + rewrite P7. subst e1. constructor; cbn [eligibleNum eligibleSz lowAltQual];
        try assumption; try (symmetry; assumption).
      * intros _. lia.
      * intros Hz0. rewrite C2 in Hz0. lia.
      * apply (ej_low _ _ _ _ HJ).
    + subst e1. cbn [altNum]. symmetry. exact C2.
Qed.

Lemma readOK_FR s s' : FRf s s' -> readOK s -> readOK s'.
Proof. intros HF H. unfold readOK. rewrite (fr_qry _ _ _ _ _ _ _ _ _ _ HF). exact H. Qed.

Lemma innerWhile_spec d top bot B : forall n kg e s,
  depth <= d < _qlen cfg -> readOK s -> 0 <= B ->
  let rows := upto (Z.to_nat (d + 1 - depth)) depth in
  EI (_pairs s) (_elims s) rows e ->
  altSz (_pairs s) (_elims s) rows + B <= N ->
  (m_safe md = true -> kg = true -> 0 < altNum e) ->
  wp md (innerWhile ebwt rnd cfg rec sd depth u o1 o2 ham iham pairs elims
              n d top bot kg e) s
     (fun r s' =>
        FRf s s'
        /\ match r with
           | inl _ => True
           | inr e' =>
             EI (_pairs s') (_elims s') rows e'
             /\ altSz (_pairs s') (_elims s') rows + B <= N
             /\ (top =? bot) && (0 <? altNum e') = false
           end).
Proof.
  induction n as [|n IH]; intros kg e s Hd Hrd HB rows HEI Hbud Hkg; cbn [innerWhile].
  - destruct (((top =? bot) && (0 <? altNum e)) || kg) eqn:Hc; [exact md_partial|].
    wp_step. apply orb_false_iff in Hc. destruct Hc as [Hc _].
    split; [apply FR_refl|]. split; [exact HEI | split; [exact Hbud | exact Hc]].
  - destruct (((top =? bot) && (0 <? altNum e)) || kg) eqn:Hc.
    + wp_step. eapply wp_mono.
      { apply (tryTarget_spec d e B s); try assumption.
        intros Hsafe. apply orb_true_iff in Hc. destruct Hc as [Hc|Hc].
        - apply andb_true_iff in Hc. destruct Hc as [_ Hc]. lia.
        - apply Hkg; assumption. }
      intros r s1 [F1 Hr]. cbv beta.
      destruct r as [b|e'].
      * wp_step. split; [exact F1 | exact I].
      * destruct Hr as [HEI1 Hbud1]. eapply wp_mono.
        -- apply (IH false e' s1); try assumption;
             [eapply readOK_FR; eassumption | intros _ Hf; discriminate Hf].
        -- intros r s2 [F2 Hr2]. cbv beta. split; [|exact Hr2].
           eapply FR_trans; [lia | exact F1 | exact F2].
    + wp_step. apply orb_false_iff in Hc. destruct Hc as [Hc _].
      split; [apply FR_refl|]. split; [exact HEI | split; [exact Hbud | exact Hc]].
Qed.

(** Outside half-and-half mode the loop is forced on only while an
    alternative is there to be taken. *)
Lemma keepGoing_forced d cur top bot e s :
  wp md (keepGoing cfg sd d cur top bot e) s
     (fun kg _ => m_safe md = true -> kg = true -> 0 < altNum e).
Proof.
  unfold keepGoing.
  destruct ((cur =? 0) && (top <? bot) && (sd <? _reportSeedlings cfg)
            && (0 <? _reportSeedlings cfg) && (0 <? altNum e)) eqn:Hc.
  - apply andb_true_iff in Hc. destruct Hc as [_ Hc].
    wp_step. eapply wp_mono.
    + destruct (0 <? sd); [apply reportSeedling_runs | apply wp_ret; exact I].
    + intros ? s1 _. apply wp_ret. intros _ _. lia.
  - destruct (_halfAndHalf cfg) eqn:Hh.
    + assert (Hu : m_safe md = false).
      { destruct (m_safe md); [|reflexivity]. discriminate (md_safe eq_refl). }
      repeat wp_step; intros Hsafe; rewrite Hu in Hsafe; discriminate Hsafe.
    + cbn [andb]. apply wp_ret. intros _ Hf. discriminate Hf.
Qed.

Lemma keepGoing_spec d cur top bot e s :
  wp md (keepGoing cfg sd d cur top bot e) s
     (fun kg s' =>
        (m_safe md = true -> kg = true -> 0 < altNum e)
        /\ local s s' /\ _pairs s' = _pairs s /\ _elims s' = _elims s).
Proof.
  apply wp_also; [apply keepGoing_forced|].
  apply (keeps_keepGoing cfg false
           (fun s s' => local s s' /\ _pairs s' = _pairs s /\ _elims s' = _elims s)).
  - split.
    + intros s0. split; [apply local_pre | split; reflexivity].
    + intros a b c (A1 & A2 & A3) (B1 & B2 & B3).
      split; [destruct local_pre as [_ Ht]; eapply Ht; eassumption|].
      split; congruence.
  - intros l s0. split; [|split; reflexivity].
    unfold local. st_simpl. repeat split. apply logs_nil.
Qed.

(** The rows an interval can still be split into. *)
Definition avail (top bot : Z) : Z :=
  if (top =? 0) && (bot =? 0) then N else bot - top.

(** What holds each time the matching loop tests [cur < _qlen]. *)
Definition LI (l : Loop) (s : BtState) : Prop :=
  depth <= l_d l <= _qlen cfg
  /\ l_cur l = wrap32 (_qlen cfg - l_d l - 1)
  /\ EI (_pairs s) (_elims s) (upto (Z.to_nat (l_d l - depth)) depth) (l_elig l)
  /\ altSz (_pairs s) (_elims s) (upto (Z.to_nat (l_d l - depth)) depth)
     + avail (l_top l) (l_bot l) <= N
  /\ ((l_top l = 0 /\ l_bot l = 0 /\ l_d l = 0)
      \/ (0 <= l_top l < l_bot l /\ l_bot l <= N))
  /\ readOK s.

Lemma matchStep_spec l s :
  LI l s -> l_d l < _qlen cfg ->
  wp md (matchStep ebwt rnd cfg rec sd depth u o1 o2 ham iham pairs elims l) s
     (fun r s' =>
        FRf s s'
        /\ match r with
           | inl _ => True
           | inr l' => LI l' s'
           end).
Proof.
  intros (Hd & Hcur & HEI & Hbud & Hint & Hrd) Hlt.
  destruct index_ok as [HN _ _ _ _].
  destruct l as [d cur top bot e]. cbn [l_d l_cur l_top l_bot l_elig] in *.
  set (rows := upto (Z.to_nat (d - depth)) depth) in *.
  assert (Hrows : forall k, In k rows <-> depth <= k < d)
    by (intros k; unfold rows; rewrite upto_In_iff; lia).
  assert (Hnin : ~ In d rows) by (rewrite Hrows; lia).
  assert (Hlen : Z.of_nat (length rows) <= _spread cfg)
    by (unfold rows; rewrite upto_length; lia).
  assert (Hrows' : upto (Z.to_nat (d + 1 - depth)) depth = rows ++ [d]).
  { replace (Z.to_nat (d + 1 - depth)) with (S (Z.to_nat (d - depth))) by lia.
    rewrite upto_snoc. fold rows. do 2 f_equal. lia. }
  assert (Hcv : cur = _qlen cfg - d - 1)
    by (rewrite Hcur; apply wrap32_small; unfold U32, DEFAULT_SPREAD in *; lia).
  unfold matchStep. cbv zeta. cbn [l_d l_cur l_top l_bot l_elig].
  replace (QUAL cfg cur) with (Qd d) by (unfold Qd; rewrite <- Hcur; reflexivity).
  fold (isAlt d).
  wp_step. wp_step.
  set (c := nthZ (_qry s) cur).
  assert (Hc : 0 <= c < 4) by (apply Hrd; lia).
  wp_step. eapply wp_mono.
  { apply (stepPairs_spec d c (isAlt d) top bot s); [exact Hc | lia | exact Hint]. }
  intros [top' bot'] s1 (L1 & E1 & R1 & Htb1 & Htb2 & Htb3 & Halt1). cbv beta.
  cbn [fst snd] in *. fold (avail top bot) in Htb3, Halt1.
  assert (Hag1 : agree rows (_pairs s) (_elims s) (_pairs s1) (_elims s1)).
  { apply (agree_outside rows _ _ _ _ d Hnin R1). intros; rewrite E1; reflexivity. }
  pose proof (agree_EI rows _ _ _ _ e Hag1 HEI) as HEI1.
  destruct (agree_sums rows _ _ _ _ 0 Hag1) as (_ & A1 & _ & _).
  wp_step. eapply wp_mono.
  { apply (updateElims_spec d c rows e s1); try assumption; try lia.
    intros Ha. destruct (Halt1 Ha) as (Q1 & _ & _ & Q4). split; [exact Q1 | lia]. }
  intros e1 s2 (L2 & P2 & E2 & HEI2 & Hsz2). cbv beta.
  wp_step. eapply wp_mono; [apply keepGoing_spec|].
  intros kg s3 (Hkg & L3 & P3 & E3). cbv beta.
  assert (HP01 : forall a, a < pairs -> rd (_pairs s1) a = rd (_pairs s) a).
  { intros a Ha. apply R1. lia. }
  assert (F3 : FRf s s3).
  { eapply FR_trans; [lia | |].
    - apply (FR_local s s1); [exact L1 | exact HP01 | intros; rewrite E1; reflexivity].
    - eapply FR_trans; [lia | |].
      + apply (FR_local s1 s2); [exact L2 | intros; rewrite P2; reflexivity|].
        intros a Ha. apply E2. lia.
      + apply (FR_local s2 s3); [exact L3 | intros; rewrite P3; reflexivity
                                 | intros; rewrite E3; reflexivity]. }
  assert (Hbud3 : altSz (_pairs s3) (_elims s3) (rows ++ [d]) + (bot' - top') <= N).
  { rewrite P3, E3. destruct (isAlt d) eqn:Ha.
    - destruct (Halt1 eq_refl) as (_ & Q2 & Q3 & Q4).
      unfold spreadAt at 2 in Hsz2. rewrite <- Q2, <- Q3 in Hsz2. lia.
    - lia. }
  wp_step. eapply wp_mono.
  { apply (innerWhile_spec d top' bot' (bot' - top')); rewrite ?Hrows', ?P3, ?E3;
      try assumption; try lia.
    - eapply readOK_FR; eassumption.
    - rewrite <- P3, <- E3. exact Hbud3. }
  intros r s4 [F4 Hr]. cbv beta.
  assert (F04 : FRf s s4) by (eapply FR_trans; [lia | exact F3 | exact F4]).
  destruct r as [b|e2]; [wp_step; split; [exact F04 | exact I]|].
  rewrite Hrows' in Hr. destruct Hr as (HEI4 & Hbud4 & Hexit).
  destruct ((top' =? bot') && (altNum e2 =? 0)) eqn:Hstop;
    [wp_step; split; [exact F04 | exact I]|].
  do 5 wp_step.
  match goal with |- _ /\ LI _ ?st => set (s5 := st) end.
  assert (Hlt' : top' < bot').
  { destruct (Z.eqb_spec top' bot') as [->|Hne]; [|lia].
    cbn [andb] in Hexit, Hstop.
    destruct HEI4 as [_ Halt4]. pose proof (altCnt_bound (_elims s4) (rows ++ [d])).
    apply Z.ltb_ge in Hexit. apply Z.eqb_neq in Hstop. lia. }
  split.
  - eapply FR_trans; [lia | exact F04|].
    apply FR_own; subst s5; st_simpl; try reflexivity.
    unfold logs. st_simpl. apply logs_nil.
  - unfold LI. cbn [l_d l_cur l_top l_bot l_elig].
    rewrite (wrap32_small (d + 1)) by (unfold U32, DEFAULT_SPREAD in *; lia).
    replace (Z.to_nat (d + 1 - depth)) with (S (Z.to_nat (d - depth))) by lia.
    rewrite upto_snoc. fold rows.
    replace (depth + Z.of_nat (Z.to_nat (d - depth))) with d by lia.
    subst s5. st_simpl.
    split; [lia|]. split; [f_equal; lia|]. split; [exact HEI4|].
    split; [|split; [right; lia | exact (readOK_FR s s4 F04 Hrd)]].
    unfold avail. replace ((top' =? 0) && (bot' =? 0)) with false; [exact Hbud4|].
    symmetry. apply andb_false_iff.
    destruct (Z.eqb_spec top' 0), (Z.eqb_spec bot' 0); auto. lia.
Qed.

Lemma report_FR top bot s :
  inhabited top bot -> readOK s ->
  wp md (report ebwt rnd cfg sd top bot) s (fun _ s' => FRf s s').
Proof.
  intros Hin Hrd. eapply wp_mono.
  - apply (report_spec sd top bot s); [lia | exact Hin | apply Hrd].
  - intros ? s' (Q1 & (Q2 & Q3 & Q4) & Q5 & (new & Q6 & Q7)). cbv beta.
    constructor.
    + exact Q1.
    + exact Q5.
    + intros; congruence.
    + intros; congruence.
    + exists new. split; [exact Q6|].
      eapply Forall_impl; [exact Q7|]. intros h Hh. cbv beta in Hh.
      apply HitGood_leaf; [exact Hh | lia].
    + exists []. split; [rewrite Q4; reflexivity | constructor].
Qed.

Lemma matchLoop_spec : forall n l s,
  LI l s ->
  wp md (matchLoop ebwt rnd cfg rec sd depth u o1 o2 ham iham pairs elims n l) s
     (fun _ s' => FRf s s').
Proof.
  assert (Hend : forall l s, LI l s -> _qlen cfg <= l_cur l ->
                  inhabited (l_top l) (l_bot l)).
  { intros l s (Hd & Hcur & _ & _ & Hint & _) Hge _.
    destruct Hint as [(_ & _ & Hd0)|Hint]; [|exact Hint].
    rewrite Hcur, Hd0, wrap32_small in Hge by (unfold U32, DEFAULT_SPREAD in *; lia).
    lia. }
  induction n as [|n IH]; intros l s HLI; cbn [matchLoop].
  - destruct (Z.ltb_spec (l_cur l) (_qlen cfg)) as [Hlt|Hge]; [exact md_partial|].
    destruct (_reportSeedlings cfg <=? sd); [|apply wp_ret, FR_refl].
    apply report_FR; [exact (Hend l s HLI Hge) | apply HLI].
  - destruct (Z.ltb_spec (l_cur l) (_qlen cfg)) as [Hlt|Hge].
    + assert (Hd : l_d l < _qlen cfg).
      { destruct HLI as (Hd & Hcur & _).
        destruct (Z_lt_dec (l_d l) (_qlen cfg)) as [|Hn]; [assumption|].
        assert (l_d l = _qlen cfg) by lia.
        rewrite Hcur in Hlt. replace (_qlen cfg - l_d l - 1) with (-1) in Hlt by lia.
        unfold wrap32, U32, DEFAULT_SPREAD in *.
        change ((-1) mod 4294967296) with 4294967295 in Hlt. lia. }
      wp_step. eapply wp_mono; [apply matchStep_spec; assumption|].
      intros r s1 [F1 Hr]. cbv beta. destruct r as [b|l'].
      * wp_step. exact F1.
      * eapply wp_mono; [apply IH; exact Hr|].
        intros ? s2 F2. eapply FR_trans; [lia | exact F1 | exact F2].
    + destruct (_reportSeedlings cfg <=? sd); [|apply wp_ret, FR_refl].
      apply report_FR; [exact (Hend l s HLI Hge) | apply HLI].
Qed.

Lemma frame_spec top bot s :
  (top = 0 /\ bot = 0 /\ depth = 0) \/ (0 <= top < bot /\ bot <= N) ->
  readOK s ->
  wp md (frame ebwt rnd cfg rec sd depth u o1 o2 ham iham pairs elims top bot) s
     (fun _ s' => FRf s s').
Proof.
  intros Hint Hrd. destruct index_ok as [HN (Hf1 & Hf2 & Hf3) _ _ _].
  unfold frame.
  destruct (_halfAndHalf cfg && (depth =? _5depth cfg) && (sd <? 1));
    [apply wp_ret, FR_refl|].
  destruct (_halfAndHalf cfg && negb (depth =? _5depth cfg) && (depth =? _3depth cfg)
            && (sd <? 2)); [apply wp_ret, FR_refl|].
  cbv zeta. apply matchLoop_spec.
  unfold LI. cbn [l_d l_cur l_top l_bot l_elig].
  replace (Z.to_nat (depth - depth)) with 0%nat by lia. cbn [upto].
  split; [lia|]. split; [reflexivity|]. split.
  { split; [|reflexivity].
    constructor; cbn [eligibleNum eligibleSz lowAltQual altCnt eligCnt eligSz sumRows];
      try reflexivity; try lia.
    - intros k [].
    - intros k []. }
  split; [|split; assumption].
  unfold altSz. cbn [sumRows]. unfold avail.
  destruct ((top =? 0) && (bot =? 0)); lia.
Qed.

End Frame.

(** *** The recursion *)

Lemma backtrackRec_sound iham : forall fuel sd depth u o1 o2 top bot ham pairs elims s,
  FP sd depth u o1 o2 ham top bot s ->
  wp md (backtrackRec ebwt rnd cfg fuel sd depth u o1 o2 top bot ham iham
              pairs elims) s
     (fun _ s' => FR sd depth u o1 o2 ham pairs elims s s').
Proof.
  induction fuel as [|fuel IH];
    intros sd depth u o1 o2 top bot ham pairs elims s (H1 & H2 & H3 & H5 & H6);
    cbn [backtrackRec]; [exact md_partial|].
  apply frame_spec; assumption.
Qed.

(** *** The entry points *)

Lemma backtrackFrom_sound fuel depth top bot ham s :
  0 <= depth < _qlen cfg -> 0 <= ham <= _qualThresh cfg ->
  (top = 0 /\ bot = 0 /\ depth = 0) \/ (0 <= top < bot /\ bot <= N) ->
  readOK s ->
  wp md (backtrackFrom ebwt rnd cfg fuel depth top bot ham) s
     (fun _ s' =>
        FR 0 depth (_unrevOff cfg) (_1revOff cfg) (_2revOff cfg) ham 0 0 s s').
Proof.
  intros Hd Hh Hint Hrd. unfold backtrackFrom.
  apply backtrackRec_sound. unfold FP.
  split; [lia|]. split; [exact Hd|]. split; [exact Hh|].
  split; assumption.
Qed.

(** The frame the search starts with: at depth 0, or behind the characters
    looked up in [ftab]. *)
Definition entryDepth (d : Z) : Prop := d = 0 \/ d = _ftabChars ebwt.

Lemma backtrack_sound fuel ham s :
  0 <= _ftabChars ebwt -> 0 <= ham <= _qualThresh cfg ->
  readOK s ->
  wp md (backtrack ebwt rnd cfg fuel ham) s
     (fun _ s' =>
        exists d, entryDepth d /\ 0 <= d < _qlen cfg
          /\ FR 0 d (_unrevOff cfg) (_1revOff cfg) (_2revOff cfg) ham 0 0 s s').
Proof.
  intros Hft Hh Hrd.
  assert (H0 : wp md (backtrackFrom ebwt rnd cfg fuel 0 0 0 ham) s
                 (fun _ s' =>
                    exists d, entryDepth d /\ 0 <= d < _qlen cfg
                      /\ FR 0 d (_unrevOff cfg) (_1revOff cfg) (_2revOff cfg) ham 0 0 s s')).
  { eapply wp_mono; [apply backtrackFrom_sound; try assumption; try lia; left; lia|].
    intros ? s' HF. exists 0. split; [left; reflexivity|]. split; [lia | exact HF]. }
  unfold backtrack. cbv zeta.
  destruct (Z.leb_spec (_ftabChars ebwt) (Z.min (_unrevOff cfg) (_qlen cfg))) as [Hle|Hgt];
    [|exact H0].
  wp_step. wp_step.
  set (k := ftabKey cfg _ _ _ _).
  destruct (Z.eqb_spec (_qlen cfg) (_ftabChars ebwt)) as [Heq|Hne]; cbn [andb].
  - destruct (Z.ltb_spec (ftabHi ebwt k) (ftabLo ebwt (wrap32 (k + 1)))) as [Hlt|Hge].
    + destruct (0 <? _reportSeedlings cfg); [exact H0|].
      eapply wp_mono.
      * destruct (ftab_sub index_ok k Hlt) as [Hk1 Hk2].
        apply (report_FR 0 ham (_unrevOff cfg) 0 0 Hh 0 (_1revOff cfg) (_2revOff cfg));
          try assumption; try lia.
        intros _. lia.
      * intros ? s' HF. exists 0. split; [left; reflexivity|]. split; [lia | exact HF].
    + apply wp_ret. exists 0. split; [left; reflexivity|]. split; [lia | apply FR_refl].
  - destruct (Z.ltb_spec (ftabHi ebwt k) (ftabLo ebwt (wrap32 (k + 1)))) as [Hlt|Hge].
    + destruct (ftab_sub index_ok k Hlt) as [Hk1 Hk2].
      eapply wp_mono; [apply backtrackFrom_sound; try assumption; try lia; right; lia|].
      intros ? s' HF. exists (_ftabChars ebwt).
      split; [right; reflexivity|]. split; [lia | exact HF].
    + apply wp_ret. exists 0. split; [left; reflexivity|]. split; [lia | apply FR_refl].
Qed.

End Sound.


(** ** What a search guarantees *)

(** A run that returns for the fuel, read with what holds of it when it
    returns: the fuel is asked for, and so is whatever the second reading
    asks of divisions. *)
Lemma wp_total_conj md {A} (m : M A) s (Q Q' : A -> BtState -> Prop) :
  wp true m s Q -> wp md m s Q' ->
  wp (mkMode true (m_safe md)) m s (fun a s' => Q a s' /\ Q' a s').
Proof. unfold wp. destruct (m s); cbn; auto. Qed.

(** Under the strictest reading the run returns. *)
Lemma wp_strict {A} (m : M A) s (Q : A -> BtState -> Prop) :
  wp (mkMode true true) m s Q <-> exists a s', m s = Ok a s' /\ Q a s'.
Proof.
  unfold wp. destruct (m s) as [a s'| |]; cbn; split.
  - intros H. exists a, s'. split; [reflexivity | exact H].
  - intros (a' & s'' & E & H). inversion E; subst. exact H.
  - intros H. discriminate H.
  - intros (a' & s'' & E & _). discriminate E.
  - intros H. discriminate H.
  - intros (a' & s'' & E & _). discriminate E.
Qed.

Lemma sumRows_map (f g : Z -> Z) l : sumRows f (map g l) = sumRows (fun x => f (g x)) l.
Proof. induction l as [|x l IH]; cbn [map sumRows]; [reflexivity | rewrite IH; reflexivity]. Qed.

Section Guarantees.

Variable ebwt : Ebwt.
Variable rnd : RandomSource.
Variable cfg : Config.

(** The recursion of [backtrackRec] is at most [_qlen] deep. *)
Definition enoughFuel (fuel : nat) : Prop :=
  (Z.to_nat (_qlen cfg + 2) <= fuel)%nat.

(** The search returns, and every recursive call it makes is made with the
    boundaries [btRegions] computes. *)
Lemma backtrack_total fuel ham s :
  0 <= _qlen cfg < U32 - 2 -> 0 <= _ftabChars ebwt -> enoughFuel fuel ->
  wp true (backtrack ebwt rnd cfg fuel ham) s
     (fun _ s' => logs (callGood cfg) s s').
Proof.
  intros Hq Hft Hfuel. unfold enoughFuel in Hfuel.
  assert (H0 : forall depth top bot s0, 0 <= depth <= _qlen cfg + 1 ->
             wp true (backtrackFrom ebwt rnd cfg fuel depth top bot ham) s0
                (fun _ s' => logs (callGood cfg) s0 s')).
  { intros. unfold backtrackFrom.
    apply backtrackRec_shape; try assumption; lia. }
  unfold backtrack. cbv zeta.
  destruct (Z.leb_spec (_ftabChars ebwt) (Z.min (_unrevOff cfg) (_qlen cfg)));
    [|apply H0; lia].
  wp_step. wp_step.
  destruct (_ && _).
  - destruct (0 <? _); [apply H0; lia | apply report_shape].
  - destruct (_ <? _); [apply H0; lia | apply wp_ret, logs_pre].
Qed.

(** *** Hits and the sink *)

(** C6: a call of [backtrack] returns [true] exactly when it has put one
    hit into the sink, and [false] when it has put none: the first row the
    sink accepts ends the search at every level of the recursion, so the
    sink never receives a second hit within one invocation.  The fuel given
    is enough for the search; a run that divides by zero returns nothing
    and is not spoken of. *)
Theorem backtrack_at_most_one_hit fuel ham s :
  0 <= _qlen cfg < U32 - 2 -> 0 <= _ftabChars ebwt -> enoughFuel fuel ->
  wp true (backtrack ebwt rnd cfg fuel ham) s
     (fun r s' =>
        if r then exists h, sink s' = sink s ++ [h] else sink s' = sink s).
Proof.
  intros Hq Hft Hfuel.
  eapply wp_mono.
  - apply (wp_total_conj false).
    + apply (backtrack_total fuel ham s); assumption.
    + apply (backtrack_grew ebwt rnd cfg fuel ham (sink s) s). reflexivity.
  - intros r s' [_ H]. exact H.
Qed.

(** *** The read buffer *)

(** C5: when the read holds its mutations on entry (each position of a
    mutation holds the new base), the read is the same list of bases after
    [backtrack] returns, whatever the result: [report] undoes the mutations
    for the sink and applies them again.  The fuel given is enough for the
    search; a run that divides by zero returns nothing and is not spoken
    of. *)
Theorem backtrack_restores_read fuel ham s :
  0 <= _qlen cfg < U32 - 2 -> 0 <= _ftabChars ebwt -> enoughFuel fuel ->
  applied cfg (_qry s) ->
  wp true (backtrack ebwt rnd cfg fuel ham) s (fun _ s' => _qry s' = _qry s).
Proof.
  intros Hq Hft Hfuel Hap.
  eapply wp_mono.
  - apply (wp_total_conj false).
    + apply (backtrack_total fuel ham s); assumption.
    + apply (backtrack_restoresQry ebwt rnd cfg fuel ham s).
  - intros r s' [_ H]. apply H, Hap.
Qed.

(** *** The boundaries handed down *)

(** What the call [EvCall] was made with, against the frame it was made
    from. *)
Definition tightened (e : Event) : Prop :=
  match e with
  | EvCall _ i u o1 o2 bu bo bt =>
    (i < o1 -> bu = o1 /\ bo = o2 /\ bt = o2)
    /\ (o1 <= i < o2 -> _halfAndHalf cfg = false -> bu = u /\ bo = o2 /\ bt = o2)
    /\ (o1 <= i < o2 -> _halfAndHalf cfg = true -> bu = u /\ bo = o1 /\ bt = o1)
    /\ (o1 <= i -> o2 <= i -> bu = u /\ bo = o1 /\ bt = o2)
  | EvAccess _ _ _ => True
  end.

Lemma callGood_tightened e : callGood cfg e -> tightened e.
Proof.
  destruct e as [|sd i u o1 o2 bu bo bt]; [intros; exact I|].
  cbn [callGood tightened]. unfold btRegions. intros [Hbt Ho2].
  destruct (Z.ltb_spec i o1) as [L1|L1].
  - inversion Hbt; subst. rewrite <- (Ho2 L1).
    repeat split; try reflexivity; lia.
  - destruct (Z.ltb_spec i o2) as [L2|L2].
    + destruct (_halfAndHalf cfg); cbn [negb] in Hbt; inversion Hbt; subst;
        repeat split; try reflexivity; try lia; try discriminate.
    + inversion Hbt; subst. repeat split; try reflexivity; lia.
Qed.

(** C4, as the code has it: every recursive call a search makes from a
    frame with boundaries [u], [o1], [o2] and target [i] is made with
    [btUnrev = o1] and [btOneRev = o2] when [i < o1]; with [btOneRev = o2]
    when [o1 <= i < o2] and half-and-half is off; and with
    [btTwoRev = o1] when [o1 <= i < o2] and half-and-half is on.  With
    [i < o1] the third boundary stays [o2], in half-and-half mode too.
    The calls are those of a search that returns, for which the fuel given
    is enough. *)
Theorem backtrack_tightens_regions fuel ham s :
  0 <= _qlen cfg < U32 - 2 -> 0 <= _ftabChars ebwt -> enoughFuel fuel ->
  wp true (backtrack ebwt rnd cfg fuel ham) s
     (fun _ s' => logs tightened s s').
Proof.
  intros Hq Hft Hfuel.
  eapply wp_mono; [apply (backtrack_total fuel ham s); assumption|].
  intros r s' H. eapply logs_weaken; [|exact H]. apply callGood_tightened.
Qed.

(** *** Budget, regions and scratch space *)

Variable N : Z.

(** What the constructor and the caller establish before a search: an index
    of [N] rows, a read no longer than the window, room for the mutations
    in [_mms], a starting distance within the threshold, and a read that
    holds its mutations and nothing but bases. *)
Record wellFormed (ham : Z) (s : BtState) : Prop := {
  wf_index : indexOK ebwt N;
  wf_qlen : 0 < _qlen cfg <= _spread cfg;
  wf_spread : _spread cfg <= DEFAULT_SPREAD;
  wf_thresh : 0 <= _qualThresh cfg /\ _qualThresh cfg + 255 < U32;
  wf_muts : Z.of_nat (length (mutsPos cfg)) <= DEFAULT_SPREAD;
  wf_ftab : 0 <= _ftabChars ebwt;
  wf_ham : 0 <= ham <= _qualThresh cfg;
  wf_read : readOK cfg s
}.

(** What is asked of a search: that it returns for the fuel and, unless it
    is a half-and-half one, that it never divides by zero on the way.  (A
    half-and-half search can be made to look for a target in a frame that
    has none, and then divides by [eligibleSz = 0].) *)
Definition returning : Mode := mkMode true (negb (_halfAndHalf cfg)).

Lemma backtrack_frame (sf : bool) fuel ham s :
  (sf = true -> _halfAndHalf cfg = false) ->
  wellFormed ham s -> enoughFuel fuel ->
  wp (mkMode true sf) (backtrack ebwt rnd cfg fuel ham) s
     (fun _ s' =>
        exists d, entryDepth ebwt d /\ 0 <= d < _qlen cfg
          /\ FR cfg 0 d (_unrevOff cfg) (_1revOff cfg) (_2revOff cfg) ham 0 0 s s').
Proof.
  intros Hsf [W1 W2 W3 W4 W5 W6 W7 W8] Hfuel.
  eapply wp_mono.
  - apply (wp_total_conj (mkMode false sf)).
    + apply (backtrack_total fuel ham s); try assumption.
      unfold U32, DEFAULT_SPREAD in *. lia.
    + apply (backtrack_sound ebwt rnd cfg N W1 W2 W3 W4 W5 (mkMode false sf)
               eq_refl Hsf fuel ham s W6 W7 W8).
  - intros r s' [_ H]. exact H.
Qed.

Lemma returning_safe : negb (_halfAndHalf cfg) = true -> _halfAndHalf cfg = false.
Proof. destruct (_halfAndHalf cfg); [discriminate | reflexivity]. Qed.

(** The positions a hit adds to the mutations stay within the budget. *)
Definition withinBudget (ham : Z) (h : Hit) : Prop :=
  exists poss,
    h_mms h = poss ++ mutsPos cfg
    /\ ham + sumRows (QUAL cfg) poss <= _qualThresh cfg.

(** C1, as the code has it: in every hit a search adds to the sink, the
    mismatch list is the positions the search backtracked to followed by the
    positions of the mutations, and the starting distance [ham] plus the
    qualities [QUAL] of the backtracked positions is at most [_qualThresh].
    The qualities of the spliced positions are not counted.  The search
    returns for the fuel given and, outside half-and-half mode, never
    divides by zero. *)
Theorem backtrack_quality_budget fuel ham s :
  wellFormed ham s -> enoughFuel fuel ->
  wp returning (backtrack ebwt rnd cfg fuel ham) s
     (fun _ s' =>
        exists new, sink s' = sink s ++ new /\ Forall (withinBudget ham) new).
Proof.
  intros Hwf Hfuel.
  eapply wp_mono;
    [apply (backtrack_frame _ fuel ham s returning_safe); assumption|].
  intros r s' (d & _ & Hd & HF). cbv beta.
  destruct (fr_sink _ _ _ _ _ _ _ _ _ _ _ HF) as (new & Hs & Hn).
  exists new. split; [exact Hs|].
  eapply Forall_impl; [exact Hn|].
  intros h (fut & H1 & H2 & H3 & _). exists (map (posOf cfg) fut).
  split; [exact H1|]. rewrite sumRows_map. exact H3.
Qed.

(** The depths a hit backtracked to respect the three regions. *)
Definition withinRegions (h : Hit) : Prop :=
  exists depths,
    h_mms h = map (posOf cfg) depths ++ mutsPos cfg
    /\ (forall i, In i depths -> _unrevOff cfg <= i < _qlen cfg)
    /\ countIn (_unrevOff cfg) (_1revOff cfg) depths <= 1
    /\ countIn (_1revOff cfg) (_2revOff cfg) depths <= 2
    /\ countIn (_unrevOff cfg) (_2revOff cfg) depths <= 2.

(** C2, as the code has it: without half-and-half the search returns, and
    the mismatch list of every hit it adds to the sink is the positions of
    depths [depths] followed by the positions of the mutations, where no
    depth is
    below [_unrevOff], at most one lies in [[_unrevOff, _1revOff)] and at
    most two lie in [[_1revOff, _2revOff)] (indeed in
    [[_unrevOff, _2revOff)]).  The depth [i] is the position
    [_qlen - 1 - i]; the spliced positions are not checked. *)
Theorem backtrack_regions fuel ham s :
  wellFormed ham s -> enoughFuel fuel ->
  _halfAndHalf cfg = false ->
  _unrevOff cfg <= _1revOff cfg <= _2revOff cfg ->
  exists r s',
    backtrack ebwt rnd cfg fuel ham s = Ok r s'
    /\ exists new, sink s' = sink s ++ new /\ Forall withinRegions new.
Proof.
  intros Hwf Hfuel Hhh Hord.
  apply (wp_strict (backtrack ebwt rnd cfg fuel ham) s (fun _ s' =>
           exists new, sink s' = sink s ++ new /\ Forall withinRegions new)).
  eapply wp_mono;
    [apply (backtrack_frame true fuel ham s (fun _ => Hhh)); assumption|].
  intros r s' (d & _ & Hd & HF). cbv beta.
  destruct (fr_sink _ _ _ _ _ _ _ _ _ _ _ HF) as (new & Hs & Hn).
  exists new. split; [exact Hs|].
  eapply Forall_impl; [exact Hn|].
  intros h (fut & H1 & H2 & H3 & H4). exists fut.
  destruct (H4 Hhh Hord eq_refl) as (R1 & R2 & R3).
  split; [exact H1|]. split.
  { intros i Hi. specialize (H2 i Hi). specialize (R1 i Hi). lia. }
  split; [exact R2|]. split; [|exact R3].
  pose proof (countIn_mono (_unrevOff cfg) (_1revOff cfg) (_2revOff cfg)
                (_2revOff cfg) fut ltac:(lia) ltac:(lia)).
  lia.
Qed.

(** The accesses and calls a search may log, for arenas [pairs] of [cp]
    cells and [elims] of [ce] cells: the frame at stack depth [k] stays in
    its own slices of the two arenas, the accesses lie within the arenas, and
    no frame is stacked beyond [maxStackDepth]. *)
Definition inArenas (cp ce : Z) (e : Event) : Prop :=
  match e with
  | EvAccess APairs k a =>
    0 <= k < maxStackDepth cfg
    /\ k * (_spread cfg * 8) <= a < (k + 1) * (_spread cfg * 8)
    /\ 0 <= a < cp
  | EvAccess AElims k a =>
    0 <= k < maxStackDepth cfg
    /\ k * _spread cfg <= a < (k + 1) * _spread cfg
    /\ 0 <= a < ce
  | EvCall k _ _ _ _ _ _ _ => 0 <= k /\ k + 1 < maxStackDepth cfg
  end.

Lemma inStack_inArenas cp ce d e :
  0 < _qlen cfg <= _spread cfg ->
  _spread cfg * maxStackDepth cfg * 8 <= cp ->
  _spread cfg * maxStackDepth cfg <= ce ->
  0 <= d < _qlen cfg ->
  inStack cfg 0 d (_unrevOff cfg) 0 0 e -> inArenas cp ce e.
Proof.
  intros Hq Hcp Hce Hd.
  assert (Hr : room cfg d (_unrevOff cfg) + 4 <= maxStackDepth cfg).
  { unfold room, maxStackDepth. lia. }
  assert (0 <= room cfg d (_unrevOff cfg)) by (unfold room; lia).
  destruct e as [[|] k a|k ? ? ? ? ? ? ?]; cbn [inStack inArenas]; intros H';
    nia.
Qed.

(** X19: every load and store of a search on [pairs] and [elims] is made
    by a frame at a stack depth below
    [maxStackDepth = _qlen - min(_unrevOff, _qlen) + 4], computed from the
    read and the boundary of this search, and falls into that frame's slice
    [[k*spread*8, (k+1)*spread*8)], respectively [[k*spread, (k+1)*spread)],
    so the slices of different depths are disjoint.  When [pairs] holds at
    least [spread*maxStackDepth*8] cells and [elims] at least
    [spread*maxStackDepth], every access lies inside them.  The search
    returns for the fuel given and, outside half-and-half mode, never
    divides by zero. *)
Theorem backtrack_scratch_isolation cp ce fuel ham s :
  wellFormed ham s -> enoughFuel fuel ->
  _spread cfg * maxStackDepth cfg * 8 <= cp ->
  _spread cfg * maxStackDepth cfg <= ce ->
  wp returning (backtrack ebwt rnd cfg fuel ham) s
     (fun _ s' => logs (inArenas cp ce) s s').
Proof.
  intros Hwf Hfuel Hcp Hce.
  eapply wp_mono;
    [apply (backtrack_frame _ fuel ham s returning_safe); assumption|].
  intros r s' (d & _ & Hd & HF). cbv beta.
  eapply logs_weaken; [|exact (fr_trace _ _ _ _ _ _ _ _ _ _ _ HF)].
  intros e. apply inStack_inArenas; try assumption; apply Hwf.
Qed.

End Guarantees.


(** ** Searches on a small index *)

(** *** An index built by sorting the suffixes *)

Fixpoint lex_leb (a b : list Z) : bool :=
  match a, b with
  | [], _ => true
  | _ :: _, [] => false
  | x :: a', y :: b' =>
    if x <? y then true else if y <? x then false else lex_leb a' b'
  end.

Fixpoint insertRow (r : list Z * Z) (l : list (list Z * Z)) : list (list Z * Z) :=
  match l with
  | [] => [r]
  | x :: l' => if lex_leb (fst r) (fst x) then r :: l else x :: insertRow r l'
  end.

(** Every suffix of the text, with the character before it. *)
Fixpoint rowsOf (prev : Z) (t : list Z) : list (list Z * Z) :=
  match t with
  | [] => []
  | x :: t' => (t, prev) :: rowsOf x t'
  end.

(** The last column of the sorted rotations of [text] followed by the end
    marker [-1]. *)
Definition bwtOf (text : list Z) : list Z :=
  map snd (fold_right insertRow [] (rowsOf (-1) (text ++ [-1]))).

Definition countLt (c : Z) (l : list Z) : Z :=
  Z.of_nat (length (List.filter (fun x => x <? c) l)).
Definition occ (c : Z) (l : list Z) (row : Z) : Z :=
  Z.of_nat (length (List.filter (fun x => x =? c) (firstn (Z.to_nat row) l))).

Definition naiveEbwt (text : list Z) (ftabChars : Z)
    (accept : list Hit -> Hit -> bool) : Ebwt :=
  let bwt := bwtOf text in
  let fchr := fun c => countLt c (text ++ [-1]) in
  let lf := fun row c => fchr c + occ c bwt row in
  mkEbwt fchr lf (fun top bot c => (lf top c, lf bot c)) ftabChars
         (fun _ => 0) (fun _ => 0) accept.

Definition rnd0 : RandomSource := mkRandom (fun s => (s, s + 1)).

Definition st0 (q : list Z) : BtState := mkSt q ∅ ∅ ∅ ∅ [] 0 [] [].

(** The mismatch lists of the hits a run has put into the sink. *)
Definition hitsOf {A} (r : Res A) : option (list (list Z)) :=
  match r with
  | Ok _ s => Some (map h_mms (sink s))
  | _ => None
  end.

(** The recursive calls a run has made, the latest first. *)
Definition callsOf {A} (r : Res A) : option (list Event) :=
  match r with
  | Ok _ s =>
    Some (List.filter (fun e => match e with
                                | EvCall _ _ _ _ _ _ _ _ => true
                                | _ => false
                                end) (trace s))
  | _ => None
  end.

Definition resultOf {A} (r : Res A) : option A :=
  match r with
  | Ok a _ => Some a
  | _ => None
  end.

Definition qryOf {A} (r : Res A) : option (list Z) :=
  match r with
  | Ok _ s => Some (_qry s)
  | _ => None
  end.

(** The text ACGT; all qualities are 'I'. *)
Definition textA : list Z := [0; 1; 2; 3].
Definition ebwtA : Ebwt := naiveEbwt textA 10 (fun _ _ => true).
Definition quals : list Z := [73; 73; 73; 73].

(** The read ACTT with one mismatch allowed at depths 1 .. 3. *)
Definition cfgA : Config :=
  mkConfig 4 4 quals 1 2 4 40 0 None false 4 4 true.
Definition qA : list Z := [0; 1; 3; 3].

(** The read CCGT, mutated to ACGT, with no mismatch allowed. *)
Definition cfgM : Config :=
  mkConfig 4 4 quals 4 4 4 0 0 (Some [mkMut 0 1 0]) false 4 4 true.
Definition qM : list Z := [0; 1; 2; 3].

(** The text CCAA and the read AAAA in half-and-half mode. *)
Definition textH : list Z := [1; 1; 0; 0].
Definition ebwtH : Ebwt := naiveEbwt textH 10 (fun _ _ => true).

(** AAAA, where no row is ever followed by another base. *)
Definition textP : list Z := [0; 0; 0; 0].
Definition ebwtP : Ebwt := naiveEbwt textP 10 (fun _ _ => true).
Definition cfgH : Config :=
  mkConfig 4 4 quals 0 2 4 80 0 None true 2 4 true.
Definition qH : list Z := [0; 0; 0; 0].

(** *** Checking an index row by row *)

Definition okEx (e : Ebwt) (N top bot : Z) : bool :=
  forallb (fun c => (0 <=? fst (mapLFEx e top bot c))
                    && (fst (mapLFEx e top bot c) <=? snd (mapLFEx e top bot c))
                    && (snd (mapLFEx e top bot c) <=? N))
          [0; 1; 2; 3]
  && (sum4 (fun c => snd (mapLFEx e top bot c) - fst (mapLFEx e top bot c))
      <=? bot - top).

Definition okLF (e : Ebwt) (N top bot : Z) : bool :=
  forallb (fun c => (0 <=? mapLF e top c) && (mapLF e top c <=? mapLF e bot c)
                    && (mapLF e bot c <=? N)
                    && (mapLF e bot c - mapLF e top c <=? bot - top))
          [0; 1; 2; 3].

Definition checkIndex (e : Ebwt) (N : Z) : bool :=
  (N <? U32)
  && (0 <=? _fchr e 0) && (_fchr e 0 <=? _fchr e 1) && (_fchr e 1 <=? _fchr e 2)
  && (_fchr e 2 <=? _fchr e 3) && (_fchr e 3 <=? _fchr e 4) && (_fchr e 4 <=? N)
  && forallb (fun top =>
                forallb (fun bot =>
                           implb (top <? bot) (okEx e N top bot && okLF e N top bot))
                        (upto (Z.to_nat (N + 1)) 0))
             (upto (Z.to_nat (N + 1)) 0).

Lemma forallb_four (f : Z -> bool) c :
  forallb f [0; 1; 2; 3] = true -> 0 <= c < 4 -> f c = true.
Proof.
  intros H Hc. cbn [forallb] in H. rewrite !andb_true_iff in H.
  destruct H as (H0 & H1 & H2 & H3 & _). four c; assumption.
Qed.

Lemma checkIndex_sound e N :
  checkIndex e N = true ->
  (forall k, ftabHi e k < ftabLo e (wrap32 (k + 1)) ->
             0 <= ftabHi e k /\ ftabLo e (wrap32 (k + 1)) <= N) ->
  indexOK e N.
Proof.
  intros H Hft. unfold checkIndex in H. rewrite !andb_true_iff in H.
  destruct H as [[[[[[[H1 H2] H3] H4] H5] H6] H7] H8].
  apply Z.ltb_lt in H1. apply Z.leb_le in H2, H3, H4, H5, H6, H7.
  assert (Hrow : forall top bot, 0 <= top < bot -> bot <= N ->
             okEx e N top bot = true /\ okLF e N top bot = true).
  { intros top bot Ht Hb. rewrite forallb_forall in H8.
    assert (Hin : forall x, 0 <= x <= N -> In x (upto (Z.to_nat (N + 1)) 0))
      by (intros x Hx; apply upto_In_iff; lia).
    specialize (H8 top (Hin top ltac:(lia))). rewrite forallb_forall in H8.
    specialize (H8 bot (Hin bot ltac:(lia))).
    replace (top <? bot) with true in H8 by (symmetry; apply Z.ltb_lt; lia).
    cbn [implb] in H8. apply andb_true_iff in H8. exact H8. }
  constructor.
  - exact H1.
  - lia.
  - intros top bot Ht Hb. destruct (Hrow top bot Ht Hb) as [Hex _].
    unfold okEx in Hex. apply andb_true_iff in Hex. destruct Hex as [Hc Hs].
    split; [|apply Z.leb_le; exact Hs].
    intros c Hc'. pose proof (forallb_four _ c Hc Hc') as Hf. cbv beta in Hf.
    rewrite !andb_true_iff in Hf. destruct Hf as [[Ha Hb'] Hd].
    apply Z.leb_le in Ha, Hb', Hd. lia.
  - intros top bot c Ht Hb Hc. destruct (Hrow top bot Ht Hb) as [_ Hlf].
    pose proof (forallb_four _ c Hlf Hc) as Hf. cbv beta in Hf.
    rewrite !andb_true_iff in Hf. destruct Hf as [[[Ha Hb'] Hd] He].
    apply Z.leb_le in Ha, Hb', Hd, He. lia.
  - exact Hft.
Qed.

Lemma indexOK_A : indexOK ebwtA 5.
Proof.
  apply checkIndex_sound; [vm_compute; reflexivity|].
  intros k H. cbn in H. lia.
Qed.

Lemma indexOK_H : indexOK ebwtH 5.
Proof.
  apply checkIndex_sound; [vm_compute; reflexivity|].
  intros k H. cbn in H. lia.
Qed.

Lemma four_bases q :
  forallb (fun k => (0 <=? nthZ q k) && (nthZ q k <? 4)) [0; 1; 2; 3] = true ->
  forall k, 0 <= k < 4 -> 0 <= nthZ q k < 4.
Proof.
  intros H k Hk. pose proof (forallb_four _ k H Hk) as Hf. cbv beta in Hf.
  apply andb_true_iff in Hf. destruct Hf as [Ha Hb].
  apply Z.leb_le in Ha. apply Z.ltb_lt in Hb. lia.
Qed.

Lemma wellFormed_A : wellFormed ebwtA cfgA 5 0 (st0 qA).
Proof.
  constructor; try (vm_compute; intuition congruence).
  - exact indexOK_A.
  - split; [exact I|]. apply four_bases. vm_compute. reflexivity.
Qed.

Lemma wellFormed_M : wellFormed ebwtA cfgM 5 0 (st0 qM).
Proof.
  constructor; try (vm_compute; intuition congruence).
  - exact indexOK_A.
  - split; [vm_compute; reflexivity|]. apply four_bases. vm_compute. reflexivity.
Qed.

Lemma wellFormed_H : wellFormed ebwtH cfgH 5 0 (st0 qH).
Proof.
  constructor; try (vm_compute; intuition congruence).
  - exact indexOK_H.
  - split; [exact I|]. apply four_bases. vm_compute. reflexivity.
Qed.

Lemma indexOK_P : indexOK ebwtP 5.
Proof.
  apply checkIndex_sound; [vm_compute; reflexivity|].
  intros k H. cbn in H. lia.
Qed.

Lemma wellFormed_P : wellFormed ebwtP cfgH 5 0 (st0 qH).
Proof.
  constructor; try (vm_compute; intuition congruence).
  - exact indexOK_P.
  - split; [exact I|]. apply four_bases. vm_compute. reflexivity.
Qed.

Lemma enoughFuel_8 cfg : _qlen cfg = 4 -> enoughFuel cfg 8.
Proof. intros H. unfold enoughFuel. rewrite H. vm_compute. lia. Qed.

(** *** The runs *)

(** ACTT against ACGT: one hit, with the mismatch at offset 2 (depth 1). *)
Lemma run_A :
  resultOf (backtrack ebwtA rnd0 cfgA 8 0 (st0 qA)) = Some true
  /\ hitsOf (backtrack ebwtA rnd0 cfgA 8 0 (st0 qA)) = Some [[2]]
  /\ callsOf (backtrack ebwtA rnd0 cfgA 8 0 (st0 qA))
     = Some [EvCall 0 1 1 2 4 2 4 4].
Proof. vm_compute. repeat split. Qed.

(** The mutated read matches exactly; the hit lists the mutated offset and
    the read is handed back as it was. *)
Lemma run_M :
  resultOf (backtrack ebwtA rnd0 cfgM 8 0 (st0 qM)) = Some true
  /\ hitsOf (backtrack ebwtA rnd0 cfgM 8 0 (st0 qM)) = Some [[0]]
  /\ qryOf (backtrack ebwtA rnd0 cfgM 8 0 (st0 qM)) = Some qM.
Proof. vm_compute. repeat split. Qed.

Lemma run_H :
  hitsOf (backtrack ebwtH rnd0 cfgH 8 0 (st0 qH)) = Some [[1; 0]]
  /\ callsOf (backtrack ebwtH rnd0 cfgH 8 0 (st0 qH))
     = Some [EvCall 0 2 0 2 4 0 2 2; EvCall 0 0 0 2 4 2 4 4].
Proof. vm_compute. repeat split. Qed.

(** AAAA against AAAA in half-and-half mode: at depth [_5depth - 1] the
    search is made to backtrack although it matched, no alternative is open,
    and the draw of the target divides by [eligibleSz = 0].  This is the
    run the reading [returning] leaves to half-and-half searches. *)
Lemma half_and_half_divides_by_zero :
  wellFormed ebwtP cfgH 5 0 (st0 qH)
  /\ enoughFuel cfgH 8
  /\ backtrack ebwtP rnd0 cfgH 8 0 (st0 qH) = Crash.
Proof.
  split; [exact wellFormed_P|]. split; [apply enoughFuel_8; reflexivity|].
  vm_compute. reflexivity.
Qed.

(** *** The guarantees, on these runs *)

Lemma backtrack_quality_budget_witness :
  wp (returning cfgA) (backtrack ebwtA rnd0 cfgA 8 0) (st0 qA)
     (fun _ s' =>
        exists new, sink s' = sink (st0 qA) ++ new
                    /\ Forall (withinBudget cfgA 0) new).
Proof.
  apply (backtrack_quality_budget ebwtA rnd0 cfgA 5 8 0 (st0 qA));
    [exact wellFormed_A | apply enoughFuel_8; reflexivity].
Defined.

Lemma backtrack_regions_witness :
  exists r s',
    backtrack ebwtA rnd0 cfgA 8 0 (st0 qA) = Ok r s'
    /\ exists new, sink s' = sink (st0 qA) ++ new
                   /\ Forall (withinRegions cfgA) new.
Proof.
  apply (backtrack_regions ebwtA rnd0 cfgA 5 8 0 (st0 qA));
    [exact wellFormed_A | apply enoughFuel_8; reflexivity | reflexivity
    | vm_compute; intuition congruence].
Defined.

Lemma backtrack_scratch_isolation_witness :
  wp (returning cfgA) (backtrack ebwtA rnd0 cfgA 8 0) (st0 qA)
     (fun _ s' => logs (inArenas cfgA 224 28) (st0 qA) s').
Proof.
  apply (backtrack_scratch_isolation ebwtA rnd0 cfgA 5 224 28 8 0 (st0 qA));
    [exact wellFormed_A | apply enoughFuel_8; reflexivity
    | vm_compute; congruence | vm_compute; congruence].
Defined.

Lemma backtrack_at_most_one_hit_witness :
  wp true (backtrack ebwtA rnd0 cfgA 8 0) (st0 qA)
     (fun r s' =>
        if r then exists h, sink s' = sink (st0 qA) ++ [h]
        else sink s' = sink (st0 qA)).
Proof.
  apply (backtrack_at_most_one_hit ebwtA rnd0 cfgA 8 0 (st0 qA));
    [vm_compute; intuition congruence | vm_compute; congruence
    | apply enoughFuel_8; reflexivity].
Defined.

Lemma backtrack_restores_read_witness :
  wp true (backtrack ebwtA rnd0 cfgM 8 0) (st0 qM)
     (fun _ s' => _qry s' = _qry (st0 qM)).
Proof.
  apply (backtrack_restores_read ebwtA rnd0 cfgM 8 0 (st0 qM));
    [vm_compute; intuition congruence | vm_compute; congruence
    | apply enoughFuel_8; reflexivity | vm_compute; reflexivity].
Defined.

Lemma backtrack_tightens_regions_witness :
  wp true (backtrack ebwtH rnd0 cfgH 8 0) (st0 qH)
     (fun _ s' => logs (tightened cfgH) (st0 qH) s').
Proof.
  apply (backtrack_tightens_regions ebwtH rnd0 cfgH 8 0 (st0 qH));
    [vm_compute; intuition congruence | vm_compute; congruence
    | apply enoughFuel_8; reflexivity].
Defined.



(** *** Runs outside the guarantees *)

(** The hit of the mutated read lists offset 0, of quality 40, under a
    threshold of 0; its depth 3 lies below [_unrevOff = 4]. *)
Lemma mutation_offset_is_not_charged :
  hitsOf (backtrack ebwtA rnd0 cfgM 8 0 (st0 qM)) = Some [[0]]
  /\ sumRows (QUAL cfgM) [0] = 40 /\ _qualThresh cfgM = 0.
Proof. vm_compute. repeat split. Qed.

(** In half-and-half mode with [5depth = 2] and [3depth = 4] the hit has
    its two mismatches at offsets 1 and 0, that is at depths 2 and 3: none
    in [[0, 2)] and two in [[2, 4)].  The hit of the mutated read has depth 3
    below [_unrevOff = 4]. *)
Lemma half_and_half_hit_in_one_half :
  hitsOf (backtrack ebwtH rnd0 cfgH 8 0 (st0 qH)) = Some [map (posOf cfgH) [2; 3]]
  /\ countIn 0 (_5depth cfgH) [2; 3] = 0
  /\ countIn (_5depth cfgH) (_3depth cfgH) [2; 3] = 2
  /\ hitsOf (backtrack ebwtA rnd0 cfgM 8 0 (st0 qM)) = Some [map (posOf cfgM) [3]]
  /\ _unrevOff cfgM = 4.
Proof. vm_compute. repeat split. Qed.

(** In half-and-half mode the call made for the target [i = 0], below
    [oneRev = 2] and [twoRev = 4], passes [btTwoRev = 4], not [oneRev]. *)
Lemma half_and_half_call_keeps_twoRev :
  _halfAndHalf cfgH = true
  /\ callsOf (backtrack ebwtH rnd0 cfgH 8 0 (st0 qH))
     = Some [EvCall 0 2 0 2 4 0 2 2; EvCall 0 0 0 2 4 2 4 4]
  /\ btRegions cfgH 0 0 2 4 = (2, 4, 4).
Proof. vm_compute. repeat split. Qed.

(** ** Further guarantees of a search *)

Lemma countIn_all lo hi l :
  (forall i, In i l -> lo <= i < hi) -> countIn lo hi l = Z.of_nat (length l).
Proof.
  induction l as [|x l IH]; intros H; [reflexivity|].
  unfold countIn in *. cbn [sumRows length].
  rewrite IH by (intros i Hi; apply H; right; exact Hi).
  pose proof (H x (or_introl eq_refl)) as Hx.
  destruct (Z.leb_spec lo x); [|lia]. destruct (Z.ltb_spec x hi); [|lia].
  cbn [andb b2z]. lia.
Qed.

Section MoreGuarantees.

Variable ebwt : Ebwt.
Variable rnd : RandomSource.
Variable cfg : Config.
Variable N : Z.

(** A hit with at most [n] mismatches besides the positions of the
    mutations. *)
Definition atMost (n : nat) (h : Hit) : Prop :=
  exists depths,
    h_mms h = map (posOf cfg) depths ++ mutsPos cfg /\ (length depths <= n)%nat.

(** X6: a search without half-and-half whose 2-revisitable region reaches
    the end of the read reports only hits with at most two mismatches
    besides the mutations, and with at most one when the 1-revisitable
    region reaches the end of the read; the search returns. *)
Theorem backtrack_mismatch_bound fuel ham s :
  wellFormed ebwt cfg N ham s -> enoughFuel cfg fuel ->
  _halfAndHalf cfg = false ->
  _unrevOff cfg <= _1revOff cfg <= _2revOff cfg ->
  _qlen cfg <= _2revOff cfg ->
  exists r s',
    backtrack ebwt rnd cfg fuel ham s = Ok r s'
    /\ exists new,
         sink s' = sink s ++ new
         /\ Forall (atMost 2) new
         /\ (_qlen cfg <= _1revOff cfg -> Forall (atMost 1) new).
Proof.
  intros Hwf Hfuel Hhh Hord Hq.
  apply (wp_strict (backtrack ebwt rnd cfg fuel ham) s (fun _ s' =>
           exists new, sink s' = sink s ++ new /\ Forall (atMost 2) new
                       /\ (_qlen cfg <= _1revOff cfg -> Forall (atMost 1) new))).
  eapply wp_mono;
    [apply (backtrack_frame ebwt rnd cfg N true fuel ham s (fun _ => Hhh)); assumption|].
  intros r s' (d & _ & Hd & HF). cbv beta.
  destruct (fr_sink _ _ _ _ _ _ _ _ _ _ _ HF) as (new & Hs & Hn).
  exists new. split; [exact Hs|]. split.
  - eapply Forall_impl; [exact Hn|].
    intros h (fut & H1 & H2 & H3 & H4). exists fut. split; [exact H1|].
    destruct (H4 Hhh Hord eq_refl) as (R1 & R2 & R3).
    rewrite countIn_all in R3; [lia|].
    intros i Hi. specialize (H2 i Hi). specialize (R1 i Hi). lia.
  - intros Hq1. eapply Forall_impl; [exact Hn|].
    intros h (fut & H1 & H2 & H3 & H4). exists fut. split; [exact H1|].
    destruct (H4 Hhh Hord eq_refl) as (R1 & R2 & R3).
    rewrite countIn_all in R2; [lia|].
    intros i Hi. specialize (H2 i Hi). specialize (R1 i Hi). lia.
Qed.

(** No frame calls another. *)
Definition noCall (e : Event) : Prop :=
  match e with
  | EvCall _ _ _ _ _ _ _ _ => False
  | EvAccess _ _ _ => True
  end.

(** X7: when the unrevisitable region covers the read, a search without
    half-and-half matches exactly: it returns, no frame ever calls another,
    and the mismatch list of every hit holds the positions of the mutations
    and nothing else. *)
Theorem backtrack_exact fuel ham s :
  wellFormed ebwt cfg N ham s -> enoughFuel cfg fuel ->
  _halfAndHalf cfg = false ->
  _unrevOff cfg <= _1revOff cfg <= _2revOff cfg ->
  _qlen cfg <= _unrevOff cfg ->
  exists r s',
    backtrack ebwt rnd cfg fuel ham s = Ok r s'
    /\ logs noCall s s'
    /\ exists new,
         sink s' = sink s ++ new
         /\ Forall (fun h => h_mms h = mutsPos cfg) new.
Proof.
  intros Hwf Hfuel Hhh Hord Hq.
  apply (wp_strict (backtrack ebwt rnd cfg fuel ham) s (fun _ s' =>
           logs noCall s s'
           /\ exists new, sink s' = sink s ++ new
                          /\ Forall (fun h => h_mms h = mutsPos cfg) new)).
  eapply wp_mono;
    [apply (backtrack_frame ebwt rnd cfg N true fuel ham s (fun _ => Hhh)); assumption|].
  intros r s' (d & _ & Hd & HF). cbv beta. split.
  - eapply logs_weaken; [|exact (fr_trace _ _ _ _ _ _ _ _ _ _ _ HF)].
    intros [a k addr|k i u o1 o2 bu bo bt]; cbn [inStack noCall]; [intros; exact I|].
    unfold room. lia.
  - destruct (fr_sink _ _ _ _ _ _ _ _ _ _ _ HF) as (new & Hs & Hn).
    exists new. split; [exact Hs|].
    eapply Forall_impl; [exact Hn|].
    intros h (fut & H1 & H2 & H3 & H4).
    destruct (H4 Hhh Hord eq_refl) as (R1 & R2 & R3).
    destruct fut as [|i fut]; [exact H1|].
    specialize (H2 i (or_introl eq_refl)). specialize (R1 i (or_introl eq_refl)). lia.
Qed.




End MoreGuarantees.

Lemma backtrack_mismatch_bound_witness :
  exists r s',
    backtrack ebwtA rnd0 cfgA 8 0 (st0 qA) = Ok r s'
    /\ exists new,
         sink s' = sink (st0 qA) ++ new
         /\ Forall (atMost cfgA 2) new
         /\ (_qlen cfgA <= _1revOff cfgA -> Forall (atMost cfgA 1) new).
Proof.
  apply (backtrack_mismatch_bound ebwtA rnd0 cfgA 5 8 0 (st0 qA));
    [exact wellFormed_A | apply enoughFuel_8; reflexivity | reflexivity
    | vm_compute; intuition congruence | vm_compute; congruence].
Defined.

Lemma backtrack_exact_witness :
  exists r s',
    backtrack ebwtA rnd0 cfgM 8 0 (st0 qM) = Ok r s'
    /\ logs noCall (st0 qM) s'
    /\ exists new,
         sink s' = sink (st0 qM) ++ new
         /\ Forall (fun h => h_mms h = mutsPos cfgM) new.
Proof.
  apply (backtrack_exact ebwtA rnd0 cfgM 5 8 0 (st0 qM));
    [exact wellFormed_M | apply enoughFuel_8; reflexivity | reflexivity
    | vm_compute; intuition congruence | vm_compute; congruence].
Defined.


Section SeedlingMode.

Variable ebwt : Ebwt.
Variable rnd : RandomSource.
Variable cfg : Config.

Lemma report_sameSink sd top bot :
  _reportSeedlings cfg <> 0 ->
  keeps false sameSink (report ebwt rnd cfg sd top bot).
Proof.
  intros Hrs. unfold report.
  destruct (Z.eqb_spec (_reportSeedlings cfg) 0) as [E|_]; [contradiction|].
  cbn [negb].
  assert (Hpre : preorder sameSink).
  { split; unfold sameSink; [reflexivity | intros; congruence]. }
  apply keeps_bind; [exact Hpre | | intros; apply keeps_ret; exact Hpre].
  apply keeps_reportSeedling; [exact Hpre | intros l s; reflexivity].
Qed.

(** X8: a search for seedlings ([_reportSeedlings] is not 0) never reaches
    the sink: it returns [false] and the sink holds what it held before;
    what it finds goes to the seedling stream only. *)
Theorem backtrack_seedlings_only fuel ham s :
  0 <= _qlen cfg < U32 - 2 -> 0 <= _ftabChars ebwt -> enoughFuel cfg fuel ->
  _reportSeedlings cfg <> 0 ->
  wp true (backtrack ebwt rnd cfg fuel ham) s
     (fun r s' => r = false /\ sink s' = sink s).
Proof.
  intros Hq Hft Hfuel Hrs.
  assert (Hpre : preorder sameSink).
  { split; unfold sameSink; [reflexivity | intros; congruence]. }
  eapply wp_mono.
  - apply (wp_total_conj false).
    + apply (backtrack_total ebwt rnd cfg fuel ham s); assumption.
    + apply (wp_conj false).
      * apply (backtrack_grew ebwt rnd cfg fuel ham (sink s) s). reflexivity.
      * apply (keeps_backtrack ebwt rnd cfg false sameSink Hpre);
          try (intros; reflexivity).
        -- intros sd top bot. apply report_sameSink. exact Hrs.
        -- intros sd i u o1 o2 s0.
           destruct (btRegions cfg i u o1 o2) as [[? ?] ?]. reflexivity.
  - intros r s' (_ & Hg & Hs). cbv beta in *. unfold sameSink in Hs.
    split; [|exact Hs].
    destruct r; [|reflexivity]. cbn [grew] in Hg. destruct Hg as [h Hh].
    rewrite Hs in Hh. apply (f_equal (@length Hit)) in Hh.
    rewrite length_app in Hh. cbn [length] in Hh. lia.
Qed.

End SeedlingMode.

(** The read ACTT, searched for seedlings with one mismatch. *)
Definition cfgS : Config :=
  mkConfig 4 4 quals 1 2 4 40 1 None false 4 4 true.

Lemma backtrack_seedlings_only_witness :
  wp true (backtrack ebwtA rnd0 cfgS 8 0) (st0 qA)
     (fun r s' => r = false /\ sink s' = sink (st0 qA)).
Proof.
  apply (backtrack_seedlings_only ebwtA rnd0 cfgS 8 0 (st0 qA));
    [vm_compute; intuition congruence | vm_compute; congruence
    | apply enoughFuel_8; reflexivity | vm_compute; congruence].
Defined.

(** ** The key looked up in [ftab] *)

Lemma lor_digit x y :
  0 <= x -> 0 <= y < 4 -> Z.lor (Z.shiftl x 2) y = 4 * x + y.
Proof.
  intros Hx Hy. rewrite Z.shiftl_mul_pow2 by lia. change (2 ^ 2) with 4.
  assert (Hl : Z.land (x * 4) y = 0).
  { apply Z.bits_inj'. intros n Hn. rewrite Z.land_spec, Z.bits_0.
    destruct (Z.ltb_spec n 2) as [L|L].
    - change 4 with (2 ^ 2). rewrite Z.mul_pow2_bits_low by lia. reflexivity.
    - replace y with (y mod 2 ^ 2) by (apply Z.mod_small; change (2 ^ 2) with 4; lia).
      rewrite Z.mod_pow2_bits_high by lia. apply andb_false_r. }
  rewrite <- (Z.lxor_lor _ _ Hl), <- (Z.add_nocarry_lxor _ _ Hl). lia.
Qed.

Section FtabKey.

Variable cfg : Config.

Lemma ftabKey_range q : forall n i acc e,
  i = Z.of_nat n -> 0 <= e -> e + i <= 16 -> 0 <= acc < 4 ^ e ->
  (forall j, 1 <= j <= i -> 0 <= nthZ q (_qlen cfg - j) < 4) ->
  0 <= ftabKey cfg q n i acc < 4 ^ (e + i).
Proof.
  induction n as [|n IH]; intros i acc e Hi He Hle Hacc Hq; cbn [ftabKey].
  - replace (e + i) with e by lia. exact Hacc.
  - assert (Hpow : 4 ^ (e + 1) = 4 * 4 ^ e) by (rewrite Z.pow_add_r by lia; lia).
    assert (H16 : 4 ^ (e + 1) <= 4 ^ 16) by (apply Z.pow_le_mono_r; lia).
    change (4 ^ 16) with U32 in H16.
    assert (Hsh : wrap32 (Z.shiftl acc 2) = Z.shiftl acc 2).
    { rewrite Z.shiftl_mul_pow2 by lia. change (2 ^ 2) with 4.
      apply wrap32_small. lia. }
    rewrite Hsh, lor_digit by (try apply Hq; lia).
    replace (e + i) with ((e + 1) + (i - 1)) by lia.
    apply IH; try lia.
    + pose proof (Hq i ltac:(lia)). lia.
    + intros j Hj. apply Hq. lia.
Qed.

(** X9: for a read of bases and at most 15 characters looked up at once,
    the key [backtrack] computes from the last [ftabChars] characters of the
    read is below [4 ^ ftabChars], and [ftabOff + 1], the index of the second
    entry it reads, is at most [4 ^ ftabChars] and does not wrap. *)
Theorem ftabKey_in_table (ftabChars : Z) (q : list Z) :
  0 < ftabChars < 16 -> ftabChars <= _qlen cfg ->
  (forall k, 0 <= k < _qlen cfg -> 0 <= nthZ q k < 4) ->
  let ftabOff :=
    ftabKey cfg q (Z.to_nat (ftabChars - 1)) (ftabChars - 1)
            (nthZ q (_qlen cfg - ftabChars)) in
  0 <= ftabOff < 4 ^ ftabChars
  /\ wrap32 (ftabOff + 1) = ftabOff + 1
  /\ ftabOff + 1 <= 4 ^ ftabChars.
Proof.
  intros Hc Hle Hq. cbv zeta.
  pose proof (ftabKey_range q (Z.to_nat (ftabChars - 1)) (ftabChars - 1)
                (nthZ q (_qlen cfg - ftabChars)) 1 ltac:(lia) ltac:(lia) ltac:(lia)) as H.
  replace (1 + (ftabChars - 1)) with ftabChars in H by lia.
  specialize (H ltac:(change (4 ^ 1) with 4; apply Hq; lia)
                ltac:(intros j Hj; apply Hq; lia)).
  assert (H15 : 4 ^ ftabChars <= 4 ^ 15) by (apply Z.pow_le_mono_r; lia).
  change (4 ^ 15) with 1073741824 in H15.
  split; [exact H|]. split; [|lia].
  apply wrap32_small. unfold U32. lia.
Qed.

End FtabKey.

Lemma ftabKey_in_table_witness :
  let ftabOff := ftabKey cfgA qA (Z.to_nat (2 - 1)) (2 - 1) (nthZ qA (_qlen cfgA - 2)) in
  0 <= ftabOff < 4 ^ 2
  /\ wrap32 (ftabOff + 1) = ftabOff + 1
  /\ ftabOff + 1 <= 4 ^ 2.
Proof.
  apply (ftabKey_in_table cfgA 2 qA);
    [lia | vm_compute; congruence
    | apply four_bases; vm_compute; reflexivity].
Defined.

(** ** Which row [reportHit] reports *)

Section Rotation.

Variable ebwt : Ebwt.
Variable rnd : RandomSource.
Variable cfg : Config.

(** The hit offered to the sink for the row [ri]. *)
Definition hitAt (s : BtState) (sd ri top bot : Z) : Hit :=
  mkHit (_qry s) (mmsList s sd) ri top bot.

(** The row tried in round [i] of the loop that starts at [r]. *)
Definition rowOf (r i bot spread : Z) : Z :=
  let ri0 := wrap32 (r + i) in
  if bot <=? ri0 then wrap32 (ri0 - spread) else ri0.

Lemma chase_eq sd ri top bot s :
  chase ebwt sd ri top bot s
  = if reportChaseOne ebwt (sink s) (hitAt s sd ri top bot)
    then Ok true (set_sink (sink s ++ [hitAt s sd ri top bot]) s)
    else Ok false s.
Proof. reflexivity. Qed.

Lemma chaseLoop_step n i r sd top bot spread s :
  chaseLoop ebwt (S n) i r sd top bot spread s
  = match chase ebwt sd (rowOf r i bot spread) top bot s with
    | Ok true s' => Ok true s'
    | Ok false s' => chaseLoop ebwt n (i + 1) r sd top bot spread s'
    | Crash => Crash
    | OutOfFuel => OutOfFuel
    end.
Proof.
  cbn [chaseLoop]. unfold bind, rowOf. cbv zeta.
  destruct (chase ebwt sd _ top bot s) as [[|] s'| |]; reflexivity.
Qed.

Lemma chaseLoop_scans sd top bot spread r : forall n i s,
  chaseLoop ebwt n i r sd top bot spread s = Ok false s
  /\ (forall j, i <= j < i + Z.of_nat n ->
        reportChaseOne ebwt (sink s) (hitAt s sd (rowOf r j bot spread) top bot) = false)
  \/ exists j,
       i <= j < i + Z.of_nat n
       /\ reportChaseOne ebwt (sink s) (hitAt s sd (rowOf r j bot spread) top bot) = true
       /\ chaseLoop ebwt n i r sd top bot spread s
          = Ok true (set_sink (sink s ++ [hitAt s sd (rowOf r j bot spread) top bot]) s).
Proof.
  induction n as [|n IH]; intros i s.
  - left. split; [reflexivity|]. intros j Hj. lia.
  - rewrite chaseLoop_step, chase_eq.
    destruct (reportChaseOne ebwt (sink s) (hitAt s sd (rowOf r i bot spread) top bot))
      eqn:E.
    + right. exists i. split; [lia|]. split; [exact E | reflexivity].
    + destruct (IH (i + 1) s) as [[H1 H2]|(j & Hj & Ha & Hr)].
      * left. split; [exact H1|]. intros j Hj.
        destruct (Z.eq_dec j i) as [->|Hne]; [exact E | apply H2; lia].
      * right. exists j. split; [lia|]. split; [exact Ha | exact Hr].
Qed.

(** X10: with [top < bot], [reportHit] offers the rows of [[top, bot)] to
    the sink one after the other, from a row drawn at random and around the
    interval.  It answers [false] only when the sink has refused every row
    of the interval, and then the sink is unchanged; when it answers [true],
    the sink has received exactly one hit, for a row of the interval that it
    accepted, with the arrow pair and the first [stackDepth] entries of
    [_mms]. *)
Theorem reportHit_scans sd top bot s :
  _oneHit cfg = true -> 0 <= top < bot -> bot + (bot - top) <= U32 ->
  exists b s',
    reportHit ebwt rnd cfg sd top bot s = Ok b s'
    /\ ((b = false /\ sink s' = sink s
         /\ forall t, top <= t < bot ->
              reportChaseOne ebwt (sink s) (hitAt s sd t top bot) = false)
        \/ (b = true
            /\ exists t, top <= t < bot
                 /\ reportChaseOne ebwt (sink s) (hitAt s sd t top bot) = true
                 /\ sink s' = sink s ++ [hitAt s sd t top bot])).
Proof.
  intros Hone Htb Hu. unfold reportHit. rewrite Hone. cbv zeta.
  assert (Hsp : wrap32 (bot - top) = bot - top) by (apply wrap32_small; lia).
  rewrite Hsp. set (spread := bot - top) in *.
  unfold bind at 1, rand at 1.
  destruct (nextU32 rnd (_rand s)) as [x r'] eqn:Ernd.
  destruct (Z.eqb_spec spread 0) as [E|_]; [lia|].
  pose proof (Z.mod_pos_bound x spread ltac:(lia)) as Hx.
  rewrite (wrap32_small (top + x mod spread)) by lia.
  set (r := top + x mod spread) in *.
  set (s1 := set_rand r' s).
  assert (Hrow : forall j, 0 <= j < spread -> top <= rowOf r j bot spread < bot).
  { intros j Hj. unfold rowOf. cbv zeta.
    rewrite (wrap32_small (r + j)) by lia.
    destruct (Z.leb_spec bot (r + j)); [rewrite wrap32_small by lia|]; lia. }
  assert (Hsur : forall t, top <= t < bot ->
            exists j, 0 <= j < spread /\ rowOf r j bot spread = t).
  { intros t Ht. destruct (Z_le_gt_dec r t) as [L|L].
    - exists (t - r). split; [lia|]. unfold rowOf. cbv zeta.
      rewrite (wrap32_small (r + (t - r))) by lia.
      destruct (Z.leb_spec bot (r + (t - r))); lia.
    - exists (t - r + spread). split; [lia|]. unfold rowOf. cbv zeta.
      rewrite (wrap32_small (r + (t - r + spread))) by lia.
      destruct (Z.leb_spec bot (r + (t - r + spread))); [|lia].
      rewrite wrap32_small by lia. lia. }
  destruct (chaseLoop_scans sd top bot spread r (Z.to_nat spread) 0 s1)
    as [[H1 H2]|(j & Hj & Ha & Hr)].
  - exists false, s1. split; [exact H1|]. left.
    split; [reflexivity|]. split; [reflexivity|].
    intros t Ht. destruct (Hsur t Ht) as (j & Hj & <-).
    apply (H2 j). lia.
  - eexists true, _. split; [exact Hr|]. right. split; [reflexivity|].
    exists (rowOf r j bot spread). split; [apply Hrow; lia|].
    split; [exact Ha | reflexivity].
Qed.

End Rotation.

Lemma reportHit_scans_witness :
  exists b s',
    reportHit ebwtA rnd0 cfgA 0 1 3 (st0 qA) = Ok b s'
    /\ ((b = false /\ sink s' = sink (st0 qA)
         /\ forall t, 1 <= t < 3 ->
              reportChaseOne ebwtA (sink (st0 qA)) (hitAt (st0 qA) 0 t 1 3) = false)
        \/ (b = true
            /\ exists t, 1 <= t < 3
                 /\ reportChaseOne ebwtA (sink (st0 qA)) (hitAt (st0 qA) 0 t 1 3) = true
                 /\ sink s' = sink (st0 qA) ++ [hitAt (st0 qA) 0 t 1 3])).
Proof.
  apply (reportHit_scans ebwtA rnd0 cfgA 0 1 3 (st0 qA));
    [reflexivity | lia | vm_compute; congruence].
Defined.

(** ** The seedling stream *)

Section Stream.

Variable ebwt : Ebwt.
Variable rnd : RandomSource.
Variable cfg : Config.

(** The stream is only appended to, and not at all by a search for hits. *)
Definition streamGrows (s s' : BtState) : Prop :=
  (exists more, _seedlings s' = _seedlings s ++ more)
  /\ (_reportSeedlings cfg = 0 -> _seedlings s' = _seedlings s).

Lemma streamGrows_pre : preorder streamGrows.
Proof.
  split.
  - intros s. split; [exists []; rewrite app_nil_r; reflexivity | reflexivity].
  - intros a b c [(m1 & A1) A2] [(m2 & B1) B2]. split.
    + exists (m1 ++ m2). rewrite B1, A1, app_assoc. reflexivity.
    + intros H. rewrite (B2 H). apply A2, H.
Qed.

Lemma sameStream_grows s s' : _seedlings s' = _seedlings s -> streamGrows s s'.
Proof.
  intros H. split; [exists []; rewrite app_nil_r; exact H | intros _; exact H].
Qed.

Lemma reportSeedling_grows tot sd :
  _reportSeedlings cfg <> 0 -> keeps tot streamGrows (reportSeedling cfg sd).
Proof.
  intros Hrs s. unfold wp, reportSeedling, bind.
  rewrite (reportSeedling_loop cfg sd s) by reflexivity.
  unfold ret. cbn [_seedlings set_seedlings]. split; [eexists; reflexivity|].
  intros H. contradiction.
Qed.

Lemma keepGoing_grows tot sd d cur top bot e :
  keeps tot streamGrows (keepGoing cfg sd d cur top bot e).
Proof.
  pose proof streamGrows_pre as Hpre. unfold keepGoing.
  destruct ((cur =? 0) && (top <? bot) && (sd <? _reportSeedlings cfg)
            && (0 <? _reportSeedlings cfg) && (0 <? altNum e)) eqn:Hc.
  - apply andb_true_iff in Hc. destruct Hc as [Hc _].
    apply andb_true_iff in Hc. destruct Hc as [_ Hc]. apply Z.ltb_lt in Hc.
    apply keeps_bind; [exact Hpre | | intros; apply keeps_ret; exact Hpre].
    destruct (0 <? sd); [apply reportSeedling_grows; lia | apply keeps_ret; exact Hpre].
  - repeat keeps_step.
Qed.

Lemma report_grows tot sd top bot :
  keeps tot streamGrows (report ebwt rnd cfg sd top bot).
Proof.
  pose proof streamGrows_pre as Hpre. unfold report.
  destruct (Z.eqb_spec (_reportSeedlings cfg) 0) as [E|E]; cbn [negb].
  - assert (Hq : forall q s, streamGrows s (set_qry q s))
      by (intros; apply sameStream_grows; reflexivity).
    assert (Hu : keeps tot streamGrows (undoMutations cfg)).
    { intros s. unfold wp, undoMutations. destruct (_muts cfg); [apply Hq | apply Hpre]. }
    assert (Ha : keeps tot streamGrows (applyMutations cfg)).
    { intros s. unfold wp, applyMutations. destruct (_muts cfg); [apply Hq | apply Hpre]. }
    assert (Hh : forall k, keeps tot streamGrows (reportHit ebwt rnd cfg k top bot)).
    { intros k. apply keeps_reportHit; [exact Hpre | |];
        intros; apply sameStream_grows; reflexivity. }
    assert (Hst : forall i v, keeps tot streamGrows (stMms i v)).
    { intros i v. apply keeps_stMms. intros; apply sameStream_grows; reflexivity. }
    repeat keeps_step.
  - apply keeps_bind; [exact Hpre | | intros; apply keeps_ret; exact Hpre].
    apply reportSeedling_grows. exact E.
Qed.

(** X16: a search only ever appends to the seedling stream, and a search
    for hits ([_reportSeedlings] is 0) leaves it as it was. *)
Theorem backtrack_stream fuel ham s :
  0 <= _qlen cfg < U32 - 2 -> 0 <= _ftabChars ebwt -> enoughFuel cfg fuel ->
  wp true (backtrack ebwt rnd cfg fuel ham) s
     (fun _ s' =>
        (exists more, _seedlings s' = _seedlings s ++ more)
        /\ (_reportSeedlings cfg = 0 -> _seedlings s' = _seedlings s)).
Proof.
  intros Hq Hft Hfuel.
  eapply wp_mono.
  - apply (wp_total_conj false).
    + apply (backtrack_total ebwt rnd cfg fuel ham s); assumption.
    + apply (keeps_backtrack_gen ebwt rnd cfg false streamGrows streamGrows_pre);
        try (intros; apply sameStream_grows; reflexivity).
      * intros. apply keepGoing_grows.
      * intros. apply report_grows.
      * intros sd i u o1 o2 s0.
        destruct (btRegions cfg i u o1 o2) as [[? ?] ?].
        apply sameStream_grows. reflexivity.
      * reflexivity.
  - intros r s' [_ H]. exact H.
Qed.

End Stream.

Lemma backtrack_stream_witness :
  wp true (backtrack ebwtA rnd0 cfgA 8 0) (st0 qA)
     (fun _ s' =>
        (exists more, _seedlings s' = _seedlings (st0 qA) ++ more)
        /\ (_reportSeedlings cfgA = 0 -> _seedlings s' = _seedlings (st0 qA))).
Proof.
  apply (backtrack_stream ebwtA rnd0 cfgA 8 0 (st0 qA));
    [vm_compute; intuition congruence | vm_compute; congruence
    | apply enoughFuel_8; reflexivity].
Defined.

End Backtracker.

Module RefStoreFacts.

Import RefStore.

(** *** [getBase] against the decoded reference *)

Lemma wrap32_id x : 0 <= x < U32 -> wrap32 x = x.
Proof. intros H. unfold wrap32. apply Z.mod_small. exact H. Qed.

Lemma nth_upto n : forall from k dflt,
  (k < n)%nat -> nth k (upto n from) dflt = from + Z.of_nat k.
Proof.
  induction n as [|n IH]; intros from k dflt H; [lia|].
  destruct k as [|k]; cbn [upto nth]; [lia|].
  rewrite IH by lia. lia.
Qed.

Lemma nth_repeat_4 n k : nth k (repeat 4 n) 4 = 4.
Proof.
  revert k. induction n as [|n IH]; intros [|k]; cbn; auto.
Qed.

(** Total length and packed length of a run of records. *)
Fixpoint spanOf (rs : list RefRecord) : Z :=
  match rs with
  | [] => 0
  | rc :: rs' => off rc + len rc + spanOf rs'
  end.
Fixpoint packedOf (rs : list RefRecord) : Z :=
  match rs with
  | [] => 0
  | rc :: rs' => len rc + packedOf rs'
  end.

Definition recordsOK (rs : list RefRecord) : Prop :=
  Forall (fun rc => 0 <= off rc /\ 0 <= len rc) rs.

Lemma spanOf_nonneg rs : recordsOK rs -> 0 <= spanOf rs /\ 0 <= packedOf rs.
Proof.
  induction 1 as [|rc rs [H1 H2] _ [IH1 IH2]]; cbn; lia.
Qed.

Lemma getBase_loop_decode r rs : forall i off0 bufOff toff,
  recordsOK rs ->
  (forall k, (k < length rs)%nat ->
     rec_at r (i + Z.of_nat k) = nth k rs (mkRefRecord 0 0 false)) ->
  0 <= i -> i + Z.of_nat (length rs) < U32 ->
  0 <= off0 -> off0 + spanOf rs < U32 ->
  0 <= bufOff -> bufOff + packedOf rs < U32 ->
  off0 <= toff < U32 ->
  getBase_loop r (length rs) i off0 bufOff toff
  = nth (Z.to_nat (toff - off0)) (decodeRecords r rs bufOff) 4.
Proof.
  induction rs as [|rc rs IH]; intros i off0 bufOff toff Hok Hrec Hi Hin Ho Hon Hb Hbn Ht.
  - cbn. destruct (Z.to_nat (toff - off0)); reflexivity.
  - inversion Hok as [|? ? [Hoff Hlen] Hok']; subst.
    destruct (spanOf_nonneg rs Hok') as [Hs Hp].
    cbn [length getBase_loop decodeRecords spanOf packedOf] in *.
    pose proof (Hrec 0%nat ltac:(cbn; lia)) as H0. cbn in H0.
    rewrite Z.add_0_r in H0. rewrite H0.
    rewrite (wrap32_id (off0 + off rc)) by lia.
    destruct (toff <? off0 + off rc) eqn:E1.
    { apply Z.ltb_lt in E1.
      rewrite app_nth1 by (rewrite repeat_length; lia).
      symmetry. apply nth_repeat_4. }
    apply Z.ltb_ge in E1.
    rewrite (wrap32_id (off0 + off rc + len rc)) by lia.
    rewrite app_nth2 by (rewrite repeat_length; lia).
    rewrite repeat_length.
    destruct (toff <? off0 + off rc + len rc) eqn:E2.
    { apply Z.ltb_lt in E2.
      rewrite app_nth1 by (rewrite length_map; 
        assert (Hl : forall n f, length (upto n f) = n)
          by (induction n; intros; cbn; auto); rewrite Hl; lia).
      rewrite (wrap32_id (toff - (off0 + off rc))) by lia.
      rewrite (wrap32_id (bufOff + (toff - (off0 + off rc)))) by lia.
      rewrite (nth_indep _ 4 (bitpair r 0)).
      - rewrite (map_nth (bitpair r)). rewrite nth_upto by lia. f_equal. lia.
      - rewrite length_map.
        assert (Hl : forall n f, length (upto n f) = n)
          by (induction n; intros; cbn; auto). rewrite Hl. lia. }
    apply Z.ltb_ge in E2.
    assert (Hl : forall n f, length (upto n f) = n)
      by (induction n; intros; cbn; auto).
    rewrite app_nth2 by (rewrite length_map, Hl; lia).
    rewrite length_map, Hl.
    rewrite (wrap32_id (i + 1)) by lia.
    rewrite (wrap32_id (bufOff + len rc)) by lia.
    rewrite IH; try assumption; try lia.
    + f_equal. lia.
    + intros k Hk. specialize (Hrec (S k) ltac:(cbn; lia)).
      cbn [nth] in Hrec. rewrite <- Hrec. f_equal. lia.
Qed.

(** X1: [getBase] returns the base of the decoded reference at every
    offset, and 4 past its end, whenever the lengths involved fit 32 bits:
    the reference [tidx] is its records [refRecOffs_[tidx]] to
    [refRecOffs_[tidx+1]], each decoded as [off] ambiguous characters
    followed by [len] bases of the packed buffer. *)
Lemma getBase_decodes (r : BitPairReference) (tidx toff : Z) :
  let reci := nthZ (refRecOffs_ r) tidx in
  let recf := nthZ (refRecOffs_ r) (tidx + 1) in
  let rs := take (Z.to_nat (recf - reci)) (drop (Z.to_nat reci) (recs_ r)) in
  0 <= reci <= recf -> recf <= Z.of_nat (length (recs_ r)) -> recf < U32 ->
  recordsOK rs -> spanOf rs < U32 ->
  0 <= nthZ (refOffs_ r) tidx -> nthZ (refOffs_ r) tidx + packedOf rs < U32 ->
  0 <= toff < U32 ->
  getBase r tidx toff = nth (Z.to_nat toff) (refSeq r tidx) 4.
Proof.
  cbv zeta. intros Hi Hf Hu Hok Hs Hb Hbn Ht.
  unfold getBase, refSeq.
  set (reci := nthZ (refRecOffs_ r) tidx) in *.
  set (recf := nthZ (refRecOffs_ r) (tidx + 1)) in *.
  set (rs := take (Z.to_nat (recf - reci)) (drop (Z.to_nat reci) (recs_ r))) in *.
  assert (Hlen : length rs = Z.to_nat (recf - reci)).
  { unfold rs. rewrite length_take, length_drop. lia. }
  rewrite <- Hlen.
  rewrite getBase_loop_decode; try assumption; try lia.
  - f_equal. f_equal. lia.
  - intros k Hk. unfold rec_at, rs.
    rewrite <- (firstn_skipn (Z.to_nat reci) (recs_ r)) at 1.
    rewrite app_nth2 by (rewrite length_take; lia).
    rewrite length_take.
    replace (Z.to_nat (reci + Z.of_nat k) - Init.Nat.min (Z.to_nat reci) (length (recs_ r)))%nat
      with k by lia.
    change (skipn (Z.to_nat reci) (recs_ r)) with (drop (Z.to_nat reci) (recs_ r)).
    rewrite <- (firstn_skipn (Z.to_nat (recf - reci)) (drop (Z.to_nat reci) (recs_ r))) at 1.
    rewrite app_nth1; [reflexivity|].
    change (firstn (Z.to_nat (recf - reci)) (drop (Z.to_nat reci) (recs_ r))) with rs.
    lia.
Qed.

Lemma getBase_decodes_witness :
  getBase ref_ACNGT 0 3 = nth (Z.to_nat 3) (refSeq ref_ACNGT 0) 4.
Proof.
  apply (getBase_decodes ref_ACNGT 0 3); try (vm_compute; intuition congruence).
  repeat constructor; vm_compute; congruence.
Defined.

(** *** The two readers disagree past the first record *)

(** C3, at the reference [ACNGT] (records [{0,2,first}] and [{1,2}], one
    packed byte [0xE4]): the store is what the loader builds from the two
    files, [getBase] returns the bases of the reference one by one, and
    [getStretch(dest, 0, 3, 1)] stores [T] where the base at offset 3 is
    [G]: it advances [bufOff] by [toff - off] in the first record although
    the offset lies beyond that record, which [getBase] gets right by
    adding the record's [len]. *)
Theorem getStretch_beyond_first_record :
  load readRefRecord false file3_ACNGT file4_ACNGT = Loaded ref_ACNGT []
  /\ refSeq ref_ACNGT 0 = [0; 1; 4; 2; 3]
  /\ map (getBase ref_ACNGT 0) [0; 1; 2; 3; 4; 5] = [0; 1; 4; 2; 3; 4]
  /\ getStretch ref_ACNGT 0 0 5 = [0; 1; 4; 2; 3]
  /\ getBase ref_ACNGT 0 3 = 2
  /\ getStretch ref_ACNGT 0 3 1 = [3].
Proof. repeat split; vm_compute; reflexivity. Qed.

(** *** Errors while loading *)

Section LoadErrors.

Variable readRec : list Z -> bool -> RecRead.
Variable debug : bool.




End LoadErrors.


End RefStoreFacts.

Module RefStoreMore.

Import RefStore RefStoreFacts.

(** *** What [getStretch] stores, whatever the store holds *)

Lemma bitpair_range r b : 0 <= bitpair r b <= 3.
Proof.
  unfold bitpair. cbv zeta.
  generalize (Z.shiftr (nthZ (buf_ r) (Z.shiftr b 2)) (Z.shiftl (Z.land b 3) 1)).
  intros x. change 3 with (Z.ones 2).
  rewrite (Z.land_ones x 2); [|lia].
  change (2 ^ 2) with 4. change (Z.ones 2) with 3.
  pose proof (Z.mod_pos_bound x 4 ltac:(lia)). lia.
Qed.

Definition code (b : Z) : Prop := 0 <= b <= 4.

Lemma code_repeat n : Forall code (repeat 4 n).
Proof. induction n; cbn; constructor; [unfold code; lia | assumption]. Qed.

Lemma emitAmbig_fills n : forall toff off count,
  0 <= count < U32 ->
  let '(out, _, count') := emitAmbig n toff off count in
  0 <= count' < U32 /\ Z.of_nat (length out) + count' = count /\ Forall code out.
Proof.
  induction n as [|n IH]; intros toff off count Hc; cbn [emitAmbig].
  - cbn. split; [lia|]. split; [lia | constructor].
  - destruct ((toff <? off) && (0 <? count)) eqn:E.
    + apply andb_true_iff in E. destruct E as [_ E]. apply Z.ltb_lt in E.
      assert (Hw : wrap32 (count - 1) = count - 1) by (apply wrap32_id; lia).
      specialize (IH (wrap32 (toff + 1)) off (wrap32 (count - 1))).
      rewrite Hw in *. specialize (IH ltac:(lia)).
      destruct (emitAmbig n (wrap32 (toff + 1)) off (count - 1)) as [[out t'] c'].
      destruct IH as (H1 & H2 & H3). cbn [length].
      split; [lia|]. split; [lia|]. constructor; [unfold code; lia | exact H3].
    + cbn. split; [lia|]. split; [lia | constructor].
Qed.

Lemma emitBases_fills r n : forall toff off count bufOff,
  0 <= count < U32 ->
  let '(out, _, count', _) := emitBases r n toff off count bufOff in
  0 <= count' < U32 /\ Z.of_nat (length out) + count' = count /\ Forall code out.
Proof.
  induction n as [|n IH]; intros toff off count bufOff Hc; cbn [emitBases].
  - cbn. split; [lia|]. split; [lia | constructor].
  - destruct ((toff <? off) && (0 <? count)) eqn:E.
    + apply andb_true_iff in E. destruct E as [_ E]. apply Z.ltb_lt in E.
      assert (Hw : wrap32 (count - 1) = count - 1) by (apply wrap32_id; lia).
      specialize (IH (wrap32 (toff + 1)) off (wrap32 (count - 1)) (wrap32 (bufOff + 1))).
      rewrite Hw in *. specialize (IH ltac:(lia)).
      destruct (emitBases r n (wrap32 (toff + 1)) off (count - 1) (wrap32 (bufOff + 1)))
        as [[[out t'] c'] b'].
      destruct IH as (H1 & H2 & H3). cbn [length].
      split; [lia|]. split; [lia|]. constructor; [|exact H3].
      pose proof (bitpair_range r bufOff). unfold code. lia.
    + cbn. split; [lia|]. split; [lia | constructor].
Qed.

Lemma getStretch_loop_fills r n : forall i off bufOff toff count,
  0 <= count < U32 ->
  let '(out, count') := getStretch_loop r n i off bufOff toff count in
  0 <= count' < U32 /\ Z.of_nat (length out) + count' = count /\ Forall code out.
Proof.
  induction n as [|n IH]; intros i off0 bufOff toff count Hc; cbn [getStretch_loop].
  - cbn. split; [lia|]. split; [lia | constructor].
  - cbv zeta.
    pose proof (emitAmbig_fills (Z.to_nat count) toff
                  (wrap32 (off0 + RefStore.off (rec_at r i))) count Hc) as HA.
    destruct (emitAmbig _ _ _ _) as [[o1 toff1] count1].
    destruct HA as (A1 & A2 & A3).
    destruct (count1 =? 0); [split; [lia|]; split; [lia | exact A3]|].
    pose proof (emitBases_fills r (Z.to_nat count1) toff1
                  (wrap32 (wrap32 (off0 + RefStore.off (rec_at r i)) + len (rec_at r i)))
                  count1
                  (wrap32 (bufOff + (toff1 - wrap32 (off0 + RefStore.off (rec_at r i)))))
                  A1) as HB.
    destruct (emitBases _ _ _ _ _ _) as [[[o2 toff2] count2] bufOff2].
    destruct HB as (B1 & B2 & B3).
    destruct (count2 =? 0).
    { rewrite length_app. split; [lia|]. split; [lia|].
      apply Forall_app. split; assumption. }
    specialize (IH (wrap32 (i + 1))
                   (wrap32 (wrap32 (off0 + RefStore.off (rec_at r i)) + len (rec_at r i)))
                   bufOff2 toff2 count2 B1).
    destruct (getStretch_loop _ _ _ _ _ _ _) as [o3 count3].
    destruct IH as (C1 & C2 & C3).
    rewrite !length_app. split; [lia|]. split; [lia|].
    apply Forall_app. split; [exact A3|]. apply Forall_app. split; assumption.
Qed.

(** X2: [getStretch(dest, tidx, toff, count)] stores exactly [count]
    values, each of them a base code 0..3 or the code 4 of an ambiguous
    character, whatever records and offsets the store holds. *)
Theorem getStretch_fills r tidx toff count :
  0 <= count < U32 ->
  length (getStretch r tidx toff count) = Z.to_nat count
  /\ Forall code (getStretch r tidx toff count).
Proof.
  intros Hc. unfold getStretch. cbv zeta.
  pose proof (getStretch_loop_fills r
                (Z.to_nat (nthZ (refRecOffs_ r) (tidx + 1) - nthZ (refRecOffs_ r) tidx))
                (nthZ (refRecOffs_ r) tidx) 0 (nthZ (refOffs_ r) tidx) toff count Hc) as H.
  destruct (getStretch_loop _ _ _ _ _ _ _) as [out count'].
  destruct H as (H1 & H2 & H3).
  rewrite length_app, repeat_length. split; [lia|].
  apply Forall_app. split; [exact H3 | apply code_repeat].
Qed.

(** *** Where [getStretch] agrees with [getBase] *)

Lemma emitAmbig_spec n : forall toff off count,
  0 <= count -> (Z.to_nat count <= n)%nat -> 0 <= toff -> toff + count < U32 ->
  emitAmbig n toff off count
  = (repeat 4 (Z.to_nat (Z.min (Z.max 0 (off - toff)) count)),
     toff + Z.min (Z.max 0 (off - toff)) count,
     count - Z.min (Z.max 0 (off - toff)) count).
Proof.
  induction n as [|n IH]; intros toff off count Hc Hn Ht Hu; cbn [emitAmbig].
  - replace (Z.min (Z.max 0 (off - toff)) count) with 0 by lia.
    cbn. f_equal; [f_equal|]; lia.
  - destruct (Z.ltb_spec toff off) as [L1|L1]; cbn [andb].
    + destruct (Z.ltb_spec 0 count) as [L2|L2].
      * rewrite (wrap32_id (toff + 1)), (wrap32_id (count - 1)) by lia.
        rewrite IH by lia.
        replace (Z.min (Z.max 0 (off - toff)) count)
          with (1 + Z.min (Z.max 0 (off - (toff + 1))) (count - 1)) by lia.
        rewrite Z2Nat.inj_add by lia. cbn [Z.to_nat Pos.to_nat Pos.iter_op Nat.add repeat].
        f_equal; [f_equal|]; lia.
      * replace (Z.min (Z.max 0 (off - toff)) count) with 0 by lia.
        cbn. f_equal; [f_equal|]; lia.
    + replace (Z.min (Z.max 0 (off - toff)) count) with 0 by lia.
      cbn. f_equal; [f_equal|]; lia.
Qed.

Lemma emitBases_spec r n : forall toff off count bufOff,
  0 <= count -> (Z.to_nat count <= n)%nat -> 0 <= toff -> toff + count < U32 ->
  0 <= bufOff -> bufOff + Z.min (Z.max 0 (off - toff)) count < U32 ->
  emitBases r n toff off count bufOff
  = (map (bitpair r) (upto (Z.to_nat (Z.min (Z.max 0 (off - toff)) count)) bufOff),
     toff + Z.min (Z.max 0 (off - toff)) count,
     count - Z.min (Z.max 0 (off - toff)) count,
     bufOff + Z.min (Z.max 0 (off - toff)) count).
Proof.
  induction n as [|n IH]; intros toff off count bufOff Hc Hn Ht Hu Hb Hbu;
    cbn [emitBases].
  - replace (Z.min (Z.max 0 (off - toff)) count) with 0 by lia.
    cbn. f_equal; [f_equal; [f_equal|]|]; lia.
  - destruct (Z.ltb_spec toff off) as [L1|L1]; cbn [andb].
    + destruct (Z.ltb_spec 0 count) as [L2|L2].
      * rewrite (wrap32_id (toff + 1)), (wrap32_id (count - 1)),
          (wrap32_id (bufOff + 1)) by lia.
        rewrite IH by lia.
        replace (Z.min (Z.max 0 (off - toff)) count)
          with (1 + Z.min (Z.max 0 (off - (toff + 1))) (count - 1)) by lia.
        rewrite Z2Nat.inj_add by lia.
        cbn [Z.to_nat Pos.to_nat Pos.iter_op Nat.add upto map].
        f_equal; [f_equal; [f_equal|]|]; lia.
      * replace (Z.min (Z.max 0 (off - toff)) count) with 0 by lia.
        cbn. f_equal; [f_equal; [f_equal|]|]; lia.
    + replace (Z.min (Z.max 0 (off - toff)) count) with 0 by lia.
      cbn. f_equal; [f_equal; [f_equal|]|]; lia.
Qed.

Lemma map_upto_ext {A} (f g : Z -> A) n : forall a,
  (forall t, a <= t < a + Z.of_nat n -> f t = g t) ->
  map f (upto n a) = map g (upto n a).
Proof.
  induction n as [|n IH]; intros a H; cbn [upto map]; [reflexivity|].
  rewrite (H a) by lia. f_equal. apply IH. intros t Ht. apply H. lia.
Qed.

Lemma map_upto_const {A} (x : A) n : forall a, map (fun _ => x) (upto n a) = repeat x n.
Proof. induction n as [|n IH]; intros a; cbn; [reflexivity | f_equal; apply IH]. Qed.

Lemma upto_len n : forall a, length (upto n a) = n.
Proof. induction n as [|n IH]; intros a; cbn; [reflexivity | f_equal; apply IH]. Qed.

(** The decoded sequence, read at an offset [k] into a run of records. *)
Lemma decode_ambig r rc rs bufOff k :
  0 <= k < off rc ->
  nth (Z.to_nat k) (decodeRecords r (rc :: rs) bufOff) 4 = 4.
Proof.
  intros Hk. cbn [decodeRecords].
  rewrite app_nth1 by (rewrite repeat_length; lia). apply nth_repeat_4.
Qed.

Lemma decode_base r rc rs bufOff k :
  0 <= off rc -> off rc <= k < off rc + len rc ->
  nth (Z.to_nat k) (decodeRecords r (rc :: rs) bufOff) 4
  = bitpair r (bufOff + (k - off rc)).
Proof.
  intros Ho Hk. cbn [decodeRecords].
  rewrite app_nth2 by (rewrite repeat_length; lia). rewrite repeat_length.
  rewrite app_nth1 by (rewrite length_map, upto_len; lia).
  rewrite (nth_indep _ 4 (bitpair r 0)) by (rewrite length_map, upto_len; lia).
  rewrite (map_nth (bitpair r)), nth_upto by lia. f_equal. lia.
Qed.

Lemma decode_next r rc rs bufOff k :
  0 <= off rc -> 0 <= len rc -> off rc + len rc <= k ->
  nth (Z.to_nat k) (decodeRecords r (rc :: rs) bufOff) 4
  = nth (Z.to_nat (k - off rc - len rc)) (decodeRecords r rs (bufOff + len rc)) 4.
Proof.
  intros Ho Hl Hk. cbn [decodeRecords].
  rewrite app_nth2 by (rewrite repeat_length; lia). rewrite repeat_length.
  rewrite app_nth2 by (rewrite length_map, upto_len; lia).
  rewrite length_map, upto_len. f_equal. lia.
Qed.

Lemma getStretch_loop_decode r rs : forall i off0 bufOff toff count,
  recordsOK rs ->
  (forall k, (k < length rs)%nat ->
     rec_at r (i + Z.of_nat k) = nth k rs (mkRefRecord 0 0 false)) ->
  0 <= i -> i + Z.of_nat (length rs) < U32 ->
  0 <= off0 -> off0 + spanOf rs < U32 ->
  0 <= bufOff -> bufOff + packedOf rs < U32 ->
  off0 <= toff -> 0 <= count -> toff + count < U32 ->
  match rs with
  | [] => True
  | rc :: _ => toff <= off0 + off rc + len rc
  end ->
  fst (getStretch_loop r (length rs) i off0 bufOff toff count)
  ++ repeat 4 (Z.to_nat (snd (getStretch_loop r (length rs) i off0 bufOff toff count)))
  = map (fun t => nth (Z.to_nat (t - off0)) (decodeRecords r rs bufOff) 4)
        (upto (Z.to_nat count) toff).
Proof.
  induction rs as [|rc rs IH];
    intros i off0 bufOff toff count Hok Hrec Hi Hin Ho Hon Hb Hbn Ht Hc Hu Hfirst.
  - cbn [length getStretch_loop fst snd app decodeRecords].
    rewrite <- (map_upto_const 4 (Z.to_nat count) toff).
    apply map_upto_ext. intros t _. destruct (Z.to_nat (t - off0)); reflexivity.
  - inversion Hok as [|? ? [Hoff Hlen] Hok']; subst.
    destruct (spanOf_nonneg rs Hok') as [Hs Hp].
    cbn [length getStretch_loop spanOf packedOf] in *.
    pose proof (Hrec 0%nat ltac:(lia)) as H0. cbn [nth] in H0.
    rewrite Z.add_0_r in H0. rewrite H0. cbv zeta.
    rewrite (wrap32_id (off0 + off rc)) by lia.
    remember (off0 + off rc) as off1 eqn:Eoff1.
    rewrite emitAmbig_spec by lia.
    remember (Z.min (Z.max 0 (off1 - toff)) count) as k1 eqn:Ek1.
    assert (Hk1 : 0 <= k1 <= count) by lia.
    destruct (Z.eqb_spec (count - k1) 0) as [E1|E1].
    { (* the stretch ends among the ambiguous characters *)
      cbn [fst snd]. rewrite E1. cbn [Z.to_nat repeat]. rewrite app_nil_r.
      replace count with k1 by lia.
      rewrite <- (map_upto_const 4 (Z.to_nat k1) toff).
      apply map_upto_ext. intros t Htr. symmetry. apply decode_ambig. lia. }
    assert (Hk1' : k1 = Z.max 0 (off1 - toff)) by lia.
    remember (toff + k1) as toff1 eqn:Etoff1.
    assert (Ht1 : off1 <= toff1 <= off1 + len rc) by lia.
    rewrite (wrap32_id (bufOff + (toff1 - off1))) by lia.
    rewrite (wrap32_id (off1 + len rc)) by lia.
    remember (off1 + len rc) as off2 eqn:Eoff2.
    rewrite emitBases_spec by lia.
    remember (Z.min (Z.max 0 (off2 - toff1)) (count - k1)) as k2 eqn:Ek2.
    assert (Hk2 : 0 <= k2 <= count - k1) by lia.
    assert (Hsplit : forall c3, 0 <= c3 -> count = k1 + (k2 + c3) ->
              upto (Z.to_nat count) toff
              = upto (Z.to_nat k1) toff ++ upto (Z.to_nat k2) toff1
                ++ upto (Z.to_nat c3) (toff1 + k2)).
    { intros c3 Hc3 Hcnt. rewrite Hcnt. rewrite !Z2Nat.inj_add by lia.
      rewrite !Backtracker.upto_app. rewrite !Z2Nat.id by lia.
      rewrite Etoff1. reflexivity. }
    assert (HA : map (fun t => nth (Z.to_nat (t - off0)) (decodeRecords r (rc :: rs) bufOff) 4)
                     (upto (Z.to_nat k1) toff) = repeat 4 (Z.to_nat k1)).
    { rewrite <- (map_upto_const 4 (Z.to_nat k1) toff).
      apply map_upto_ext. intros t Htr. apply decode_ambig. lia. }
    assert (HB : map (fun t => nth (Z.to_nat (t - off0)) (decodeRecords r (rc :: rs) bufOff) 4)
                     (upto (Z.to_nat k2) toff1)
                 = map (bitpair r) (upto (Z.to_nat k2) (bufOff + (toff1 - off1)))).
    { replace (bufOff + (toff1 - off1)) with ((bufOff - off1) + toff1) by lia.
      rewrite Backtracker.upto_shift, map_map.
      apply map_upto_ext. intros t Htr. rewrite decode_base by lia. f_equal. lia. }
    destruct (Z.eqb_spec (count - k1 - k2) 0) as [E2|E2].
    { (* the stretch ends within the record *)
      cbn [fst snd]. rewrite E2. cbn [Z.to_nat repeat]. rewrite app_nil_r.
      rewrite (Hsplit 0) by lia. cbn [Z.to_nat upto]. rewrite app_nil_r.
      rewrite map_app, HA, HB. reflexivity. }
    (* the stretch runs on into the next record *)
    assert (Hk2' : k2 = off2 - toff1) by lia.
    rewrite (wrap32_id (i + 1)) by lia.
    remember (count - k1 - k2) as c3 eqn:Ec3.
    specialize (IH (i + 1) off2 (bufOff + (toff1 - off1) + k2) (toff1 + k2) c3 Hok').
    destruct (getStretch_loop r (length rs) (i + 1) off2
                (bufOff + (toff1 - off1) + k2) (toff1 + k2) c3) as [o3 count3] eqn:E3.
    cbn [fst snd] in *.
    rewrite (Hsplit c3) by lia. rewrite !map_app, HA, HB.
    rewrite <- !app_assoc. f_equal. f_equal.
    rewrite IH; try lia.
    + apply map_upto_ext. intros t Htr.
      rewrite (decode_next r rc rs bufOff (t - off0)) by lia.
      f_equal; [f_equal; lia | f_equal; lia].
    + intros k Hk. specialize (Hrec (S k) ltac:(lia)).
      cbn [nth] in Hrec. rewrite <- Hrec. f_equal. lia.
    + destruct rs as [|rc' rs']; [exact I|].
      inversion Hok' as [|? ? [Hoff' Hlen'] _]; subst. lia.
Qed.

Lemma rec_at_window r reci n k :
  0 <= reci -> (k < n)%nat -> (Z.to_nat reci + n <= length (recs_ r))%nat ->
  rec_at r (reci + Z.of_nat k)
  = nth k (take n (drop (Z.to_nat reci) (recs_ r))) (mkRefRecord 0 0 false).
Proof.
  intros Hr Hk Hn. unfold rec_at.
  replace (Z.to_nat (reci + Z.of_nat k)) with (Z.to_nat reci + k)%nat by lia.
  rewrite !nth_lookup. f_equal.
  rewrite lookup_take_lt by lia. rewrite lookup_drop. reflexivity.
Qed.

(** X3: a stretch that starts no later than the end of the first record of
    its reference (the first unambiguous run) is stored by [getStretch] as
    [getBase] returns it, base by base, ambiguous characters and the
    characters past the end of the reference included. *)
Theorem getStretch_first_record (r : BitPairReference) (tidx toff count : Z) :
  let reci := nthZ (refRecOffs_ r) tidx in
  let recf := nthZ (refRecOffs_ r) (tidx + 1) in
  let rs := take (Z.to_nat (recf - reci)) (drop (Z.to_nat reci) (recs_ r)) in
  0 <= reci <= recf -> recf <= Z.of_nat (length (recs_ r)) -> recf < U32 ->
  recordsOK rs -> spanOf rs < U32 ->
  0 <= nthZ (refOffs_ r) tidx -> nthZ (refOffs_ r) tidx + packedOf rs < U32 ->
  0 <= toff -> 0 <= count -> toff + count < U32 ->
  match rs with
  | [] => True
  | rc :: _ => toff <= off rc + len rc
  end ->
  getStretch r tidx toff count
  = map (getBase r tidx) (upto (Z.to_nat count) toff).
Proof.
  cbv zeta. intros Hi Hf Hu Hok Hs Hb Hbn Ht Hc Htc Hfirst.
  unfold getStretch, getBase. cbv zeta.
  set (reci := nthZ (refRecOffs_ r) tidx) in *.
  set (recf := nthZ (refRecOffs_ r) (tidx + 1)) in *.
  set (rs := take (Z.to_nat (recf - reci)) (drop (Z.to_nat reci) (recs_ r))) in *.
  assert (Hlen : length rs = Z.to_nat (recf - reci)).
  { unfold rs. rewrite length_take, length_drop. lia. }
  assert (Hrec : forall k, (k < length rs)%nat ->
            rec_at r (reci + Z.of_nat k) = nth k rs (mkRefRecord 0 0 false)).
  { intros k Hk. apply rec_at_window; lia. }
  rewrite <- Hlen.
  pose proof (getStretch_loop_decode r rs reci 0 (nthZ (refOffs_ r) tidx) toff count
                Hok Hrec ltac:(lia) ltac:(lia) ltac:(lia) ltac:(lia) Hb Hbn Ht Hc Htc)
    as HL.
  destruct (getStretch_loop r (length rs) reci 0 (nthZ (refOffs_ r) tidx) toff count)
    as [out count'].
  cbn [fst snd] in HL. rewrite HL.
  - apply map_upto_ext. intros t Htr.
    rewrite (getBase_loop_decode r rs reci 0 (nthZ (refOffs_ r) tidx) t);
      try assumption; lia.
  - destruct rs as [|rc rs']; [exact I | lia].
Qed.

(** *** On the reference [ACNGT] *)

Lemma getStretch_fills_witness :
  length (getStretch ref_ACNGT 0 3 2) = Z.to_nat 2
  /\ Forall code (getStretch ref_ACNGT 0 3 2).
Proof. apply (getStretch_fills ref_ACNGT 0 3 2). unfold U32. lia. Defined.

Lemma getStretch_first_record_witness :
  getStretch ref_ACNGT 0 1 5
  = map (getBase ref_ACNGT 0) (upto (Z.to_nat 5) 1).
Proof.
  apply (getStretch_first_record ref_ACNGT 0 1 5);
    try (vm_compute; intuition congruence).
  repeat constructor; vm_compute; congruence.
Defined.

End RefStoreMore.

Module RefStoreTables.

Import RefStore RefStoreFacts RefStoreMore.

(** *** The tables the loader builds *)

(** [numRefs()] and [approxLen(elt)]. *)
Definition numRefs (r : BitPairReference) : Z := nrefs_ r.
Definition approxLen (r : BitPairReference) (elt : Z) : Z := nthZ (refLens_ r) elt.

(** The indices, counted from [j], of the records flagged [first]. *)
Fixpoint starts (rs : list RefRecord) (j : Z) : list Z :=
  match rs with
  | [] => []
  | rc :: rs' => (if first rc then [j] else []) ++ starts rs' (j + 1)
  end.

(** The records [a, b) of a store. *)
Definition recsBetween (rs : list RefRecord) (a b : Z) : list RefRecord :=
  take (Z.to_nat (b - a)) (drop (Z.to_nat a) rs).

(** The 32-bit lengths of the runs of records between consecutive indices. *)
Fixpoint spans (rs : list RefRecord) (ss : list Z) : list Z :=
  match ss with
  | [] => []
  | a :: ss' =>
    match ss' with
    | [] => []
    | b :: _ => wrap32 (spanOf (recsBetween rs a b)) :: spans rs ss'
    end
  end.

Lemma starts_snoc p rc : forall j,
  starts (p ++ [rc]) j
  = starts p j ++ (if first rc then [j + Z.of_nat (length p)] else []).
Proof.
  induction p as [|x p IH]; intros j; cbn [app starts length].
  - rewrite Z.add_0_r, app_nil_r. reflexivity.
  - rewrite IH, <- app_assoc.
    replace (j + 1 + Z.of_nat (length p)) with (j + Z.of_nat (S (length p))) by lia.
    reflexivity.
Qed.

Lemma starts_range p : forall j x, In x (starts p j) -> j <= x < j + Z.of_nat (length p).
Proof.
  induction p as [|rc p IH]; intros j x H; cbn [starts length] in *; [contradiction|].
  apply in_app_or in H. destruct H as [H|H].
  - destruct (first rc); [destruct H as [<-|[]]; lia | contradiction].
  - apply IH in H. lia.
Qed.

Lemma spanOf_app a b : spanOf (a ++ b) = spanOf a + spanOf b.
Proof. induction a as [|x a IH]; cbn [app spanOf]; [reflexivity | rewrite IH; lia]. Qed.

Lemma packedOf_app a b : packedOf (a ++ b) = packedOf a + packedOf b.
Proof. induction a as [|x a IH]; cbn [app packedOf]; [reflexivity | rewrite IH; lia]. Qed.

Lemma wrap32_add_l a b : wrap32 (wrap32 a + b) = wrap32 (a + b).
Proof. unfold wrap32. apply Zplus_mod_idemp_l. Qed.

Lemma recsBetween_snoc p rc a b :
  0 <= a <= Z.of_nat (length p) -> b <= Z.of_nat (length p) ->
  recsBetween (p ++ [rc]) a b = recsBetween p a b.
Proof.
  intros Ha Hb. unfold recsBetween.
  rewrite drop_app_le by lia. rewrite take_app_le; [reflexivity|].
  rewrite length_drop. lia.
Qed.

(** [spans] looks only at the records below the last index. *)
Lemma spans_snoc p rc : forall ss,
  Forall (fun x => 0 <= x <= Z.of_nat (length p)) ss ->
  spans (p ++ [rc]) ss = spans p ss.
Proof.
  induction ss as [|a ss IH]; intros Hr; [reflexivity|].
  destruct ss as [|b ss']; [reflexivity|].
  cbn [spans]. inversion Hr as [|? ? Ha Hr']; subst.
  inversion Hr' as [|? ? Hb _]; subst.
  rewrite recsBetween_snoc by lia. f_equal. apply IH; assumption.
Qed.

Lemma spans_app rs : forall ss l c,
  spans rs ((ss ++ [l]) ++ [c]) = spans rs (ss ++ [l]) ++ [wrap32 (spanOf (recsBetween rs l c))].
Proof.
  induction ss as [|a ss IH]; intros l c; [reflexivity|].
  cbn [app]. destruct ss as [|b ss'].
  - cbn. reflexivity.
  - change (spans rs (a :: ((b :: ss') ++ [l]) ++ [c]))
      with (wrap32 (spanOf (recsBetween rs a b)) :: spans rs (((b :: ss') ++ [l]) ++ [c])).
    rewrite IH. reflexivity.
Qed.

Lemma starts_nth p : forall j i,
  (i < length (starts p j))%nat ->
  j <= nth i (starts p j) 0
  /\ nth i (starts p j ++ [j + Z.of_nat (length p)]) 0 = nth i (starts p j) 0
  /\ nth i (starts p j) 0 < nth (S i) (starts p j ++ [j + Z.of_nat (length p)]) 0
  /\ nth (S i) (starts p j ++ [j + Z.of_nat (length p)]) 0 <= j + Z.of_nat (length p).
Proof.
  induction p as [|rc p IH]; intros j i Hi; cbn [starts length] in *; [cbn in Hi; lia|].
  replace (j + Z.of_nat (S (length p))) with (j + 1 + Z.of_nat (length p)) by lia.
  destruct (first rc); cbn [app] in *.
  - destruct i as [|i]; cbn [nth length] in *.
    + split; [lia|]. split; [reflexivity|].
      destruct (starts p (j + 1)) as [|x xs] eqn:E; cbn [app nth]; [lia|].
      assert (Hx : In x (starts p (j + 1))) by (rewrite E; left; reflexivity).
      apply starts_range in Hx. lia.
    + destruct (IH (j + 1) i ltac:(lia)) as (H1 & H2 & H3 & H4).
      split; [lia|]. split; [exact H2|]. split; [exact H3 | exact H4].
  - destruct (IH (j + 1) i Hi) as (H1 & H2 & H3 & H4).
    split; [lia|]. split; [exact H2|]. split; [exact H3 | exact H4].
Qed.

Lemma spans_nth rs : forall ss i,
  (S i < length ss)%nat ->
  nth i (spans rs ss) 0
  = wrap32 (spanOf (recsBetween rs (nth i ss 0) (nth (S i) ss 0))).
Proof.
  induction ss as [|a ss IH]; intros i Hi; [cbn in Hi; lia|].
  destruct ss as [|b ss']; [cbn in Hi; lia|].
  destruct i as [|i]; [reflexivity|].
  change (spans rs (a :: b :: ss'))
    with (wrap32 (spanOf (recsBetween rs a b)) :: spans rs (b :: ss')).
  cbn [nth]. rewrite IH by (cbn [length] in *; lia). reflexivity.
Qed.

Lemma decodeRecords_length r rs : forall b,
  recordsOK rs -> Z.of_nat (length (decodeRecords r rs b)) = spanOf rs.
Proof.
  induction rs as [|rc rs IH]; intros b Hok; [reflexivity|].
  inversion Hok as [|? ? [Ho Hl] Hok']; subst.
  cbn [decodeRecords spanOf]. rewrite !length_app, repeat_length, length_map, upto_len.
  rewrite !Nat2Z.inj_add, IH by exact Hok'. lia.
Qed.

Lemma recordsOK_take n rs : recordsOK rs -> recordsOK (take n rs).
Proof. apply Forall_take. Qed.
Lemma recordsOK_drop n rs : recordsOK rs -> recordsOK (drop n rs).
Proof. apply Forall_drop. Qed.

(** The records before [a], those in [a, b) and the rest make up the
    store. *)
Lemma sums_split rs a b :
  recordsOK rs -> (a <= b)%nat ->
  0 <= packedOf (take a rs)
  /\ 0 <= packedOf (take (b - a) (drop a rs))
  /\ 0 <= spanOf (take (b - a) (drop a rs))
  /\ packedOf (take a rs) + packedOf (take (b - a) (drop a rs)) <= packedOf rs
  /\ spanOf (take (b - a) (drop a rs)) <= spanOf rs
  /\ packedOf rs <= spanOf rs.
Proof.
  intros Hok Hab.
  assert (E1 : packedOf rs = packedOf (take a rs) + packedOf (drop a rs))
    by (rewrite <- packedOf_app, take_drop; reflexivity).
  assert (E2 : spanOf rs = spanOf (take a rs) + spanOf (drop a rs))
    by (rewrite <- spanOf_app, take_drop; reflexivity).
  assert (E3 : packedOf (drop a rs)
               = packedOf (take (b - a) (drop a rs))
                 + packedOf (drop (b - a) (drop a rs)))
    by (rewrite <- packedOf_app, take_drop; reflexivity).
  assert (E4 : spanOf (drop a rs)
               = spanOf (take (b - a) (drop a rs))
                 + spanOf (drop (b - a) (drop a rs)))
    by (rewrite <- spanOf_app, take_drop; reflexivity).
  pose proof (spanOf_nonneg _ (recordsOK_take a rs Hok)).
  pose proof (spanOf_nonneg _ (recordsOK_take (b - a) _ (recordsOK_drop a rs Hok))).
  pose proof (spanOf_nonneg _ (recordsOK_drop (b - a) _ (recordsOK_drop a rs Hok))).
  assert (Hps : forall l, recordsOK l -> packedOf l <= spanOf l).
  { induction 1 as [|x l [? ?] _ IHl]; cbn; lia. }
  pose proof (Hps _ (recordsOK_take a rs Hok)).
  pose proof (Hps _ (recordsOK_take (b - a) _ (recordsOK_drop a rs Hok))).
  pose proof (Hps _ (recordsOK_drop (b - a) _ (recordsOK_drop a rs Hok))).
  lia.
Qed.

Section Tables.

Variable readRec : list Z -> bool -> RecRead.

Lemma loadRecords_grows n : forall bytes swap a a' rest,
  loadRecords readRec n bytes swap a = inl (a', rest) ->
  (length (a_recs a) <= length (a_recs a'))%nat.
Proof.
  induction n as [|n IH]; intros bytes swap a a' rest H; cbn [loadRecords] in H.
  - inversion H; subst. lia.
  - destruct (readRec bytes swap) as [rc rest0|code msg]; [|discriminate].
    apply IH in H. cbn [a_recs] in H.
    destruct (first rc); cbn [a_recs] in H; rewrite length_app in H; cbn in H; lia.
Qed.

(** What the accumulator holds after the records [a_recs] have been read. *)
Record tablesOK (a : LoadAcc) : Prop := {
  t_recOffs : a_refRecOffs a = starts (a_recs a) 0;
  t_offs : a_refOffs a
           = map (fun j => wrap32 (packedOf (take (Z.to_nat j) (a_recs a))))
                 (starts (a_recs a) 0);
  t_nrefs : a_nrefs a = Z.of_nat (length (starts (a_recs a) 0));
  t_cumsz : a_cumsz a = wrap32 (packedOf (a_recs a));
  t_cumlen : a_cumlen a
             = wrap32 (spanOf (drop (Z.to_nat (List.last (starts (a_recs a) 0) 0))
                                    (a_recs a)));
  t_lens : a_refLens a = spans (a_recs a) (starts (a_recs a) 0)
}.

Lemma starts_bound p : Forall (fun x => 0 <= x <= Z.of_nat (length p)) (starts p 0).
Proof.
  apply List.Forall_forall. intros x Hx. apply starts_range in Hx. lia.
Qed.

Lemma starts_length p : forall j, (length (starts p j) <= length p)%nat.
Proof.
  induction p as [|rc p IH]; intros j; cbn [starts length]; [lia|].
  rewrite length_app. specialize (IH (j + 1)). destruct (first rc); cbn; lia.
Qed.

Lemma tablesOK_step a rc :
  tablesOK a -> Z.of_nat (length (a_recs a)) + 1 < U32 ->
  let recs := a_recs a ++ [rc] in
  let a1 :=
    if first rc then
      mkAcc recs (a_refRecOffs a ++ [Z.of_nat (length recs) - 1])
            (a_refOffs a ++ [a_cumsz a])
            (if 0 <? a_nrefs a then a_refLens a ++ [a_cumlen a] else a_refLens a)
            (wrap32 (a_nrefs a + 1)) (a_cumsz a) 0
    else mkAcc recs (a_refRecOffs a) (a_refOffs a) (a_refLens a)
               (a_nrefs a) (a_cumsz a) (a_cumlen a) in
  tablesOK (mkAcc (a_recs a1) (a_refRecOffs a1) (a_refOffs a1) (a_refLens a1)
                  (a_nrefs a1) (wrap32 (a_cumsz a1 + len rc))
                  (wrap32 (wrap32 (a_cumlen a1 + off rc) + len rc))).
Proof.
  intros [T1 T2 T3 T4 T5 T6] Hlen. cbv zeta.
  set (p := a_recs a) in *. set (ss := starts p 0) in *.
  pose proof (starts_bound p) as Hbound. fold ss in Hbound.
  pose proof (starts_length p 0) as Hsl. fold ss in Hsl.
  assert (Hmap : forall l : list Z,
            Forall (fun x => 0 <= x <= Z.of_nat (length p)) l ->
            map (fun j => wrap32 (packedOf (take (Z.to_nat j) (p ++ [rc])))) l
            = map (fun j => wrap32 (packedOf (take (Z.to_nat j) p))) l).
  { intros l Hl. apply map_ext_in. intros j Hj.
    rewrite List.Forall_forall in Hl. apply Hl in Hj.
    rewrite take_app_le by lia. reflexivity. }
  destruct (first rc) eqn:Hf; cbn [a_recs a_refRecOffs a_refOffs a_refLens a_nrefs
                                  a_cumsz a_cumlen].
  - (* a new reference begins *)
    assert (Hss : starts (p ++ [rc]) 0 = ss ++ [Z.of_nat (length p)]).
    { rewrite starts_snoc, Hf. reflexivity. }
    constructor; cbn [a_recs a_refRecOffs a_refOffs a_refLens a_nrefs a_cumsz a_cumlen];
      rewrite ?Hss.
    + rewrite T1, length_app. cbn [length]. f_equal. f_equal. lia.
    + rewrite map_app, Hmap by exact Hbound. rewrite T2. f_equal. cbn [map].
      rewrite Nat2Z.id, take_app_length. rewrite T4. reflexivity.
    + rewrite T3, length_app. cbn [length]. rewrite wrap32_id by lia. lia.
    + rewrite T4, wrap32_add_l, packedOf_app. cbn [packedOf]. f_equal. lia.
    + rewrite last_last, Nat2Z.id, drop_app_length. cbn [spanOf].
      rewrite Z.add_0_l, wrap32_add_l. f_equal. lia.
    + rewrite T3. destruct ss as [|s0 ss0] eqn:Ess.
      * cbn. exact T6.
      * assert (Hnz : (0 <? Z.of_nat (length (s0 :: ss0))) = true)
          by (apply Z.ltb_lt; cbn [length]; lia).
        rewrite Hnz. destruct (exists_last (l := s0 :: ss0) ltac:(discriminate))
          as (front & l & Hfl).
        rewrite Hfl in *. rewrite spans_app.
        rewrite spans_snoc by assumption. rewrite T6. f_equal.
        rewrite T5, last_last. do 3 f_equal.
        unfold recsBetween.
        assert (Hl : 0 <= l <= Z.of_nat (length p)).
        { rewrite List.Forall_forall in Hbound. apply Hbound, in_or_app.
          right. left. reflexivity. }
        rewrite drop_app_le by lia.
        rewrite take_app_le by (rewrite length_drop; lia).
        rewrite take_ge by (rewrite length_drop; lia). reflexivity.
  - (* the record goes on with the current reference *)
    assert (Hss : starts (p ++ [rc]) 0 = ss).
    { rewrite starts_snoc, Hf, app_nil_r. reflexivity. }
    constructor; cbn [a_recs a_refRecOffs a_refOffs a_refLens a_nrefs a_cumsz a_cumlen];
      rewrite ?Hss.
    + exact T1.
    + rewrite Hmap by exact Hbound. exact T2.
    + exact T3.
    + rewrite T4, wrap32_add_l, packedOf_app. cbn [packedOf]. f_equal. lia.
    + rewrite T5, wrap32_add_l, <- Z.add_assoc, wrap32_add_l.
      assert (Hl : 0 <= List.last ss 0 <= Z.of_nat (length p)).
      { destruct ss as [|s0 ss0]; [cbn; lia|].
        destruct (exists_last (l := s0 :: ss0) ltac:(discriminate)) as (front & l & Hfl).
        rewrite Hfl in *. rewrite last_last.
        rewrite List.Forall_forall in Hbound. apply Hbound, in_or_app.
        right. left. reflexivity. }
      rewrite drop_app_le by lia. rewrite spanOf_app. cbn [spanOf]. f_equal. lia.
    + rewrite spans_snoc by assumption. exact T6.
Qed.

Lemma loadRecords_tables n : forall bytes swap a a' rest,
  loadRecords readRec n bytes swap a = inl (a', rest) ->
  Z.of_nat (length (a_recs a')) < U32 ->
  tablesOK a -> tablesOK a'.
Proof.
  induction n as [|n IH]; intros bytes swap a a' rest H Hlen Ha.
  - cbn [loadRecords] in H. inversion H; subst. exact Ha.
  - cbn [loadRecords] in H.
    destruct (readRec bytes swap) as [rc rest0|code msg]; [|discriminate].
    pose proof (loadRecords_grows _ _ _ _ _ _ H) as Hg.
    refine (IH _ _ _ _ _ H Hlen _).
    apply (tablesOK_step a rc Ha).
    cbn [a_recs] in Hg. destruct (first rc); cbn [a_recs] in Hg;
      rewrite length_app in Hg; cbn [length] in Hg; lia.
Qed.

Variable debug : bool.

(** A store the loader hands back was put together from an accumulator of
    the record loop. *)
Lemma load_loaded f3 f4 r msg :
  load readRec debug f3 f4 = Loaded r msg ->
  exists n bytes swap a rest,
    loadRecords readRec n bytes swap (mkAcc [] [] [] [] 0 0 0) = inl (a, rest)
    /\ recs_ r = a_recs a
    /\ refRecOffs_ r = a_refRecOffs a ++ [Z.of_nat (length (a_recs a))]
    /\ refOffs_ r = a_refOffs a ++ [a_cumsz a]
    /\ refLens_ r = a_refLens a ++ [a_cumlen a]
    /\ bufSz_ r = a_cumsz a
    /\ nrefs_ r = a_nrefs a.
Proof.
  intros H. unfold load in H.
  destruct f3 as [b3|]; [|discriminate].
  destruct (readU32 b3) as [[one b3a]|]; [|discriminate].
  destruct (debug && negb (one =? 1) && negb (one =? 16777216)); [discriminate|].
  destruct (readU32 b3a) as [[sz0 b3b]|]; [|discriminate].
  destruct (loadRecords _ _ _ _ _) as [[a rest]|[code m]] eqn:E; [|discriminate].
  destruct (debug && negb _); [discriminate|].
  destruct f4 as [b4|]; [|discriminate].
  match type of H with
  | context [if negb (?x =? ?y) then Exited _ _ else _] =>
    destruct (negb (x =? y)); [discriminate|]
  end.
  destruct (debug && _); [discriminate|].
  inversion H; subst; clear H.
  eexists _, _, _, a, rest. split; [exact E|]. repeat split.
Qed.

Lemma tablesOK_init : tablesOK (mkAcc [] [] [] [] 0 0 0).
Proof. constructor; reflexivity. Qed.

Lemma load_tables_gen f3 f4 r msg :
  load readRec debug f3 f4 = Loaded r msg ->
  Z.of_nat (length (recs_ r)) < U32 ->
  nrefs_ r = Z.of_nat (length (starts (recs_ r) 0))
  /\ refRecOffs_ r = starts (recs_ r) 0 ++ [Z.of_nat (length (recs_ r))]
  /\ refOffs_ r
     = map (fun j => wrap32 (packedOf (take (Z.to_nat j) (recs_ r))))
           (starts (recs_ r) 0 ++ [Z.of_nat (length (recs_ r))])
  /\ bufSz_ r = wrap32 (packedOf (recs_ r))
  /\ refLens_ r
     = match starts (recs_ r) 0 with
       | [] => [wrap32 (spanOf (recs_ r))]
       | _ :: _ => spans (recs_ r) (starts (recs_ r) 0 ++ [Z.of_nat (length (recs_ r))])
       end.
Proof.
  intros H Hlen.
  destruct (load_loaded _ _ _ _ H) as (n & bytes & swap & a & rest & E & R1 & R2 & R3 & R4 & R5 & R6).
  rewrite R1 in *.
  destruct (loadRecords_tables _ _ _ _ _ _ E Hlen tablesOK_init) as [T1 T2 T3 T4 T5 T6].
  split; [rewrite R6; exact T3|].
  split; [rewrite R2, T1; reflexivity|].
  split.
  { rewrite R3, T2, map_app. f_equal. cbn [map].
    rewrite Nat2Z.id, firstn_all. rewrite T4. reflexivity. }
  split; [rewrite R5; exact T4|].
  rewrite R4, T6, T5.
  destruct (starts (a_recs a) 0) as [|s0 ss0] eqn:Ess.
  - cbn. reflexivity.
  - destruct (exists_last (l := s0 :: ss0) ltac:(discriminate)) as (front & l & Hfl).
    rewrite Hfl. rewrite spans_app, last_last. do 3 f_equal.
    unfold recsBetween.
    rewrite take_ge; [reflexivity|]. rewrite length_drop. lia.
Qed.

(** X4: the tables of a store that was loaded.  [refRecOffs_] lists the
    indices of the records flagged [first], then the number of records;
    [refOffs_] gives for each of them the 32-bit sum of the [len] of the
    records before it; [numRefs()] is the number of flagged records and
    [bufSz_] the 32-bit sum of all [len]; [refLens_] gives the 32-bit sum of
    [off + len] over the records of each reference.  When no record is
    flagged, [refLens_] still receives one entry, so it has one entry more
    than [numRefs()] counts. *)
Theorem load_tables f3 f4 r msg :
  load readRec debug f3 f4 = Loaded r msg ->
  Z.of_nat (length (recs_ r)) < U32 ->
  numRefs r = Z.of_nat (length (starts (recs_ r) 0))
  /\ refRecOffs_ r = starts (recs_ r) 0 ++ [Z.of_nat (length (recs_ r))]
  /\ refOffs_ r
     = map (fun j => wrap32 (packedOf (take (Z.to_nat j) (recs_ r))))
           (starts (recs_ r) 0 ++ [Z.of_nat (length (recs_ r))])
  /\ bufSz_ r = wrap32 (packedOf (recs_ r))
  /\ refLens_ r
     = match starts (recs_ r) 0 with
       | [] => [wrap32 (spanOf (recs_ r))]
       | _ :: _ => spans (recs_ r) (starts (recs_ r) 0 ++ [Z.of_nat (length (recs_ r))])
       end.
Proof. exact (load_tables_gen f3 f4 r msg). Qed.

(** X5: in a store that was loaded and whose lengths fit 32 bits, the
    reference [tidx] is the records from the [tidx]-th record flagged [first]
    up to the next flagged record (or the end), decoded from the packed
    buffer at the sum of the [len] of all records before them: [getBase]
    returns its base at every offset and 4 past its end, and [approxLen]
    is its length (the ambiguous characters that trail the last record are
    not counted). *)
Theorem load_getBase f3 f4 r msg tidx toff :
  load readRec debug f3 f4 = Loaded r msg ->
  recordsOK (recs_ r) ->
  Z.of_nat (length (recs_ r)) < U32 -> spanOf (recs_ r) < U32 ->
  0 <= tidx < numRefs r -> 0 <= toff < U32 ->
  let ss := starts (recs_ r) 0 ++ [Z.of_nat (length (recs_ r))] in
  let a := nthZ ss tidx in
  let b := nthZ ss (tidx + 1) in
  let seq := decodeRecords r (recsBetween (recs_ r) a b)
                           (packedOf (take (Z.to_nat a) (recs_ r))) in
  0 <= a < b /\ b <= Z.of_nat (length (recs_ r))
  /\ getBase r tidx toff = nth (Z.to_nat toff) seq 4
  /\ approxLen r tidx = Z.of_nat (length seq).
Proof.
  intros H Hok Hlen Hspan Ht Hto. cbv zeta.
  destruct (load_tables_gen _ _ _ _ H Hlen) as (Hn & Hro & Hof & _ & Hln).
  unfold numRefs in Ht. rewrite Hn in Ht.
  assert (Hln' : refLens_ r
                 = spans (recs_ r) (starts (recs_ r) 0 ++ [Z.of_nat (length (recs_ r))])).
  { rewrite Hln. destruct (starts (recs_ r) 0); [cbn [length] in Ht; lia | reflexivity]. }
  clear Hln.
  set (recs := recs_ r) in *. set (st := starts recs 0) in *.
  set (ss := st ++ [Z.of_nat (length recs)]) in *.
  assert (Hi : (Z.to_nat tidx < length st)%nat) by lia.
  destruct (starts_nth recs 0 (Z.to_nat tidx) Hi) as (S1 & S2 & S3 & S4).
  fold st in S1, S2, S3, S4. rewrite Z.add_0_l in S2, S3, S4. fold ss in S2, S3, S4.
  assert (Ha : nthZ ss tidx = nth (Z.to_nat tidx) st 0) by (unfold nthZ; exact S2).
  assert (Hb : nthZ ss (tidx + 1) = nth (S (Z.to_nat tidx)) ss 0).
  { unfold nthZ. f_equal. lia. }
  rewrite Ha, Hb.
  set (a := nth (Z.to_nat tidx) st 0) in *.
  set (b := nth (S (Z.to_nat tidx)) ss 0) in *.
  destruct (sums_split recs (Z.to_nat a) (Z.to_nat b) Hok ltac:(lia))
    as (P1 & P0 & P2 & P3 & P4 & P5).
  replace (Z.to_nat b - Z.to_nat a)%nat with (Z.to_nat (b - a)) in * by lia.
  fold (recsBetween recs a b) in P0, P2, P3, P4.
  split; [lia|]. split; [lia|]. split.
  - unfold getBase. rewrite Hro. fold ss. rewrite Ha, Hb. fold a b.
    assert (Hoff : nthZ (refOffs_ r) tidx = packedOf (take (Z.to_nat a) recs)).
    { rewrite Hof. fold ss. unfold nthZ.
      rewrite (nth_indep _ 0 ((fun j => wrap32 (packedOf (take (Z.to_nat j) recs))) 0))
        by (rewrite length_map; unfold ss; rewrite length_app; cbn [length]; lia).
      rewrite (map_nth (fun j => wrap32 (packedOf (take (Z.to_nat j) recs)))).
      rewrite S2. fold a. apply wrap32_id. lia. }
    rewrite Hoff.
    assert (Hl : length (recsBetween recs a b) = Z.to_nat (b - a)).
    { unfold recsBetween. rewrite length_take, length_drop. lia. }
    rewrite <- Hl.
    rewrite (getBase_loop_decode r (recsBetween recs a b) a 0
               (packedOf (take (Z.to_nat a) recs)) toff); try lia.
    + f_equal. f_equal. lia.
    + unfold recsBetween. apply recordsOK_take, recordsOK_drop, Hok.
    + intros k Hk. unfold recsBetween. apply rec_at_window; [lia | lia|].
      fold recs. lia.
  - unfold approxLen, nthZ. rewrite Hln'.
    rewrite spans_nth by (unfold ss; rewrite length_app; cbn [length]; lia).
    rewrite S2. fold a b.
    rewrite decodeRecords_length
      by (unfold recsBetween; apply recordsOK_take, recordsOK_drop, Hok).
    apply wrap32_id. lia.
Qed.

End Tables.

(** *** On the reference [ACNGT] *)

Lemma load_tables_witness :
  numRefs ref_ACNGT = Z.of_nat (length (starts (recs_ ref_ACNGT) 0))
  /\ refRecOffs_ ref_ACNGT
     = starts (recs_ ref_ACNGT) 0 ++ [Z.of_nat (length (recs_ ref_ACNGT))]
  /\ refOffs_ ref_ACNGT
     = map (fun j => wrap32 (packedOf (take (Z.to_nat j) (recs_ ref_ACNGT))))
           (starts (recs_ ref_ACNGT) 0 ++ [Z.of_nat (length (recs_ ref_ACNGT))])
  /\ bufSz_ ref_ACNGT = wrap32 (packedOf (recs_ ref_ACNGT))
  /\ refLens_ ref_ACNGT
     = match starts (recs_ ref_ACNGT) 0 with
       | [] => [wrap32 (spanOf (recs_ ref_ACNGT))]
       | _ :: _ => spans (recs_ ref_ACNGT)
                         (starts (recs_ ref_ACNGT) 0
                          ++ [Z.of_nat (length (recs_ ref_ACNGT))])
       end.
Proof.
  apply (load_tables readRefRecord false file3_ACNGT file4_ACNGT ref_ACNGT []);
    vm_compute; reflexivity.
Defined.

Lemma load_getBase_witness :
  let ss := starts (recs_ ref_ACNGT) 0 ++ [Z.of_nat (length (recs_ ref_ACNGT))] in
  let a := nthZ ss 0 in
  let b := nthZ ss (0 + 1) in
  let seq := decodeRecords ref_ACNGT (recsBetween (recs_ ref_ACNGT) a b)
                           (packedOf (take (Z.to_nat a) (recs_ ref_ACNGT))) in
  0 <= a < b /\ b <= Z.of_nat (length (recs_ ref_ACNGT))
  /\ getBase ref_ACNGT 0 3 = nth (Z.to_nat 3) seq 4
  /\ approxLen ref_ACNGT 0 = Z.of_nat (length seq).
Proof.
  apply (load_getBase readRefRecord false file3_ACNGT file4_ACNGT ref_ACNGT [] 0 3);
    try (vm_compute; intuition congruence).
  repeat constructor; vm_compute; congruence.
Defined.

End RefStoreTables.

(** * Setting up a [BacktrackManager]

    The constructor and the setters of [ebwt_search_backtrack.h].  The
    read, its qualities, its name and the mutations belong to the caller,
    who hands pointers to them: the reads live in a heap of strings indexed
    by address, since the manager writes to them (an address the heap does
    not hold is the empty string); the other strings are only
    read and are held by value.  A pointer that may be [NULL] is an
    [option].  The index, the search parameters, the sink, the seedling
    string, the reference texts and the random source are stored by the
    constructor and touched by none of these functions; they are left
    out, and so is what [setQuery] prints when [_verbose] is set.  The
    assertions are those of a build without them.  An operation that
    dereferences [NULL], or that writes past the end of the read, has no
    result. *)

Module Manager.

Import Backtracker.

Notation "'Heap'" := (gmap Z (list Z)).

Definition deref (h : Heap) (p : Z) : list Z := default [] (h !! p).

Record Mgr := mkMgr {
  g_qry : option Z;
  g_qlen : Z;
  g_qual : option (list Z);
  g_name : option (list Z);
  g_unrevOff : Z;
  g_1revOff : Z;
  g_2revOff : Z;
  g_itop : Z;
  g_ibot : Z;
  g_spread : Z;
  g_maxStackDepth : Z;
  g_qualThresh : Z;
  g_qualWobble : Z;
  g_oneHit : bool;
  g_reportOnHit : bool;
  g_pairs : option Z;   (* cells of [_pairs], when allocated *)
  g_elims : option Z;   (* cells of [_elims], when allocated *)
  g_mms : option Z;
  g_chars : option Z;
  g_reportSeedlings : Z;
  g_muts : option (list QueryMutation);
  g_halfAndHalf : bool;
  g_5depth : Z;
  g_3depth : Z
}.

(** [fill(_qualDefault, DEFAULT_SPREAD, (char)(40+33))] and ["default"]. *)
Definition qualDefault : list Z := repeat 73 (Z.to_nat DEFAULT_SPREAD).
Definition nameDefault : list Z := [100; 101; 102; 97; 117; 108; 116].

(** A string pointer that is [NULL], or whose string is empty, is replaced
    by the address of the default string. *)
Definition orDefault (p : option (list Z)) (dflt : list Z) : option (list Z) :=
  match p with
  | None => Some dflt
  | Some [] => Some dflt
  | Some l => Some l
  end.

(** Every mutation lies in the read. *)
Definition inRead (ms : list QueryMutation) (q : list Z) : bool :=
  forallb (fun m => (Z.to_nat (pos m) <? length q)%nat) ms.

(** [applyMutations()] and [undoMutations()] on the read [_qry] points to.
    Nothing is dereferenced when there is no mutation to go through. *)
Definition rewrite (v : QueryMutation -> Z) (g : Mgr) (h : Heap) : option Heap :=
  match g_muts g with
  | None => Some h
  | Some [] => Some h
  | Some ms =>
    match g_qry g with
    | None => None
    | Some p =>
      if inRead ms (deref h p) then
        Some (<[p := fold_left (fun q m => <[Z.to_nat (pos m) := v m]> q) ms (deref h p)]> h)
      else None
    end
  end.

Definition applyMutations : Mgr -> Heap -> option Heap := rewrite newBase.
Definition undoMutations : Mgr -> Heap -> option Heap := rewrite oldBase.

Definition with_muts (ms : option (list QueryMutation)) (g : Mgr) : Mgr :=
  mkMgr (g_qry g) (g_qlen g) (g_qual g) (g_name g) (g_unrevOff g) (g_1revOff g)
        (g_2revOff g) (g_itop g) (g_ibot g) (g_spread g) (g_maxStackDepth g)
        (g_qualThresh g) (g_qualWobble g) (g_oneHit g) (g_reportOnHit g)
        (g_pairs g) (g_elims g) (g_mms g) (g_chars g) (g_reportSeedlings g)
        ms (g_halfAndHalf g) (g_5depth g) (g_3depth g).

Definition with_query (qry : option Z) (qual name : option (list Z)) (g : Mgr)
    : Mgr :=
  mkMgr qry (g_qlen g) qual name (g_unrevOff g) (g_1revOff g)
        (g_2revOff g) (g_itop g) (g_ibot g) (g_spread g) (g_maxStackDepth g)
        (g_qualThresh g) (g_qualWobble g) (g_oneHit g) (g_reportOnHit g)
        (g_pairs g) (g_elims g) (g_mms g) (g_chars g) (g_reportSeedlings g)
        (g_muts g) (g_halfAndHalf g) (g_5depth g) (g_3depth g).

(** The assignments both the constructor and [setQuery] make once the read
    is known: [_qlen], [_spread], the default strings, [_maxStackDepth], and
    the arenas when [alloc] says which of them to allocate. *)
Definition sized (n : Z) (qual name : option (list Z)) (pairs elims : option Z)
    (g : Mgr) : Mgr :=
  mkMgr (g_qry g) n qual name (g_unrevOff g) (g_1revOff g)
        (g_2revOff g) (g_itop g) (g_ibot g) (wrap32 n)
        (wrap32 (n - Z.min (g_unrevOff g) n + 3 + 1))
        (g_qualThresh g) (g_qualWobble g) (g_oneHit g) (g_reportOnHit g)
        pairs elims (g_mms g) (g_chars g) (g_reportSeedlings g)
        (g_muts g) (g_halfAndHalf g) (g_5depth g) (g_3depth g).

Definition pairsFor (msd : Z) : Z := wrap32 (wrap32 (DEFAULT_SPREAD * msd) * 8).
Definition elimsFor (msd : Z) : Z := wrap32 (DEFAULT_SPREAD * msd).

(** The constructor. *)
Definition construct (h : Heap)
    (unrevOff oneRevOff twoRevOff itop ibot qualThresh qualWobble
     reportSeedlings : Z)
    (muts : option (list QueryMutation)) (oneHit halfAndHalf : bool)
    (qry : option Z) (qual name : option (list Z)) : option (Mgr * Heap) :=
  let g0 :=
    mkMgr qry 0 qual name unrevOff oneRevOff twoRevOff itop ibot
          DEFAULT_SPREAD DEFAULT_SPREAD qualThresh qualWobble oneHit true
          None None None None reportSeedlings muts halfAndHalf
          oneRevOff twoRevOff in
  let mmsChars (g : Mgr) : Mgr :=
    mkMgr (g_qry g) (g_qlen g) (g_qual g) (g_name g) (g_unrevOff g) (g_1revOff g)
          (g_2revOff g) (g_itop g) (g_ibot g) (g_spread g) (g_maxStackDepth g)
          (g_qualThresh g) (g_qualWobble g) (g_oneHit g) (g_reportOnHit g)
          (g_pairs g) (g_elims g) (Some DEFAULT_SPREAD) (Some DEFAULT_SPREAD)
          (g_reportSeedlings g) (g_muts g) (g_halfAndHalf g) (g_5depth g)
          (g_3depth g) in
  match qry with
  | None => Some (mmsChars g0, h)
  | Some p =>
    let n := Z.of_nat (length (deref h p)) in
    let msd := wrap32 (n - Z.min unrevOff n + 3 + 1) in
    let g1 :=
      sized n (orDefault qual qualDefault) (orDefault name nameDefault)
            (Some (pairsFor msd)) (Some (elimsFor msd)) g0 in
    match applyMutations g1 h with
    | None => None
    | Some h' => Some (mmsChars g1, h')
    end
  end.

(** [setQuery(__qry, __qual, __name, __muts)] *)
Definition setQuery (qry : option Z) (qual name : option (list Z))
    (muts : option (list QueryMutation)) (g : Mgr) (h : Heap)
    : option (Mgr * Heap) :=
  let g1 := with_query qry qual name g in
  match undoMutations g1 h with
  | None => None
  | Some h1 =>
    let g2 := with_muts muts g1 in
    match applyMutations g2 h1 with
    | None => None
    | Some h2 =>
      match qry with
      | None => None
      | Some p =>
        let n := Z.of_nat (length (deref h2 p)) in
        let msd := wrap32 (n - Z.min (g_unrevOff g2) n + 3 + 1) in
        Some (sized n (orDefault qual qualDefault) (orDefault name nameDefault)
                    (match g_pairs g2 with
                     | None => Some (pairsFor msd)
                     | Some c => Some c
                     end)
                    (match g_elims g2 with
                     | None => Some (elimsFor msd)
                     | Some c => Some c
                     end) g2,
              h2)
      end
    end
  end.

(** [setMuts(__muts)] *)
Definition setMuts (muts : option (list QueryMutation)) (g : Mgr) (h : Heap)
    : option (Mgr * Heap) :=
  match undoMutations g h with
  | None => None
  | Some h1 =>
    let g1 := with_muts muts g in
    match applyMutations g1 h1 with
    | None => None
    | Some h2 => Some (g1, h2)
    end
  end.

(** [setUnrevOff], [set1RevOff], [set2RevOff]: the old value is returned. *)
Definition setUnrevOff (unrevOff : Z) (g : Mgr) : Z * Mgr :=
  (g_unrevOff g,
   mkMgr (g_qry g) (g_qlen g) (g_qual g) (g_name g) unrevOff (g_1revOff g)
         (g_2revOff g) (g_itop g) (g_ibot g) (g_spread g) (g_maxStackDepth g)
         (g_qualThresh g) (g_qualWobble g) (g_oneHit g) (g_reportOnHit g)
         (g_pairs g) (g_elims g) (g_mms g) (g_chars g) (g_reportSeedlings g)
         (g_muts g) (g_halfAndHalf g) (g_5depth g) (g_3depth g)).

Definition set1RevOff (oneRevOff : Z) (g : Mgr) : Z * Mgr :=
  (g_1revOff g,
   mkMgr (g_qry g) (g_qlen g) (g_qual g) (g_name g) (g_unrevOff g) oneRevOff
         (g_2revOff g) (g_itop g) (g_ibot g) (g_spread g) (g_maxStackDepth g)
         (g_qualThresh g) (g_qualWobble g) (g_oneHit g) (g_reportOnHit g)
         (g_pairs g) (g_elims g) (g_mms g) (g_chars g) (g_reportSeedlings g)
         (g_muts g) (g_halfAndHalf g) (g_5depth g) (g_3depth g)).

Definition set2RevOff (twoRevOff : Z) (g : Mgr) : Z * Mgr :=
  (g_2revOff g,
   mkMgr (g_qry g) (g_qlen g) (g_qual g) (g_name g) (g_unrevOff g) (g_1revOff g)
         twoRevOff (g_itop g) (g_ibot g) (g_spread g) (g_maxStackDepth g)
         (g_qualThresh g) (g_qualWobble g) (g_oneHit g) (g_reportOnHit g)
         (g_pairs g) (g_elims g) (g_mms g) (g_chars g) (g_reportSeedlings g)
         (g_muts g) (g_halfAndHalf g) (g_5depth g) (g_3depth g)).

(** [setQlen(qlen)]: [_qlen] becomes the smaller of the length of the read
    and [qlen]. *)
Definition setQlen (qlen : Z) (g : Mgr) (h : Heap) : option Mgr :=
  match g_qry g with
  | None => None
  | Some p =>
    Some (mkMgr (g_qry g) (Z.min (Z.of_nat (length (deref h p))) qlen)
                (g_qual g) (g_name g) (g_unrevOff g) (g_1revOff g)
                (g_2revOff g) (g_itop g) (g_ibot g) (g_spread g)
                (g_maxStackDepth g) (g_qualThresh g) (g_qualWobble g)
                (g_oneHit g) (g_reportOnHit g) (g_pairs g) (g_elims g)
                (g_mms g) (g_chars g) (g_reportSeedlings g) (g_muts g)
                (g_halfAndHalf g) (g_5depth g) (g_3depth g))
  end.

(** What a search reads of the manager. *)
Definition configOf (g : Mgr) : Config :=
  mkConfig (g_qlen g) (g_spread g) (default [] (g_qual g)) (g_unrevOff g)
           (g_1revOff g) (g_2revOff g) (g_qualThresh g) (g_reportSeedlings g)
           (g_muts g) (g_halfAndHalf g) (g_5depth g) (g_3depth g) (g_oneHit g).

(** ** A manager in use *)

(** The calls a user makes between two searches. *)
Inductive Op :=
| OSetQuery (qry : option Z) (qual name : option (list Z))
            (muts : option (list QueryMutation))
| OSetMuts (muts : option (list QueryMutation))
| OSetUnrevOff (unrevOff : Z)
| OSet1RevOff (oneRevOff : Z)
| OSet2RevOff (twoRevOff : Z)
| OSetQlen (qlen : Z).

Definition step (op : Op) (st : Mgr * Heap) : option (Mgr * Heap) :=
  let '(g, h) := st in
  match op with
  | OSetQuery qry qual name muts => setQuery qry qual name muts g h
  | OSetMuts muts => setMuts muts g h
  | OSetUnrevOff u => Some (snd (setUnrevOff u g), h)
  | OSet1RevOff o => Some (snd (set1RevOff o g), h)
  | OSet2RevOff o => Some (snd (set2RevOff o g), h)
  | OSetQlen n =>
    match setQlen n g h with
    | None => None
    | Some g' => Some (g', h)
    end
  end.

Fixpoint run (ops : list Op) (st : Mgr * Heap) : option (Mgr * Heap) :=
  match ops with
  | [] => Some st
  | op :: ops' =>
    match step op st with
    | None => None
    | Some st' => run ops' st'
    end
  end.

(** ** The read and its mutations *)

Definition foldWith (v : QueryMutation -> Z) (ms : list QueryMutation) (q : list Z)
    : list Z :=
  fold_left (fun q m => <[Z.to_nat (pos m) := v m]> q) ms q.

Lemma foldWith_length v ms : forall q, length (foldWith v ms q) = length q.
Proof.
  induction ms as [|m ms IH]; intros q; cbn; [reflexivity|].
  unfold foldWith in IH. rewrite IH. apply length_insert.
Qed.

Lemma foldWith_agree v ms : forall q q' : list Z,
  length q = length q' ->
  (forall i, untouched ms i -> q !! i = q' !! i) ->
  foldWith v ms q = foldWith v ms q'.
Proof.
  induction ms as [|m ms IH]; intros q q' Hl Ho; cbn.
  - apply list_eq. intros i. apply Ho. intros m [].
  - apply IH.
    + rewrite !length_insert. exact Hl.
    + intros i Hi.
      destruct (decide (Z.to_nat (pos m) = i)) as [Heq|Hne]; [subst i|].
      * destruct (decide (Z.to_nat (pos m) < length q)%nat) as [Hlt|Hge].
        -- rewrite !list_lookup_insert_eq; [reflexivity | lia | lia].
        -- rewrite !list_insert_ge by lia.
           rewrite !(proj2 (lookup_ge_None _ _)); [reflexivity | lia | lia].
      * rewrite !list_lookup_insert_ne by exact Hne.
        apply Ho. intros m' [<-|Hm']; [exact Hne | apply Hi; exact Hm'].
Qed.

(** Rewriting with [v] after rewriting with [w] is rewriting with [v]. *)
Lemma foldWith_absorb v w ms q : foldWith v ms (foldWith w ms q) = foldWith v ms q.
Proof.
  destruct (fold_insert_outside w ms q) as [Hl Ho].
  apply foldWith_agree; [exact Hl | exact Ho].
Qed.

(** A read that holds [v] at every mutation is not changed by writing [v]. *)
Lemma foldWith_id v ms : forall q,
  (forall m, In m ms -> q !! Z.to_nat (pos m) = Some (v m)) ->
  foldWith v ms q = q.
Proof.
  induction ms as [|m ms IH]; intros q H; cbn; [reflexivity|].
  rewrite list_insert_id by (apply H; left; reflexivity).
  apply IH. intros m' Hm'. apply H. right; exact Hm'.
Qed.

Lemma deref_insert h p x : deref (<[p := x]> h) p = x.
Proof. unfold deref. rewrite lookup_insert_eq. reflexivity. Qed.

Lemma deref_insert_ne h p p' x : p <> p' -> deref (<[p := x]> h) p' = deref h p'.
Proof. intros H. unfold deref. rewrite lookup_insert_ne by exact H. reflexivity. Qed.

(** What [applyMutations] and [undoMutations] leave in the read, and that
    they write nowhere else. *)
Lemma rewrite_spec v g h h' :
  rewrite v g h = Some h' ->
  (forall p, g_qry g = Some p ->
     deref h' p = foldWith v (default [] (g_muts g)) (deref h p))
  /\ (forall a, g_qry g <> Some a -> h' !! a = h !! a).
Proof.
  unfold rewrite. intros H.
  destruct (g_muts g) as [[|m ms]|]; cbn [default foldWith fold_left].
  - inversion H; subst. split; [intros; reflexivity | intros; reflexivity].
  - destruct (g_qry g) as [p|]; [|discriminate].
    destruct (inRead (m :: ms) (deref h p)); [|discriminate].
    inversion H; subst. split.
    + intros p' Hp'. inversion Hp'; subst. rewrite deref_insert. reflexivity.
    + intros a Ha. apply lookup_insert_ne. intros <-. apply Ha. reflexivity.
  - inversion H; subst. split; [intros; reflexivity | intros; reflexivity].
Qed.

(** The read the manager points to holds the mutations of the manager. *)
Definition holdsMutations (g : Mgr) (h : Heap) : Prop :=
  forall p, g_qry g = Some p -> applied (configOf g) (deref h p).

Lemma applied_foldWith g ms q :
  g_muts g = Some ms -> applied (configOf g) (foldWith newBase ms q).
Proof.
  intros Hm. unfold applied, configOf. cbn [_muts]. rewrite Hm.
  apply (foldWith_absorb newBase newBase).
Qed.

Lemma applied_none g q : g_muts g = None -> applied (configOf g) q.
Proof. intros Hm. unfold applied, configOf. cbn [_muts]. rewrite Hm. exact I. Qed.

Lemma holds_after_apply g h h' :
  applyMutations g h = Some h' -> holdsMutations g h'.
Proof.
  intros H p Hp. destruct (rewrite_spec _ _ _ _ H) as [H1 _].
  rewrite (H1 p Hp).
  destruct (g_muts g) as [ms|] eqn:Em; cbn [default].
  - apply applied_foldWith. exact Em.
  - apply applied_none. exact Em.
Qed.

Lemma inRead_holds v ms (q : list Z) :
  (forall m, In m ms -> q !! Z.to_nat (pos m) = Some (v m)) -> inRead ms q = true.
Proof.
  intros H. unfold inRead. apply forallb_forall. intros m Hm.
  apply Nat.ltb_lt. apply lookup_lt_is_Some. rewrite (H m Hm). eexists; reflexivity.
Qed.

Lemma inRead_length ms (q q' : list Z) :
  length q = length q' -> inRead ms q = inRead ms q'.
Proof. intros H. unfold inRead. rewrite H. reflexivity. Qed.

Lemma with_muts_back g ms : g_muts g = None -> with_muts None (with_muts ms g) = g.
Proof. destruct g; cbn. intros ->. reflexivity. Qed.

(** X12: [setMuts(ms)] on a manager without mutations, then [setMuts(NULL)],
    hands the read back as it was: when the read held the old base at the
    position of every mutation, it holds the same bases after the second
    call, nothing else in memory has changed, and the manager is the one
    before the first call. *)
Theorem setMuts_round_trip ms g h p :
  g_muts g = None -> g_qry g = Some p ->
  (forall m, In m ms -> deref h p !! Z.to_nat (pos m) = Some (oldBase m)) ->
  exists g1 h1 h2,
    setMuts (Some ms) g h = Some (g1, h1)
    /\ setMuts None g1 h1 = Some (g, h2)
    /\ deref h1 p = foldWith newBase ms (deref h p)
    /\ deref h2 p = deref h p
    /\ forall a, a <> p -> h2 !! a = h !! a.
Proof.
  intros Hm Hq Hold.
  unfold setMuts at 1. unfold undoMutations at 1, rewrite at 1. rewrite Hm.
  cbv zeta. 
  destruct (applyMutations (with_muts (Some ms) g) h) as [h1|] eqn:E1.
  2:{ unfold applyMutations, rewrite in E1. cbn [g_muts g_qry with_muts] in E1.
      rewrite Hq, (inRead_holds oldBase ms _ Hold) in E1.
      destruct ms; discriminate E1. }
  destruct (rewrite_spec _ _ _ _ E1) as [A1 A2].
  cbn [g_muts g_qry with_muts default] in A1, A2.
  exists (with_muts (Some ms) g), h1.
  unfold setMuts. cbv zeta.
  destruct (undoMutations (with_muts (Some ms) g) h1) as [h2|] eqn:E2.
  2:{ unfold undoMutations, rewrite in E2. cbn [g_muts g_qry with_muts] in E2.
      rewrite Hq, (inRead_length ms _ (deref h p)), (inRead_holds oldBase ms _ Hold) in E2
        by (rewrite (A1 p Hq); apply foldWith_length).
      destruct ms; discriminate E2. }
  destruct (rewrite_spec _ _ _ _ E2) as [B1 B2].
  cbn [g_muts g_qry with_muts default] in B1, B2.
  rewrite with_muts_back by exact Hm.
  unfold applyMutations at 1, rewrite at 1. rewrite Hm.
  exists h2. split; [reflexivity|]. split; [reflexivity|].
  split; [exact (A1 p Hq)|]. split.
  - rewrite (B1 p Hq), (A1 p Hq), foldWith_absorb. apply foldWith_id. exact Hold.
  - intros a Ha. rewrite B2, A2; [reflexivity | |]; rewrite Hq; congruence.
Qed.

(** X13: [setQuery] writes to the read it is given and to nothing else.  A
    read the manager pointed to before keeps the mutations that were applied
    to it; the mutations the manager held are undone on the new read, which
    never had them, before the new ones are applied. *)
Theorem setQuery_writes_new_read qry qual name muts g h g' h' :
  setQuery qry qual name muts g h = Some (g', h') ->
  exists p,
    qry = Some p /\ g_qry g' = Some p /\ g_muts g' = muts
    /\ deref h' p
       = foldWith newBase (default [] muts)
           (foldWith oldBase (default [] (g_muts g)) (deref h p))
    /\ forall a, a <> p -> h' !! a = h !! a.
Proof.
  intros H. unfold setQuery in H. cbv zeta in H.
  destruct (undoMutations _ h) as [h1|] eqn:E1; [|discriminate].
  destruct (applyMutations _ h1) as [h2|] eqn:E2; [|discriminate].
  destruct qry as [p|]; [|discriminate].
  inversion H; subst; clear H.
  destruct (rewrite_spec _ _ _ _ E1) as [A1 A2].
  destruct (rewrite_spec _ _ _ _ E2) as [B1 B2].
  cbn [g_muts g_qry with_muts with_query default] in A1, A2, B1, B2.
  exists p. split; [reflexivity|]. split; [reflexivity|]. split; [reflexivity|].
  split.
  - rewrite (B1 p eq_refl), (A1 p eq_refl). reflexivity.
  - intros a Ha. rewrite B2, A2; [reflexivity | |]; congruence.
Qed.

Definition holds (st : Mgr * Heap) : Prop := holdsMutations (fst st) (snd st).

Lemma step_holds op st st' : holds st -> step op st = Some st' -> holds st'.
Proof.
  destruct st as [g h], st' as [g' h']. unfold holds. cbn [fst snd].
  intros Hi H.
  destruct op as [qry qual name muts|muts|u|o|o|n]; cbn [step] in H.
  - unfold setQuery in H. cbv zeta in H.
    destruct (undoMutations _ h) as [h1|]; [|discriminate].
    destruct (applyMutations _ h1) as [h2|] eqn:E; [|discriminate].
    destruct qry as [p|]; [|discriminate].
    inversion H; subst; clear H.
    intros p' Hp'. exact (holds_after_apply _ _ _ E p' Hp').
  - unfold setMuts in H. cbv zeta in H.
    destruct (undoMutations g h) as [h1|]; [|discriminate].
    destruct (applyMutations _ h1) as [h2|] eqn:E; [|discriminate].
    inversion H; subst; clear H.
    exact (holds_after_apply _ _ _ E).
  - inversion H; subst; clear H. exact Hi.
  - inversion H; subst; clear H. exact Hi.
  - inversion H; subst; clear H. exact Hi.
  - unfold setQlen in H. destruct (g_qry g) as [q|] eqn:Eq; [|discriminate].
    inversion H; subst; clear H.
    intros p Hp. cbn [g_qry] in Hp. rewrite Hp in Eq. exact (Hi p Eq).
Qed.

Lemma run_holds ops : forall st st', holds st -> run ops st = Some st' -> holds st'.
Proof.
  induction ops as [|op ops IH]; intros st st' Hi H; cbn [run] in H.
  - inversion H; subst. exact Hi.
  - destruct (step op st) as [st1|] eqn:E; [|discriminate].
    exact (IH st1 st' (step_holds op st st1 Hi E) H).
Qed.

(** X11: after the constructor and any calls of [setQuery], [setMuts],
    [setUnrevOff], [set1RevOff], [set2RevOff] and [setQlen] that follow it,
    the read the manager points to has the mutations of the manager applied:
    writing the new bases once more would not change it.  This is the state
    in which [backtrack] hands the read back. *)
Theorem mutations_applied h u o1 o2 itop ibot qt qw rs muts oneHit hh
    qry qual name g0 h0 ops g h' :
  construct h u o1 o2 itop ibot qt qw rs muts oneHit hh qry qual name
  = Some (g0, h0) ->
  run ops (g0, h0) = Some (g, h') ->
  holdsMutations g h'.
Proof.
  intros Hc Hr.
  assert (H0 : holds (g0, h0)).
  { unfold holds. cbn [fst snd]. unfold construct in Hc. cbv zeta in Hc.
    destruct qry as [p|]; [|inversion Hc; subst; intros p Hp; discriminate Hp].
    destruct (applyMutations _ h) as [h1|] eqn:E; [|discriminate].
    inversion Hc; subst; clear Hc.
    intros p' Hp'. exact (holds_after_apply _ _ _ E p' Hp'). }
  exact (run_holds ops _ _ H0 Hr).
Qed.

(** ** The arenas *)

(** What every call keeps once the constructor was given a read. *)
Definition inUse (cp ce : Z) (st : Mgr * Heap) : Prop :=
  let '(g, h) := st in
  g_pairs g = Some cp /\ g_elims g = Some ce
  /\ g_mms g = Some DEFAULT_SPREAD /\ g_chars g = Some DEFAULT_SPREAD
  /\ exists q, g_qry g = Some q
       /\ g_spread g = wrap32 (Z.of_nat (length (deref h q)))
       /\ g_qlen g <= Z.of_nat (length (deref h q)).

Lemma rewrite_length v g h h' p :
  rewrite v g h = Some h' -> length (deref h' p) = length (deref h p).
Proof.
  intros H. destruct (rewrite_spec _ _ _ _ H) as [H1 H2].
  destruct (decide (g_qry g = Some p)) as [E|E].
  - rewrite (H1 p E). apply foldWith_length.
  - unfold deref. rewrite (H2 p E). reflexivity.
Qed.

Lemma step_inUse cp ce op st st' :
  inUse cp ce st -> step op st = Some st' -> inUse cp ce st'.
Proof.
  destruct st as [g h], st' as [g' h'].
  intros (P & E & Mm & Ch & q & Hq & Hs & Hl) H.
  destruct op as [qry qual name muts|muts|u|o|o|n]; cbn [step] in H.
  - unfold setQuery in H. cbv zeta in H.
    destruct (undoMutations _ h) as [h1|] eqn:E1; [|discriminate].
    destruct (applyMutations _ h1) as [h2|] eqn:E2; [|discriminate].
    destruct qry as [p|]; [|discriminate].
    inversion H; subst; clear H.
    cbn [g_pairs g_elims g_mms g_chars g_qry g_spread g_qlen sized with_muts with_query].
    rewrite P, E.
    split; [reflexivity|]. split; [reflexivity|]. split; [exact Mm|].
    split; [exact Ch|].
    exists p. split; [reflexivity|]. split; [reflexivity | apply Z.le_refl].
  - unfold setMuts in H. cbv zeta in H.
    destruct (undoMutations g h) as [h1|] eqn:E1; [|discriminate].
    destruct (applyMutations _ h1) as [h2|] eqn:E2; [|discriminate].
    inversion H; subst; clear H.
    cbn [g_pairs g_elims g_mms g_chars g_qry g_spread g_qlen with_muts].
    split; [exact P|]. split; [exact E|]. split; [exact Mm|]. split; [exact Ch|].
    exists q. split; [exact Hq|].
    rewrite (rewrite_length _ _ _ _ q E2), (rewrite_length _ _ _ _ q E1).
    split; assumption.
  - inversion H; subst; clear H.
    cbn [setUnrevOff set1RevOff set2RevOff snd inUse g_pairs g_elims g_mms g_chars
         g_qry g_spread g_qlen].
    split; [exact P|]. split; [exact E|]. split; [exact Mm|]. split; [exact Ch|].
    exists q. split; [exact Hq|]. split; [exact Hs | exact Hl].
  - inversion H; subst; clear H.
    cbn [setUnrevOff set1RevOff set2RevOff snd inUse g_pairs g_elims g_mms g_chars
         g_qry g_spread g_qlen].
    split; [exact P|]. split; [exact E|]. split; [exact Mm|]. split; [exact Ch|].
    exists q. split; [exact Hq|]. split; [exact Hs | exact Hl].
  - inversion H; subst; clear H.
    cbn [setUnrevOff set1RevOff set2RevOff snd inUse g_pairs g_elims g_mms g_chars
         g_qry g_spread g_qlen].
    split; [exact P|]. split; [exact E|]. split; [exact Mm|]. split; [exact Ch|].
    exists q. split; [exact Hq|]. split; [exact Hs | exact Hl].
  - unfold setQlen in H. rewrite Hq in H. inversion H; subst; clear H.
    unfold inUse. cbn [g_pairs g_elims g_mms g_chars g_qry g_spread g_qlen].
    split; [exact P|]. split; [exact E|]. split; [exact Mm|]. split; [exact Ch|].
    exists q. split; [reflexivity|]. split; [exact Hs | lia].
Qed.

Lemma run_inUse cp ce ops : forall st st',
  inUse cp ce st -> run ops st = Some st' -> inUse cp ce st'.
Proof.
  induction ops as [|op ops IH]; intros st st' Hi H; cbn [run] in H.
  - inversion H; subst. exact Hi.
  - destruct (step op st) as [st1|] eqn:E; [|discriminate].
    exact (IH st1 st' (step_inUse cp ce op st st1 Hi E) H).
Qed.

(** X14: the arenas are allocated once.  After a constructor that was given
    a read of [n] characters, and through every later call of [setQuery],
    [setMuts], [setUnrevOff], [set1RevOff], [set2RevOff] and [setQlen],
    [_pairs] keeps the [DEFAULT_SPREAD * (n - min(unrevOff, n) + 4) * 8]
    cells and [_elims] the [DEFAULT_SPREAD * (n - min(unrevOff, n) + 4)]
    cells computed from that first read and the first [unrevOff], whatever
    the length of the reads set later; [_mms] and [_chars] keep
    [DEFAULT_SPREAD] cells; [_spread] is the length of the current read and
    [_qlen] does not exceed it. *)
Theorem arenas_allocated_once h u o1 o2 itop ibot qt qw rs muts oneHit hh
    p qual name g0 h0 ops g h' :
  construct h u o1 o2 itop ibot qt qw rs muts oneHit hh (Some p) qual name
  = Some (g0, h0) ->
  run ops (g0, h0) = Some (g, h') ->
  0 <= u -> Z.of_nat (length (deref h p)) <= DEFAULT_SPREAD ->
  let n := Z.of_nat (length (deref h p)) in
  g_pairs g = Some (DEFAULT_SPREAD * (n - Z.min u n + 4) * 8)
  /\ g_elims g = Some (DEFAULT_SPREAD * (n - Z.min u n + 4))
  /\ g_mms g = Some DEFAULT_SPREAD /\ g_chars g = Some DEFAULT_SPREAD
  /\ exists q, g_qry g = Some q
       /\ g_spread g = Z.of_nat (length (deref h' q)) mod U32
       /\ g_qlen g <= Z.of_nat (length (deref h' q)).
Proof.
  intros Hc Hr Hu Hn. cbv zeta.
  set (n := Z.of_nat (length (deref h p))) in *.
  assert (Hi : inUse (DEFAULT_SPREAD * (n - Z.min u n + 4) * 8)
                     (DEFAULT_SPREAD * (n - Z.min u n + 4)) (g0, h0)).
  { unfold construct in Hc. cbv zeta in Hc. fold n in Hc.
    destruct (applyMutations _ h) as [h1|] eqn:E; [|discriminate].
    inversion Hc; subst; clear Hc.
    cbn [inUse g_pairs g_elims g_mms g_chars g_qry g_spread g_qlen sized].
    assert (Hn0 : 0 <= n) by (unfold n; lia).
    assert (Hm : wrap32 (n - Z.min u n + 3 + 1) = n - Z.min u n + 4)
      by (rewrite wrap32_small; unfold U32, DEFAULT_SPREAD in *; lia).
    unfold pairsFor, elimsFor. rewrite Hm.
    rewrite (wrap32_small (DEFAULT_SPREAD * (n - Z.min u n + 4)))
      by (unfold U32, DEFAULT_SPREAD in *; lia).
    rewrite (wrap32_small (DEFAULT_SPREAD * (n - Z.min u n + 4) * 8))
      by (unfold U32, DEFAULT_SPREAD in *; lia).
    split; [reflexivity|]. split; [reflexivity|]. split; [reflexivity|].
    split; [reflexivity|].
    exists p. split; [reflexivity|].
    rewrite (rewrite_length _ _ _ _ p E). fold n.
    split; [reflexivity | lia]. }
  exact (run_inUse _ _ ops _ _ Hi Hr).
Qed.

(** ** The arenas and the search *)

(** What the constructor leaves for a read of at most [DEFAULT_SPREAD]
    characters: arenas sized for the stack of a search on this read. *)
Lemma construct_sizes h u o1 o2 itop ibot qt qw rs muts oneHit hh
    p qual name g h' :
  construct h u o1 o2 itop ibot qt qw rs muts oneHit hh (Some p) qual name
  = Some (g, h') ->
  0 <= u -> 0 < _qlen (configOf g) <= DEFAULT_SPREAD ->
  g_pairs g = Some (DEFAULT_SPREAD * maxStackDepth (configOf g) * 8)
  /\ g_elims g = Some (DEFAULT_SPREAD * maxStackDepth (configOf g))
  /\ _spread (configOf g) = _qlen (configOf g).
Proof.
  intros Hc Hu Hn. unfold construct in Hc. cbv zeta in Hc.
  destruct (applyMutations _ h) as [h1|]; [|discriminate].
  inversion Hc; subst; clear Hc.
  unfold configOf, maxStackDepth in *.
  cbn [_qlen _spread _unrevOff g_qlen g_spread g_unrevOff g_pairs g_elims sized] in *.
  set (n := Z.of_nat (length (deref h p))) in *.
  assert (Hm : wrap32 (n - Z.min u n + 3 + 1) = n - Z.min u n + 3 + 1)
    by (apply wrap32_small; unfold U32, DEFAULT_SPREAD in *; lia).
  unfold pairsFor, elimsFor. rewrite Hm.
  rewrite (wrap32_small (DEFAULT_SPREAD * (n - Z.min u n + 3 + 1)))
    by (unfold U32, DEFAULT_SPREAD in *; lia).
  rewrite (wrap32_small (DEFAULT_SPREAD * (n - Z.min u n + 3 + 1) * 8))
    by (unfold U32, DEFAULT_SPREAD in *; lia).
  split; [reflexivity|]. split; [reflexivity|].
  apply wrap32_small. unfold U32, DEFAULT_SPREAD in *. lia.
Qed.

(** X20: a search on a manager as the constructor leaves it stays inside
    the arenas the constructor allocated: when the constructor was given the
    read, every load and store of the search on [_pairs] and [_elims] is made
    at a stack depth below [_maxStackDepth], in the slices of its frame, and
    at an index below the number of cells allocated.  The search returns
    for the fuel given and, outside half-and-half mode, never divides by
    zero. *)
Theorem fresh_manager_within_arenas ebwt rnd N
    h u o1 o2 itop ibot qt qw rs muts oneHit hh p qual name g h'
    cp ce fuel ham s :
  construct h u o1 o2 itop ibot qt qw rs muts oneHit hh (Some p) qual name
  = Some (g, h') ->
  0 <= u ->
  g_pairs g = Some cp -> g_elims g = Some ce ->
  _qry s = deref h' p ->
  wellFormed ebwt (configOf g) N ham s -> enoughFuel (configOf g) fuel ->
  wp (returning (configOf g)) (backtrack ebwt rnd (configOf g) fuel ham) s
     (fun _ s' => logs (inArenas (configOf g) cp ce) s s').
Proof.
  intros Hc Hu Hcp Hce _ Hwf Hfuel.
  assert (Hq : 0 < _qlen (configOf g) <= _spread (configOf g)) by apply Hwf.
  assert (Hs : _spread (configOf g) <= DEFAULT_SPREAD) by apply Hwf.
  destruct (construct_sizes _ _ _ _ _ _ _ _ _ _ _ _ _ _ _ _ _ Hc Hu ltac:(lia))
    as (Ep & Ee & Es).
  rewrite Hcp in Ep. rewrite Hce in Ee. inversion Ep; subst cp. inversion Ee; subst ce.
  assert (Hm : 4 <= maxStackDepth (configOf g)) by (unfold maxStackDepth; lia).
  eapply wp_mono;
    [apply (backtrack_frame ebwt rnd (configOf g) N _ fuel ham s
              (returning_safe (configOf g))); assumption|].
  intros r s' (d & _ & Hd & HF). cbv beta.
  eapply logs_weaken; [|exact (fr_trace _ _ _ _ _ _ _ _ _ _ _ HF)].
  intros e. apply inStack_inArenas; try assumption; nia.
Qed.

(** ** A manager for the read CCGT, mutated to ACGT *)

Definition heapW : Heap := <[8 := [3; 3; 3; 3; 3; 3]]> (<[7 := [1; 1; 2; 3]]> ∅).
Definition mutsW : option (list QueryMutation) := Some [mkMut 0 1 0].

(** The manager the constructor makes, and the memory it leaves. *)
Definition mgrW (muts : option (list QueryMutation)) : Mgr :=
  mkMgr (Some 7) 4 (Some qualDefault) (Some nameDefault) 4 4 4 0 0 4 4 0 0
        true true (Some 2048) (Some 256) (Some 64) (Some 64) 0 muts false 4 4.
Definition heapW1 : Heap := <[7 := [0; 1; 2; 3]]> heapW.

Lemma construct_W :
  construct heapW 4 4 4 0 0 0 0 0 mutsW true false (Some 7) None None
  = Some (mgrW mutsW, heapW1).
Proof. vm_compute. reflexivity. Qed.

(** The mutations are taken off, and a read of six characters is set. *)
Definition opsW : list Op :=
  [OSetMuts None; OSetQuery (Some 8) None None None; OSetQlen 5].
Definition mgrW2 : Mgr :=
  mkMgr (Some 8) 5 (Some qualDefault) (Some nameDefault) 4 4 4 0 0 6 6 0 0
        true true (Some 2048) (Some 256) (Some 64) (Some 64) 0 None false 4 4.
Definition heapW2 : Heap := <[7 := [1; 1; 2; 3]]> heapW1.

Lemma run_W : run opsW (mgrW mutsW, heapW1) = Some (mgrW2, heapW2).
Proof. vm_compute. reflexivity. Qed.

Lemma mutations_applied_witness : holdsMutations mgrW2 heapW2.
Proof.
  apply (mutations_applied heapW 4 4 4 0 0 0 0 0 mutsW true false (Some 7) None None
           (mgrW mutsW) heapW1 opsW mgrW2 heapW2);
    [exact construct_W | exact run_W].
Defined.

Lemma setMuts_round_trip_witness :
  exists g1 h1 h2,
    setMuts (Some [mkMut 0 1 0]) (mgrW None) heapW = Some (g1, h1)
    /\ setMuts None g1 h1 = Some (mgrW None, h2)
    /\ deref h1 7 = foldWith newBase [mkMut 0 1 0] (deref heapW 7)
    /\ deref h2 7 = deref heapW 7
    /\ forall a, a <> 7 -> h2 !! a = heapW !! a.
Proof.
  apply (setMuts_round_trip [mkMut 0 1 0] (mgrW None) heapW 7);
    [reflexivity | reflexivity|].
  intros m [<-|[]]. vm_compute. reflexivity.
Defined.

Lemma setQuery_W :
  setQuery (Some 8) None None None (mgrW mutsW) heapW1
  = Some (mkMgr (Some 8) 6 (Some qualDefault) (Some nameDefault) 4 4 4 0 0 6 6
                0 0 true true (Some 2048) (Some 256) (Some 64) (Some 64) 0 None
                false 4 4,
          <[8 := [1; 3; 3; 3; 3; 3]]> heapW1).
Proof. vm_compute. reflexivity. Qed.

Lemma setQuery_writes_new_read_witness :
  exists p,
    Some 8 = Some p
    /\ g_qry (mkMgr (Some 8) 6 (Some qualDefault) (Some nameDefault) 4 4 4 0 0
                    6 6 0 0 true true (Some 2048) (Some 256) (Some 64) (Some 64)
                    0 None false 4 4) = Some p
    /\ g_muts (mkMgr (Some 8) 6 (Some qualDefault) (Some nameDefault) 4 4 4 0 0
                     6 6 0 0 true true (Some 2048) (Some 256) (Some 64) (Some 64)
                     0 None false 4 4) = None
    /\ deref (<[8 := [1; 3; 3; 3; 3; 3]]> heapW1) p
       = foldWith newBase (default [] None)
           (foldWith oldBase (default [] (g_muts (mgrW mutsW))) (deref heapW1 p))
    /\ forall a, a <> p -> (<[8 := [1; 3; 3; 3; 3; 3]]> heapW1) !! a = heapW1 !! a.
Proof.
  apply (setQuery_writes_new_read (Some 8) None None None (mgrW mutsW) heapW1).
  exact setQuery_W.
Defined.

Lemma arenas_allocated_once_witness :
  let n := Z.of_nat (length (deref heapW 7)) in
  g_pairs mgrW2 = Some (DEFAULT_SPREAD * (n - Z.min 4 n + 4) * 8)
  /\ g_elims mgrW2 = Some (DEFAULT_SPREAD * (n - Z.min 4 n + 4))
  /\ g_mms mgrW2 = Some DEFAULT_SPREAD /\ g_chars mgrW2 = Some DEFAULT_SPREAD
  /\ exists q, g_qry mgrW2 = Some q
       /\ g_spread mgrW2 = Z.of_nat (length (deref heapW2 q)) mod U32
       /\ g_qlen mgrW2 <= Z.of_nat (length (deref heapW2 q)).
Proof.
  apply (arenas_allocated_once heapW 4 4 4 0 0 0 0 0 mutsW true false 7 None None
           (mgrW mutsW) heapW1 opsW mgrW2 heapW2);
    [exact construct_W | exact run_W | lia | vm_compute; congruence].
Defined.

Lemma fresh_manager_within_arenas_witness :
  wp (returning (configOf (mgrW mutsW)))
     (backtrack ebwtA rnd0 (configOf (mgrW mutsW)) 8 0) (st0 [0; 1; 2; 3])
     (fun _ s' =>
        logs (inArenas (configOf (mgrW mutsW)) 2048 256) (st0 [0; 1; 2; 3]) s').
Proof.
  apply (fresh_manager_within_arenas ebwtA rnd0 5 heapW 4 4 4 0 0 0 0 0 mutsW
           true false 7 None None (mgrW mutsW) heapW1 2048 256 8 0
           (st0 [0; 1; 2; 3]));
    [exact construct_W | lia | reflexivity | reflexivity
    | vm_compute; reflexivity | | apply enoughFuel_8; reflexivity].
  constructor; try (vm_compute; intuition congruence).
  - exact indexOK_A.
  - split; [vm_compute; reflexivity|]. apply four_bases. vm_compute. reflexivity.
Defined.

(** ** A manager given a longer read *)

(** A manager is built for the read A, with the one character unrevisitable,
    and then given a read of 64 characters, all of quality 0, that matches
    a text of 64 A but for the four characters before its last. *)
Definition readV1 : list Z := [0].
Definition readV2 : list Z := repeat 0 59 ++ [1; 1; 1; 1; 0].
Definition qualV : list Z := repeat 33 64.
Definition heapV : Heap := <[2 := readV2]> (<[1 := readV1]> ∅).
Definition textV : list Z := repeat 0 64.
Definition ebwtV : Ebwt := naiveEbwt textV 10 (fun _ _ => true).

Definition mgrV1 : Mgr :=
  mkMgr (Some 1) 1 (Some qualDefault) (Some nameDefault) 1 1 1 0 0 1 4 0 0
        true true (Some 2048) (Some 256) (Some 64) (Some 64) 0 None false 1 1.
Definition mgrV : Mgr :=
  mkMgr (Some 2) 64 (Some qualV) (Some nameDefault) 1 1 1 0 0 64 67 0 0
        true true (Some 2048) (Some 256) (Some 64) (Some 64) 0 None false 1 1.

(** The trace holds an access of the frame [k] to the cell [a]. *)
Definition accessed (ar : Arena) (k a : Z) (e : Event) : bool :=
  match e, ar with
  | EvAccess APairs k' a', APairs => (k' =? k) && (a' =? a)
  | EvAccess AElims k' a', AElims => (k' =? k) && (a' =? a)
  | _, _ => false
  end.

Lemma accessed_In ar k a tr :
  existsb (accessed ar k a) tr = true -> In (EvAccess ar k a) tr.
Proof.
  intros H. apply existsb_exists in H. destruct H as (e & He & Ha).
  destruct e as [[|] k' a'|]; destruct ar; cbn [accessed] in Ha;
    try discriminate Ha;
    apply andb_true_iff in Ha; destruct Ha as [Hk Hx];
    apply Z.eqb_eq in Hk, Hx; subst; exact He.
Qed.

Lemma overflow_of_run (r : Res bool) :
  match r with
  | Ok b s' =>
    b = true
    /\ existsb (accessed APairs 4 2559) (trace s') = true
    /\ existsb (accessed AElims 4 319) (trace s') = true
  | _ => False
  end ->
  exists s', r = Ok true s'
             /\ In (EvAccess APairs 4 2559) (trace s')
             /\ In (EvAccess AElims 4 319) (trace s').
Proof.
  destruct r as [b s'| |]; [|intros []|intros []].
  intros (-> & Hp & He). exists s'. split; [reflexivity|].
  split; apply accessed_In; assumption.
Qed.

Lemma indexOK_V : indexOK ebwtV 65.
Proof.
  apply checkIndex_sound; [vm_compute; reflexivity|].
  intros k H. cbn in H. lia.
Qed.

Lemma wellFormed_V : wellFormed ebwtV (configOf mgrV) 65 0 (st0 readV2).
Proof.
  constructor.
  - exact indexOK_V.
  - vm_compute. intuition congruence.
  - vm_compute. congruence.
  - vm_compute. intuition congruence.
  - vm_compute. congruence.
  - unfold ebwtV, naiveEbwt. cbn [_ftabChars]. lia.
  - vm_compute. intuition congruence.
  - split; [exact I|]. intros k Hk.
    assert (Hin : In k (upto 64 0)) by (apply upto_In_iff; exact Hk).
    assert (Hall : forallb (fun k => (0 <=? nthZ readV2 k) && (nthZ readV2 k <? 4))
                           (upto 64 0) = true) by (vm_compute; reflexivity).
    rewrite forallb_forall in Hall. specialize (Hall k Hin).
    apply andb_true_iff in Hall. destruct Hall as [Ha Hb].
    apply Z.leb_le in Ha. apply Z.ltb_lt in Hb.
    change (_qry (st0 readV2)) with readV2. lia.
Qed.

(** C7: the arenas are sized once.  The constructor allocates [_pairs] and
    [_elims] for the read it is given (2048 and 256 cells for the read A);
    [setQuery] computes [_maxStackDepth] anew for the read of 64 characters
    (67) but allocates only when the arenas are [NULL], so they keep their
    cells.  The search on the second read, which is well-formed and returns
    a hit, stacks five frames of [spread * 8 = 512] and [spread = 64] cells:
    the frame at stack depth 4 reads and writes [pairs[2559]] and
    [elims[319]], outside the arenas. *)
Theorem search_overflows_arenas :
  construct heapV 1 1 1 0 0 0 0 0 None true false (Some 1) None None
  = Some (mgrV1, heapV)
  /\ setQuery (Some 2) (Some qualV) None None mgrV1 heapV = Some (mgrV, heapV)
  /\ g_pairs mgrV = Some 2048 /\ g_elims mgrV = Some 256
  /\ g_maxStackDepth mgrV = 67
  /\ deref heapV 2 = readV2
  /\ wellFormed ebwtV (configOf mgrV) 65 0 (st0 readV2)
  /\ enoughFuel (configOf mgrV) 66
  /\ exists s',
       backtrack ebwtV rnd0 (configOf mgrV) 66 0 (st0 readV2) = Ok true s'
       /\ In (EvAccess APairs 4 2559) (trace s')
       /\ In (EvAccess AElims 4 319) (trace s').
Proof.
  split; [vm_compute; reflexivity|]. split; [vm_compute; reflexivity|].
  split; [reflexivity|]. split; [reflexivity|]. split; [reflexivity|].
  split; [vm_compute; reflexivity|]. split; [exact wellFormed_V|].
  split; [unfold enoughFuel; vm_compute; lia|].
  apply overflow_of_run. vm_compute. repeat split.
Qed.

End Manager.

(** * The naive oracle

    [naiveOracle] of [ebwt_search_backtrack.h]: the search by brute force
    over the reference texts that a debug build compares a search with.  A
    text is the list of its characters; the mismatch bit vector of a hit is
    an integer read bit by bit, of [max_read_bp] bits, a constant of the
    program.  A string is only ever read inside its bounds when the read and
    the qualities hold [qlen] characters, which the results below ask for;
    [nthZ] reads 0 elsewhere. *)

Module Oracle.

Import Backtracker.

(** What the oracle puts into a [Hit]: the text, the offset in it, the
    orientation and the mismatch bit vector.  (The read, its name, its
    qualities and its id are copied into the hit as they are.) *)
Record OracleHit := mkOracleHit {
  oh_text : Z;
  oh_off : Z;
  oh_fw : bool;
  oh_diffs : Z
}.

(** What a step of the oracle comes to: it goes on with a value, it gives
    the alignment up ([success = false; break]), or [bitset::set] throws
    [out_of_range]. *)
Inductive Out (A : Type) : Type :=
| Done (a : A)
| Break
| Throws.

Arguments Done {A} a.
Arguments Break {A}.
Arguments Throws {A}.

(** A value cast to [int]. *)
Definition toInt (x : Z) : Z := (x + 2147483648) mod U32 - 2147483648.

Section NaiveOracle.

Variable max_read_bp : Z.
Variable qry : list Z.
Variable qlen : Z.
Variable qual : list Z.
Variable qualThresh : Z.
Variable unrevOff : Z.
Variable oneRevOff : Z.
Variable twoRevOff : Z.
Variable fw : bool.
Variable ebwtFw : bool.
Variable iham : Z.
Variable muts : option (list QueryMutation).
Variable halfAndHalf : bool.

Definition QUAL2 (k : Z) : Z := qualOf (nthZ qual k).

Definition fivePrimeOnLeft : bool := Bool.eqb ebwtFw fw.

(** [diffs.set(p)], which throws when [p] is not a position of the bit
    vector. *)
Definition set (d p : Z) : option Z :=
  if p <? max_read_bp then Some (Z.setbit d p) else None.

(** The bit of [diffs] that stands for the position [k] of the read:
    [k], or [plen - k - 1] in unsigned arithmetic. *)
Definition bitOf (k : Z) : Z :=
  if fivePrimeOnLeft then k else wrap32 (qlen - k - 1).

(** The state of the loop over the columns of one alignment. *)
Record Cols := mkCols {
  rev1mm : Z;
  rev2mm : Z;
  c_ham : Z;
  diffs : Z
}.

(** One column, compared with the character [ostr[ok]] of the text. *)
Definition column (ostr : list Z) (k ok : Z) (c : Cols) : Out Cols :=
  let kr := wrap32 (qlen - 1 - k) in
  if negb (nthZ qry k =? nthZ ostr ok) then
    let ham := wrap32 (c_ham c + QUAL2 k) in
    if qualThresh <? ham then Break
    else if kr <? unrevOff then Break
    else
      match (if kr <? oneRevOff then
               let r1 := rev1mm c + 1 in
               if (1 <? r1) && negb halfAndHalf then None
               else Some (r1, rev2mm c)
             else if kr <? twoRevOff then
               let r2 := rev2mm c + 1 in
               if (2 <? r2) && negb halfAndHalf then None
               else Some (rev1mm c, r2)
             else Some (rev1mm c, rev2mm c)) with
      | None => Break
      | Some (r1, r2) =>
        if halfAndHalf && ((1 <? r1) || (1 <? r2)) then Break
        else
          match set (diffs c) (bitOf k) with
          | Some d => Done (mkCols r1 r2 ham d)
          | None => Throws
          end
      end
  else Done c.

(** [for(int k = (int)plen-1; k >= 0; k--) { ...; ok += okInc; }]; [n] is
    the number of columns left. *)
Fixpoint columns (ostr : list Z) (n : nat) (k ok okInc : Z) (c : Cols)
    : Out Cols :=
  match n with
  | O => Done c
  | S n' =>
    match column ostr k ok c with
    | Done c' => columns ostr n' (k - 1) (ok + okInc) okInc c'
    | Break => Break
    | Throws => Throws
    end
  end.

(** The loop over [*muts] that adds the mutated positions to [diffs]. *)
Fixpoint addMuts (ms : list QueryMutation) (d : Z) : option Z :=
  match ms with
  | [] => Some d
  | m :: ms' =>
    match set d (bitOf (pos m)) with
    | Some d' => addMuts ms' d'
    | None => None
    end
  end.

(** The alignment of the read at [j] in the text [i]: the hit it makes, if
    it makes one. *)
Definition align (i : Z) (ostr : list Z) (j : Z) : Out OracleHit :=
  let olen := wrap32 (Z.of_nat (length ostr)) in
  let plen := toInt qlen in
  let ok := if ebwtFw then toInt (j + plen - 1)
            else toInt (olen - (j + (plen - 1)) - 1) in
  let okInc := if ebwtFw then -1 else 1 in
  match columns ostr (Z.to_nat plen) (plen - 1) ok okInc (mkCols 0 0 iham 0) with
  | Break => Break
  | Throws => Throws
  | Done c =>
    if halfAndHalf && (negb (rev1mm c =? 1) || negb (rev2mm c =? 1)) then Break
    else
      let off := if ebwtFw then wrap32 j
                 else wrap32 (wrap32 (olen - wrap32 j) - qlen) in
      match (match muts with
             | None => Some (diffs c)
             | Some ms => addMuts ms (diffs c)
             end) with
      | Some d => Done (mkOracleHit i off fw d)
      | None => Throws
      end
  end.

(** [for(size_t j = 0; j <= olen - plen; j++)], with [n] alignments left:
    the vector [hits] at the end, or [None] when [set] threw. *)
Fixpoint alignFrom (i : Z) (ostr : list Z) (n : nat) (j : Z)
    (hits : list OracleHit) : option (list OracleHit) :=
  match n with
  | O => Some hits
  | S n' =>
    match align i ostr j with
    | Done h => alignFrom i ostr n' (j + 1) (hits ++ [h])
    | Break => alignFrom i ostr n' (j + 1) hits
    | Throws => None
    end
  end.

(** The alignments of the read in one text. *)
Definition alignText (i : Z) (ostr : list Z) (hits : list OracleHit)
    : option (list OracleHit) :=
  if Z.of_nat (length ostr) <? qlen then Some hits
  else
    let olen := wrap32 (Z.of_nat (length ostr)) in
    alignFrom i ostr (Z.to_nat (wrap32 (olen - qlen) + 1)) 0 hits.

Fixpoint overTexts (os : list (list Z)) (i : Z) (hits : list OracleHit)
    : option (list OracleHit) :=
  match os with
  | [] => Some hits
  | ostr :: os' =>
    match alignText i ostr hits with
    | Some hits' => overTexts os' (i + 1) hits'
    | None => None
    end
  end.

(** [naiveOracle(os, qry, qlen, qual, name, patid, hits, ...)]: the vector
    [hits] after the call, or [None] when the call ends in an exception. *)
Definition naiveOracle (os : list (list Z)) (hits : list OracleHit)
    : option (list OracleHit) :=
  overTexts os 0 hits.

(** *** Which alignments the oracle accepts *)

(** The column [k] of the alignment at [j] lies over this character of the
    text. *)
Definition under (ostr : list Z) (j k : Z) : Z :=
  if ebwtFw then j + k else Z.of_nat (length ostr) - j - 1 - k.

Definition mismatch (ostr : list Z) (j k : Z) : bool :=
  negb (nthZ qry k =? nthZ ostr (under ostr j k)).

(** The columns that mismatch, from the 3' end ([k = qlen - 1]) on. *)
Definition mismatches (ostr : list Z) (j : Z) : list Z :=
  List.filter (mismatch ostr j)
         (map (fun d => qlen - 1 - d) (upto (Z.to_nat qlen) 0)).

Definition inRev1 (k : Z) : bool := qlen - 1 - k <? oneRevOff.
Definition inRev2 (k : Z) : bool :=
  negb (qlen - 1 - k <? oneRevOff) && (qlen - 1 - k <? twoRevOff).

Definition count (f : Z -> bool) (ks : list Z) : Z :=
  Z.of_nat (length (List.filter f ks)).

(** The alignment is within the budget, has no mismatch in the
    unrevisitable region, and has the mismatches the regions allow: at
    most one in the first and two in the second, or, in half-and-half
    mode, exactly one in each. *)
Definition accepted (ks : list Z) : Prop :=
  iham + sumRows QUAL2 ks <= qualThresh
  /\ (forall k, In k ks -> unrevOff <= qlen - 1 - k)
  /\ (if halfAndHalf
      then count inRev1 ks = 1 /\ count inRev2 ks = 1
      else count inRev1 ks <= 1 /\ count inRev2 ks <= 2).

Definition setBits (ks : list Z) (d : Z) : Z :=
  fold_left (fun d k => Z.setbit d (bitOf k)) ks d.

Definition mutBits (d : Z) : Z :=
  match muts with
  | None => d
  | Some ms => setBits (map pos ms) d
  end.

(** The offset of the alignment at [j], as the hit gives it. *)
Definition offsetOf (ostr : list Z) (j : Z) : Z :=
  if ebwtFw then j else Z.of_nat (length ostr) - j - qlen.

(** The hit of the alignment at [j] in the text [i]. *)
Definition hitOf (i : Z) (ostr : list Z) (j : Z) : OracleHit :=
  mkOracleHit i (offsetOf ostr j) fw
              (mutBits (setBits (mismatches ostr j) 0)).

Lemma toInt_small x : -2147483648 <= x < 2147483648 -> toInt x = x.
Proof.
  intros H. unfold toInt, U32. rewrite Z.mod_small by lia. lia.
Qed.

Lemma qualOf_range x : 0 <= qualOf x <= 222.
Proof.
  unfold qualOf. cbv zeta.
  assert (Hr : 0 <= wrap8 x < 256) by (unfold wrap8; apply Z.mod_pos_bound; lia).
  destruct (33 <=? wrap8 x) eqn:E; [apply Z.leb_le in E|]; lia.
Qed.

Lemma sumQ_nonneg ks : 0 <= sumRows QUAL2 ks.
Proof.
  induction ks as [|k ks IH]; cbn [sumRows]; [lia|].
  pose proof (qualOf_range (nthZ qual k)). unfold QUAL2 at 1. lia.
Qed.

Lemma count_nonneg f ks : 0 <= count f ks.
Proof. unfold count. lia. Qed.

Lemma count_cons f k ks :
  count f (k :: ks) = (if f k then 1 else 0) + count f ks.
Proof.
  unfold count. cbn [List.filter]. destruct (f k); cbn [length]; lia.
Qed.

(** The columns still to come in the loop, [n] of them from [k] down, the
    first of them over [ostr[ok]]. *)
Fixpoint ahead (ostr : list Z) (n : nat) (k ok okInc : Z) : list Z :=
  match n with
  | O => []
  | S n' =>
    (if negb (nthZ qry k =? nthZ ostr ok) then [k] else [])
    ++ ahead ostr n' (k - 1) (ok + okInc) okInc
  end.

Definition lim2 : Z := if halfAndHalf then 1 else 2.

(** What the loop lets through, from the state [c]. *)
Definition passes (c : Cols) (ks : list Z) : Prop :=
  c_ham c + sumRows QUAL2 ks <= qualThresh
  /\ (forall x, In x ks -> unrevOff <= qlen - 1 - x)
  /\ rev1mm c + count inRev1 ks <= 1
  /\ rev2mm c + count inRev2 ks <= lim2.

Hypothesis qlen_bits : qlen <= max_read_bp.
Hypothesis qlen_int : 0 <= qlen < 2147483648.
Hypothesis thresh_u32 : qualThresh + 255 < U32.

Lemma set_in_range d k : 0 <= k < qlen -> set d (bitOf k) = Some (Z.setbit d (bitOf k)).
Proof.
  intros Hk. unfold set.
  assert (Hb : bitOf k < max_read_bp).
  { unfold bitOf. destruct fivePrimeOnLeft; [lia|].
    rewrite wrap32_small by (unfold U32; lia). lia. }
  apply Z.ltb_lt in Hb. rewrite Hb. reflexivity.
Qed.

(** What the loop decides, from any state it can be in. *)
Lemma columns_spec ostr n : forall k ok okInc c,
  Z.of_nat n = k + 1 -> k < qlen ->
  0 <= c_ham c <= qualThresh ->
  0 <= rev1mm c <= 1 -> 0 <= rev2mm c <= lim2 ->
  let ks := ahead ostr n k ok okInc in
  (passes c ks
   /\ columns ostr n k ok okInc c
      = Done (mkCols (rev1mm c + count inRev1 ks) (rev2mm c + count inRev2 ks)
                     (c_ham c + sumRows QUAL2 ks) (setBits ks (diffs c))))
  \/ (~ passes c ks /\ columns ostr n k ok okInc c = Break).
Proof.
  induction n as [|n IH]; intros k ok okInc c Hn Hk Hh H1 H2; cbv zeta.
  - cbn [ahead columns sumRows]. left. unfold passes, count.
    cbn [sumRows List.filter length setBits fold_left].
    rewrite !Z.add_0_r. split; [|destruct c; reflexivity].
    split; [lia|]. split; [intros x []|]. split; lia.
  - cbn [ahead columns]. unfold column. cbv zeta.
    destruct (negb (nthZ qry k =? nthZ ostr ok)) eqn:Emm; cbn [app].
    2:{ apply (IH (k - 1) (ok + okInc) okInc c); [lia | lia | exact Hh | exact H1 | exact H2]. }
    pose proof (qualOf_range (nthZ qual k)) as Hq. fold (QUAL2 k) in Hq.
    set (ks := ahead ostr n (k - 1) (ok + okInc) okInc).
    pose proof (sumQ_nonneg ks) as Hs.
    pose proof (count_nonneg inRev1 ks) as Hc1.
    pose proof (count_nonneg inRev2 ks) as Hc2.
    unfold passes. rewrite !count_cons. cbn [sumRows].
    rewrite (wrap32_small (c_ham c + QUAL2 k)) by lia.
    rewrite (wrap32_small (qlen - 1 - k)) by (unfold U32; lia).
    destruct (Z.ltb_spec qualThresh (c_ham c + QUAL2 k)) as [Lh|Lh].
    { right. split; [intros (A & _); lia | reflexivity]. }
    destruct (Z.ltb_spec (qlen - 1 - k) unrevOff) as [Lu|Lu].
    { right. split; [|reflexivity].
      intros (_ & A & _). specialize (A k (or_introl eq_refl)). lia. }
    assert (Hin : forall P : Z -> Prop,
              (forall x, In x (k :: ks) -> P x) <-> (P k /\ forall x, In x ks -> P x)).
    { intros P. split.
      - intros H. split; [apply H; left; reflexivity | intros x Hx; apply H; right; exact Hx].
      - intros [Hk' Hr] x [<-|Hx]; [exact Hk' | apply Hr, Hx]. }
    rewrite (set_in_range (diffs c) k) by lia.
    (* what remains once the column has been let through with [r1], [r2] *)
    assert (Hgo : forall r1 r2 a1 a2,
              0 <= r1 <= 1 -> 0 <= r2 <= lim2 ->
              r1 = rev1mm c + a1 -> r2 = rev2mm c + a2 ->
              let c1 := mkCols r1 r2 (c_ham c + QUAL2 k) (Z.setbit (diffs c) (bitOf k)) in
              let good :=
                c_ham c + (QUAL2 k + sumRows QUAL2 ks) <= qualThresh
                /\ (forall x, In x (k :: ks) -> unrevOff <= qlen - 1 - x)
                /\ rev1mm c + (a1 + count inRev1 ks) <= 1
                /\ rev2mm c + (a2 + count inRev2 ks) <= lim2 in
              (good
               /\ columns ostr n (k - 1) (ok + okInc) okInc c1
                  = Done (mkCols (rev1mm c + (a1 + count inRev1 ks))
                                 (rev2mm c + (a2 + count inRev2 ks))
                                 (c_ham c + (QUAL2 k + sumRows QUAL2 ks))
                                 (setBits (k :: ks) (diffs c))))
              \/ (~ good /\ columns ostr n (k - 1) (ok + okInc) okInc c1 = Break)).
    { intros r1 r2 a1 a2 Hr1 Hr2 E1 E2. cbv zeta.
      destruct (IH (k - 1) (ok + okInc) okInc
                   (mkCols r1 r2 (c_ham c + QUAL2 k) (Z.setbit (diffs c) (bitOf k))))
        as [[P E]|[P E]]; cbn [c_ham rev1mm rev2mm diffs]; try lia;
        unfold passes in P; cbn [c_ham rev1mm rev2mm diffs] in P, E; fold ks in P, E.
      - left. destruct P as (A & B & C & D). split.
        + split; [lia|]. split; [apply Hin; split; [lia | exact B]|]. split; lia.
        + rewrite E. cbn [setBits fold_left]. f_equal. f_equal; lia.
      - right. split; [|exact E]. intros (A & B & C & D). apply P.
        apply Hin in B. destruct B as [_ B].
        split; [lia|]. split; [exact B|]. split; lia. }
    cbv zeta in Hgo.
    destruct (Z.ltb_spec (qlen - 1 - k) oneRevOff) as [L1|L1]; cbn [negb andb].
    + (* the 1-revisitable region *)
      assert (E1 : inRev1 k = true) by (unfold inRev1; apply Z.ltb_lt; lia).
      assert (E2 : inRev2 k = false).
      { unfold inRev2. apply andb_false_iff. left. apply negb_false_iff, Z.ltb_lt. lia. }
      rewrite E1, E2.
      destruct (Z.ltb_spec 1 (rev1mm c + 1)) as [G|G].
      { right. split; [intros (_ & _ & A & _); lia|].
        assert (Hg : (1 <? rev1mm c + 1) = true) by (apply Z.ltb_lt; lia).
        destruct halfAndHalf; cbn [negb andb orb]; cbv beta iota; rewrite ?Hg;
          reflexivity. }
      cbn [andb]. cbv beta iota.
      assert (Hr2 : (halfAndHalf && ((1 <? rev1mm c + 1) || (1 <? rev2mm c))) = false).
      { unfold lim2 in H2. destruct halfAndHalf; [|reflexivity]. cbn [andb].
        apply orb_false_iff. split; apply Z.ltb_ge; lia. }
      rewrite Hr2.
      apply (Hgo (rev1mm c + 1) (rev2mm c) 1 0); lia.
    + destruct (Z.ltb_spec (qlen - 1 - k) twoRevOff) as [L2|L2]; cbn [negb andb].
      * (* the 2-revisitable region *)
        assert (E1 : inRev1 k = false) by (unfold inRev1; apply Z.ltb_ge; lia).
        assert (E2 : inRev2 k = true).
        { unfold inRev2. apply andb_true_iff. split;
            [apply negb_true_iff, Z.ltb_ge | apply Z.ltb_lt]; lia. }
        rewrite E1, E2.
        destruct (Z.ltb_spec lim2 (rev2mm c + 1)) as [G|G].
        { right. split; [intros (_ & _ & _ & A); lia|].
          unfold lim2 in *.
          destruct halfAndHalf; cbn [negb andb orb]; cbv beta iota.
          - assert (Hg : (1 <? rev2mm c + 1) = true) by (apply Z.ltb_lt; lia).
            rewrite andb_false_r. cbv beta iota. cbn [andb].
            rewrite Hg, orb_true_r. reflexivity.
          - assert (Hg : (2 <? rev2mm c + 1) = true) by (apply Z.ltb_lt; lia).
            rewrite Hg. reflexivity. }
        assert (Hn' : ((2 <? rev2mm c + 1) && negb halfAndHalf) = false).
        { unfold lim2 in G. destruct halfAndHalf; [apply andb_false_r|].
          cbn [negb]. rewrite andb_true_r. apply Z.ltb_ge. lia. }
        rewrite Hn'. cbv beta iota.
        assert (Hr : (halfAndHalf && ((1 <? rev1mm c) || (1 <? rev2mm c + 1))) = false).
        { unfold lim2 in G. destruct halfAndHalf; [|reflexivity]. cbn [andb].
          apply orb_false_iff. split; apply Z.ltb_ge; lia. }
        rewrite Hr.
        apply (Hgo (rev1mm c) (rev2mm c + 1) 0 1); lia.
      * (* beyond the regions *)
        assert (E1 : inRev1 k = false) by (unfold inRev1; apply Z.ltb_ge; lia).
        assert (E2 : inRev2 k = false).
        { unfold inRev2. apply andb_false_iff. right. apply Z.ltb_ge. lia. }
        rewrite E1, E2.
        cbv beta iota.
        assert (Hr : (halfAndHalf && ((1 <? rev1mm c) || (1 <? rev2mm c))) = false).
        { unfold lim2 in H2. destruct halfAndHalf; [|reflexivity]. cbn [andb].
          apply orb_false_iff. split; apply Z.ltb_ge; lia. }
        rewrite Hr.
        apply (Hgo (rev1mm c) (rev2mm c) 0 0); lia.
Qed.

(** The columns the loop of an alignment at [j] stops at are the
    mismatches of the alignment. *)
Lemma ahead_mismatches ostr j n : forall k,
  ahead ostr n k (under ostr j k) (if ebwtFw then -1 else 1)
  = List.filter (mismatch ostr j)
      (map (fun d => qlen - 1 - d) (upto n (qlen - 1 - k))).
Proof.
  induction n as [|n IH]; intros k; cbn [ahead upto map List.filter];
    [reflexivity|].
  replace (qlen - 1 - (qlen - 1 - k)) with k by lia.
  replace (qlen - 1 - k + 1) with (qlen - 1 - (k - 1)) by lia.
  rewrite <- IH. unfold mismatch at 1.
  replace (under ostr j k + (if ebwtFw then -1 else 1)) with (under ostr j (k - 1))
    by (unfold under; destruct ebwtFw; lia).
  destruct (negb (nthZ qry k =? nthZ ostr (under ostr j k))); reflexivity.
Qed.

Lemma addMuts_in_range ms : forall d,
  Forall (fun m => 0 <= pos m < qlen) ms ->
  addMuts ms d = Some (setBits (map pos ms) d).
Proof.
  induction ms as [|m ms IH]; intros d H; cbn [addMuts map setBits fold_left];
    [reflexivity|].
  inversion H as [|? ? Hm Hms]; subst.
  rewrite (set_in_range d (pos m) Hm). apply IH, Hms.
Qed.

(** The mutations lie in the read. *)
Definition mutsInRead : Prop :=
  match muts with
  | None => True
  | Some ms => Forall (fun m => 0 <= pos m < qlen) ms
  end.

Hypothesis iham_budget : 0 <= iham <= qualThresh.
Hypothesis muts_in_read : mutsInRead.

(** One alignment: a hit when the policy accepts its mismatches, and given
    up otherwise. *)
Lemma align_spec i ostr j :
  Z.of_nat (length ostr) < 2147483648 ->
  0 <= j -> j + qlen <= Z.of_nat (length ostr) ->
  (accepted (mismatches ostr j) /\ align i ostr j = Done (hitOf i ostr j))
  \/ (~ accepted (mismatches ostr j) /\ align i ostr j = Break).
Proof.
  intros Hl Hj Hfit. unfold align. cbv zeta.
  rewrite (toInt_small qlen) by lia.
  rewrite (wrap32_small (Z.of_nat (length ostr))) by (unfold U32; lia).
  assert (Hok : (if ebwtFw then toInt (j + qlen - 1)
                 else toInt (Z.of_nat (length ostr) - (j + (qlen - 1)) - 1))
                = under ostr j (qlen - 1)).
  { unfold under. destruct ebwtFw; rewrite toInt_small by lia; lia. }
  rewrite Hok.
  pose proof (count_nonneg inRev1 (mismatches ostr j)) as Hc1.
  pose proof (count_nonneg inRev2 (mismatches ostr j)) as Hc2.
  assert (Hl2 : 1 <= lim2 <= 2) by (unfold lim2; destruct halfAndHalf; lia).
  destruct (columns_spec ostr (Z.to_nat qlen) (qlen - 1) (under ostr j (qlen - 1))
              (if ebwtFw then -1 else 1) (mkCols 0 0 iham 0))
    as [[P E]|[P E]]; cbn [c_ham rev1mm rev2mm diffs]; try lia;
    rewrite ahead_mismatches in P; rewrite ?ahead_mismatches in E;
    replace (qlen - 1 - (qlen - 1)) with 0 in P by lia;
    rewrite ?Z.sub_diag in E;
    fold (mismatches ostr j) in P, E; unfold passes in P;
    cbn [c_ham rev1mm rev2mm diffs] in P, E; rewrite E.
  2:{ right. split; [|reflexivity]. intros (A & B & C). apply P.
      split; [exact A|]. split; [exact B|]. unfold lim2.
      destruct halfAndHalf; lia. }
  destruct P as (A & B & C & D). cbn [rev1mm rev2mm diffs].
  rewrite !Z.add_0_l.
  assert (Hhit : (match (match muts with
                         | Some ms => addMuts ms (setBits (mismatches ostr j) 0)
                         | None => Some (setBits (mismatches ostr j) 0)
                         end) with
                  | Some d =>
                    Done (mkOracleHit i
                            (if ebwtFw then wrap32 j
                             else wrap32 (wrap32 (Z.of_nat (length ostr) - wrap32 j) - qlen))
                            fw d)
                  | None => Throws
                  end) = Done (hitOf i ostr j)).
  { unfold hitOf, mutBits, offsetOf. unfold mutsInRead in muts_in_read.
    rewrite (wrap32_small j) by (unfold U32; lia).
    rewrite (wrap32_small (Z.of_nat (length ostr) - j)) by (unfold U32; lia).
    rewrite (wrap32_small (Z.of_nat (length ostr) - j - qlen)) by (unfold U32; lia).
    destruct muts as [ms|]; [rewrite (addMuts_in_range ms _ muts_in_read)|];
      reflexivity. }
  unfold accepted, lim2 in *.
  destruct halfAndHalf; cbn [andb].
  - destruct (Z.eqb_spec (count inRev1 (mismatches ostr j)) 1) as [G1|G1];
      cbn [negb orb].
    + destruct (Z.eqb_spec (count inRev2 (mismatches ostr j)) 1) as [G2|G2];
        cbn [negb].
      * left. split; [|exact Hhit]. split; [exact A|]. split; [exact B|].
        split; assumption.
      * right. split; [|reflexivity]. intros (_ & _ & _ & X). contradiction.
    + right. split; [|reflexivity]. intros (_ & _ & X & _). contradiction.
  - left. split; [|exact Hhit]. split; [exact A|]. split; [exact B|].
    split; lia.
Qed.

(** The alignments [j, j + n) of one text: a hit for each offset the
    policy accepts, in the order of the offsets. *)
Lemma alignFrom_spec i ostr n : forall j hits,
  Z.of_nat (length ostr) < 2147483648 ->
  0 <= j -> j + Z.of_nat n + qlen <= Z.of_nat (length ostr) + 1 ->
  exists js,
    alignFrom i ostr n j hits = Some (hits ++ map (hitOf i ostr) js)
    /\ ascending js
    /\ forall j', In j' js <->
         j <= j' < j + Z.of_nat n /\ accepted (mismatches ostr j').
Proof.
  induction n as [|n IH]; intros j hits Hl Hj Hfit; cbn [alignFrom].
  - exists []. cbn [map]. rewrite app_nil_r. split; [reflexivity|].
    split; [exact I|].
    intros j'. split; [intros [] | intros [Hr _]; lia].
  - destruct (align_spec i ostr j Hl Hj) as [[P E]|[P E]]; [lia| |]; rewrite E.
    + destruct (IH (j + 1) (hits ++ [hitOf i ostr j]) Hl) as (js & En & Ha & Hn);
        [lia | lia |].
      exists (j :: js). split; [|split].
      * rewrite En, <- app_assoc. reflexivity.
      * split; [|exact Ha]. intros y Hy. apply Hn in Hy. lia.
      * intros j'. cbn [In]. rewrite Hn. split.
        -- intros [<-|[Hr Hacc]]; [split; [lia | exact P] | split; [lia | exact Hacc]].
        -- intros [Hr Hacc].
           destruct (Z.eq_dec j j') as [Heq|Hne]; [left; exact Heq|].
           right. split; [lia | exact Hacc].
    + destruct (IH (j + 1) hits Hl) as (js & En & Ha & Hn); [lia | lia |].
      exists js. split; [exact En|]. split; [exact Ha|].
      intros j'. rewrite Hn. split.
      * intros [Hr Hacc]. split; [lia | exact Hacc].
      * intros [Hr Hacc].
        destruct (Z.eq_dec j' j) as [->|Hne]; [contradiction|].
        split; [lia | exact Hacc].
Qed.

(** The alignments of one text: every offset at which the read fits. *)
Lemma alignText_spec i ostr hits :
  Z.of_nat (length ostr) < 2147483648 ->
  exists js,
    alignText i ostr hits = Some (hits ++ map (hitOf i ostr) js)
    /\ ascending js
    /\ forall j, In j js <->
         0 <= j /\ j + qlen <= Z.of_nat (length ostr)
         /\ accepted (mismatches ostr j).
Proof.
  intros Hl. unfold alignText. cbv zeta.
  destruct (Z.ltb_spec (Z.of_nat (length ostr)) qlen) as [Hs|Hs].
  - exists []. cbn [map]. rewrite app_nil_r. split; [reflexivity|].
    split; [exact I|].
    intros j. split; [intros [] | intros (Hj & Hf & _); lia].
  - rewrite (wrap32_small (Z.of_nat (length ostr))) by (unfold U32; lia).
    rewrite (wrap32_small (Z.of_nat (length ostr) - qlen)) by (unfold U32; lia).
    destruct (alignFrom_spec i ostr (Z.to_nat (Z.of_nat (length ostr) - qlen + 1))
                0 hits Hl) as (js & En & Ha & Hn); [lia | lia |].
    exists js. split; [exact En|]. split; [exact Ha|].
    intros j. rewrite Hn. split.
    + intros [Hr Hacc]. split; [lia|]. split; [lia | exact Hacc].
    + intros (Hj & Hf & Hacc). split; [lia | exact Hacc].
Qed.

End NaiveOracle.

(** *** The alignments of all texts *)

(** An alignment: the number of the text and the offset in it. *)
Definition Alignment : Type := nat * Z.

(** Alignments listed text by text and, within a text, by growing offset;
    none is listed twice. *)
Fixpoint byTextAndOffset (al : list Alignment) : Prop :=
  match al with
  | [] => True
  | a :: al' =>
    (forall b, In b al' ->
       (fst a < fst b)%nat \/ (fst a = fst b /\ snd a < snd b))
    /\ byTextAndOffset al'
  end.

Lemma byTextAndOffset_app al1 al2 :
  byTextAndOffset al1 -> byTextAndOffset al2 ->
  (forall a b, In a al1 -> In b al2 -> (fst a < fst b)%nat) ->
  byTextAndOffset (al1 ++ al2).
Proof.
  induction al1 as [|a al1 IH]; intros H1 H2 Hlt; cbn [app]; [exact H2|].
  destruct H1 as [Ha H1]. split.
  - intros b Hb. apply in_app_or in Hb. destruct Hb as [Hb|Hb].
    + apply Ha, Hb.
    + left. apply Hlt; [left; reflexivity | exact Hb].
  - apply IH; [exact H1 | exact H2|].
    intros x y Hx Hy. apply Hlt; [right; exact Hx | exact Hy].
Qed.

Lemma byTextAndOffset_first js :
  ascending js -> byTextAndOffset (map (fun j => (O, j)) js).
Proof.
  induction js as [|j js IH]; intros H; cbn [map]; [exact I|].
  destruct H as [Hj H]. split; [|apply IH, H].
  intros b Hb. apply in_map_iff in Hb. destruct Hb as (y & <- & Hy).
  right. split; [reflexivity|]. apply Hj, Hy.
Qed.

Lemma byTextAndOffset_next al :
  byTextAndOffset al -> byTextAndOffset (map (fun a => (S (fst a), snd a)) al).
Proof.
  induction al as [|a al IH]; intros H; cbn [map]; [exact I|].
  destruct H as [Ha H]. split; [|apply IH, H].
  intros b Hb. apply in_map_iff in Hb. destruct Hb as (y & <- & Hy).
  cbn [fst snd]. destruct (Ha y Hy) as [Hlt|[Heq Hlt]]; [left; lia|].
  right. split; [congruence | exact Hlt].
Qed.

Lemma byTextAndOffset_NoDup al : byTextAndOffset al -> List.NoDup al.
Proof.
  induction al as [|a al IH]; intros H; [constructor|].
  destruct H as [Ha H]. constructor; [|apply IH, H].
  intros Hin. destruct (Ha a Hin) as [Hlt|[_ Hlt]]; lia.
Qed.

Section AllTexts.

Variable max_read_bp : Z.
Variable qry : list Z.
Variable qlen : Z.
Variable qual : list Z.
Variable qualThresh : Z.
Variable unrevOff : Z.
Variable oneRevOff : Z.
Variable twoRevOff : Z.
Variable fw : bool.
Variable ebwtFw : bool.
Variable iham : Z.
Variable muts : option (list QueryMutation).
Variable halfAndHalf : bool.

Hypothesis qlen_bits : qlen <= max_read_bp.
Hypothesis qlen_int : 0 <= qlen < 2147483648.
Hypothesis thresh_u32 : qualThresh + 255 < U32.
Hypothesis iham_budget : 0 <= iham <= qualThresh.
Hypothesis muts_in_read : mutsInRead qlen muts.

(** The alignment [a] is one the oracle reports: its text is among [os],
    the read fits at its offset, and the policy accepts its mismatches. *)
Definition reported (os : list (list Z)) (a : Alignment) : Prop :=
  exists ostr,
    nth_error os (fst a) = Some ostr
    /\ 0 <= snd a /\ snd a + qlen <= Z.of_nat (length ostr)
    /\ accepted qlen qual qualThresh unrevOff oneRevOff twoRevOff iham
                halfAndHalf (mismatches qry qlen ebwtFw ostr (snd a)).

(** The hit of the alignment [a] of the texts [os], the first of which is
    the text [i]. *)
Definition hitOfAlignment (os : list (list Z)) (i : Z) (a : Alignment)
    : OracleHit :=
  hitOf qry qlen fw ebwtFw muts (i + Z.of_nat (fst a)) (nth (fst a) os [])
        (snd a).

(** The texts from the [i]-th on. *)
Lemma overTexts_spec os : forall i hits,
  Forall (fun ostr => Z.of_nat (length ostr) < 2147483648) os ->
  exists al,
    overTexts max_read_bp qry qlen qual qualThresh unrevOff oneRevOff twoRevOff
              fw ebwtFw iham muts halfAndHalf os i hits
    = Some (hits ++ map (hitOfAlignment os i) al)
    /\ byTextAndOffset al
    /\ forall a, In a al <-> reported os a.
Proof.
  induction os as [|ostr os IH]; intros i hits Hos; cbn [overTexts].
  - exists []. cbn [map]. rewrite app_nil_r. split; [reflexivity|].
    split; [exact I|].
    intros a. split; [intros []|].
    intros (o & Ht & _). destruct (fst a); discriminate Ht.
  - inversion Hos as [|? ? Hl Hos']; subst.
    destruct (alignText_spec max_read_bp qry qlen qual qualThresh unrevOff
                oneRevOff twoRevOff fw ebwtFw iham muts halfAndHalf
                qlen_bits qlen_int thresh_u32 iham_budget muts_in_read
                i ostr hits Hl) as (js & E1 & A1 & H1).
    rewrite E1.
    destruct (IH (i + 1) (hits ++ map (hitOf qry qlen fw ebwtFw muts i ostr) js) Hos')
      as (al & E2 & A2 & H2).
    exists (map (fun j => (O, j)) js ++ map (fun a => (S (fst a), snd a)) al).
    split; [|split].
    + rewrite E2, <- app_assoc, map_app, !map_map. do 2 f_equal. f_equal.
      * apply List.map_ext. intros j. unfold hitOfAlignment. cbn [fst snd nth].
        rewrite Z.add_0_r. reflexivity.
      * apply List.map_ext. intros a. unfold hitOfAlignment. cbn [fst snd nth].
        f_equal. lia.
    + apply byTextAndOffset_app;
        [apply byTextAndOffset_first, A1 | apply byTextAndOffset_next, A2|].
      intros a b Ha Hb. apply in_map_iff in Ha, Hb.
      destruct Ha as (j & <- & _), Hb as (y & <- & _). cbn [fst]. lia.
    + intros [t j]. rewrite in_app_iff, !in_map_iff. unfold reported.
      cbn [fst snd]. split.
      * intros [(j' & Ej & Hj)|(a & Ea & Ha)].
        -- inversion Ej; subst. apply H1 in Hj. destruct Hj as (Hj & Hf & Hacc).
           exists ostr. cbn [nth_error]. split; [reflexivity|].
           split; [exact Hj|]. split; [exact Hf | exact Hacc].
        -- inversion Ea; subst. apply H2 in Ha. destruct Ha as (o & Ht & Hr).
           exists o. cbn [nth_error]. split; [exact Ht | exact Hr].
      * intros (o & Ht & Hj & Hf & Hacc). destruct t as [|t].
        -- left. cbn [nth_error] in Ht. injection Ht as <-.
           exists j. split; [reflexivity|]. apply H1.
           split; [exact Hj|]. split; [exact Hf | exact Hacc].
        -- right. cbn [nth_error] in Ht. exists (t, j). split; [reflexivity|].
           apply H2. exists o. cbn [fst snd]. split; [exact Ht|].
           split; [exact Hj|]. split; [exact Hf | exact Hacc].
Qed.

End AllTexts.

(** X17: the oracle returns, without an exception, and adds to [hits] one
    hit for each alignment it reports and nothing else: the hits added are
    those of a list of alignments without repetition, ordered by text and
    then by offset, that holds exactly the alignments whose text is among
    [os], at whose offset the read fits, and whose mismatches are within the
    quality budget, outside the unrevisitable region and as many in the two
    revisitable regions as the mode allows.  This is for a read and
    qualities of [qlen] characters, no longer than the bit vector of a hit,
    lengths that fit an [int], an initial distance within the budget and
    mutations inside the read. *)
Theorem naiveOracle_hits max_read_bp qry qlen qual qualThresh
    unrevOff oneRevOff twoRevOff fw ebwtFw iham muts halfAndHalf os hits :
  qlen <= Z.of_nat (length qry) -> qlen <= Z.of_nat (length qual) ->
  qlen <= max_read_bp ->
  0 <= qlen < 2147483648 ->
  qualThresh + 255 < U32 ->
  0 <= iham <= qualThresh ->
  mutsInRead qlen muts ->
  Forall (fun ostr => Z.of_nat (length ostr) < 2147483648) os ->
  exists al,
    naiveOracle max_read_bp qry qlen qual qualThresh unrevOff oneRevOff
                twoRevOff fw ebwtFw iham muts halfAndHalf os hits
    = Some (hits ++ map (hitOfAlignment qry qlen fw ebwtFw muts os 0) al)
    /\ List.NoDup al
    /\ byTextAndOffset al
    /\ forall a, In a al <->
         reported qry qlen qual qualThresh unrevOff oneRevOff twoRevOff ebwtFw
                  iham halfAndHalf os a.
Proof.
  intros _ _ Hb Hq Ht Hi Hm Hos. unfold naiveOracle.
  destruct (overTexts_spec max_read_bp qry qlen qual qualThresh unrevOff
              oneRevOff twoRevOff fw ebwtFw iham muts halfAndHalf
              Hb Hq Ht Hi Hm os 0 hits Hos) as (al & E & A & H).
  exists al. split; [exact E|]. split; [apply byTextAndOffset_NoDup, A|].
  split; [exact A | exact H].
Qed.

(** A read of three bases over one text of six, with one mutation. *)
Definition readO : list Z := [0; 1; 2].
Definition qualO : list Z := [73; 73; 73].
Definition textsO : list (list Z) := [[0; 1; 2; 0; 1; 3]].
Definition mutsO : option (list QueryMutation) := Some [mkMut 1 3 1].

Lemma naiveOracle_hits_witness :
  exists al,
    naiveOracle 1024 readO 3 qualO 70 0 1 3 true true 0 mutsO false textsO []
    = Some ([] ++ map (hitOfAlignment readO 3 true true mutsO textsO 0) al)
    /\ List.NoDup al
    /\ byTextAndOffset al
    /\ forall a, In a al <->
         reported readO 3 qualO 70 0 1 3 true 0 false textsO a.
Proof.
  apply (naiveOracle_hits 1024 readO 3 qualO 70 0 1 3 true true 0 mutsO false
           textsO []);
    [vm_compute; congruence | vm_compute; congruence
    | lia | lia | reflexivity | lia
    | repeat constructor; vm_compute; congruence
    | repeat constructor].
Defined.

(** On that input the oracle finds the read at offsets 0 and 3, the second
    with a mismatch in its last base. *)
Lemma naiveOracle_example :
  naiveOracle 1024 readO 3 qualO 70 0 1 3 true true 0 mutsO false textsO []
  = Some [mkOracleHit 0 0 true 2; mkOracleHit 0 3 true 6].
Proof. vm_compute. reflexivity. Qed.

(** ** The search against the policy of the oracle *)

Lemma count_as_countIn qlen lo hi (f : Z -> bool) l :
  (forall i, In i l -> f (wrap32 (qlen - i - 1)) = ((lo <=? i) && (i <? hi))) ->
  count f (map (fun i => wrap32 (qlen - i - 1)) l) = countIn lo hi l.
Proof.
  induction l as [|x l IH]; intros H; [reflexivity|].
  cbn [map]. rewrite count_cons, countIn_cons.
  rewrite IH by (intros i Hi; apply H; right; exact Hi).
  rewrite (H x (or_introl eq_refl)).
  destruct ((lo <=? x) && (x <? hi)); reflexivity.
Qed.

(** X18: the search stays within the policy of the oracle.  Without
    half-and-half, the positions a hit lists before those of the mutations
    are mismatches [naiveOracle] accepts for the same read, qualities,
    threshold, boundaries and starting distance: within the budget, none in
    the unrevisitable region, at most one in the 1-revisitable and at most
    two in the 2-revisitable region.  The search returns. *)
Theorem backtrack_within_oracle_policy ebwt rnd cfg N fuel ham s :
  wellFormed ebwt cfg N ham s -> enoughFuel cfg fuel ->
  _halfAndHalf cfg = false ->
  _unrevOff cfg <= _1revOff cfg <= _2revOff cfg ->
  exists r s',
    backtrack ebwt rnd cfg fuel ham s = Ok r s'
    /\ exists new,
         sink s' = sink s ++ new
         /\ Forall (fun h =>
                      exists ks,
                        h_mms h = ks ++ mutsPos cfg
                        /\ accepted (_qlen cfg) (_qual cfg) (_qualThresh cfg)
                                    (_unrevOff cfg) (_1revOff cfg) (_2revOff cfg)
                                    ham false ks) new.
Proof.
  intros Hwf Hfuel Hhh Hord.
  apply (wp_strict (backtrack ebwt rnd cfg fuel ham) s (fun _ s' =>
           exists new,
             sink s' = sink s ++ new
             /\ Forall (fun h =>
                          exists ks,
                            h_mms h = ks ++ mutsPos cfg
                            /\ accepted (_qlen cfg) (_qual cfg) (_qualThresh cfg)
                                        (_unrevOff cfg) (_1revOff cfg) (_2revOff cfg)
                                        ham false ks) new)).
  eapply wp_mono;
    [apply (backtrack_frame ebwt rnd cfg N true fuel ham s (fun _ => Hhh)); assumption|].
  intros r s' (d & _ & Hd & HF). cbv beta.
  destruct (fr_sink _ _ _ _ _ _ _ _ _ _ _ HF) as (new & Hs & Hn).
  exists new. split; [exact Hs|].
  eapply Forall_impl; [exact Hn|].
  intros h (fut & H1 & H2 & H3 & H4).
  destruct (H4 Hhh Hord eq_refl) as (R1 & R2 & R3).
  assert (Hq : 0 < _qlen cfg < U32).
  { destruct Hwf as [_ W2 W3 _ _ _ _ _]. unfold U32, DEFAULT_SPREAD in *. lia. }
  assert (Hr : forall i, In i fut -> _unrevOff cfg <= i < _qlen cfg /\ 0 <= i).
  { intros i Hi. specialize (H2 i Hi). specialize (R1 i Hi). lia. }
  assert (Hp : forall i, In i fut ->
             wrap32 (_qlen cfg - i - 1) = _qlen cfg - i - 1).
  { intros i Hi. apply wrap32_small. specialize (Hr i Hi). lia. }
  exists (map (posOf cfg) fut). split; [exact H1|].
  unfold accepted. split; [|split; [|split]].
  - rewrite sumRows_map. 
    rewrite (sumRows_ext _ (Qd cfg) fut); [exact H3|].
    intros k _. reflexivity.
  - intros k Hk. apply in_map_iff in Hk. destruct Hk as (i & <- & Hi).
    unfold posOf. rewrite (Hp i Hi). specialize (Hr i Hi). lia.
  - unfold posOf.
    rewrite (count_as_countIn (_qlen cfg) (_unrevOff cfg) (_1revOff cfg));
      [exact R2|].
    intros i Hi. unfold inRev1. rewrite (Hp i Hi). specialize (Hr i Hi).
    replace (_qlen cfg - 1 - (_qlen cfg - i - 1)) with i by lia.
    destruct (Z.leb_spec (_unrevOff cfg) i); [reflexivity | lia].
  - unfold posOf.
    rewrite (count_as_countIn (_qlen cfg) (_1revOff cfg) (_2revOff cfg)).
    + pose proof (countIn_mono (_unrevOff cfg) (_1revOff cfg) (_2revOff cfg)
                               (_2revOff cfg) fut ltac:(lia) ltac:(lia)).
      lia.
    + intros i Hi. unfold inRev2. rewrite (Hp i Hi).
      replace (_qlen cfg - 1 - (_qlen cfg - i - 1)) with i by lia.
      destruct (Z.ltb_spec i (_1revOff cfg)), (Z.leb_spec (_1revOff cfg) i);
        try lia; reflexivity.
Qed.

Lemma backtrack_within_oracle_policy_witness :
  exists r s',
    backtrack ebwtA rnd0 cfgA 8 0 (st0 qA) = Ok r s'
    /\ exists new,
         sink s' = sink (st0 qA) ++ new
         /\ Forall (fun h =>
                      exists ks,
                        h_mms h = ks ++ mutsPos cfgA
                        /\ accepted (_qlen cfgA) (_qual cfgA) (_qualThresh cfgA)
                                    (_unrevOff cfgA) (_1revOff cfgA) (_2revOff cfgA)
                                    0 false ks) new.
Proof.
  apply (backtrack_within_oracle_policy ebwtA rnd0 cfgA 5 8 0 (st0 qA));
    [exact wellFormed_A | apply enoughFuel_8; reflexivity | reflexivity
    | vm_compute; intuition congruence].
Defined.

End Oracle.
